(** * ai-footprint: energy and CO2 estimator for AI inference calls

    A shallow embedding of [src/index.ts] and the properties of its
    estimator, range evaluator and aggregator.

    A JavaScript [number] is an IEEE 754 binary64 value; it is embedded as
    Rocq's primitive [float], whose operations are the same binary64
    operations (round to nearest, ties to even; one NaN, two zeros, two
    infinities).  Optional fields ([x?: T]) are [option T].

    Inputs are taken as the TypeScript types describe them.  Three things
    stay outside the model: a resolver callback that throws (it is a total
    function here), the rendering of numbers as text in the notes, and
    property lookups that reach [Object.prototype] (a region spelled like one
    of its members). *)

From Stdlib Require Import Floats ZArith Bool List String Ascii Permutation Lia.
Import ListNotations.

Set Warnings "-inexact-float".

(* ================================================================= *)
(** ** JavaScript numbers and values *)

Definition number := float.

Declare Scope js_scope.
Delimit Scope js_scope with js.

(** [x > y], [x < y], [x <= y] and [x >= y] on numbers: false as soon as one
    side is NaN. *)
Definition gt (x y : number) : bool := (y <? x)%float.
Definition lt (x y : number) : bool := (x <? y)%float.
Definition le (x y : number) : bool := (x <=? y)%float.
Definition ge (x y : number) : bool := (y <=? x)%float.

(** Truthiness of a number ([if (x)], [!x], [x && ...]): everything except
    [+0], [-0] and [NaN]. *)
Definition truthy (x : number) : bool := negb (is_zero x || is_nan x).

(** Truthiness of an optional number: [undefined] is falsy. *)
Definition truthyOpt (o : option number) : bool :=
  match o with
  | Some x => truthy x
  | None => false
  end.

(** Truthiness of an optional object: any object is truthy. *)
Definition present {A : Type} (o : option A) : bool :=
  match o with
  | Some _ => true
  | None => false
  end.

(** [o ?? d] *)
Definition nullish {A : Type} (o : option A) (d : A) : A :=
  match o with
  | Some v => v
  | None => d
  end.

Notation "o ?? d" := (nullish o d) (at level 45, left associativity) : js_scope.

(** [Number.isFinite] *)
Definition Number_isFinite (x : number) : bool := is_finite x.

(** [Math.min] and [Math.max] of two numbers: NaN if either is NaN, and
    [-0] counts as smaller than [+0]. *)
Definition Math_min (a b : number) : number :=
  match (a ?= b)%float with
  | FLt => a
  | FGt => b
  | FEq => if get_sign a then a else b
  | FNotComparable => nan
  end.

Definition Math_max (a b : number) : number :=
  match (a ?= b)%float with
  | FLt => b
  | FGt => a
  | FEq => if get_sign a then b else a
  | FNotComparable => nan
  end.

(** What a callback typed as returning [number] may hand back at run time;
    [typeof v === "number"] holds of [JsNumber] only. *)
Inductive JsValue :=
| JsNumber (x : number)
| JsUndefined
| JsNull
| JsBoolean (b : bool)
| JsString (s : string)
| JsObject.

(* ================================================================= *)
(** ** Errors and observable effects

    A [throw new Error(message)] aborts the call; [console.warn] and the call
    of the caller's resolver are the two effects a caller can observe.  A
    computation returns the events it emitted, in order, and either a value
    or the thrown error. *)

Inductive Result (A : Type) :=
| Ok (a : A)
| Throw (message : string).

Arguments Ok {A} a.
Arguments Throw {A} message.

(** [timestamp?: Date | number]: passed through to the resolver untouched. *)
Inductive Timestamp :=
| DateObject (epochMs : number)
| EpochMs (ms : number).

Module ResolverInput.
Record t := mk { region : option string; timestamp : option Timestamp }.
End ResolverInput.

Definition GridIntensityResolver := ResolverInput.t -> JsValue.

Inductive Event :=
| ResolverCalled (arg : ResolverInput.t)
| ConsoleWarn (message : string).

Definition M (A : Type) : Type := (list Event * Result A)%type.

Definition ret {A} (a : A) : M A := ([], Ok a).
Definition throw {A} (message : string) : M A := ([], Throw message).
Definition emit (e : Event) : M unit := ([e], Ok tt).

Definition bind {A B} (m : M A) (k : A -> M B) : M B :=
  match m with
  | (ev, Throw message) => (ev, Throw message)
  | (ev, Ok a) => let '(ev', r) := k a in (ev ++ ev', r)
  end.

Notation "x <- m ;; k" := (bind m (fun x => k))
  (at level 61, m at next level, right associativity) : js_scope.
Notation "m ;;; k" := (bind m (fun _ => k))
  (at level 61, right associativity) : js_scope.

Definition events {A} (m : M A) : list Event := fst m.
Definition outcome {A} (m : M A) : Result A := snd m.

Local Open Scope string_scope.
Local Open Scope js_scope.

(* ================================================================= *)
(** ** Grid carbon intensity tables and region normalisation *)

Definition RegionInput := string.
Definition RegionCode := string.

(** An object used as a map from region to gCO2/kWh: its own string keys,
    first binding wins; a key that is not there reads as [undefined]. *)
Definition GridCarbonIntensityMap := list (string * number).

Fixpoint lookup {A : Type} (key : string) (m : list (string * A)) : option A :=
  match m with
  | [] => None
  | (k, v) :: rest => if String.eqb k key then Some v else lookup key rest
  end.

(** [{...a, ...b}]: the bindings of [b] override those of [a]. *)
Definition spread {A : Type} (a b : list (string * A)) : list (string * A) := b ++ a.

Definition BASE_GRID_CARBON_G_PER_KWH : GridCarbonIntensityMap :=
  [ ("global", 475%float);
    ("us", 400%float);
    ("ca", 130%float);
    ("jp", 470%float);
    ("sg", 470%float);
    ("au", 600%float);
    ("in", 700%float);
    ("br", 80%float) ].

Definition REGION_ALIASES : list (string * RegionCode) :=
  [ ("gb", "uk");
    ("united kingdom", "uk");
    ("usa", "us");
    ("us-east", "us");
    ("us-west", "us");
    ("us-central", "us");
    ("eu-west", "eu");
    ("eu-central", "eu");
    ("europe", "eu");
    ("eu (ember)", "eu");
    ("czechia", "cz");
    ("switzerland", "ch");
    ("turkey", "tr");
    ("kosovo", "xk");
    ("north macedonia", "mk");
    ("montenegro", "me");
    ("serbia", "rs");
    ("bosnia and herzegovina", "ba");
    ("is", "eu");
    ("cn", "global");
    ("kr", "global");
    ("mx", "global");
    ("za", "global");
    ("ae", "global");
    ("sa", "global");
    ("nz", "global");
    ("il", "global");
    ("ar", "global");
    ("cl", "global");
    ("co", "global");
    ("pe", "global");
    ("id", "global");
    ("th", "global");
    ("vn", "global");
    ("ph", "global");
    ("my", "global");
    ("tw", "global");
    ("hk", "global");
    ("pk", "global");
    ("bd", "global");
    ("ng", "global");
    ("eg", "global");
    ("ke", "global");
    ("ma", "global");
    ("tn", "global");
    ("dz", "global") ].

(** [String.prototype.toLowerCase] on the ASCII letters (region codes and
    aliases are ASCII; other code units are left as they are). *)
Definition lowerAscii (c : ascii) : ascii :=
  let n := nat_of_ascii c in
  if (65 <=? n)%nat && (n <=? 90)%nat then ascii_of_nat (n + 32) else c.

Fixpoint toLowerCase (s : string) : string :=
  match s with
  | EmptyString => EmptyString
  | String c rest => String (lowerAscii c) (toLowerCase rest)
  end.

(** [String.prototype.trim] on the ASCII white space and line terminators. *)
Definition isWhiteSpace (c : ascii) : bool :=
  let n := nat_of_ascii c in
  (n =? 32)%nat || ((9 <=? n)%nat && (n <=? 13)%nat).

Fixpoint trimStart (s : string) : string :=
  match s with
  | EmptyString => EmptyString
  | String c rest => if isWhiteSpace c then trimStart rest else s
  end.

Fixpoint trimEnd (s : string) : string :=
  match s with
  | EmptyString => EmptyString
  | String c rest =>
      match trimEnd rest with
      | EmptyString => if isWhiteSpace c then EmptyString else String c EmptyString
      | rest' => String c rest'
      end
  end.

Definition trim (s : string) : string := trimEnd (trimStart s).

(** Truthiness of an optional string: [undefined] and the empty string are
    falsy. *)
Definition truthyStr (o : option string) : bool :=
  match o with
  | Some EmptyString => false
  | Some _ => true
  | None => false
  end.

(* ================================================================= *)
(** ** Data model *)

Inductive ModelCategory :=
| chat_completions
| text_completions
| embeddings
| audio_transcription
| audio_translation
| audio_speech
| image_generation
| ocr.

Module EnergyInputs.
Record t := mk {
  energyKwh : option number;
  energyJoules : option number
}.
End EnergyInputs.

Module EfficiencyOptions.
Record t := mk {
  pue : option number;
  overheadFactor : option number;
  efficiencyFactor : option number;
  batchSize : option number;
  precision : option string;
  quantization : option string
}.
(** The object literal [{}]. *)
Definition empty : t := mk None None None None None None.
End EfficiencyOptions.

(** The tagged union [Usage]: one constructor per interface, the tag being
    the constructor. *)
Inductive Usage :=
| ChatCompletionUsage (inputTokens outputTokens : number) (processingTimeSeconds : option number)
| TextCompletionUsage (inputTokens outputTokens : number) (processingTimeSeconds : option number)
| EmbeddingsUsage (inputTokens : number) (processingTimeSeconds : option number)
| OcrUsage (inputTokens outputTokens : number) (processingTimeSeconds : option number)
| AudioTranscriptionUsage (audioSeconds : number) (processingTimeSeconds : option number)
| AudioTranslationUsage (audioSeconds : number) (processingTimeSeconds : option number)
| AudioSpeechUsage (audioSeconds : number) (processingTimeSeconds : option number)
| ImageGenerationUsage (width height images : number) (processingTimeSeconds : option number).

Module UsageFields.
Definition category (u : Usage) : ModelCategory :=
  match u with
  | ChatCompletionUsage _ _ _ => chat_completions
  | TextCompletionUsage _ _ _ => text_completions
  | EmbeddingsUsage _ _ => embeddings
  | OcrUsage _ _ _ => ocr
  | AudioTranscriptionUsage _ _ => audio_transcription
  | AudioTranslationUsage _ _ => audio_translation
  | AudioSpeechUsage _ _ => audio_speech
  | ImageGenerationUsage _ _ _ _ => image_generation
  end.

Definition processingTimeSeconds (u : Usage) : option number :=
  match u with
  | ChatCompletionUsage _ _ t
  | TextCompletionUsage _ _ t
  | EmbeddingsUsage _ t
  | OcrUsage _ _ t
  | AudioTranscriptionUsage _ t
  | AudioTranslationUsage _ t
  | AudioSpeechUsage _ t
  | ImageGenerationUsage _ _ _ t => t
  end.
End UsageFields.

Module ThroughputConfig.
Record t := mk {
  tokensPerSecond : option number;
  audioSecondsPerSecond : option number;
  pixelsPerSecond : option number
}.
Definition empty : t := mk None None None.
End ThroughputConfig.

Module ImpactInputs.
Record t := mk {
  gpuPowerW : number;
  cpuPowerW : option number;
  networkPowerW : option number;
  modelParamsB : option number;
  region : option RegionInput;
  gridCarbonIntensityGPerKwh : option number;
  timestamp : option Timestamp;
  gridIntensityResolver : option GridIntensityResolver;
  processingTimeSeconds : option number;
  usage : option Usage;
  throughput : option ThroughputConfig.t;
  energy : option EnergyInputs.t;
  efficiency : option EfficiencyOptions.t
}.
End ImpactInputs.

Module MinimalImpactInputs.
Record t := mk {
  gpuPowerW : number;
  processingTimeSeconds : number;
  region : option RegionInput;
  gridCarbonIntensityGPerKwh : option number;
  efficiency : option EfficiencyOptions.t;
  energy : option EnergyInputs.t;
  timestamp : option Timestamp;
  gridIntensityResolver : option GridIntensityResolver
}.
End MinimalImpactInputs.

(** The entries of [notes].  Each constructor stands for one template of the
    source and carries the value the template prints; the rendering of a
    number as text ([toFixed(2)], string interpolation) is not modelled. *)
Inductive Note :=
| NoteBasePower (basePowerW : number)        (* Base power: ...W *)
| NoteOverheadFactor (overheadFactor : number) (* Overhead factor: ... *)
| NotePUE (pue : number)                     (* PUE: ... *)
| NoteEnergyOverride                         (* Energy override provided. *)
| NoteTimeAlongsideEnergy                    (* Processing time provided alongside energy. *)
| NoteTimeInUsageAlongsideEnergy             (* Processing time provided in usage alongside energy. *)
| NoteTimeNotProvided                        (* Processing time not provided with energy. *)
| NoteGridIntensity (gridIntensity : number) (* Grid intensity: ... gCO2/kWh *)
| NotePrecision (precision : string)         (* Precision: ... *)
| NoteQuantization (quantization : string).  (* Quantization: ... *)

Module ImpactResult.
Record t := mk {
  category : option ModelCategory;
  energyKwh : number;
  co2Grams : number;
  gridCarbonIntensityGPerKwh : number;
  effectivePowerW : number;
  processingTimeSeconds : number;
  notes : list Note
}.
End ImpactResult.

Module NumericRange.
Record t := mk { min : number; max : number }.
End NumericRange.

Module UncertaintyRanges.
Record t := mk {
  gpuPowerW : option NumericRange.t;
  pue : option NumericRange.t;
  overheadFactor : option NumericRange.t;
  efficiencyFactor : option NumericRange.t;
  tokensPerSecond : option NumericRange.t;
  audioSecondsPerSecond : option NumericRange.t;
  pixelsPerSecond : option NumericRange.t
}.
End UncertaintyRanges.

Module ImpactRangeResult.
Record t := mk {
  base : ImpactResult.t;
  energyKwhMin : number;
  energyKwhMax : number;
  co2GramsMin : number;
  co2GramsMax : number
}.
End ImpactRangeResult.

Module AggregateImpactResult.
Record t := mk {
  count : number;
  energyKwh : number;
  co2Grams : number
}.
End AggregateImpactResult.

(** [o?.f] *)
Definition optChain {A B : Type} (o : option A) (f : A -> option B) : option B :=
  match o with
  | Some a => f a
  | None => None
  end.

Notation "o ?. f" := (optChain o f) (at level 40, left associativity) : js_scope.

Notation "' pat <- m ;; k" := (bind m (fun x => match x with pat => k end))
  (at level 61, pat pattern, m at next level, right associativity) : js_scope.

(* ================================================================= *)
(** ** The calculation pipeline *)

Definition DEFAULT_OVERHEAD : number := 1.0%float.
Definition DEFAULT_PUE : number := 1.0%float.

Definition clamp (min value max : number) : number :=
  Math_max min (Math_min value max).

Definition requirePositive (name : string) (value : number) : M unit :=
  if negb (Number_isFinite value) || le value 0%float
  then throw (name ++ " must be a positive number.")
  else ret tt.

Definition toKwhFromJoules (joules : number) : number :=
  (joules / 3600000)%float.

(** The category tests cover every constructor of [Usage]; the closing
    [throw new Error("Unsupported usage category.")] of the source is reached
    by no well-typed usage and has no branch here. *)
Definition deriveProcessingTimeSeconds
    (usage : Usage) (throughput : option ThroughputConfig.t) : M number :=
  match UsageFields.processingTimeSeconds usage with
  | Some t =>
      requirePositive "processingTimeSeconds" t ;;;
      ret t
  | None =>
      match usage with
      | ChatCompletionUsage inputTokens outputTokens _
      | TextCompletionUsage inputTokens outputTokens _
      | OcrUsage inputTokens outputTokens _ =>
          requirePositive "inputTokens" inputTokens ;;;
          requirePositive "outputTokens" outputTokens ;;;
          let tps := throughput ?. ThroughputConfig.tokensPerSecond in
          requirePositive "throughput.tokensPerSecond" (tps ?? nan) ;;;
          ret ((inputTokens + outputTokens) / (tps ?? nan))%float
      | EmbeddingsUsage inputTokens _ =>
          requirePositive "inputTokens" inputTokens ;;;
          let tps := throughput ?. ThroughputConfig.tokensPerSecond in
          requirePositive "throughput.tokensPerSecond" (tps ?? nan) ;;;
          ret (inputTokens / (tps ?? nan))%float
      | AudioTranscriptionUsage audioSeconds _
      | AudioTranslationUsage audioSeconds _
      | AudioSpeechUsage audioSeconds _ =>
          requirePositive "audioSeconds" audioSeconds ;;;
          let aps := throughput ?. ThroughputConfig.audioSecondsPerSecond in
          requirePositive "throughput.audioSecondsPerSecond" (aps ?? nan) ;;;
          ret (audioSeconds / (aps ?? nan))%float
      | ImageGenerationUsage width height images _ =>
          requirePositive "width" width ;;;
          requirePositive "height" height ;;;
          requirePositive "images" images ;;;
          let pps := throughput ?. ThroughputConfig.pixelsPerSecond in
          requirePositive "throughput.pixelsPerSecond" (pps ?? nan) ;;;
          let totalPixels := (width * height * images)%float in
          ret (totalPixels / (pps ?? nan))%float
      end
  end.

Definition resolveEnergyKwh (energy : option EnergyInputs.t) : option number :=
  let energyKwh := energy ?. EnergyInputs.energyKwh in
  let energyJoules := energy ?. EnergyInputs.energyJoules in
  if truthyOpt energyKwh && gt (energyKwh ?? nan) 0%float then energyKwh
  else if truthyOpt energyJoules && gt (energyJoules ?? nan) 0%float
  then Some (toKwhFromJoules (energyJoules ?? nan))
  else None.

Definition computeEffectivePowerW (input : ImpactInputs.t) : M (number * list Note) :=
  requirePositive "gpuPowerW" (ImpactInputs.gpuPowerW input) ;;;
  let cpuPowerW := ImpactInputs.cpuPowerW input ?? 0%float in
  let networkPowerW := ImpactInputs.networkPowerW input ?? 0%float in
  (if truthy cpuPowerW then requirePositive "cpuPowerW" cpuPowerW else ret tt) ;;;
  (if truthy networkPowerW then requirePositive "networkPowerW" networkPowerW else ret tt) ;;;
  let basePowerW := (ImpactInputs.gpuPowerW input + cpuPowerW + networkPowerW)%float in
  let overheadFactor :=
    clamp 0.1%float
      (ImpactInputs.efficiency input ?. EfficiencyOptions.overheadFactor ?? DEFAULT_OVERHEAD)
      10%float in
  let pue :=
    clamp 1.0%float
      (ImpactInputs.efficiency input ?. EfficiencyOptions.pue ?? DEFAULT_PUE)
      3.0%float in
  let effectivePowerW := (basePowerW * overheadFactor * pue)%float in
  ret (effectivePowerW,
       [NoteBasePower basePowerW; NoteOverheadFactor overheadFactor; NotePUE pue]).

Definition applyEfficiencyToTime
    (processingTimeSeconds : number) (efficiency : option EfficiencyOptions.t) : M number :=
  match efficiency ?. EfficiencyOptions.efficiencyFactor with
  | Some efficiencyFactor =>
      if negb (truthy efficiencyFactor) then ret processingTimeSeconds
      else
        requirePositive "efficiency.efficiencyFactor" efficiencyFactor ;;;
        ret (processingTimeSeconds / efficiencyFactor)%float
  | None => ret processingTimeSeconds
  end.

Definition applyBatchSize
    (energyKwh : number) (efficiency : option EfficiencyOptions.t) : M number :=
  match efficiency ?. EfficiencyOptions.batchSize with
  | Some batchSize =>
      if negb (truthy batchSize) then ret energyKwh
      else
        requirePositive "efficiency.batchSize" batchSize ;;;
        ret (energyKwh / batchSize)%float
  | None => ret energyKwh
  end.

Definition aggregateImpacts (results : list ImpactResult.t) : AggregateImpactResult.t :=
  fold_left
    (fun acc result =>
       AggregateImpactResult.mk
         (AggregateImpactResult.count acc + 1)%float
         (AggregateImpactResult.energyKwh acc + ImpactResult.energyKwh result)%float
         (AggregateImpactResult.co2Grams acc + ImpactResult.co2Grams result)%float)
    results
    (AggregateImpactResult.mk 0%float 0%float 0%float).

(** Convenience helpers for building usage objects. *)
Module usage.
Definition chat (inputTokens outputTokens : number) : Usage :=
  ChatCompletionUsage inputTokens outputTokens None.
Definition text (inputTokens outputTokens : number) : Usage :=
  TextCompletionUsage inputTokens outputTokens None.
Definition embeddings (inputTokens : number) : Usage :=
  EmbeddingsUsage inputTokens None.
Definition ocr (inputTokens outputTokens : number) : Usage :=
  OcrUsage inputTokens outputTokens None.
Definition audioTranscription (audioSeconds : number) : Usage :=
  AudioTranscriptionUsage audioSeconds None.
Definition audioTranslation (audioSeconds : number) : Usage :=
  AudioTranslationUsage audioSeconds None.
Definition audioSpeech (audioSeconds : number) : Usage :=
  AudioSpeechUsage audioSeconds None.
(** [images] defaults to 1 when omitted. *)
Definition imageGeneration (width height : number) (images : option number) : Usage :=
  ImageGenerationUsage width height (images ?? 1%float) None.
End usage.

Definition validateRange (name : string) (range : option NumericRange.t) : M unit :=
  match range with
  | None => ret tt
  | Some range =>
      requirePositive (name ++ ".min") (NumericRange.min range) ;;;
      requirePositive (name ++ ".max") (NumericRange.max range) ;;;
      if lt (NumericRange.max range) (NumericRange.min range)
      then throw (name ++ ".max must be >= " ++ name ++ ".min.")
      else ret tt
  end.

Inductive Pick := pick_min | pick_max.

Definition pickRangeValue
    (value : option number) (range : option NumericRange.t) (pick : Pick) : option number :=
  match range with
  | None => value
  | Some range =>
      Some match pick with
           | pick_min => NumericRange.min range
           | pick_max => NumericRange.max range
           end
  end.

Definition buildInputWithRanges
    (input : ImpactInputs.t) (ranges : UncertaintyRanges.t) (pick : Pick) : ImpactInputs.t :=
  let needsThroughput :=
    present (UncertaintyRanges.tokensPerSecond ranges)
    || present (UncertaintyRanges.audioSecondsPerSecond ranges)
    || present (UncertaintyRanges.pixelsPerSecond ranges) in
  let needsEfficiency :=
    present (UncertaintyRanges.pue ranges)
    || present (UncertaintyRanges.overheadFactor ranges)
    || present (UncertaintyRanges.efficiencyFactor ranges) in
  let throughput :=
    match ImpactInputs.throughput input with
    | Some t => Some t
    | None => if needsThroughput then Some ThroughputConfig.empty else None
    end in
  let efficiency :=
    match ImpactInputs.efficiency input with
    | Some e => Some e
    | None => if needsEfficiency then Some EfficiencyOptions.empty else None
    end in
  ImpactInputs.mk
    (* [as number]: the picked value is never undefined, the first argument
       being a number *)
    (pickRangeValue (Some (ImpactInputs.gpuPowerW input))
       (UncertaintyRanges.gpuPowerW ranges) pick ?? ImpactInputs.gpuPowerW input)
    (ImpactInputs.cpuPowerW input)
    (ImpactInputs.networkPowerW input)
    (ImpactInputs.modelParamsB input)
    (ImpactInputs.region input)
    (ImpactInputs.gridCarbonIntensityGPerKwh input)
    (ImpactInputs.timestamp input)
    (ImpactInputs.gridIntensityResolver input)
    (ImpactInputs.processingTimeSeconds input)
    (ImpactInputs.usage input)
    (match throughput with
     | Some throughput =>
         Some (ThroughputConfig.mk
                 (pickRangeValue (ThroughputConfig.tokensPerSecond throughput)
                    (UncertaintyRanges.tokensPerSecond ranges) pick)
                 (pickRangeValue (ThroughputConfig.audioSecondsPerSecond throughput)
                    (UncertaintyRanges.audioSecondsPerSecond ranges) pick)
                 (pickRangeValue (ThroughputConfig.pixelsPerSecond throughput)
                    (UncertaintyRanges.pixelsPerSecond ranges) pick))
     | None => None
     end)
    (ImpactInputs.energy input)
    (match efficiency with
     | Some efficiency =>
         Some (EfficiencyOptions.mk
                 (pickRangeValue (EfficiencyOptions.pue efficiency)
                    (UncertaintyRanges.pue ranges) pick)
                 (pickRangeValue (EfficiencyOptions.overheadFactor efficiency)
                    (UncertaintyRanges.overheadFactor ranges) pick)
                 (pickRangeValue (EfficiencyOptions.efficiencyFactor efficiency)
                    (UncertaintyRanges.efficiencyFactor ranges) pick)
                 (EfficiencyOptions.batchSize efficiency)
                 (EfficiencyOptions.precision efficiency)
                 (EfficiencyOptions.quantization efficiency))
     | None => None
     end).

(** [!!input.energy?.energyKwh || !!input.energy?.energyJoules] *)
Definition hasEnergyOverride (input : ImpactInputs.t) : bool :=
  truthyOpt (ImpactInputs.energy input ?. EnergyInputs.energyKwh)
  || truthyOpt (ImpactInputs.energy input ?. EnergyInputs.energyJoules).

(** The argument of [resolveGridIntensity]. *)
Module GridIntensityInput.
Record t := mk {
  region : option RegionInput;
  gridCarbonIntensityGPerKwh : option number;
  gridIntensityResolver : option GridIntensityResolver;
  timestamp : option Timestamp
}.
End GridIntensityInput.

(** The character [U+0022]. *)
Definition quote : string := String (ascii_of_nat 34) EmptyString.

Section Estimator.

(** The [values] of [data/grid-carbon-intensity.2025.json], a data file the
    calculation imports: any table from region code to gCO2/kWh. *)
Variable values2025 : GridCarbonIntensityMap.

Definition DEFAULT_GRID_CARBON_G_PER_KWH : GridCarbonIntensityMap :=
  spread BASE_GRID_CARBON_G_PER_KWH values2025.

Definition normalizeRegion (region : option RegionInput) : option RegionCode :=
  if negb (truthyStr region) then None
  else
    let key := trim (toLowerCase (region ?? EmptyString)) in
    if truthyOpt (lookup key DEFAULT_GRID_CARBON_G_PER_KWH) then Some key
    else lookup key REGION_ALIASES.

(** [typeof v === "number" && v > 0] on what the resolver returned. *)
Definition positiveNumber (v : JsValue) : option number :=
  match v with
  | JsNumber x => if gt x 0%float then Some x else None
  | _ => None
  end.

Definition resolveGridIntensity (input : GridIntensityInput.t) : M number :=
  let explicit := GridIntensityInput.gridCarbonIntensityGPerKwh input in
  if present explicit && gt (explicit ?? nan) 0%float then ret (explicit ?? nan)
  else
    let normalizedRegion := normalizeRegion (GridIntensityInput.region input) in
    resolved <-
      match GridIntensityInput.gridIntensityResolver input with
      | Some gridIntensityResolver =>
          let arg :=
            ResolverInput.mk normalizedRegion (GridIntensityInput.timestamp input) in
          emit (ResolverCalled arg) ;;;
          ret (positiveNumber (gridIntensityResolver arg))
      | None => ret None
      end ;;
    match resolved with
    | Some resolved => ret resolved
    | None =>
        let tableValue :=
          lookup (normalizedRegion ?? EmptyString) DEFAULT_GRID_CARBON_G_PER_KWH in
        if truthyStr normalizedRegion && truthyOpt tableValue
        then ret (tableValue ?? nan)
        else
          (if truthyStr (GridIntensityInput.region input)
           then emit (ConsoleWarn
                        ("Unknown region " ++ quote
                         ++ (GridIntensityInput.region input ?? EmptyString) ++ quote
                         ++ ", falling back to global carbon intensity."))
           else ret tt) ;;;
          ret (lookup "global" DEFAULT_GRID_CARBON_G_PER_KWH ?? nan)
    end.

Definition estimateImpact (input : ImpactInputs.t) : M ImpactResult.t :=
  gridIntensity <-
    resolveGridIntensity
      (GridIntensityInput.mk
         (ImpactInputs.region input)
         (ImpactInputs.gridCarbonIntensityGPerKwh input)
         (ImpactInputs.gridIntensityResolver input)
         (ImpactInputs.timestamp input)) ;;
  let energyOverride := resolveEnergyKwh (ImpactInputs.energy input) in
  '(effectivePowerW, powerNotes) <- computeEffectivePowerW input ;;
  let notes := powerNotes in
  '(processingTimeSeconds, energyKwh, notes) <-
    match energyOverride with
    | Some energyOverride =>
        let notes := (notes ++ [NoteEnergyOverride])%list in
        match ImpactInputs.processingTimeSeconds input with
        | Some processingTimeSeconds =>
            requirePositive "processingTimeSeconds" processingTimeSeconds ;;;
            ret (processingTimeSeconds, energyOverride,
                 (notes ++ [NoteTimeAlongsideEnergy])%list)
        | None =>
            let usageTime :=
              ImpactInputs.usage input ?. UsageFields.processingTimeSeconds in
            if truthyOpt usageTime then
              let processingTimeSeconds := usageTime ?? nan in
              requirePositive "processingTimeSeconds" processingTimeSeconds ;;;
              ret (processingTimeSeconds, energyOverride,
                   (notes ++ [NoteTimeInUsageAlongsideEnergy])%list)
            else
              ret (0%float, energyOverride, (notes ++ [NoteTimeNotProvided])%list)
        end
    | None =>
        processingTimeSeconds <-
          match ImpactInputs.processingTimeSeconds input with
          | Some processingTimeSeconds =>
              requirePositive "processingTimeSeconds" processingTimeSeconds ;;;
              ret processingTimeSeconds
          | None =>
              match ImpactInputs.usage input with
              | Some usage =>
                  deriveProcessingTimeSeconds usage (ImpactInputs.throughput input)
              | None =>
                  throw "Either processingTimeSeconds, usage, or energy must be provided."
              end
          end ;;
        processingTimeSeconds <-
          applyEfficiencyToTime processingTimeSeconds (ImpactInputs.efficiency input) ;;
        ret (processingTimeSeconds,
             (effectivePowerW * processingTimeSeconds / 3600 / 1000)%float,
             notes)
    end ;;
  energyKwh <- applyBatchSize energyKwh (ImpactInputs.efficiency input) ;;
  let co2Grams := (energyKwh * gridIntensity)%float in
  let notes := (notes ++ [NoteGridIntensity gridIntensity])%list in
  let notes :=
    match ImpactInputs.efficiency input ?. EfficiencyOptions.precision with
    | Some (String c s) => (notes ++ [NotePrecision (String c s)])%list
    | _ => notes
    end in
  let notes :=
    match ImpactInputs.efficiency input ?. EfficiencyOptions.quantization with
    | Some (String c s) => (notes ++ [NoteQuantization (String c s)])%list
    | _ => notes
    end in
  ret (ImpactResult.mk
         (option_map UsageFields.category (ImpactInputs.usage input))
         energyKwh
         co2Grams
         gridIntensity
         effectivePowerW
         processingTimeSeconds
         notes).

(** Minimal mode helper: a lightweight entry point for coarse estimates. *)
Definition estimateImpactMinimal (input : MinimalImpactInputs.t) : M ImpactResult.t :=
  estimateImpact
    (ImpactInputs.mk
       (MinimalImpactInputs.gpuPowerW input)
       None None None
       (MinimalImpactInputs.region input)
       (MinimalImpactInputs.gridCarbonIntensityGPerKwh input)
       (MinimalImpactInputs.timestamp input)
       (MinimalImpactInputs.gridIntensityResolver input)
       (Some (MinimalImpactInputs.processingTimeSeconds input))
       None None
       (MinimalImpactInputs.energy input)
       (MinimalImpactInputs.efficiency input)).

Definition validateRanges (ranges : UncertaintyRanges.t) : M unit :=
  validateRange "gpuPowerW" (UncertaintyRanges.gpuPowerW ranges) ;;;
  validateRange "pue" (UncertaintyRanges.pue ranges) ;;;
  validateRange "overheadFactor" (UncertaintyRanges.overheadFactor ranges) ;;;
  validateRange "efficiencyFactor" (UncertaintyRanges.efficiencyFactor ranges) ;;;
  validateRange "tokensPerSecond" (UncertaintyRanges.tokensPerSecond ranges) ;;;
  validateRange "audioSecondsPerSecond" (UncertaintyRanges.audioSecondsPerSecond ranges) ;;;
  validateRange "pixelsPerSecond" (UncertaintyRanges.pixelsPerSecond ranges).

Definition estimateImpactRange
    (input : ImpactInputs.t) (ranges : UncertaintyRanges.t) : M ImpactRangeResult.t :=
  validateRanges ranges ;;;
  base <- estimateImpact input ;;
  if hasEnergyOverride input then
    ret (ImpactRangeResult.mk base
           (ImpactResult.energyKwh base)
           (ImpactResult.energyKwh base)
           (ImpactResult.co2Grams base)
           (ImpactResult.co2Grams base))
  else
    let lowInput := buildInputWithRanges input ranges pick_min in
    let highInput := buildInputWithRanges input ranges pick_max in
    low <- estimateImpact lowInput ;;
    high <- estimateImpact highInput ;;
    ret (ImpactRangeResult.mk base
           (Math_min (ImpactResult.energyKwh low) (ImpactResult.energyKwh high))
           (Math_max (ImpactResult.energyKwh low) (ImpactResult.energyKwh high))
           (Math_min (ImpactResult.co2Grams low) (ImpactResult.co2Grams high))
           (Math_max (ImpactResult.co2Grams low) (ImpactResult.co2Grams high))).

End Estimator.

(* ================================================================= *)
(** ** Object updates

    Copies of an input with one field replaced, as an object spread
    [{ ...input, field }] makes them. *)

(** [{ ...input, energy: undefined }] *)
Definition withoutEnergy (input : ImpactInputs.t) : ImpactInputs.t :=
  ImpactInputs.mk
    (ImpactInputs.gpuPowerW input)
    (ImpactInputs.cpuPowerW input)
    (ImpactInputs.networkPowerW input)
    (ImpactInputs.modelParamsB input)
    (ImpactInputs.region input)
    (ImpactInputs.gridCarbonIntensityGPerKwh input)
    (ImpactInputs.timestamp input)
    (ImpactInputs.gridIntensityResolver input)
    (ImpactInputs.processingTimeSeconds input)
    (ImpactInputs.usage input)
    (ImpactInputs.throughput input)
    None
    (ImpactInputs.efficiency input).

(** [{ ...input, energy }] *)
Definition withEnergy (energy : EnergyInputs.t) (input : ImpactInputs.t) : ImpactInputs.t :=
  ImpactInputs.mk
    (ImpactInputs.gpuPowerW input)
    (ImpactInputs.cpuPowerW input)
    (ImpactInputs.networkPowerW input)
    (ImpactInputs.modelParamsB input)
    (ImpactInputs.region input)
    (ImpactInputs.gridCarbonIntensityGPerKwh input)
    (ImpactInputs.timestamp input)
    (ImpactInputs.gridIntensityResolver input)
    (ImpactInputs.processingTimeSeconds input)
    (ImpactInputs.usage input)
    (ImpactInputs.throughput input)
    (Some energy)
    (ImpactInputs.efficiency input).

(** [{ ...input, cpuPowerW }] and [{ ...input, networkPowerW }] *)
Definition withCpuPowerW (cpuPowerW : option number) (input : ImpactInputs.t) : ImpactInputs.t :=
  ImpactInputs.mk
    (ImpactInputs.gpuPowerW input)
    cpuPowerW
    (ImpactInputs.networkPowerW input)
    (ImpactInputs.modelParamsB input)
    (ImpactInputs.region input)
    (ImpactInputs.gridCarbonIntensityGPerKwh input)
    (ImpactInputs.timestamp input)
    (ImpactInputs.gridIntensityResolver input)
    (ImpactInputs.processingTimeSeconds input)
    (ImpactInputs.usage input)
    (ImpactInputs.throughput input)
    (ImpactInputs.energy input)
    (ImpactInputs.efficiency input).

Definition withNetworkPowerW (networkPowerW : option number) (input : ImpactInputs.t) : ImpactInputs.t :=
  ImpactInputs.mk
    (ImpactInputs.gpuPowerW input)
    (ImpactInputs.cpuPowerW input)
    networkPowerW
    (ImpactInputs.modelParamsB input)
    (ImpactInputs.region input)
    (ImpactInputs.gridCarbonIntensityGPerKwh input)
    (ImpactInputs.timestamp input)
    (ImpactInputs.gridIntensityResolver input)
    (ImpactInputs.processingTimeSeconds input)
    (ImpactInputs.usage input)
    (ImpactInputs.throughput input)
    (ImpactInputs.energy input)
    (ImpactInputs.efficiency input).

(** [{ ...input, efficiency }] *)
Definition withEfficiency (efficiency : option EfficiencyOptions.t) (input : ImpactInputs.t) : ImpactInputs.t :=
  ImpactInputs.mk
    (ImpactInputs.gpuPowerW input)
    (ImpactInputs.cpuPowerW input)
    (ImpactInputs.networkPowerW input)
    (ImpactInputs.modelParamsB input)
    (ImpactInputs.region input)
    (ImpactInputs.gridCarbonIntensityGPerKwh input)
    (ImpactInputs.timestamp input)
    (ImpactInputs.gridIntensityResolver input)
    (ImpactInputs.processingTimeSeconds input)
    (ImpactInputs.usage input)
    (ImpactInputs.throughput input)
    (ImpactInputs.energy input)
    efficiency.

(** [{ ...input, efficiency: { ...input.efficiency, overheadFactor } }] *)
Definition withOverheadFactor (overheadFactor : number) (input : ImpactInputs.t) : ImpactInputs.t :=
  let efficiency := ImpactInputs.efficiency input ?? EfficiencyOptions.empty in
  withEfficiency
    (Some (EfficiencyOptions.mk
             (EfficiencyOptions.pue efficiency)
             (Some overheadFactor)
             (EfficiencyOptions.efficiencyFactor efficiency)
             (EfficiencyOptions.batchSize efficiency)
             (EfficiencyOptions.precision efficiency)
             (EfficiencyOptions.quantization efficiency)))
    input.

(** [{ ...input, efficiency: { ...input.efficiency, pue } }] *)
Definition withPue (pue : number) (input : ImpactInputs.t) : ImpactInputs.t :=
  let efficiency := ImpactInputs.efficiency input ?? EfficiencyOptions.empty in
  withEfficiency
    (Some (EfficiencyOptions.mk
             (Some pue)
             (EfficiencyOptions.overheadFactor efficiency)
             (EfficiencyOptions.efficiencyFactor efficiency)
             (EfficiencyOptions.batchSize efficiency)
             (EfficiencyOptions.precision efficiency)
             (EfficiencyOptions.quantization efficiency)))
    input.

(** [{ ...input, efficiency: { ...input.efficiency, efficiencyFactor } }] *)
Definition withEfficiencyFactor (efficiencyFactor : number) (input : ImpactInputs.t) : ImpactInputs.t :=
  let efficiency := ImpactInputs.efficiency input ?? EfficiencyOptions.empty in
  withEfficiency
    (Some (EfficiencyOptions.mk
             (EfficiencyOptions.pue efficiency)
             (EfficiencyOptions.overheadFactor efficiency)
             (Some efficiencyFactor)
             (EfficiencyOptions.batchSize efficiency)
             (EfficiencyOptions.precision efficiency)
             (EfficiencyOptions.quantization efficiency)))
    input.

(* ================================================================= *)
(** ** Vocabulary of the properties *)

(** A number that [requirePositive] accepts: finite and [> 0]. *)
Definition positive (x : number) : bool := Number_isFinite x && gt x 0%float.

(** An optional field that the power model accepts: omitted, falsy, or a
    positive number. *)
Definition acceptedPower (o : option number) : bool :=
  match o with
  | Some x => negb (truthy x) || positive x
  | None => true
  end.

(** Clamping in the words of the specification: a value below the floor
    becomes the floor, a value above the ceiling becomes the ceiling, any
    other value is kept. *)
Definition clampSpec (min value max : number) : number :=
  if lt value min then min
  else if gt value max then max
  else value.

(** The effective power in the words of the specification. *)
Definition effectivePowerSpec
    (gpuPowerW : number) (cpuPowerW networkPowerW overheadFactor pue : option number)
    : number :=
  ((gpuPowerW + (cpuPowerW ?? 0) + (networkPowerW ?? 0))
   * clampSpec 0.1 (overheadFactor ?? 1.0) 10
   * clampSpec 1.0 (pue ?? 1.0) 3.0)%float.

(** The effective power and the notes that [computeEffectivePowerW] returns
    once its checks have passed ([computeEffectivePowerW_spec]). *)
Definition effectivePowerFormula (input : ImpactInputs.t) : number :=
  ((ImpactInputs.gpuPowerW input
    + (ImpactInputs.cpuPowerW input ?? 0)
    + (ImpactInputs.networkPowerW input ?? 0))
   * clamp 0.1 (ImpactInputs.efficiency input ?. EfficiencyOptions.overheadFactor ?? 1.0) 10
   * clamp 1.0 (ImpactInputs.efficiency input ?. EfficiencyOptions.pue ?? 1.0) 3.0)%float.

Definition powerNotes (input : ImpactInputs.t) : list Note :=
  [ NoteBasePower
      (ImpactInputs.gpuPowerW input
       + (ImpactInputs.cpuPowerW input ?? 0)
       + (ImpactInputs.networkPowerW input ?? 0))%float;
    NoteOverheadFactor
      (clamp 0.1%float
         (ImpactInputs.efficiency input ?. EfficiencyOptions.overheadFactor ?? 1.0%float)
         10%float);
    NotePUE
      (clamp 1.0%float
         (ImpactInputs.efficiency input ?. EfficiencyOptions.pue ?? 1.0%float)
         3.0%float) ].

(** A token-based usage (chat, text or OCR) that carries no
    [processingTimeSeconds] of its own. *)
Definition tokenUsage (usage : Usage) (inputTokens outputTokens : number) : Prop :=
  usage = ChatCompletionUsage inputTokens outputTokens None
  \/ usage = TextCompletionUsage inputTokens outputTokens None
  \/ usage = OcrUsage inputTokens outputTokens None.

(** The part of an [ImpactInputs] that [estimateImpact] hands to
    [resolveGridIntensity]. *)
Definition gridInput (input : ImpactInputs.t) : GridIntensityInput.t :=
  GridIntensityInput.mk
    (ImpactInputs.region input)
    (ImpactInputs.gridCarbonIntensityGPerKwh input)
    (ImpactInputs.gridIntensityResolver input)
    (ImpactInputs.timestamp input).

(** The two branches of [estimateImpact], cut out of it and named after the
    paths of the energy model ([estimateImpact_paths] puts them back): each
    yields the processing time, the energy before batch division and the
    notes so far. *)
Definition energyOverridePath
    (input : ImpactInputs.t) (energyOverride : number) (notes : list Note)
    : M (number * number * list Note) :=
  let notes := (notes ++ [NoteEnergyOverride])%list in
  match ImpactInputs.processingTimeSeconds input with
  | Some processingTimeSeconds =>
      requirePositive "processingTimeSeconds" processingTimeSeconds ;;;
      ret (processingTimeSeconds, energyOverride,
           (notes ++ [NoteTimeAlongsideEnergy])%list)
  | None =>
      let usageTime :=
        ImpactInputs.usage input ?. UsageFields.processingTimeSeconds in
      if truthyOpt usageTime then
        let processingTimeSeconds := usageTime ?? nan in
        requirePositive "processingTimeSeconds" processingTimeSeconds ;;;
        ret (processingTimeSeconds, energyOverride,
             (notes ++ [NoteTimeInUsageAlongsideEnergy])%list)
      else
        ret (0%float, energyOverride, (notes ++ [NoteTimeNotProvided])%list)
  end.

(** The time of the power/time path before the efficiency adjustment: the
    explicit [processingTimeSeconds], else the time derived from [usage]. *)
Definition baseProcessingTime (input : ImpactInputs.t) : M number :=
  match ImpactInputs.processingTimeSeconds input with
  | Some processingTimeSeconds =>
      requirePositive "processingTimeSeconds" processingTimeSeconds ;;;
      ret processingTimeSeconds
  | None =>
      match ImpactInputs.usage input with
      | Some usage =>
          deriveProcessingTimeSeconds usage (ImpactInputs.throughput input)
      | None =>
          throw "Either processingTimeSeconds, usage, or energy must be provided."
      end
  end.

Definition powerTimePath
    (input : ImpactInputs.t) (effectivePowerW : number) (notes : list Note)
    : M (number * number * list Note) :=
  processingTimeSeconds <- baseProcessingTime input ;;
  processingTimeSeconds <-
    applyEfficiencyToTime processingTimeSeconds (ImpactInputs.efficiency input) ;;
  ret (processingTimeSeconds,
       (effectivePowerW * processingTimeSeconds / 3600 / 1000)%float,
       notes).

(** The notes that [estimateImpact] appends after the energy is known. *)
Definition finalNotes
    (input : ImpactInputs.t) (gridIntensity : number) (notes : list Note) : list Note :=
  let notes := (notes ++ [NoteGridIntensity gridIntensity])%list in
  let notes :=
    match ImpactInputs.efficiency input ?. EfficiencyOptions.precision with
    | Some (String c s) => (notes ++ [NotePrecision (String c s)])%list
    | _ => notes
    end in
  match ImpactInputs.efficiency input ?. EfficiencyOptions.quantization with
  | Some (String c s) => (notes ++ [NoteQuantization (String c s)])%list
  | _ => notes
  end.

(** A computation that emits no event. *)
Definition silent {A : Type} (m : M A) : Prop := events m = [].

(** Sign classes of a binary64 value, read off its bit-level description. *)
Definition SFpositive (x : spec_float) : bool :=
  match x with
  | S754_infinity s | S754_finite s _ _ => negb s
  | _ => false
  end.

Definition SFnegative (x : spec_float) : bool :=
  match x with
  | S754_infinity s | S754_finite s _ _ => s
  | _ => false
  end.

(** Not negative: a zero of either sign, a positive value, [+Infinity] or
    [NaN]. *)
Definition neverNegative (x : number) : Prop := lt x 0%float = false.

(** A dataset without negative intensities. *)
Definition noNegativeIntensity (values : GridCarbonIntensityMap) : Prop :=
  forall region v, lookup region values = Some v -> neverNegative v.

(** The energy sum and the count that a list of results adds up to, taken
    from left to right as [reduce] does. *)
Definition sumLeft (xs : list number) : number :=
  fold_left (fun acc x => (acc + x)%float) xs 0%float.

(** The range result whose bounds all sit on the nominal result. *)
Definition degenerateRange (base : ImpactResult.t) : ImpactRangeResult.t :=
  ImpactRangeResult.mk base
    (ImpactResult.energyKwh base)
    (ImpactResult.energyKwh base)
    (ImpactResult.co2Grams base)
    (ImpactResult.co2Grams base).

(** The envelope that the range evaluator reports over a low and a high
    evaluation. *)
Definition envelope (base low high : ImpactResult.t) : ImpactRangeResult.t :=
  ImpactRangeResult.mk base
    (Math_min (ImpactResult.energyKwh low) (ImpactResult.energyKwh high))
    (Math_max (ImpactResult.energyKwh low) (ImpactResult.energyKwh high))
    (Math_min (ImpactResult.co2Grams low) (ImpactResult.co2Grams high))
    (Math_max (ImpactResult.co2Grams low) (ImpactResult.co2Grams high)).

(** *** Rounding, in integers

    [SpecFloat] rounds a product or a quotient by shifting a mantissa to the
    right, remembering the position of what was shifted out, and rounding to
    the nearest even mantissa.  The definitions below say what those steps
    compute, so that the result can be compared for two operands. *)

(** A record of truncation [mrs] stands for the fraction [A / B]: its
    mantissa is the integer part, its two bits place the remainder with
    respect to one half. *)
Definition locates (mrs : shr_record) (A B : Z) : Prop :=
  (0 < B /\ 0 <= A /\ shr_m mrs = A / B /\
   match shr_r mrs, shr_s mrs with
   | false, false => A mod B = 0
   | false, true => 0 < 2 * (A mod B) < B
   | true, false => 2 * (A mod B) = B
   | true, true => B < 2 * (A mod B)
   end)%Z.

(** The integer nearest to [A / B], ties going to the even one. *)
Definition nearest_even (A B : Z) : Z :=
  (if 2 * (A mod B) <? B then A / B
   else if B <? 2 * (A mod B) then A / B + 1
   else if Z.even (A / B) then A / B else A / B + 1)%Z.

(** The exponent that binary64 gives to a value of magnitude [2 ^ z]. *)
Definition fexp64 (z : Z) : Z := Z.max (z - 53) (-1074).

(** The binary64 value of the integer [m], at most [2 ^ 53], at the exponent
    [E]: a carry into the 54th bit moves to the next exponent, and an
    exponent beyond 971 is [+Infinity]. *)
Definition encode (m E : Z) : spec_float :=
  (if m =? 0 then S754_zero false
   else if m <? 2 ^ 53
        then if E <=? 971 then S754_finite false (Z.to_pos m) E
             else S754_infinity false
        else if E + 1 <=? 971 then S754_finite false (Z.to_pos (2 ^ 52)) (E + 1)
             else S754_infinity false)%Z.

(** The quotient [N / D], at exponent [e], carries the digits that rounding
    needs. *)
Definition well_formed (N D e : Z) : Prop :=
  (0 < D /\ 0 <= N /\ e <= fexp64 (Zdigits2 (N / D) + e))%Z.

(** [SpecFloat]'s rounding of the value [N / D * 2 ^ e]. *)
Definition rounded (N D e : Z) : spec_float :=
  binary_round_aux prec emax false (N / D)%Z e (new_location D (N mod D)%Z).

(** [N1 * 2 ^ e1 <= N2 * 2 ^ e2], without leaving the integers. *)
Definition value_le (N1 e1 N2 e2 : Z) : Prop :=
  exists k : Z,
    (k <= e1 /\ k <= e2 /\ N1 * 2 ^ (e1 - k) <= N2 * 2 ^ (e2 - k))%Z.

(** A number whose sign bit is clear: [+0], a value above 0 or [+Infinity]. *)
Definition SFnum (x : spec_float) : bool :=
  match x with
  | S754_zero false | S754_infinity false | S754_finite false _ _ => true
  | _ => false
  end.

(** The same, or [NaN]. *)
Definition SFsignClear (x : spec_float) : bool :=
  match x with
  | S754_nan => true
  | _ => SFnum x
  end.

(** Finite and above 0. *)
Definition SFfinpos (x : spec_float) : bool :=
  match x with
  | S754_finite false _ _ => true
  | _ => false
  end.

(** [Number.MAX_VALUE], 1 and 2. *)
Definition SFmax : spec_float := S754_finite false 9007199254740991 971.
Definition SFone : spec_float := S754_finite false 4503599627370496 (-52).
Definition SFtwo : spec_float := S754_finite false 4503599627370496 (-51).

Definition isNum (x : number) : bool := SFnum (Prim2SF x).
Definition signClear (x : number) : bool := SFsignClear (Prim2SF x).

(** [high] sits below [low]: both have a clear sign bit, and [high] is NaN
    or at most [low]. *)
Definition below (high low : number) : Prop :=
  signClear high = true /\ signClear low = true
  /\ (is_nan high = true \/ le high low = true).

(* ================================================================= *)
(** ** Sample data for the concrete evaluations *)

(** A few entries of the 2025 dataset, with the values the documentation
    lists. *)
Definition sample2025 : GridCarbonIntensityMap :=
  [ ("eu", 210.21%float); ("uk", 217%float); ("no", 29%float);
    ("fr", 42%float); ("de", 332%float) ].

(** A resolver that answers with the same value whatever it is asked. *)
Definition constantResolver (v : JsValue) : GridIntensityResolver := fun _ => v.

(** [{ gpuPowerW, processingTimeSeconds }] and nothing else. *)
Definition minimalInput (gpuPowerW processingTimeSeconds : number) : ImpactInputs.t :=
  ImpactInputs.mk gpuPowerW None None None None None None None
    (Some processingTimeSeconds) None None None None.

(** The chat scenario of the documentation: 350 W in the EU, 1000 + 200
    tokens at 100 tokens per second. *)
Definition chatScenario : ImpactInputs.t :=
  ImpactInputs.mk 350%float None None None (Some "eu") None None None None
    (Some (usage.chat 1000%float 200%float))
    (Some (ThroughputConfig.mk (Some 100%float) None None))
    None None.

(** An input that states its energy outright: 100 W of GPU power and
    [energy.energyKwh], nothing else. *)
Definition meteredInput (energyKwh : number) : ImpactInputs.t :=
  ImpactInputs.mk 100%float None None None None None None None None None None
    (Some (EnergyInputs.mk (Some energyKwh) None)) None.

(** Ranges on every field, all of them valid. *)
Definition allRanges : UncertaintyRanges.t :=
  UncertaintyRanges.mk
    (Some (NumericRange.mk 200%float 400%float))
    (Some (NumericRange.mk 1.1%float 1.6%float))
    (Some (NumericRange.mk 1%float 2%float))
    (Some (NumericRange.mk 1%float 2%float))
    (Some (NumericRange.mk 50%float 150%float))
    (Some (NumericRange.mk 0.5%float 2%float))
    (Some (NumericRange.mk 1000000%float 2000000%float)).

(** Ranges with nothing but [efficiencyFactor: { min, max }]. *)
Definition onlyEfficiencyFactor (min max : number) : UncertaintyRanges.t :=
  UncertaintyRanges.mk None None None (Some (NumericRange.mk min max)) None None None.

(** *** Vocabulary of the further properties *)

(** [{ ...input, throughput }] *)
Definition withThroughput
    (throughput : option ThroughputConfig.t) (input : ImpactInputs.t) : ImpactInputs.t :=
  ImpactInputs.mk
    (ImpactInputs.gpuPowerW input)
    (ImpactInputs.cpuPowerW input)
    (ImpactInputs.networkPowerW input)
    (ImpactInputs.modelParamsB input)
    (ImpactInputs.region input)
    (ImpactInputs.gridCarbonIntensityGPerKwh input)
    (ImpactInputs.timestamp input)
    (ImpactInputs.gridIntensityResolver input)
    (ImpactInputs.processingTimeSeconds input)
    (ImpactInputs.usage input)
    throughput
    (ImpactInputs.energy input)
    (ImpactInputs.efficiency input).

(** [{ ...input, efficiency: { ...input.efficiency, batchSize } }] *)
Definition withBatchSize (batchSize : option number) (input : ImpactInputs.t) : ImpactInputs.t :=
  let efficiency := ImpactInputs.efficiency input ?? EfficiencyOptions.empty in
  withEfficiency
    (Some (EfficiencyOptions.mk
             (EfficiencyOptions.pue efficiency)
             (EfficiencyOptions.overheadFactor efficiency)
             (EfficiencyOptions.efficiencyFactor efficiency)
             batchSize
             (EfficiencyOptions.precision efficiency)
             (EfficiencyOptions.quantization efficiency)))
    input.

(** The ranges object [{}]. *)
Definition noRanges : UncertaintyRanges.t :=
  UncertaintyRanges.mk None None None None None None None.

(** A range that [validateRange] accepts: both bounds positive numbers, the
    upper one not below the lower one. *)
Definition validRange (range : NumericRange.t) : bool :=
  positive (NumericRange.min range) && positive (NumericRange.max range)
  && le (NumericRange.min range) (NumericRange.max range).

(** A dataset whose intensities are all above 0. *)
Definition positiveIntensities (values : GridCarbonIntensityMap) : Prop :=
  forall region v, lookup region values = Some v -> gt v 0%float = true.

(** A string of ASCII characters: on these the lower-casing and the trimming
    above are those of JavaScript. *)
Fixpoint asciiOnly (s : string) : bool :=
  match s with
  | EmptyString => true
  | String c rest => (nat_of_ascii c <? 128)%nat && asciiOnly rest
  end.

(** The quantities of a usage that the time model checks, in the order of
    its checks, each under the name its error message uses. *)
Definition usageQuantities (usage : Usage) : list (string * number) :=
  match usage with
  | ChatCompletionUsage inputTokens outputTokens _
  | TextCompletionUsage inputTokens outputTokens _
  | OcrUsage inputTokens outputTokens _ =>
      [("inputTokens", inputTokens); ("outputTokens", outputTokens)]
  | EmbeddingsUsage inputTokens _ => [("inputTokens", inputTokens)]
  | AudioTranscriptionUsage audioSeconds _
  | AudioTranslationUsage audioSeconds _
  | AudioSpeechUsage audioSeconds _ => [("audioSeconds", audioSeconds)]
  | ImageGenerationUsage width height images _ =>
      [("width", width); ("height", height); ("images", images)]
  end.

(** The amount of work a usage stands for: tokens, seconds of audio or
    pixels. *)
Definition workload (usage : Usage) : number :=
  match usage with
  | ChatCompletionUsage inputTokens outputTokens _
  | TextCompletionUsage inputTokens outputTokens _
  | OcrUsage inputTokens outputTokens _ => (inputTokens + outputTokens)%float
  | EmbeddingsUsage inputTokens _ => inputTokens
  | AudioTranscriptionUsage audioSeconds _
  | AudioTranslationUsage audioSeconds _
  | AudioSpeechUsage audioSeconds _ => audioSeconds
  | ImageGenerationUsage width height images _ => (width * height * images)%float
  end.

(** The throughput field that times a usage of a given category. *)
Definition rateName (usage : Usage) : string :=
  match UsageFields.category usage with
  | chat_completions | text_completions | ocr | embeddings => "tokensPerSecond"
  | audio_transcription | audio_translation | audio_speech => "audioSecondsPerSecond"
  | image_generation => "pixelsPerSecond"
  end.

Definition rate (usage : Usage) (throughput : option ThroughputConfig.t) : option number :=
  match UsageFields.category usage with
  | chat_completions | text_completions | ocr | embeddings =>
      throughput ?. ThroughputConfig.tokensPerSecond
  | audio_transcription | audio_translation | audio_speech =>
      throughput ?. ThroughputConfig.audioSecondsPerSecond
  | image_generation => throughput ?. ThroughputConfig.pixelsPerSecond
  end.

(** The name of the first quantity that is not a positive number. *)
Fixpoint firstInvalid (checks : list (string * number)) : option string :=
  match checks with
  | [] => None
  | (name, value) :: rest => if positive value then firstInvalid rest else Some name
  end.

(** [{ ...input, usage }] *)
Definition withUsage (usage : option Usage) (input : ImpactInputs.t) : ImpactInputs.t :=
  ImpactInputs.mk
    (ImpactInputs.gpuPowerW input)
    (ImpactInputs.cpuPowerW input)
    (ImpactInputs.networkPowerW input)
    (ImpactInputs.modelParamsB input)
    (ImpactInputs.region input)
    (ImpactInputs.gridCarbonIntensityGPerKwh input)
    (ImpactInputs.timestamp input)
    (ImpactInputs.gridIntensityResolver input)
    (ImpactInputs.processingTimeSeconds input)
    usage
    (ImpactInputs.throughput input)
    (ImpactInputs.energy input)
    (ImpactInputs.efficiency input).

(** The checks of the time model on a usage without a time of its own: its
    quantities, then the rate of its category. *)
Definition timeChecks (usage : Usage) (throughput : option ThroughputConfig.t)
    : list (string * number) :=
  (usageQuantities usage
   ++ [(("throughput." ++ rateName usage)%string, rate usage throughput ?? nan)])%list.

(** The seven ranges that the range evaluator validates, in the order of its
    checks, each under the name its error message uses. *)
Definition rangeChecks (ranges : UncertaintyRanges.t)
    : list (string * option NumericRange.t) :=
  [ ("gpuPowerW", UncertaintyRanges.gpuPowerW ranges);
    ("pue", UncertaintyRanges.pue ranges);
    ("overheadFactor", UncertaintyRanges.overheadFactor ranges);
    ("efficiencyFactor", UncertaintyRanges.efficiencyFactor ranges);
    ("tokensPerSecond", UncertaintyRanges.tokensPerSecond ranges);
    ("audioSecondsPerSecond", UncertaintyRanges.audioSecondsPerSecond ranges);
    ("pixelsPerSecond", UncertaintyRanges.pixelsPerSecond ranges) ].

(** Every range that is there is one that [validateRange] accepts. *)
Definition validRanges (ranges : UncertaintyRanges.t) : bool :=
  forallb
    (fun check : string * option NumericRange.t =>
       match snd check with
       | Some range => validRange range
       | None => true
       end)
    (rangeChecks ranges).

(** *** Order up to NaN *)

(** [x] is at most [y], unless one of them is NaN; both have a clear sign
    bit. *)
Definition SFupTo (x y : spec_float) : Prop :=
  SFsignClear x = true /\ SFsignClear y = true
  /\ (x = S754_nan \/ y = S754_nan \/ SFleb x y = true).

Definition upTo (x y : number) : Prop :=
  signClear x = true /\ signClear y = true
  /\ (is_nan x = true \/ is_nan y = true \/ le x y = true).

(** An optional quantity that is no more on the left than on the right: the
    same on both sides, whatever it is, or two positive numbers in order. *)
Definition noMore (a b : option number) : Prop :=
  a = b
  \/ exists x y,
       a = Some x /\ b = Some y
       /\ positive x = true /\ positive y = true /\ le x y = true.

(** [light] asks for no more than [heavy]: no more power (GPU power,
    overhead factor, PUE), no less speed (throughput, efficiency factor),
    and the same everything else. *)
Definition lighter (light heavy : ImpactInputs.t) : Prop :=
  gridInput light = gridInput heavy
  /\ ImpactInputs.energy light = ImpactInputs.energy heavy
  /\ ImpactInputs.cpuPowerW light = ImpactInputs.cpuPowerW heavy
  /\ ImpactInputs.networkPowerW light = ImpactInputs.networkPowerW heavy
  /\ ImpactInputs.processingTimeSeconds light = ImpactInputs.processingTimeSeconds heavy
  /\ ImpactInputs.usage light = ImpactInputs.usage heavy
  /\ ImpactInputs.efficiency light ?. EfficiencyOptions.batchSize
     = ImpactInputs.efficiency heavy ?. EfficiencyOptions.batchSize
  /\ noMore (Some (ImpactInputs.gpuPowerW light)) (Some (ImpactInputs.gpuPowerW heavy))
  /\ noMore (ImpactInputs.efficiency light ?. EfficiencyOptions.overheadFactor)
       (ImpactInputs.efficiency heavy ?. EfficiencyOptions.overheadFactor)
  /\ noMore (ImpactInputs.efficiency light ?. EfficiencyOptions.pue)
       (ImpactInputs.efficiency heavy ?. EfficiencyOptions.pue)
  /\ noMore (ImpactInputs.throughput heavy ?. ThroughputConfig.tokensPerSecond)
       (ImpactInputs.throughput light ?. ThroughputConfig.tokensPerSecond)
  /\ noMore (ImpactInputs.throughput heavy ?. ThroughputConfig.audioSecondsPerSecond)
       (ImpactInputs.throughput light ?. ThroughputConfig.audioSecondsPerSecond)
  /\ noMore (ImpactInputs.throughput heavy ?. ThroughputConfig.pixelsPerSecond)
       (ImpactInputs.throughput light ?. ThroughputConfig.pixelsPerSecond)
  /\ noMore (ImpactInputs.efficiency heavy ?. EfficiencyOptions.efficiencyFactor)
       (ImpactInputs.efficiency light ?. EfficiencyOptions.efficiencyFactor).

(** The value lies within the range, when there is a range. *)
Definition within (value : option number) (range : option NumericRange.t) : Prop :=
  match range with
  | Some range =>
      exists v,
        value = Some v
        /\ le (NumericRange.min range) v = true
        /\ le v (NumericRange.max range) = true
  | None => True
  end.

(** Every ranged quantity of the input lies within its range. *)
Definition withinRanges (input : ImpactInputs.t) (ranges : UncertaintyRanges.t) : Prop :=
  within (Some (ImpactInputs.gpuPowerW input)) (UncertaintyRanges.gpuPowerW ranges)
  /\ within (ImpactInputs.efficiency input ?. EfficiencyOptions.pue)
       (UncertaintyRanges.pue ranges)
  /\ within (ImpactInputs.efficiency input ?. EfficiencyOptions.overheadFactor)
       (UncertaintyRanges.overheadFactor ranges)
  /\ within (ImpactInputs.efficiency input ?. EfficiencyOptions.efficiencyFactor)
       (UncertaintyRanges.efficiencyFactor ranges)
  /\ within (ImpactInputs.throughput input ?. ThroughputConfig.tokensPerSecond)
       (UncertaintyRanges.tokensPerSecond ranges)
  /\ within (ImpactInputs.throughput input ?. ThroughputConfig.audioSecondsPerSecond)
       (UncertaintyRanges.audioSecondsPerSecond ranges)
  /\ within (ImpactInputs.throughput input ?. ThroughputConfig.pixelsPerSecond)
       (UncertaintyRanges.pixelsPerSecond ranges).

(** Ranges on the power side only: GPU power, PUE, overhead factor. *)
Definition powerRangesOnly (ranges : UncertaintyRanges.t) : Prop :=
  UncertaintyRanges.efficiencyFactor ranges = None
  /\ UncertaintyRanges.tokensPerSecond ranges = None
  /\ UncertaintyRanges.audioSecondsPerSecond ranges = None
  /\ UncertaintyRanges.pixelsPerSecond ranges = None.

(** Ranges on the speed side only: efficiency factor and throughput. *)
Definition speedRangesOnly (ranges : UncertaintyRanges.t) : Prop :=
  UncertaintyRanges.gpuPowerW ranges = None
  /\ UncertaintyRanges.pue ranges = None
  /\ UncertaintyRanges.overheadFactor ranges = None.

(** *** Where the embedding is the code

    The tables are JavaScript objects: indexing one with the name of a
    member that every object inherits from [Object.prototype] yields that
    member, not a table entry, and [toLowerCase] and [trim] reach beyond
    ASCII.  A plain region is one on which none of this shows. *)

(** The names of the members of [Object.prototype]. *)
Definition inheritedNames : list string :=
  [ "constructor"; "__proto__"; "hasOwnProperty"; "isPrototypeOf";
    "propertyIsEnumerable"; "toLocaleString"; "toString"; "valueOf";
    "__defineGetter__"; "__defineSetter__"; "__lookupGetter__";
    "__lookupSetter__" ].

(** An absent region, or an ASCII region whose key names no inherited
    member. *)
Definition plainRegion (region : option RegionInput) : bool :=
  match region with
  | Some region =>
      asciiOnly region
      && negb (existsb (String.eqb (trim (toLowerCase region))) inheritedNames)
  | None => true
  end.

(** The resolution of the grid intensity does not reach the resolver: there
    is none, or an explicit intensity above 0 comes first.  A resolver is a
    callback that may answer differently each time it is called; when it is
    not reached, an estimate depends on the fields of its input alone. *)
Definition resolverNotCalled (input : ImpactInputs.t) : Prop :=
  ImpactInputs.gridIntensityResolver input = None
  \/ exists g,
       ImpactInputs.gridCarbonIntensityGPerKwh input = Some g
       /\ gt g 0%float = true.

(** The calls of the resolver among the events of a run. *)
Definition isResolverCall (e : Event) : bool :=
  match e with
  | ResolverCalled _ => true
  | ConsoleWarn _ => false
  end.

Definition resolverCalls (events : list Event) : list Event :=
  filter isResolverCall events.

(* ================================================================= *)
(** ** Facts about binary64 comparisons and signs

    The primitive operations are specified, bit for bit, by the functions of
    [SpecFloat] on [spec_float]; the facts below are read off that
    specification. *)

Lemma Prim2SF_zero : Prim2SF 0%float = S754_zero false.
Proof. reflexivity. Qed.

Lemma is_nan_spec (x : number) :
  is_nan x = match Prim2SF x with S754_nan => true | _ => false end.
Proof.
  unfold is_nan. rewrite FloatAxioms.eqb_spec. unfold SFeqb.
  destruct (Prim2SF x) as [s|s| |s m e]; simpl;
    [destruct s; reflexivity | destruct s; reflexivity | reflexivity |].
  destruct s; rewrite Z.compare_refl, Pos.compare_cont_refl; reflexivity.
Qed.

Lemma gt0_spec (x : number) : gt x 0%float = SFpositive (Prim2SF x).
Proof.
  unfold gt. rewrite FloatAxioms.ltb_spec, Prim2SF_zero.
  destruct (Prim2SF x) as [s|s| |s m e]; try destruct s; reflexivity.
Qed.

Lemma lt0_spec (x : number) : lt x 0%float = SFnegative (Prim2SF x).
Proof.
  unfold lt. rewrite FloatAxioms.ltb_spec, Prim2SF_zero.
  destruct (Prim2SF x) as [s|s| |s m e]; try destruct s; reflexivity.
Qed.

Lemma le0_spec (x : number) :
  le x 0%float =
  match Prim2SF x with
  | S754_nan => false
  | S754_zero _ => true
  | S754_infinity s | S754_finite s _ _ => s
  end.
Proof.
  unfold le. rewrite FloatAxioms.leb_spec, Prim2SF_zero.
  destruct (Prim2SF x) as [s|s| |s m e]; try destruct s; reflexivity.
Qed.

Lemma finite_not_nan (x : number) : Number_isFinite x = true -> is_nan x = false.
Proof.
  unfold Number_isFinite, is_finite. destruct (is_nan x); simpl; congruence.
Qed.

Lemma le0_of_finite (x : number) :
  Number_isFinite x = true -> le x 0%float = negb (gt x 0%float).
Proof.
  intros H. apply finite_not_nan in H. revert H.
  rewrite is_nan_spec, le0_spec, gt0_spec.
  destruct (Prim2SF x) as [s|s| |s m e]; try destruct s; simpl; intros; congruence.
Qed.

Lemma positive_gt (x : number) : positive x = true -> gt x 0%float = true.
Proof. unfold positive. intros H. apply andb_true_iff in H. tauto. Qed.

Lemma positive_truthy (x : number) : gt x 0%float = true -> truthy x = true.
Proof.
  unfold truthy, is_zero. rewrite gt0_spec, is_nan_spec, FloatAxioms.eqb_spec.
  change (Prim2SF PrimFloat.zero) with (S754_zero false).
  destruct (Prim2SF x) as [s|s| |s m e]; try destruct s; simpl; intros;
    congruence.
Qed.

Lemma positive_is_truthy (x : number) : positive x = true -> truthy x = true.
Proof. intros H. apply positive_truthy, positive_gt, H. Qed.

Lemma truthy_zero : truthy 0%float = false.
Proof. reflexivity. Qed.

Lemma negative_not_positive (x : number) : lt x 0%float = true -> gt x 0%float = false.
Proof.
  rewrite lt0_spec, gt0_spec.
  destruct (Prim2SF x) as [s|s| |s m e]; try destruct s; simpl; congruence.
Qed.

Lemma negative_truthy (x : number) : lt x 0%float = true -> truthy x = true.
Proof.
  unfold truthy, is_zero. rewrite lt0_spec, is_nan_spec, FloatAxioms.eqb_spec.
  change (Prim2SF PrimFloat.zero) with (S754_zero false).
  destruct (Prim2SF x) as [s|s| |s m e]; try destruct s; simpl; intros;
    congruence.
Qed.

Lemma SFcompare_antisym (x y : spec_float) :
  SFcompare y x = option_map CompOpp (SFcompare x y).
Proof.
  destruct x as [[]|[]| |[] m1 e1], y as [[]|[]| |[] m2 e2]; simpl; try reflexivity.
  all: rewrite (Z.compare_antisym e1 e2); destruct (e1 ?= e2)%Z; simpl; try reflexivity.
  all: change (Pos.compare_cont Eq) with Pos.compare.
  all: rewrite (Pos.compare_antisym m1 m2); try reflexivity.
Qed.

Lemma SFcompare_lt_trans (x y z : spec_float) :
  SFcompare x y = Some Lt -> SFcompare y z = Some Lt -> SFcompare x z = Some Lt.
Proof.
  destruct x as [[]|[]| |[] m1 e1], y as [[]|[]| |[] m2 e2], z as [[]|[]| |[] m3 e3];
    simpl; try discriminate; try reflexivity; intros H1 H2; f_equal.
  all: change (Pos.compare_cont Eq) with Pos.compare in *.
  all: destruct (Z.compare_spec e1 e2), (Z.compare_spec e2 e3), (Z.compare_spec e1 e3);
    try discriminate; try reflexivity; try lia.
  all: destruct (Pos.compare_spec m1 m2), (Pos.compare_spec m2 m3),
         (Pos.compare_spec m1 m3);
    try discriminate; try reflexivity; simpl in *; try discriminate; try lia.
Qed.

Lemma SFcompare_eq (x y : spec_float) :
  SFcompare x y = Some Eq ->
  x = y \/ (exists s s', x = S754_zero s /\ y = S754_zero s').
Proof.
  destruct x as [[]|[]| |[] m1 e1], y as [[]|[]| |[] m2 e2];
    simpl; try discriminate; eauto; intros H; left.
  all: change (Pos.compare_cont Eq) with Pos.compare in *.
  all: destruct (Z.compare_spec e1 e2); try discriminate.
  all: destruct (Pos.compare_spec m1 m2); try discriminate; subst; reflexivity.
Qed.

Lemma SFcompare_none (x y : spec_float) :
  SFcompare x y = None -> x = S754_nan \/ y = S754_nan.
Proof.
  destruct x as [[]|[]| |[] m1 e1], y as [[]|[]| |[] m2 e2]; simpl;
    try discriminate; auto.
Qed.

Lemma compare_FLt (x y : number) : (x ?= y)%float = FLt <-> lt x y = true.
Proof.
  unfold lt. rewrite FloatAxioms.compare_spec, FloatAxioms.ltb_spec. unfold SFltb.
  destruct (SFcompare _ _) as [[]|]; simpl; split; congruence.
Qed.

Lemma compare_FGt (x y : number) : (x ?= y)%float = FGt <-> lt y x = true.
Proof.
  unfold lt. rewrite FloatAxioms.compare_spec, FloatAxioms.ltb_spec. unfold SFltb.
  rewrite (SFcompare_antisym (Prim2SF x) (Prim2SF y)).
  destruct (SFcompare _ _) as [[]|]; simpl; split; congruence.
Qed.

Lemma compare_FEq (x y : number) :
  (x ?= y)%float = FEq -> x = y \/ (is_zero x = true /\ is_zero y = true).
Proof.
  rewrite FloatAxioms.compare_spec. intros H.
  assert (Hc : SFcompare (Prim2SF x) (Prim2SF y) = Some Eq)
    by (destruct (SFcompare _ _) as [[]|]; simpl in H; congruence).
  apply SFcompare_eq in Hc as [Hc | (s & s' & Hx & Hy)].
  - left. apply Prim2SF_inj, Hc.
  - right. unfold is_zero. rewrite !FloatAxioms.eqb_spec, Hx, Hy.
    change (Prim2SF PrimFloat.zero) with (S754_zero false). split; reflexivity.
Qed.

Lemma compare_FNotComparable (x y : number) :
  (x ?= y)%float = FNotComparable -> is_nan x = true \/ is_nan y = true.
Proof.
  rewrite FloatAxioms.compare_spec, !is_nan_spec. intros H.
  assert (Hc : SFcompare (Prim2SF x) (Prim2SF y) = None)
    by (destruct (SFcompare _ _) as [[]|]; simpl in H; congruence).
  apply SFcompare_none in Hc as [-> | ->]; auto.
Qed.

Lemma compare_nan_r (x : number) : (x ?= nan)%float = FNotComparable.
Proof.
  rewrite FloatAxioms.compare_spec. change (Prim2SF nan) with S754_nan.
  destruct (Prim2SF x); reflexivity.
Qed.

Lemma lt_trans (x y z : number) : lt x y = true -> lt y z = true -> lt x z = true.
Proof.
  rewrite <- !compare_FLt, !FloatAxioms.compare_spec. intros H1 H2.
  rewrite (SFcompare_lt_trans (Prim2SF x) (Prim2SF y) (Prim2SF z)); [reflexivity| |].
  - destruct (SFcompare (Prim2SF x) (Prim2SF y)) as [[]|]; simpl in H1; congruence.
  - destruct (SFcompare (Prim2SF y) (Prim2SF z)) as [[]|]; simpl in H2; congruence.
Qed.

Lemma lt_not_nan (x y : number) :
  lt x y = true -> is_nan x = false /\ is_nan y = false.
Proof.
  unfold lt. rewrite FloatAxioms.ltb_spec, !is_nan_spec. unfold SFltb.
  destruct (Prim2SF x) as [[]|[]| |[] m1 e1], (Prim2SF y) as [[]|[]| |[] m2 e2];
    simpl; intros; try discriminate; auto.
Qed.

Lemma is_nan_eq (x : number) : is_nan x = true -> x = nan.
Proof.
  rewrite is_nan_spec. intros H. apply Prim2SF_inj.
  change (Prim2SF nan) with S754_nan.
  destruct (Prim2SF x); try discriminate. reflexivity.
Qed.

(** [Math.max(min, Math.min(value, max))] clamps as the specification words
    it, for bounds [min < max] other than zero. *)
Lemma clamp_refines (lo hi : number) :
  lt lo hi = true -> is_zero lo = false -> is_zero hi = false ->
  forall v, clamp lo v hi = clampSpec lo v hi.
Proof.
  intros Hlohi Hlo Hhi v. unfold clamp, clampSpec, gt.
  fold (lt hi v).
  destruct (lt_not_nan _ _ Hlohi) as [Nlo Nhi].
  destruct (lt v lo) eqn:Hvlo.
  - assert (Hvhi : lt v hi = true) by (eapply lt_trans; eauto).
    unfold Math_min. rewrite (proj2 (compare_FLt v hi) Hvhi).
    unfold Math_max. rewrite (proj2 (compare_FGt lo v) Hvlo). reflexivity.
  - destruct (lt hi v) eqn:Hhiv.
    + unfold Math_min. rewrite (proj2 (compare_FGt v hi) Hhiv).
      unfold Math_max. rewrite (proj2 (compare_FLt lo hi) Hlohi). reflexivity.
    + unfold Math_min. destruct (v ?= hi)%float eqn:C1.
      * apply compare_FEq in C1 as [-> | [_ Z]]; [|congruence].
        destruct (get_sign hi); unfold Math_max;
          rewrite (proj2 (compare_FLt lo hi) Hlohi); reflexivity.
      * unfold Math_max. destruct (lo ?= v)%float eqn:C2.
        -- apply compare_FEq in C2 as [-> | [Z _]]; [|congruence].
           destruct (get_sign v); reflexivity.
        -- reflexivity.
        -- apply compare_FGt in C2. congruence.
        -- apply compare_FNotComparable in C2 as [N|N]; [congruence|].
           apply compare_FLt in C1. apply lt_not_nan in C1 as [N' _]. congruence.
      * apply compare_FGt in C1. congruence.
      * apply compare_FNotComparable in C1 as [N|N]; [|congruence].
        apply is_nan_eq in N. subst v. unfold Math_max.
        rewrite compare_nan_r. reflexivity.
Qed.

Lemma Math_min_max_ordered (x y : number) :
  lt y x = true \/ y = x -> Math_min x y = y /\ Math_max x y = x.
Proof.
  intros [H | ->].
  - apply compare_FGt in H. unfold Math_min, Math_max. rewrite H. split; reflexivity.
  - unfold Math_min, Math_max. destruct (x ?= x)%float eqn:C.
    + destruct (get_sign x); split; reflexivity.
    + split; reflexivity.
    + split; reflexivity.
    + apply compare_FNotComparable in C.
      assert (N : is_nan x = true) by (destruct C; assumption).
      apply is_nan_eq in N. subst x. split; reflexivity.
Qed.

Lemma Math_min_max_ordered' (x y : number) :
  lt x y = true \/ x = y -> Math_min x y = x /\ Math_max x y = y.
Proof.
  intros [H | ->].
  - apply compare_FLt in H. unfold Math_min, Math_max. rewrite H. split; reflexivity.
  - apply Math_min_max_ordered. right. reflexivity.
Qed.

Lemma SFadd_zero_swap (x y : spec_float) :
  SF64add (SF64add (S754_zero false) x) y = SF64add (SF64add (S754_zero false) y) x.
Proof.
  unfold SF64add.
  destruct x as [[]|[]| |[] m1 e1], y as [[]|[]| |[] m2 e2]; simpl; try reflexivity.
  all: rewrite (Z.min_comm e1 e2); f_equal; try apply Z.add_comm; try apply Pos.add_comm.
Qed.

(** Starting from 0, two numbers add up to the same sum in either order. *)
Lemma add_zero_swap (x y : number) : (0 + x + y = 0 + y + x)%float.
Proof.
  apply Prim2SF_inj. rewrite !add_spec. apply SFadd_zero_swap.
Qed.

Lemma binary_round_aux_sign (m e : Z) (l : location) :
  SFnegative (binary_round_aux prec emax false m e l) = false.
Proof.
  unfold binary_round_aux.
  destruct (shr_fexp prec emax m e l) as [mrs e'].
  destruct (shr_fexp prec emax _ e' loc_Exact) as [mrs' e''].
  destruct (shr_m mrs'); [reflexivity | | reflexivity].
  destruct (Z.leb e'' _); reflexivity.
Qed.

Lemma SFmul_sign (x y : spec_float) :
  SFnegative x = false -> SFnegative y = false -> SFnegative (SF64mul x y) = false.
Proof.
  unfold SF64mul.
  destruct x as [sx|sx| |sx mx ex], y as [sy|sy| |sy my ey]; simpl;
    intros; subst; try reflexivity.
  apply binary_round_aux_sign.
Qed.

Lemma SFdiv_sign (x y : spec_float) :
  SFnegative x = false -> SFpositive y = true -> SFnegative (SF64div x y) = false.
Proof.
  unfold SF64div.
  destruct x as [sx|sx| |sx mx ex], y as [sy|sy| |sy my ey]; simpl;
    intros; subst; try discriminate; try reflexivity;
    try (destruct sy; try discriminate; reflexivity).
  destruct sy; [discriminate|]. simpl.
  destruct (SFdiv_core_binary _ _ _ _ _ _) as [[mz ez] lz].
  apply binary_round_aux_sign.
Qed.

Lemma SFadd_sign (x y : spec_float) :
  SFnegative x = false -> SFnegative y = false -> SFnegative (SF64add x y) = false.
Proof.
  unfold SF64add.
  destruct x as [sx|sx| |sx mx ex], y as [sy|sy| |sy my ey]; simpl;
    intros; subst; try reflexivity; try (destruct sx, sy; reflexivity).
  set (a := fst (shl_align mx ex _)). set (b := fst (shl_align my ey _)).
  change (cond_Zopp false (Z.pos a) + cond_Zopp false (Z.pos b))%Z
    with (Z.pos (a + b)).
  unfold binary_normalize, binary_round.
  destruct (shl_align (a + b) _ _) as [mz ez].
  apply binary_round_aux_sign.
Qed.

Lemma neverNegative_spec (x : number) :
  neverNegative x <-> SFnegative (Prim2SF x) = false.
Proof. unfold neverNegative. rewrite lt0_spec. reflexivity. Qed.

Lemma neverNegative_iff (x : number) :
  neverNegative x <-> ge x 0%float = true \/ is_nan x = true.
Proof.
  rewrite neverNegative_spec, is_nan_spec. unfold ge.
  rewrite FloatAxioms.leb_spec, Prim2SF_zero.
  destruct (Prim2SF x) as [s|s| |s m e]; try destruct s; simpl;
    split; intros; auto; try discriminate; destruct H; discriminate.
Qed.

Lemma mul_neverNegative (x y : number) :
  neverNegative x -> neverNegative y -> neverNegative (x * y)%float.
Proof. rewrite !neverNegative_spec, mul_spec. apply SFmul_sign. Qed.

Lemma add_neverNegative (x y : number) :
  neverNegative x -> neverNegative y -> neverNegative (x + y)%float.
Proof. rewrite !neverNegative_spec, add_spec. apply SFadd_sign. Qed.

Lemma div_neverNegative (x y : number) :
  neverNegative x -> gt y 0%float = true -> neverNegative (x / y)%float.
Proof. rewrite !neverNegative_spec, div_spec, gt0_spec. apply SFdiv_sign. Qed.

Lemma gt_neverNegative (x : number) : gt x 0%float = true -> neverNegative x.
Proof.
  rewrite neverNegative_spec, gt0_spec.
  destruct (Prim2SF x) as [s|s| |s m e]; try destruct s; simpl; congruence.
Qed.

Lemma positive_neverNegative (x : number) : positive x = true -> neverNegative x.
Proof. intros H. apply gt_neverNegative, positive_gt, H. Qed.

Lemma falsy_neverNegative (x : number) : truthy x = false -> neverNegative x.
Proof.
  unfold truthy, is_zero.
  rewrite neverNegative_spec, is_nan_spec, FloatAxioms.eqb_spec.
  change (Prim2SF PrimFloat.zero) with (S754_zero false).
  destruct (Prim2SF x) as [s|s| |s m e]; try destruct s; simpl; congruence.
Qed.

Lemma clampSpec_neverNegative (lo v hi : number) :
  gt lo 0%float = true -> gt hi 0%float = true -> neverNegative (clampSpec lo v hi).
Proof.
  intros Hlo Hhi. unfold clampSpec.
  destruct (lt v lo) eqn:Hvlo; [apply gt_neverNegative, Hlo|].
  destruct (gt v hi); [apply gt_neverNegative, Hhi|].
  unfold neverNegative. destruct (lt v 0%float) eqn:Hneg; [|reflexivity].
  rewrite (lt_trans v 0%float lo Hneg Hlo) in Hvlo. discriminate.
Qed.

(* ================================================================= *)
(** ** Rounding keeps the order

    A product or a quotient of binary64 values is the exact result rounded to
    the nearest value, ties to even.  Rounding never reverses an order: the
    facts below follow [SpecFloat]'s rounding step by step and end in the
    order of two products by a same factor and of two quotients. *)

Section Rounding.

#[local] Arguments Z.mul : simpl never.
#[local] Arguments Z.add : simpl never.
#[local] Arguments Z.sub : simpl never.
#[local] Arguments Z.div : simpl never.
#[local] Arguments Z.modulo : simpl never.
#[local] Arguments Z.pow : simpl never.

Local Open Scope Z_scope.

Lemma div_mod_double (A B : Z) :
  0 < B -> 0 <= A ->
  A / (2 * B) = (A / B) / 2 /\ A mod (2 * B) = ((A / B) mod 2) * B + A mod B.
Proof.
  intros HB HA.
  pose proof (Z.div_mod A B ltac:(lia)) as E.
  pose proof (Z.mod_pos_bound A B HB) as Hr.
  pose proof (Z.div_mod (A / B) 2 ltac:(lia)) as E2.
  pose proof (Z.mod_pos_bound (A / B) 2 ltac:(lia)) as Hr2.
  assert (Hq : 0 <= A / B) by (apply Z.div_pos; lia).
  assert (Hq2 : 0 <= A / B / 2) by (apply Z.div_pos; lia).
  assert (H : A = 2 * B * (A / B / 2) + ((A / B) mod 2 * B + A mod B)) by nia.
  split; symmetry.
  - apply (Z.div_unique_pos A (2 * B) (A / B / 2) ((A / B) mod 2 * B + A mod B)); nia.
  - apply (Z.mod_unique_pos A (2 * B) (A / B / 2) ((A / B) mod 2 * B + A mod B)); nia.
Qed.

Lemma shr_1_locates (mrs : shr_record) (A B : Z) :
  locates mrs A B -> locates (shr_1 mrs) A (2 * B).
Proof.
  intros (HB & HA & Hm & Hloc).
  destruct (div_mod_double A B HB HA) as [Hd Hr].
  pose proof (Z.mod_pos_bound A B HB) as Hbound.
  assert (Hq : 0 <= A / B) by (apply Z.div_pos; lia).
  destruct mrs as [m r s]. simpl in *. subst m.
  unfold locates. 
  destruct (A / B) as [|p|p] eqn:Eq; [| |lia].
  - (* quotient 0 *)
    simpl. rewrite Hd, Hr. change (0 / 2) with 0. change (0 mod 2) with 0.
    repeat split; try lia.
    destruct r, s; simpl; lia.
  - destruct p as [p|p|]; simpl; rewrite Hd, Hr.
    + (* odd 2p+1 *)
      replace (Z.pos p~1 / 2) with (Z.pos p) by (rewrite Pos2Z.inj_xI; apply (Z.div_unique_pos _ 2 (Z.pos p) 1); lia).
      replace (Z.pos p~1 mod 2) with 1 by (rewrite Pos2Z.inj_xI; apply (Z.mod_unique_pos _ 2 (Z.pos p) 1); lia).
      repeat split; try lia. destruct r, s; simpl; lia.
    + replace (Z.pos p~0 / 2) with (Z.pos p) by (rewrite Pos2Z.inj_xO; apply (Z.div_unique_pos _ 2 (Z.pos p) 0); lia).
      replace (Z.pos p~0 mod 2) with 0 by (rewrite Pos2Z.inj_xO; apply (Z.mod_unique_pos _ 2 (Z.pos p) 0); lia).
      repeat split; try lia. destruct r, s; simpl; lia.
    + change (1 / 2) with 0. change (1 mod 2) with 1.
      repeat split; try lia. destruct r, s; simpl; lia.
Qed.

Lemma iter_shr_1_locates (p : BinNums.positive) :
  forall mrs A B,
  locates mrs A B -> locates (SpecFloat.iter_pos shr_1 p mrs) A (B * 2 ^ Z.pos p).
Proof.
  induction p as [p IH|p IH|]; intros mrs A B H; simpl.
  - apply shr_1_locates in H. apply IH in H. apply IH in H.
    replace (B * 2 ^ Z.pos p~1) with (2 * B * 2 ^ Z.pos p * 2 ^ Z.pos p); [exact H|].
    replace (Z.pos p~1) with (Z.pos p + Z.pos p + 1) by lia.
    rewrite !Z.pow_add_r by lia. change (2 ^ 1) with 2. ring.
  - apply IH in H. apply IH in H.
    replace (B * 2 ^ Z.pos p~0) with (B * 2 ^ Z.pos p * 2 ^ Z.pos p); [exact H|].
    replace (Z.pos p~0) with (Z.pos p + Z.pos p) by lia.
    rewrite !Z.pow_add_r by lia. ring.
  - apply shr_1_locates in H. change (2 ^ 1) with 2.
    replace (B * 2) with (2 * B) by ring. exact H.
Qed.

Lemma shr_locates (mrs : shr_record) (e n A B : Z) :
  locates mrs A B -> 0 <= n ->
  locates (fst (shr mrs e n)) A (B * 2 ^ n) /\ snd (shr mrs e n) = e + n.
Proof.
  intros H Hn. destruct n as [|p|p]; [| |lia]; simpl.
  - change (2 ^ 0) with 1. rewrite Z.mul_1_r. split; [exact H|lia].
  - split; [|reflexivity]. apply iter_shr_1_locates, H.
Qed.

Lemma new_location_locates (A B : Z) :
  0 < B -> 0 <= A ->
  locates (shr_record_of_loc (A / B) (new_location B (A mod B))) A B.
Proof.
  intros HB HA.
  pose proof (Z.mod_pos_bound A B HB) as Hr.
  unfold locates. split; [exact HB|]. split; [exact HA|].
  unfold new_location.
  change IntDef.Z.even with Z.even.
  destruct (Z.even B) eqn:Ev.
  - unfold new_location_even.
    destruct (Z.eqb_spec (A mod B) 0) as [E0|E0].
    + simpl. split; [reflexivity|exact E0].
    + destruct (Z.compare_spec (2 * (A mod B)) B); simpl; split; try reflexivity; lia.
  - unfold new_location_odd.
    destruct (Z.eqb_spec (A mod B) 0) as [E0|E0].
    + simpl. split; [reflexivity|exact E0].
    + assert (Hodd : Z.odd B = true) by (rewrite <- Z.negb_even, Ev; reflexivity).
      apply Z.odd_spec in Hodd. destruct Hodd as [k Hk].
      destruct (Z.compare_spec (2 * (A mod B) + 1) B); simpl; split; try reflexivity; lia.
Qed.

Lemma round_nearest_even_locates (mrs : shr_record) (A B : Z) :
  locates mrs A B ->
  round_nearest_even (shr_m mrs) (loc_of_shr_record mrs) = nearest_even A B.
Proof.
  intros (HB & HA & Hm & Hloc). unfold nearest_even.
  destruct mrs as [m r s]. simpl in *. subst m.
  change IntDef.Z.even with Z.even.
  destruct r, s; simpl.
  - destruct (Z.ltb_spec (2 * (A mod B)) B); [lia|].
    destruct (Z.ltb_spec B (2 * (A mod B))); [reflexivity|lia].
  - destruct (Z.ltb_spec (2 * (A mod B)) B); [lia|].
    destruct (Z.ltb_spec B (2 * (A mod B))); [lia|reflexivity].
  - destruct (Z.ltb_spec (2 * (A mod B)) B); [reflexivity|lia].
  - destruct (Z.ltb_spec (2 * (A mod B)) B); [reflexivity|lia].
Qed.

Lemma nearest_even_bounds (A B : Z) :
  A / B <= nearest_even A B <= A / B + 1.
Proof.
  unfold nearest_even.
  destruct (_ <? _); [lia|]. destruct (_ <? _); [lia|]. destruct (Z.even _); lia.
Qed.

Lemma div_le_cross (A1 B1 A2 B2 : Z) :
  0 < B1 -> 0 < B2 -> 0 <= A1 -> A1 * B2 <= A2 * B1 -> A1 / B1 <= A2 / B2.
Proof.
  intros H1 H2 HA H.
  pose proof (Z.div_mod A1 B1 ltac:(lia)) as E1.
  pose proof (Z.mod_pos_bound A1 B1 H1) as R1.
  pose proof (Z.div_mod A2 B2 ltac:(lia)) as E2.
  pose proof (Z.mod_pos_bound A2 B2 H2) as R2.
  destruct (Z.le_gt_cases (A1 / B1) (A2 / B2)) as [L|G]; [exact L|exfalso].
  assert (A2 / B2 + 1 <= A1 / B1) by lia.
  assert (A2 * B1 < (A2 / B2 + 1) * B2 * B1) by nia.
  assert ((A2 / B2 + 1) * B2 * B1 <= (A1 / B1) * B1 * B2) by nia.
  nia.
Qed.

Lemma nearest_even_monotone (A1 B1 A2 B2 : Z) :
  0 < B1 -> 0 < B2 -> 0 <= A1 -> A1 * B2 <= A2 * B1 ->
  nearest_even A1 B1 <= nearest_even A2 B2.
Proof.
  intros H1 H2 HA H.
  pose proof (div_le_cross A1 B1 A2 B2 H1 H2 HA H) as Hq.
  pose proof (Z.div_mod A1 B1 ltac:(lia)) as E1.
  pose proof (Z.mod_pos_bound A1 B1 H1) as R1.
  pose proof (Z.div_mod A2 B2 ltac:(lia)) as E2.
  pose proof (Z.mod_pos_bound A2 B2 H2) as R2.
  pose proof (nearest_even_bounds A1 B1) as N1.
  pose proof (nearest_even_bounds A2 B2) as N2.
  destruct (Z.eq_dec (A1 / B1) (A2 / B2)) as [E|NE]; [|lia].
  assert (Hr : (A1 mod B1) * B2 <= (A2 mod B2) * B1) by nia.
  unfold nearest_even in *. rewrite <- E in *.
  destruct (Z.ltb_spec (2 * (A1 mod B1)) B1) as [a|a].
  - destruct (_ <? _); [lia|]. destruct (_ <? _); [lia|]. destruct (Z.even _); lia.
  - destruct (Z.ltb_spec (2 * (A2 mod B2)) B2) as [b|b]; [exfalso; nia|].
    destruct (Z.ltb_spec B1 (2 * (A1 mod B1))) as [c|c].
    + destruct (Z.ltb_spec B2 (2 * (A2 mod B2))) as [d|d]; [lia|exfalso; nia].
    + destruct (Z.ltb_spec B2 (2 * (A2 mod B2))) as [d|d]; destruct (Z.even _); lia.
Qed.

(** *** Digits *)

Lemma Zdigits2_log2 (p : BinNums.positive) : Zdigits2 (Z.pos p) = Z.succ (Z.log2 (Z.pos p)).
Proof.
  destruct p; unfold Zdigits2, Z.log2; cbn [digits2_pos];
    change digits2_pos with Pos.size; lia.
Qed.

Lemma Zdigits2_bounds (q : Z) :
  0 < q -> 0 < Zdigits2 q /\ 2 ^ (Zdigits2 q - 1) <= q < 2 ^ Zdigits2 q.
Proof.
  intros Hq. destruct q as [|p|p]; try lia.
  rewrite Zdigits2_log2.
  pose proof (Z.log2_spec (Z.pos p) ltac:(lia)) as H.
  pose proof (Z.log2_nonneg (Z.pos p)).
  replace (Z.succ (Z.log2 (Z.pos p)) - 1) with (Z.log2 (Z.pos p)) by lia.
  split; [lia|exact H].
Qed.

Lemma Zdigits2_nonneg (q : Z) : 0 <= q -> 0 <= Zdigits2 q.
Proof. destruct q; simpl; lia. Qed.

Lemma Zdigits2_lt_pow (q : Z) : 0 <= q -> q < 2 ^ Zdigits2 q.
Proof.
  intros Hq. destruct (Z.eq_dec q 0) as [->|]; [reflexivity|].
  apply Zdigits2_bounds. lia.
Qed.

Lemma pow2_pos (n : Z) : 0 <= n -> 0 < 2 ^ n.
Proof. intros. apply Z.pow_pos_nonneg; lia. Qed.

Lemma pow2_le (a b : Z) : 0 <= a <= b -> 2 ^ a <= 2 ^ b.
Proof. intros. apply Z.pow_le_mono_r; lia. Qed.

Lemma pow2_lt (a b : Z) : 0 <= a < b -> 2 ^ a < 2 ^ b.
Proof. intros. apply Z.pow_lt_mono_r; lia. Qed.

Lemma Zdigits2_le (q d : Z) : 0 <= d -> 0 <= q < 2 ^ d -> Zdigits2 q <= d.
Proof.
  intros Hd Hq. destruct (Z.eq_dec q 0) as [->|]; [exact Hd|].
  destruct (Zdigits2_bounds q ltac:(lia)) as [Hp [Hl Hu]].
  destruct (Z.le_gt_cases (Zdigits2 q) d) as [L|G]; [exact L|exfalso].
  pose proof (pow2_le d (Zdigits2 q - 1) ltac:(lia)). lia.
Qed.

Lemma Zdigits2_ge (q d : Z) : 2 ^ (d - 1) <= q -> 0 < d -> d <= Zdigits2 q.
Proof.
  intros Hq Hd.
  pose proof (pow2_pos (d - 1) ltac:(lia)).
  pose proof (Zdigits2_lt_pow q ltac:(lia)) as Hu.
  pose proof (Zdigits2_nonneg q ltac:(lia)).
  destruct (Z.le_gt_cases d (Zdigits2 q)) as [L|G]; [exact L|exfalso].
  pose proof (pow2_le (Zdigits2 q) (d - 1) ltac:(lia)). lia.
Qed.

(** *** The exponent of binary64 *)

Lemma fexp_fexp64 (z : Z) : fexp prec emax z = fexp64 z.
Proof. reflexivity. Qed.

Lemma truncated_bounds (N D e : Z) :
  well_formed N D e ->
  let Et := fexp64 (Zdigits2 (N / D) + e) in
  let qt := N / (D * 2 ^ (Et - e)) in
  0 <= qt < 2 ^ 53 /\ (-1074 < Et -> 2 ^ 52 <= qt).
Proof.
  intros (HD & HN & He) Et qt.
  assert (Hq : 0 <= N / D) by (apply Z.div_pos; lia).
  pose proof (Zdigits2_nonneg _ Hq) as Hd.
  pose proof (Zdigits2_lt_pow _ Hq) as Hu.
  assert (Hn : 0 <= Et - e) by (unfold Et; lia).
  pose proof (pow2_pos _ Hn) as Hp.
  assert (Eqt : qt = N / D / 2 ^ (Et - e)) by (unfold qt; rewrite Z.div_div by lia; reflexivity).
  split.
  - split; [rewrite Eqt; apply Z.div_pos; lia|].
    rewrite Eqt. apply Z.div_lt_upper_bound; [lia|].
    rewrite <- Z.pow_add_r by lia.
    assert (Zdigits2 (N / D) <= Et - e + 53) by (unfold Et, fexp64; lia).
    pose proof (pow2_le (Zdigits2 (N / D)) (Et - e + 53) ltac:(lia)). lia.
  - intros Hmin.
    assert (EEt : Et = Zdigits2 (N / D) + e - 53) by (unfold Et, fexp64 in *; lia).
    assert (Hq0 : 0 < N / D).
    { destruct (Z.eq_dec (N / D) 0) as [E0|]; [|lia].
      exfalso. unfold Et in *. rewrite E0 in *. simpl in *. unfold fexp64 in *. lia. }
    destruct (Zdigits2_bounds _ Hq0) as [_ [Hl _]].
    rewrite Eqt. apply Z.div_le_lower_bound; [lia|].
    rewrite <- Z.pow_add_r by lia.
    replace (Et - e + 52) with (Zdigits2 (N / D) - 1) by lia. exact Hl.
Qed.

Lemma second_shift (m E : Z) :
  0 <= m <= 2 ^ 53 -> -1074 <= E -> (-1074 < E -> 2 ^ 52 <= m) ->
  let '(mrs, e) := shr_fexp prec emax m E loc_Exact in
  if m <? 2 ^ 53 then shr_m mrs = m /\ e = E else shr_m mrs = 2 ^ 52 /\ e = E + 1.
Proof.
  intros Hm HE Hnorm. unfold shr_fexp. rewrite fexp_fexp64.
  destruct (Z.ltb_spec m (2 ^ 53)) as [Hlt|Hge].
  - assert (Hd : Zdigits2 m <= 53) by (apply Zdigits2_le; lia).
    assert (Hn : fexp64 (Zdigits2 m + E) - E <= 0) by (unfold fexp64; lia).
    destruct (fexp64 (Zdigits2 m + E) - E) as [|p|p] eqn:En; try lia; simpl; split; reflexivity.
  - assert (m = 2 ^ 53) by lia. subst m.
    replace (fexp64 (Zdigits2 (2 ^ 53) + E) - E) with 1
      by (change (Zdigits2 (2 ^ 53)) with 54; unfold fexp64; lia).
    simpl. split; reflexivity.
Qed.

Lemma rounded_encode (N D e : Z) :
  well_formed N D e ->
  let Et := fexp64 (Zdigits2 (N / D) + e) in
  rounded N D e = encode (nearest_even N (D * 2 ^ (Et - e))) Et.
Proof.
  intros WF Et.
  pose proof (truncated_bounds N D e WF) as [Hqt Hnorm]. fold Et in Hqt, Hnorm.
  destruct WF as (HD & HN & He). fold Et in He.
  unfold rounded, binary_round_aux.
  pose proof (new_location_locates N D HD HN) as Hloc.
  unfold shr_fexp at 1. rewrite fexp_fexp64. fold Et.
  destruct (shr_locates _ e (Et - e) N D Hloc ltac:(lia)) as [Hl He'].
  destruct (shr (shr_record_of_loc (N / D) (new_location D (N mod D))) e (Et - e)) as [mrs' e'].
  simpl in Hl, He'. 
  rewrite (round_nearest_even_locates _ _ _ Hl).
  replace e' with Et by lia.
  pose proof (nearest_even_bounds N (D * 2 ^ (Et - e))) as Hb.
  set (m1 := nearest_even N (D * 2 ^ (Et - e))) in *.
  assert (HEt : -1074 <= Et) by (unfold Et, fexp64; lia).
  pose proof (second_shift m1 Et ltac:(lia) HEt ltac:(lia)) as H2.
  destruct (shr_fexp prec emax m1 Et loc_Exact) as [mrs'' e''].
  unfold encode.
  destruct (Z.ltb_spec m1 (2 ^ 53)) as [Hlt|Hge]; destruct H2 as [Hm2 He2]; rewrite Hm2, He2.
  - destruct (Z.eqb_spec m1 0) as [E0|N0]; [rewrite E0; reflexivity|].
    destruct m1 as [|p|p]; try lia. reflexivity.
  - destruct (Z.eqb_spec m1 0) as [E0|N0]; [lia|]. reflexivity.
Qed.

(** *** Order of the rounded values *)

Lemma encode_monotone (m m' E : Z) :
  0 <= m <= m' -> m' <= 2 ^ 53 ->
  SFleb (encode m E) (encode m' E) = true.
Proof.
  intros Hm Hm'. unfold SFleb, SFcompare, encode.
  change (PosDef.Pos.compare_cont Eq) with Pos.compare.
  destruct (Z.eqb_spec m 0); destruct (Z.eqb_spec m' 0); try lia;
  destruct (Z.ltb_spec m (2 ^ 53)); destruct (Z.ltb_spec m' (2 ^ 53)); try lia;
  destruct (Z.leb_spec E 971); destruct (Z.leb_spec (E + 1) 971); try lia;
  try reflexivity;
  try (destruct (Z.compare_spec E E); try lia);
  try (destruct (Z.compare_spec (E + 1) (E + 1)); try lia);
  try (destruct (Z.compare_spec E (E + 1)); try lia);
  try reflexivity;
  match goal with
  | |- context [Pos.compare ?a ?b] => destruct (Pos.compare_spec a b); try reflexivity; lia
  end.
Qed.

Lemma encode_next_binade (m m' E E' : Z) :
  E < E' -> 0 <= m <= 2 ^ 53 -> 2 ^ 52 <= m' <= 2 ^ 53 ->
  SFleb (encode m E) (encode m' E') = true.
Proof.
  intros HE Hm Hm'. unfold SFleb, SFcompare, encode.
  change (PosDef.Pos.compare_cont Eq) with Pos.compare.
  assert (0 < 2 ^ 52) by reflexivity.
  destruct (Z.eqb_spec m 0); destruct (Z.eqb_spec m' 0); try lia;
  destruct (Z.ltb_spec m (2 ^ 53)); destruct (Z.ltb_spec m' (2 ^ 53)); try lia;
  destruct (Z.leb_spec E 971); destruct (Z.leb_spec (E + 1) 971); try lia;
  destruct (Z.leb_spec E' 971); destruct (Z.leb_spec (E' + 1) 971); try lia;
  try reflexivity;
  match goal with
  | |- context [Z.compare ?a ?b] => destruct (Z.compare_spec a b); try lia
  end;
  try reflexivity;
  match goal with
  | |- context [Pos.compare ?a ?b] => destruct (Pos.compare_spec a b); try reflexivity; lia
  end.
Qed.

Lemma value_le_at (N1 e1 N2 e2 k : Z) :
  value_le N1 e1 N2 e2 -> k <= e1 -> k <= e2 ->
  N1 * 2 ^ (e1 - k) <= N2 * 2 ^ (e2 - k).
Proof.
  intros (k0 & H1 & H2 & H) K1 K2.
  set (k' := Z.min k k0).
  assert (H' : N1 * 2 ^ (e1 - k') <= N2 * 2 ^ (e2 - k')).
  { replace (e1 - k') with ((e1 - k0) + (k0 - k')) by lia.
    replace (e2 - k') with ((e2 - k0) + (k0 - k')) by lia.
    rewrite !Z.pow_add_r by lia.
    pose proof (pow2_pos (k0 - k') ltac:(lia)). nia. }
  replace (e1 - k') with ((e1 - k) + (k - k')) in H' by lia.
  replace (e2 - k') with ((e2 - k) + (k - k')) in H' by lia.
  rewrite !Z.pow_add_r in H' by lia.
  pose proof (pow2_pos (k - k') ltac:(lia)). nia.
Qed.

Lemma trunc_exp_monotone (N1 e1 N2 e2 D : Z) :
  well_formed N1 D e1 -> well_formed N2 D e2 -> value_le N1 e1 N2 e2 ->
  fexp64 (Zdigits2 (N1 / D) + e1) <= fexp64 (Zdigits2 (N2 / D) + e2).
Proof.
  intros (HD & HN1 & He1) (_ & HN2 & He2) Hv.
  set (d1 := Zdigits2 (N1 / D)) in *. set (d2 := Zdigits2 (N2 / D)) in *.
  destruct (Z.le_gt_cases (fexp64 (d1 + e1)) (fexp64 (d2 + e2))) as [L|G]; [exact L|exfalso].
  assert (Hq1 : 0 <= N1 / D) by (apply Z.div_pos; lia).
  assert (Hq2 : 0 <= N2 / D) by (apply Z.div_pos; lia).
  pose proof (Zdigits2_nonneg _ Hq1) as Hd1. fold d1 in Hd1.
  pose proof (Zdigits2_nonneg _ Hq2) as Hd2. fold d2 in Hd2.
  assert (Hq0 : 0 < N1 / D).
  { destruct (Z.eq_dec (N1 / D) 0) as [E0|]; [|lia].
    exfalso. unfold d1 in *. rewrite E0 in *. simpl in *. unfold fexp64 in *. lia. }
  destruct (Zdigits2_bounds _ Hq0) as [Hp1 [Hl1 _]]. fold d1 in Hp1, Hl1.
  pose proof (Zdigits2_lt_pow _ Hq2) as Hu2. fold d2 in Hu2.
  assert (Hmag : d2 + e2 <= d1 - 1 + e1) by (unfold fexp64 in *; lia).
  pose proof (Z.div_mod N1 D ltac:(lia)) as E1.
  pose proof (Z.mod_pos_bound N1 D HD) as R1.
  pose proof (Z.div_mod N2 D ltac:(lia)) as E2.
  pose proof (Z.mod_pos_bound N2 D HD) as R2.
  set (k := Z.min e1 e2).
  pose proof (value_le_at _ _ _ _ k Hv ltac:(lia) ltac:(lia)) as H.
  pose proof (pow2_pos (e1 - k) ltac:(lia)) as Pa.
  pose proof (pow2_pos (e2 - k) ltac:(lia)) as Pb.
  assert (Hpow : 2 ^ d2 * 2 ^ (e2 - k) <= 2 ^ (d1 - 1) * 2 ^ (e1 - k)).
  { rewrite <- !Z.pow_add_r by lia. apply pow2_le. lia. }
  assert (N2 < D * 2 ^ d2) by nia.
  assert (D * 2 ^ (d1 - 1) <= N1) by nia.
  assert (N2 * 2 ^ (e2 - k) < D * 2 ^ d2 * 2 ^ (e2 - k)) by nia.
  assert (D * 2 ^ (d1 - 1) * 2 ^ (e1 - k) <= N1 * 2 ^ (e1 - k)) by nia.
  assert (D * (2 ^ d2 * 2 ^ (e2 - k)) <= D * (2 ^ (d1 - 1) * 2 ^ (e1 - k))) by nia.
  lia.
Qed.

Lemma rounded_monotone (N1 e1 N2 e2 D : Z) :
  well_formed N1 D e1 -> well_formed N2 D e2 -> value_le N1 e1 N2 e2 ->
  SFleb (rounded N1 D e1) (rounded N2 D e2) = true.
Proof.
  intros WF1 WF2 Hv.
  rewrite (rounded_encode _ _ _ WF1), (rounded_encode _ _ _ WF2).
  pose proof (trunc_exp_monotone _ _ _ _ _ WF1 WF2 Hv) as HE.
  pose proof (truncated_bounds _ _ _ WF1) as [Hq1 Hn1].
  pose proof (truncated_bounds _ _ _ WF2) as [Hq2 Hn2].
  set (E1 := fexp64 (Zdigits2 (N1 / D) + e1)) in *.
  set (E2 := fexp64 (Zdigits2 (N2 / D) + e2)) in *.
  pose proof (nearest_even_bounds N1 (D * 2 ^ (E1 - e1))) as B1.
  pose proof (nearest_even_bounds N2 (D * 2 ^ (E2 - e2))) as B2.
  destruct WF1 as (HD & HN1 & He1). destruct WF2 as (_ & HN2 & He2).
  fold E1 in He1. fold E2 in He2.
  destruct (Z.eq_dec E1 E2) as [EE|NE].
  - rewrite <- EE in *.
    apply encode_monotone; [|lia].
    split; [lia|].
    pose proof (pow2_pos (E1 - e1) ltac:(lia)).
    pose proof (pow2_pos (E1 - e2) ltac:(lia)).
    apply nearest_even_monotone; try nia.
    set (k := Z.min e1 e2).
    pose proof (value_le_at _ _ _ _ k Hv ltac:(lia) ltac:(lia)) as H1.
    set (c := E1 - Z.max e1 e2).
    replace (E1 - e2) with ((e1 - k) + c) by (unfold c, k; lia).
    replace (E1 - e1) with ((e2 - k) + c) by (unfold c, k; lia).
    rewrite !Z.pow_add_r by (unfold c, k; lia).
    pose proof (pow2_pos c ltac:(unfold c; lia)).
    pose proof (pow2_pos (e1 - k) ltac:(unfold k; lia)).
    pose proof (pow2_pos (e2 - k) ltac:(unfold k; lia)).
    assert (N1 * 2 ^ (e1 - k) * (D * 2 ^ c) <= N2 * 2 ^ (e2 - k) * (D * 2 ^ c))
      by (apply Z.mul_le_mono_nonneg_r; nia).
    lia.
  - assert (HminE : -1074 <= E1) by (unfold E1, fexp64; lia).
    apply encode_next_binade; lia.
Qed.

(** *** Valid binary64 values *)

Lemma bounded_canonical (m : BinNums.positive) (e : Z) :
  bounded prec emax m e = true ->
  fexp64 (Zdigits2 (Z.pos m) + e) = e /\ e <= 971.
Proof.
  unfold bounded, canonical_mantissa. rewrite fexp_fexp64.
  intros H. apply andb_true_iff in H as [H1 H2].
  apply Z.eqb_eq in H1. apply Z.leb_le in H2. split; [exact H1|exact H2].
Qed.

Lemma canonical_bounds (m : BinNums.positive) (e : Z) :
  fexp64 (Zdigits2 (Z.pos m) + e) = e ->
  -1074 <= e /\ Z.pos m < 2 ^ 53 /\ (-1074 < e -> 2 ^ 52 <= Z.pos m)
  /\ 0 < Zdigits2 (Z.pos m) <= 53 /\ (-1074 < e -> Zdigits2 (Z.pos m) = 53).
Proof.
  intros H.
  destruct (Zdigits2_bounds (Z.pos m) ltac:(lia)) as [Hd [Hl Hu]].
  assert (Hd53 : Zdigits2 (Z.pos m) <= 53) by (unfold fexp64 in H; lia).
  pose proof (pow2_le (Zdigits2 (Z.pos m)) 53 ltac:(lia)).
  split; [unfold fexp64 in H; lia|]. split; [lia|]. split; [|split; [lia|]].
  - intros He. assert (Zdigits2 (Z.pos m) = 53) as E by (unfold fexp64 in H; lia).
    rewrite E in Hl. exact Hl.
  - intros He. unfold fexp64 in H; lia.
Qed.

Lemma SFleb_value_le (m1 m2 : BinNums.positive) (e1 e2 : Z) :
  fexp64 (Zdigits2 (Z.pos m1) + e1) = e1 ->
  fexp64 (Zdigits2 (Z.pos m2) + e2) = e2 ->
  SFleb (S754_finite false m1 e1) (S754_finite false m2 e2) = true ->
  e1 <= e2 /\ value_le (Z.pos m1) e1 (Z.pos m2) e2.
Proof.
  intros C1 C2. unfold SFleb, SFcompare.
  change (PosDef.Pos.compare_cont Eq) with Pos.compare.
  destruct (canonical_bounds _ _ C1) as (L1 & U1 & _).
  destruct (canonical_bounds _ _ C2) as (L2 & U2 & N2 & _).
  destruct (Z.compare_spec e1 e2) as [E|E|E]; try discriminate.
  - subst e2. destruct (Pos.compare_spec m1 m2); try discriminate; intros _;
      (split; [lia|]); exists e1; rewrite Z.sub_diag; change (2 ^ 0) with 1; lia.
  - intros _. split; [lia|]. exists e1. rewrite Z.sub_diag. change (2 ^ 0) with 1.
    repeat split; try lia.
    pose proof (pow2_le 1 (e2 - e1) ltac:(lia)). change (2 ^ 1) with 2 in *.
    specialize (N2 ltac:(lia)).
    assert (2 ^ 53 = 2 ^ 52 * 2) by reflexivity. nia.
Qed.

(** *** Multiplication *)

Lemma Zdigits2_mul (a b : Z) :
  0 < a -> 0 < b -> Zdigits2 a + Zdigits2 b - 1 <= Zdigits2 (a * b).
Proof.
  intros Ha Hb.
  destruct (Zdigits2_bounds a Ha) as [Da [La _]].
  destruct (Zdigits2_bounds b Hb) as [Db [Lb _]].
  apply Zdigits2_ge; [|lia].
  replace (Zdigits2 a + Zdigits2 b - 1 - 1) with ((Zdigits2 a - 1) + (Zdigits2 b - 1)) by lia.
  rewrite Z.pow_add_r by lia.
  pose proof (pow2_pos (Zdigits2 a - 1) ltac:(lia)).
  pose proof (pow2_pos (Zdigits2 b - 1) ltac:(lia)).
  nia.
Qed.

Lemma SFmul_rounded (mx my : BinNums.positive) (ex ey : Z) :
  SF64mul (S754_finite false mx ex) (S754_finite false my ey)
  = rounded (Z.pos mx * Z.pos my) 1 (ex + ey).
Proof.
  unfold SF64mul, SFmul, rounded. simpl xorb.
  rewrite Z.div_1_r, Z.mod_1_r. reflexivity.
Qed.

Lemma mul_well_formed (mx my : BinNums.positive) (ex ey : Z) :
  fexp64 (Zdigits2 (Z.pos mx) + ex) = ex ->
  fexp64 (Zdigits2 (Z.pos my) + ey) = ey ->
  well_formed (Z.pos mx * Z.pos my) 1 (ex + ey).
Proof.
  intros Cx Cy. unfold well_formed. rewrite Z.div_1_r.
  split; [lia|]. split; [lia|].
  pose proof (Zdigits2_mul (Z.pos mx) (Z.pos my) ltac:(lia) ltac:(lia)) as Hd.
  destruct (canonical_bounds _ _ Cx) as (Lx & _ & _ & Dx & Nx).
  destruct (canonical_bounds _ _ Cy) as (Ly & _ & _ & Dy & Ny).
  unfold fexp64. lia.
Qed.

(** *** Division *)

Lemma SFdiv_rounded (mx my : BinNums.positive) (ex ey : Z) :
  let e' := Z.min (fexp64 (Zdigits2 (Z.pos mx) + ex - (Zdigits2 (Z.pos my) + ey))) (ex - ey) in
  SF64div (S754_finite false mx ex) (S754_finite false my ey)
  = rounded (Z.pos mx * 2 ^ (ex - ey - e')) (Z.pos my) e'.
Proof.
  intros e'. unfold SF64div, SFdiv, SFdiv_core_binary. simpl xorb.
  rewrite fexp_fexp64. change IntDef.Z.min with Z.min. fold e'.
  change IntDef.Z.shiftl with Z.shiftl. change IntDef.Z.div_eucl with Z.div_eucl.
  assert (Hs : 0 <= ex - ey - e') by (unfold e'; lia).
  assert (Hm : match ex - ey - e' with
               | 0 => Z.pos mx
               | Z.pos _ => Z.shiftl (Z.pos mx) (ex - ey - e')
               | Z.neg _ => 0
               end = Z.pos mx * 2 ^ (ex - ey - e')).
  { destruct (ex - ey - e') as [|p|p] eqn:E; [change (2 ^ 0) with 1; lia| |lia].
    rewrite Z.shiftl_mul_pow2 by lia. reflexivity. }
  rewrite Hm. unfold rounded, Z.div, Z.modulo.
  destruct (Z.div_eucl _ _) as [q r]. reflexivity.
Qed.

Lemma div_well_formed (mx my : BinNums.positive) (ex ey : Z) :
  fexp64 (Zdigits2 (Z.pos mx) + ex) = ex ->
  fexp64 (Zdigits2 (Z.pos my) + ey) = ey ->
  let e' := Z.min (fexp64 (Zdigits2 (Z.pos mx) + ex - (Zdigits2 (Z.pos my) + ey))) (ex - ey) in
  well_formed (Z.pos mx * 2 ^ (ex - ey - e')) (Z.pos my) e'.
Proof.
  intros Cx Cy e'. unfold well_formed.
  assert (Hs : 0 <= ex - ey - e') by (unfold e'; lia).
  pose proof (pow2_pos _ Hs) as Hp.
  split; [lia|]. split; [nia|].
  destruct (Z.le_gt_cases e' (-1074)) as [Hsmall|Hbig]; [unfold fexp64; lia|].
  set (dx := Zdigits2 (Z.pos mx)) in *. set (dy := Zdigits2 (Z.pos my)) in *.
  destruct (Zdigits2_bounds (Z.pos mx) ltac:(lia)) as [Dx [Lx Ux]]. fold dx in Dx, Lx, Ux.
  destruct (Zdigits2_bounds (Z.pos my) ltac:(lia)) as [Dy [Ly Uy]]. fold dy in Dy, Ly, Uy.
  assert (He' : e' <= dx + ex - (dy + ey) - 53) by (unfold e', fexp64 in *; lia).
  set (s := ex - ey - e') in *.
  assert (Hq : 2 ^ (dx + s - dy - 1) <= Z.pos mx * 2 ^ s / Z.pos my).
  { apply Z.div_le_lower_bound; [lia|].
    assert (Z.pos my * 2 ^ (dx + s - dy - 1) <= 2 ^ dy * 2 ^ (dx + s - dy - 1)).
    { apply Z.mul_le_mono_nonneg_r; [apply Z.lt_le_incl, pow2_pos; lia|lia]. }
    rewrite <- Z.pow_add_r in H by lia.
    replace (dy + (dx + s - dy - 1)) with ((dx - 1) + s) in H by lia.
    rewrite Z.pow_add_r in H by lia.
    assert (2 ^ (dx - 1) * 2 ^ s <= Z.pos mx * 2 ^ s)
      by (apply Z.mul_le_mono_nonneg_r; lia).
    lia. }
  pose proof (Zdigits2_ge _ (dx + s - dy) Hq ltac:(lia)) as Hd.
  unfold fexp64. lia.
Qed.

(** *** Signs and order through the operations *)

Lemma SFnum_signClear (x : spec_float) : SFnum x = true -> SFsignClear x = true.
Proof. destruct x as [[]|[]| |[] m e]; simpl; congruence. Qed.

Lemma encode_num (m E : Z) : 0 <= m -> SFnum (encode m E) = true.
Proof.
  intros Hm. unfold encode.
  destruct (m =? 0); [reflexivity|].
  destruct (m <? 2 ^ 53); [destruct (E <=? 971)|destruct (E + 1 <=? 971)]; reflexivity.
Qed.

Lemma rounded_num (N D e : Z) : well_formed N D e -> SFnum (rounded N D e) = true.
Proof.
  intros WF. rewrite (rounded_encode _ _ _ WF). apply encode_num.
  pose proof (truncated_bounds _ _ _ WF) as [Hq _].
  pose proof (nearest_even_bounds N (D * 2 ^ (fexp64 (Zdigits2 (N / D) + e) - e))).
  lia.
Qed.

Lemma SFleb_zero_num (x : spec_float) :
  SFnum x = true -> SFleb (S754_zero false) x = true.
Proof. destruct x as [[]|[]| |[] m e]; simpl; intros; first [discriminate|reflexivity]. Qed.

Lemma SFleb_num_inf (x : spec_float) :
  SFnum x = true -> SFleb x (S754_infinity false) = true.
Proof. destruct x as [[]|[]| |[] m e]; simpl; intros; first [discriminate|reflexivity]. Qed.

Lemma SFleb_refl_num (x : spec_float) : SFnum x = true -> SFleb x x = true.
Proof.
  destruct x as [[]|[]| |[] m e]; simpl; intros; try discriminate; try reflexivity.
  unfold SFleb, SFcompare. rewrite Z.compare_refl.
  change (PosDef.Pos.compare_cont Eq) with Pos.compare. rewrite Pos.compare_refl.
  reflexivity.
Qed.

Lemma value_le_mul (p N1 e N2 e' k : Z) :
  0 <= p -> value_le N1 e N2 e' -> value_le (p * N1) (k + e) (p * N2) (k + e').
Proof.
  intros Hp (k0 & H1 & H2 & H). exists (k + k0).
  replace (k + e - (k + k0)) with (e - k0) by lia.
  replace (k + e' - (k + k0)) with (e' - k0) by lia.
  repeat split; try lia.
  rewrite <- !Z.mul_assoc. apply Z.mul_le_mono_nonneg_l; assumption.
Qed.

Lemma SFmul_finite_monotone (mp mx my : BinNums.positive) (ep ex ey : Z) :
  bounded prec emax mp ep = true ->
  bounded prec emax mx ex = true ->
  bounded prec emax my ey = true ->
  SFleb (S754_finite false mx ex) (S754_finite false my ey) = true ->
  SFleb (SF64mul (S754_finite false mp ep) (S754_finite false mx ex))
        (SF64mul (S754_finite false mp ep) (S754_finite false my ey)) = true.
Proof.
  intros Bp Bx By Hle.
  apply bounded_canonical in Bp as [Cp _].
  apply bounded_canonical in Bx as [Cx _].
  apply bounded_canonical in By as [Cy _].
  rewrite !SFmul_rounded.
  apply rounded_monotone; try (apply mul_well_formed; assumption).
  apply value_le_mul; [lia|].
  apply (SFleb_value_le _ _ _ _ Cx Cy Hle).
Qed.

Lemma SFmul_finite_num (mp mx : BinNums.positive) (ep ex : Z) :
  bounded prec emax mp ep = true ->
  bounded prec emax mx ex = true ->
  SFnum (SF64mul (S754_finite false mp ep) (S754_finite false mx ex)) = true.
Proof.
  intros Bp Bx.
  apply bounded_canonical in Bp as [Cp _].
  apply bounded_canonical in Bx as [Cx _].
  rewrite SFmul_rounded. apply rounded_num, mul_well_formed; assumption.
Qed.

Lemma SFdiv_finite_num (mx my : BinNums.positive) (ex ey : Z) :
  bounded prec emax mx ex = true ->
  bounded prec emax my ey = true ->
  SFnum (SF64div (S754_finite false mx ex) (S754_finite false my ey)) = true.
Proof.
  intros Bx By.
  apply bounded_canonical in Bx as [Cx _].
  apply bounded_canonical in By as [Cy _].
  rewrite SFdiv_rounded. apply rounded_num, div_well_formed; assumption.
Qed.

(** A larger dividend over a divisor that is no larger, the divisors having
    the same digits. *)
Lemma SFdiv_finite_monotone (mx my mc : BinNums.positive) (ex ey ec ec' : Z) :
  bounded prec emax mx ex = true ->
  bounded prec emax my ey = true ->
  bounded prec emax mc ec = true ->
  bounded prec emax mc ec' = true ->
  ec' <= ec ->
  SFleb (S754_finite false mx ex) (S754_finite false my ey) = true ->
  SFleb (SF64div (S754_finite false mx ex) (S754_finite false mc ec))
        (SF64div (S754_finite false my ey) (S754_finite false mc ec')) = true.
Proof.
  intros Bx By Bc Bc' Hec Hle.
  apply bounded_canonical in Bx as [Cx _].
  apply bounded_canonical in By as [Cy _].
  apply bounded_canonical in Bc as [Cc _].
  apply bounded_canonical in Bc' as [Cc' _].
  rewrite !SFdiv_rounded.
  apply rounded_monotone; try (apply div_well_formed; assumption).
  destruct (SFleb_value_le _ _ _ _ Cx Cy Hle) as [Hexy Hv].
  set (e1 := Z.min (fexp64 (Zdigits2 (Z.pos mx) + ex - (Zdigits2 (Z.pos mc) + ec))) (ex - ec)).
  set (e2 := Z.min (fexp64 (Zdigits2 (Z.pos my) + ey - (Zdigits2 (Z.pos mc) + ec'))) (ey - ec')).
  set (k := Z.min e1 e2).
  assert (K1 : k <= e1) by (unfold k; lia).
  assert (K2 : k <= e2) by (unfold k; lia).
  assert (E1 : e1 <= ex - ec) by (unfold e1; lia).
  assert (E2 : e2 <= ey - ec') by (unfold e2; lia).
  exists k. split; [exact K1|]. split; [exact K2|].
  rewrite <- !Z.mul_assoc, <- !Z.pow_add_r by lia.
  replace (ex - ec - e1 + (e1 - k)) with (ex - (k + ec)) by lia.
  replace (ey - ec' - e2 + (e2 - k)) with ((ey - (k + ec)) + (ec - ec')) by lia.
  pose proof (value_le_at _ _ _ _ (k + ec) Hv ltac:(lia) ltac:(lia)) as H.
  rewrite Z.pow_add_r by lia.
  pose proof (pow2_pos (ec - ec') ltac:(lia)).
  pose proof (pow2_pos (ey - (k + ec)) ltac:(lia)).
  nia.
Qed.

Lemma SFmul_below (p x y : spec_float) :
  valid_binary p = true -> valid_binary x = true -> valid_binary y = true ->
  SFsignClear p = true -> SFnum x = true -> SFnum y = true ->
  SFleb x y = true ->
  (y = S754_infinity false -> x = S754_infinity false) ->
  SFsignClear (SF64mul p x) = true /\ SFsignClear (SF64mul p y) = true
  /\ (SF64mul p x = S754_nan \/ SFleb (SF64mul p x) (SF64mul p y) = true).
Proof.
  intros Vp Vx Vy Sp Nx Ny Hle Hinf.
  destruct x as [[]|[]| |[] mx ex]; try discriminate Nx;
  destruct y as [[]|[]| |[] my ey]; try discriminate Ny; try discriminate Hle;
  try (specialize (Hinf eq_refl); discriminate Hinf);
  destruct p as [[]|[]| |[] mp ep]; try discriminate Sp;
  try (split; [reflexivity|split; [reflexivity|first [left; reflexivity|right; reflexivity]]]).
  - (* 0 and a value, finite factor *)
    pose proof (SFmul_finite_num mp my ep ey Vp Vy) as Hn.
    split; [reflexivity|]. split; [apply SFnum_signClear, Hn|].
    right. apply (SFleb_zero_num _ Hn).
  - (* two values, finite factor *)
    pose proof (SFmul_finite_num mp mx ep ex Vp Vx) as Hx.
    pose proof (SFmul_finite_num mp my ep ey Vp Vy) as Hy.
    split; [apply SFnum_signClear, Hx|]. split; [apply SFnum_signClear, Hy|].
    right. apply SFmul_finite_monotone; assumption.
Qed.

Lemma SFdiv_num (x c : spec_float) :
  valid_binary x = true -> valid_binary c = true ->
  SFnum x = true -> SFfinpos c = true -> SFnum (SF64div x c) = true.
Proof.
  intros Vx Vc Nx Pc.
  destruct c as [[]|[]| |[] mc ec]; try discriminate Pc.
  destruct x as [[]|[]| |[] mx ex]; try discriminate Nx; try reflexivity.
  apply SFdiv_finite_num; assumption.
Qed.

Lemma SFdiv_signClear (x c : spec_float) :
  valid_binary x = true -> valid_binary c = true ->
  SFsignClear x = true -> SFfinpos c = true -> SFsignClear (SF64div x c) = true.
Proof.
  intros Vx Vc Sx Pc.
  destruct x as [[]|[]| |[] mx ex] eqn:E; try discriminate Sx;
    try (apply SFnum_signClear, SFdiv_num; try assumption; reflexivity).
  destruct c as [[]|[]| |[] mc ec]; reflexivity.
Qed.

Lemma SFdiv_below (h l : spec_float) (mc : BinNums.positive) (ec ec' : Z) :
  valid_binary h = true -> valid_binary l = true ->
  bounded prec emax mc ec = true -> bounded prec emax mc ec' = true -> ec' <= ec ->
  SFsignClear h = true -> SFsignClear l = true ->
  h = S754_nan \/ SFleb h l = true ->
  SFsignClear (SF64div h (S754_finite false mc ec)) = true
  /\ SFsignClear (SF64div l (S754_finite false mc ec')) = true
  /\ (SF64div h (S754_finite false mc ec) = S754_nan
      \/ SFleb (SF64div h (S754_finite false mc ec))
               (SF64div l (S754_finite false mc ec')) = true).
Proof.
  intros Vh Vl Bc Bc' Hec Sh Sl Hle.
  split; [apply SFdiv_signClear; try assumption; reflexivity|].
  split; [apply SFdiv_signClear; try assumption; reflexivity|].
  destruct Hle as [-> | Hle]; [left; reflexivity|].
  destruct h as [[]|[]| |[] mh eh]; try discriminate Sh; try discriminate Hle;
  destruct l as [[]|[]| |[] ml el]; try discriminate Sl; try discriminate Hle;
  try (right; reflexivity).
  - right. apply SFleb_zero_num, SFdiv_finite_num; assumption.
  - right. apply (SFleb_num_inf (SF64div (S754_finite false mh eh) _)).
    apply SFdiv_finite_num; assumption.
  - right. apply SFdiv_finite_monotone; assumption.
Qed.

Lemma SFleb_finite (m m' : BinNums.positive) (e e' : Z) :
  e <= e' -> (e = e' -> Z.pos m <= Z.pos m') ->
  SFleb (S754_finite false m e) (S754_finite false m' e') = true.
Proof.
  intros He Hm. unfold SFleb, SFcompare.
  change (PosDef.Pos.compare_cont Eq) with Pos.compare.
  destruct (Z.compare_spec e e') as [E|E|E]; [|reflexivity|exfalso; lia].
  destruct (Pos.compare_spec m m') as [F|F|F]; [reflexivity|reflexivity|].
  exfalso. specialize (Hm E). lia.
Qed.

Lemma SFleb_max (m : BinNums.positive) (e : Z) :
  bounded prec emax m e = true -> SFleb (S754_finite false m e) SFmax = true.
Proof.
  intros B. apply bounded_canonical in B as [C He].
  destruct (canonical_bounds _ _ C) as (_ & U & _).
  apply SFleb_finite; [exact He|].
  intros _. assert (H : 2 ^ 53 = 9007199254740992) by reflexivity. lia.
Qed.

(** Halving: [x / 2] is at most [x / 1], and is infinite when [x / 1] is. *)
Lemma SFdiv_halves (x : spec_float) :
  valid_binary x = true -> SFnum x = true ->
  SFnum (SF64div x SFtwo) = true /\ SFnum (SF64div x SFone) = true
  /\ SFleb (SF64div x SFtwo) (SF64div x SFone) = true
  /\ (SF64div x SFone = S754_infinity false -> SF64div x SFtwo = S754_infinity false).
Proof.
  intros Vx Nx.
  assert (N2 : SFnum (SF64div x SFtwo) = true) by (apply SFdiv_num; auto).
  assert (N1 : SFnum (SF64div x SFone) = true) by (apply SFdiv_num; auto).
  split; [exact N2|]. split; [exact N1|]. split.
  - destruct (SFdiv_below x x 4503599627370496 (-51) (-52) Vx Vx eq_refl eq_refl
                ltac:(lia) (SFnum_signClear _ Nx) (SFnum_signClear _ Nx)
                (or_intror (SFleb_refl_num _ Nx))) as (_ & _ & [H|H]); [|exact H].
    fold SFtwo in H. rewrite H in N2. discriminate.
  - destruct x as [[]|[]| |[] mx ex]; try discriminate Nx; try discriminate; try reflexivity.
    intros Hinf. exfalso.
    pose proof (SFdiv_finite_monotone mx 9007199254740991 4503599627370496
                  ex 971 (-52) (-52) Vx eq_refl eq_refl eq_refl ltac:(lia)
                  (SFleb_max _ _ Vx)) as H.
    fold SFone in H. rewrite Hinf in H.
    replace (SF64div (S754_finite false 9007199254740991 971) SFone) with SFmax in H
      by (vm_compute; reflexivity).
    discriminate H.
Qed.

(** *** Sums and products keep the sign bit clear *)

Lemma shr_locates_any (mrs : shr_record) (e n A B : Z) :
  locates mrs A B -> exists B', locates (fst (shr mrs e n)) A B'.
Proof.
  intros H. destruct (Z.le_gt_cases 0 n) as [Hn|Hn].
  - exists (B * 2 ^ n). apply (shr_locates mrs e n A B H Hn).
  - exists B. destruct n; try lia. exact H.
Qed.

Lemma binary_round_aux_num (m e A B : Z) (l : location) :
  locates (shr_record_of_loc m l) A B ->
  SFnum (binary_round_aux prec emax false m e l) = true.
Proof.
  intros H. unfold binary_round_aux, shr_fexp.
  destruct (shr_locates_any _ e (fexp prec emax (Zdigits2 m + e) - e) A B H) as [B' H'].
  destruct (shr (shr_record_of_loc m l) e _) as [mrs' e']. simpl in H'.
  rewrite (round_nearest_even_locates _ _ _ H').
  pose proof (nearest_even_bounds A B') as Hb.
  destruct H' as (HB' & HA & _ & _).
  assert (Hq : 0 <= A / B') by (apply Z.div_pos; lia).
  set (m1 := nearest_even A B') in *.
  assert (H1 : locates (shr_record_of_loc m1 loc_Exact) m1 1).
  { unfold locates. simpl. rewrite Z.div_1_r, Z.mod_1_r. repeat split; lia. }
  destruct (shr_locates_any _ e' (fexp prec emax (Zdigits2 m1 + e') - e') m1 1 H1)
    as [B'' H''].
  destruct (shr (shr_record_of_loc m1 loc_Exact) e' _) as [mrs'' e'']. simpl in H''.
  destruct H'' as (HB'' & _ & Hm & _).
  assert (0 <= shr_m mrs'') by (rewrite Hm; apply Z.div_pos; lia).
  destruct (shr_m mrs''); [reflexivity| |lia].
  destruct (Z.leb e'' _); reflexivity.
Qed.

Lemma binary_round_aux_signClear (m e : Z) (l : location) :
  SFsignClear (binary_round_aux prec emax false m e l) = true.
Proof.
  unfold binary_round_aux.
  destruct (shr_fexp prec emax m e l) as [mrs e'].
  destruct (shr_fexp prec emax _ e' loc_Exact) as [mrs' e''].
  destruct (shr_m mrs'); [reflexivity | | reflexivity].
  destruct (Z.leb e'' _); reflexivity.
Qed.

Lemma SFadd_finite (mx my : BinNums.positive) (ex ey : Z) :
  exists mz ez,
    SF64add (S754_finite false mx ex) (S754_finite false my ey)
    = binary_round_aux prec emax false (Z.pos mz) ez loc_Exact.
Proof.
  unfold SF64add, SFadd.
  set (a := fst (shl_align mx ex _)). set (b := fst (shl_align my ey _)).
  change (cond_Zopp false (Z.pos a) + cond_Zopp false (Z.pos b))
    with (Z.pos (a + b)).
  unfold binary_normalize, binary_round.
  destruct (shl_align (a + b) _ _) as [mz ez].
  exists mz, ez. reflexivity.
Qed.

Lemma SFadd_finpos_num (x y : spec_float) :
  SFfinpos x = true -> SFfinpos y = true -> SFnum (SF64add x y) = true.
Proof.
  destruct x as [[]|[]| |[] mx ex]; try discriminate.
  destruct y as [[]|[]| |[] my ey]; try discriminate. intros _ _.
  destruct (SFadd_finite mx my ex ey) as (mz & ez & ->).
  apply (binary_round_aux_num _ _ (Z.pos mz) 1).
  unfold locates. simpl. rewrite Z.div_1_r, Z.mod_1_r. repeat split; lia.
Qed.

Lemma SFadd_signClear (x y : spec_float) :
  SFsignClear x = true -> SFnegative y = false -> SFsignClear (SF64add x y) = true.
Proof.
  destruct x as [[]|[]| |[] mx ex]; try discriminate;
  destruct y as [[]|[]| |[] my ey]; try discriminate; try reflexivity.
  intros _ _.
  destruct (SFadd_finite mx my ex ey) as (mz & ez & ->).
  apply binary_round_aux_signClear.
Qed.

Lemma SFmul_signClear (x y : spec_float) :
  SFsignClear x = true -> SFsignClear y = true -> SFsignClear (SF64mul x y) = true.
Proof.
  destruct x as [[]|[]| |[] mx ex]; try discriminate;
  destruct y as [[]|[]| |[] my ey]; try discriminate; try reflexivity.
  intros _ _. apply binary_round_aux_signClear.
Qed.

Lemma SFmul_num (x y : spec_float) :
  valid_binary x = true -> valid_binary y = true ->
  SFnum x = true -> SFfinpos y = true -> SFnum (SF64mul x y) = true.
Proof.
  intros Vx Vy Nx Py.
  destruct y as [[]|[]| |[] my ey]; try discriminate Py.
  destruct x as [[]|[]| |[] mx ex]; try discriminate Nx; try reflexivity.
  apply SFmul_finite_num; assumption.
Qed.

Lemma SFleb_signClear_cases (x y : spec_float) :
  SFsignClear x = true -> SFsignClear y = true -> SFleb x y = true ->
  SFltb x y = true \/ x = y.
Proof.
  unfold SFleb, SFltb. intros Sx Sy H.
  destruct (SFcompare x y) as [[]|] eqn:C; try discriminate; [|left; reflexivity].
  right.
  destruct x as [[]|[]| |[] mx ex]; try discriminate;
  destruct y as [[]|[]| |[] my ey]; try discriminate; try reflexivity.
  simpl in C. change (PosDef.Pos.compare_cont Eq) with Pos.compare in C.
  destruct (Z.compare_spec ex ey); try discriminate.
  destruct (Pos.compare_spec mx my); try discriminate. subst. reflexivity.
Qed.

End Rounding.

(* ================================================================= *)
(** ** Order through the arithmetic of the estimator *)

Lemma is_nan_iff (x : number) : is_nan x = true <-> Prim2SF x = S754_nan.
Proof.
  rewrite is_nan_spec. destruct (Prim2SF x); split; congruence.
Qed.

Lemma is_finite_spec (x : number) :
  Number_isFinite x =
  match Prim2SF x with
  | S754_zero _ | S754_finite _ _ _ => true
  | _ => false
  end.
Proof.
  unfold Number_isFinite, is_finite, is_infinity.
  rewrite is_nan_spec, FloatAxioms.eqb_spec, abs_spec.
  change (Prim2SF infinity) with (S754_infinity false).
  destruct (Prim2SF x) as [s|s| |s m e]; reflexivity.
Qed.

Lemma positive_spec (x : number) : positive x = SFfinpos (Prim2SF x).
Proof.
  unfold positive. rewrite is_finite_spec, gt0_spec.
  destruct (Prim2SF x) as [[]|[]| |[] m e]; reflexivity.
Qed.

Lemma isNum_signClear (x : number) : isNum x = true -> signClear x = true.
Proof. apply SFnum_signClear. Qed.

Lemma positive_isNum (x : number) : positive x = true -> isNum x = true.
Proof.
  rewrite positive_spec. unfold isNum.
  destruct (Prim2SF x) as [[]|[]| |[] m e]; simpl; congruence.
Qed.

Lemma add_isNum (x y : number) :
  positive x = true -> positive y = true -> isNum (x + y)%float = true.
Proof. rewrite !positive_spec. unfold isNum. rewrite add_spec. apply SFadd_finpos_num. Qed.

Lemma mul_isNum (x y : number) :
  isNum x = true -> positive y = true -> isNum (x * y)%float = true.
Proof.
  rewrite positive_spec. unfold isNum. rewrite mul_spec.
  apply SFmul_num; apply Prim2SF_valid.
Qed.

Lemma div_isNum (x y : number) :
  isNum x = true -> positive y = true -> isNum (x / y)%float = true.
Proof.
  rewrite positive_spec. unfold isNum. rewrite div_spec.
  apply SFdiv_num; apply Prim2SF_valid.
Qed.

Lemma add_signClear (x y : number) :
  signClear x = true -> neverNegative y -> signClear (x + y)%float = true.
Proof.
  rewrite neverNegative_spec. unfold signClear. rewrite add_spec.
  apply SFadd_signClear.
Qed.

Lemma mul_signClear (x y : number) :
  signClear x = true -> signClear y = true -> signClear (x * y)%float = true.
Proof. unfold signClear. rewrite mul_spec. apply SFmul_signClear. Qed.

Lemma gt_signClear (x : number) : gt x 0%float = true -> signClear x = true.
Proof.
  rewrite gt0_spec. unfold signClear.
  destruct (Prim2SF x) as [[]|[]| |[] m e]; simpl; congruence.
Qed.

Lemma not_lt_signClear (v lo : number) :
  lt v lo = false -> gt lo 0%float = true -> signClear v = true.
Proof.
  unfold lt, signClear. rewrite FloatAxioms.ltb_spec, gt0_spec.
  destruct (Prim2SF v) as [[]|[]| |[] m e], (Prim2SF lo) as [[]|[]| |[] m' e'];
    unfold SFltb; simpl; intros; first [reflexivity | congruence].
Qed.

Lemma clampSpec_signClear (lo v hi : number) :
  gt lo 0%float = true -> gt hi 0%float = true ->
  signClear (clampSpec lo v hi) = true.
Proof.
  intros Hlo Hhi. unfold clampSpec.
  destruct (lt v lo) eqn:Hvlo; [apply gt_signClear, Hlo|].
  destruct (gt v hi); [apply gt_signClear, Hhi|].
  apply (not_lt_signClear v lo Hvlo Hlo).
Qed.

Lemma div_below (high low c : number) :
  positive c = true -> below high low -> below (high / c)%float (low / c)%float.
Proof.
  rewrite positive_spec. intros Pc (Sh & Sl & Hle).
  pose proof (Prim2SF_valid c) as Vc.
  destruct (Prim2SF c) as [[]|[]| |[] mc ec] eqn:Ec; try discriminate Pc.
  destruct (SFdiv_below (Prim2SF high) (Prim2SF low) mc ec ec
              (Prim2SF_valid _) (Prim2SF_valid _) Vc Vc (Z.le_refl _) Sh Sl)
    as (A & B & C).
  { destruct Hle as [N|L]; [left; apply is_nan_iff, N|right].
    unfold le in L. rewrite FloatAxioms.leb_spec in L. exact L. }
  unfold below, signClear, le.
  rewrite is_nan_iff, FloatAxioms.leb_spec, !div_spec, Ec. auto.
Qed.

Lemma mul_below (P T2 T1 : number) :
  signClear P = true -> isNum T2 = true -> isNum T1 = true ->
  le T2 T1 = true ->
  (Prim2SF T1 = S754_infinity false -> Prim2SF T2 = S754_infinity false) ->
  below (P * T2)%float (P * T1)%float.
Proof.
  unfold le. rewrite FloatAxioms.leb_spec. intros SP N2 N1 Hle Hinf.
  unfold below, signClear, le.
  rewrite is_nan_iff, FloatAxioms.leb_spec, !mul_spec.
  apply SFmul_below; try apply Prim2SF_valid; assumption.
Qed.

Lemma halves (t : number) :
  isNum t = true ->
  isNum (t / 2)%float = true /\ isNum (t / 1)%float = true
  /\ le (t / 2)%float (t / 1)%float = true
  /\ (Prim2SF (t / 1)%float = S754_infinity false ->
      Prim2SF (t / 2)%float = S754_infinity false).
Proof.
  unfold isNum, le. rewrite FloatAxioms.leb_spec, !div_spec.
  change (Prim2SF 1%float) with SFone. change (Prim2SF 2%float) with SFtwo.
  apply SFdiv_halves, Prim2SF_valid.
Qed.

(** The energy at efficiency factor 2 sits below the energy at factor 1. *)
Lemma energy_below (P time : number) :
  signClear P = true -> isNum time = true ->
  below (P * (time / 2) / 3600 / 1000)%float (P * (time / 1) / 3600 / 1000)%float.
Proof.
  intros SP Nt. destruct (halves time Nt) as (N2 & N1 & Hle & Hinf).
  repeat apply div_below; try reflexivity.
  apply mul_below; assumption.
Qed.

Lemma below_not_nan (high low : number) :
  below high low -> is_nan high = false -> le high low = true.
Proof. intros (_ & _ & [N|L]) H; congruence. Qed.

Lemma below_nan (high low : number) :
  below high low -> is_nan low = true -> is_nan high = true.
Proof.
  intros (_ & _ & [N|L]) H; [exact N|].
  unfold le in L. rewrite FloatAxioms.leb_spec in L. apply is_nan_iff in H.
  rewrite H in L. destruct (Prim2SF high); discriminate.
Qed.

Lemma below_min_max (high low : number) :
  below high low -> is_nan high = false \/ is_nan low = true ->
  Math_min low high = high /\ Math_max low high = low.
Proof.
  intros Hb Hn. apply Math_min_max_ordered.
  assert (Hcase : is_nan high = true /\ is_nan low = true \/ le high low = true).
  { destruct Hn as [N|N].
    - right. apply (below_not_nan _ _ Hb N).
    - left. split; [apply (below_nan _ _ Hb N)|exact N]. }
  destruct Hb as (Sh & Sl & _).
  destruct Hcase as [[Nh Nl]|L].
  - right. rewrite (is_nan_eq _ Nh), (is_nan_eq _ Nl). reflexivity.
  - unfold le in L. rewrite FloatAxioms.leb_spec in L.
    destruct (SFleb_signClear_cases _ _ Sh Sl L) as [Hlt|Heq].
    + left. unfold lt. rewrite FloatAxioms.ltb_spec. exact Hlt.
    + right. apply Prim2SF_inj, Heq.
Qed.

(* ================================================================= *)
(** ** The monad of events and errors *)

Lemma outcome_bind {A B} (m : M A) (k : A -> M B) :
  outcome (bind m k) =
  match outcome m with
  | Ok a => outcome (k a)
  | Throw message => Throw message
  end.
Proof.
  destruct m as [ev [a|msg]]; simpl; [destruct (k a)|]; reflexivity.
Qed.

Lemma events_bind {A B} (m : M A) (k : A -> M B) :
  events (bind m k) =
  match outcome m with
  | Ok a => (events m ++ events (k a))%list
  | Throw _ => events m
  end.
Proof.
  destruct m as [ev [a|msg]]; simpl; [destruct (k a)|]; reflexivity.
Qed.

Lemma bind_ret_l {A B} (a : A) (k : A -> M B) : bind (ret a) k = k a.
Proof. unfold bind, ret. destruct (k a); reflexivity. Qed.

Lemma bind_Ok {A B} (m : M A) (k : A -> M B) (b : B) :
  outcome (bind m k) = Ok b ->
  exists a, outcome m = Ok a /\ outcome (k a) = Ok b.
Proof.
  rewrite outcome_bind. destruct (outcome m) as [a|msg]; [eauto | discriminate].
Qed.

Lemma silent_ret {A} (a : A) : silent (ret a).
Proof. reflexivity. Qed.

Lemma silent_throw {A} (message : string) : silent (@throw A message).
Proof. reflexivity. Qed.

Lemma silent_bind {A B} (m : M A) (k : A -> M B) :
  silent m -> (forall a, silent (k a)) -> silent (bind m k).
Proof.
  unfold silent. intros Hm Hk. rewrite events_bind, Hm.
  destruct (outcome m); [apply Hk | reflexivity].
Qed.

Lemma silent_eq {A} (m : M A) : silent m -> m = ([], outcome m).
Proof. destruct m as [ev r]. unfold silent. simpl. intros ->. reflexivity. Qed.

Lemma events_bind_silent {A B} (m : M A) (k : A -> M B) :
  (forall a, silent (k a)) -> events (bind m k) = events m.
Proof.
  intros Hk. rewrite events_bind. destruct (outcome m); [|reflexivity].
  rewrite Hk. apply app_nil_r.
Qed.

Lemma requirePositive_spec (name : string) (value : number) :
  requirePositive name value =
  if positive value then ret tt else throw (name ++ " must be a positive number.").
Proof.
  unfold requirePositive, positive.
  destruct (Number_isFinite value) eqn:F; simpl; [|reflexivity].
  rewrite (le0_of_finite _ F). destruct (gt value 0%float); reflexivity.
Qed.

Lemma requirePositive_bind_Ok {B} name value (k : M B) (b : B) :
  outcome (requirePositive name value ;;; k) = Ok b ->
  positive value = true /\ outcome k = Ok b.
Proof.
  rewrite requirePositive_spec.
  destruct (positive value); [rewrite bind_ret_l; auto | discriminate].
Qed.

Ltac require_steps H :=
  repeat
    (let Hp := fresh "Hpos" in
     apply requirePositive_bind_Ok in H as [Hp H]).

Lemma silent_requirePositive (name : string) (value : number) :
  silent (requirePositive name value).
Proof. unfold requirePositive. destruct (_ || _); reflexivity. Qed.

Create HintDb silent discriminated.
#[local] Hint Resolve silent_ret silent_throw silent_requirePositive : silent.

Ltac silence :=
  repeat first
    [ progress auto with silent
    | apply silent_bind; [| intros ]
    | match goal with
      | |- silent (match ?x with _ => _ end) => destruct x
      | |- silent (if ?b then _ else _) => destruct b
      | |- silent (let _ := _ in _) => cbv zeta
      end ].

Lemma silent_deriveProcessingTimeSeconds usage throughput :
  silent (deriveProcessingTimeSeconds usage throughput).
Proof. unfold deriveProcessingTimeSeconds. destruct usage; simpl; silence. Qed.

Lemma silent_computeEffectivePowerW input : silent (computeEffectivePowerW input).
Proof. unfold computeEffectivePowerW. silence. Qed.

Lemma silent_applyEfficiencyToTime t efficiency :
  silent (applyEfficiencyToTime t efficiency).
Proof. unfold applyEfficiencyToTime. silence. Qed.

Lemma silent_applyBatchSize e efficiency : silent (applyBatchSize e efficiency).
Proof. unfold applyBatchSize. silence. Qed.

Lemma silent_validateRange name range : silent (validateRange name range).
Proof. unfold validateRange. silence. Qed.

Lemma silent_validateRanges ranges : silent (validateRanges ranges).
Proof.
  unfold validateRanges.
  repeat (apply silent_bind; [apply silent_validateRange | intros _]).
  apply silent_validateRange.
Qed.

#[local] Hint Resolve silent_deriveProcessingTimeSeconds silent_computeEffectivePowerW
  silent_applyEfficiencyToTime silent_applyBatchSize silent_validateRange
  silent_validateRanges : silent.

(* ================================================================= *)
(** ** The estimator, path by path *)

Lemma estimateImpact_paths values2025 input :
  estimateImpact values2025 input =
  (gridIntensity <- resolveGridIntensity values2025 (gridInput input) ;;
   '(effectivePowerW, powerNotes) <- computeEffectivePowerW input ;;
   '(processingTimeSeconds, energyKwh, notes) <-
     match resolveEnergyKwh (ImpactInputs.energy input) with
     | Some energyOverride => energyOverridePath input energyOverride powerNotes
     | None => powerTimePath input effectivePowerW powerNotes
     end ;;
   energyKwh <- applyBatchSize energyKwh (ImpactInputs.efficiency input) ;;
   ret (ImpactResult.mk
          (option_map UsageFields.category (ImpactInputs.usage input))
          energyKwh
          (energyKwh * gridIntensity)%float
          gridIntensity
          effectivePowerW
          processingTimeSeconds
          (finalNotes input gridIntensity notes))).
Proof. reflexivity. Qed.

Lemma silent_energyOverridePath input energyOverride notes :
  silent (energyOverridePath input energyOverride notes).
Proof. unfold energyOverridePath. silence. Qed.

Lemma silent_baseProcessingTime input : silent (baseProcessingTime input).
Proof. unfold baseProcessingTime. silence. Qed.

Lemma silent_powerTimePath input effectivePowerW notes :
  silent (powerTimePath input effectivePowerW notes).
Proof.
  unfold powerTimePath.
  apply silent_bind; [apply silent_baseProcessingTime | intros t]. silence.
Qed.

#[local] Hint Resolve silent_energyOverridePath silent_baseProcessingTime
  silent_powerTimePath : silent.

(** Only the resolution of the grid intensity can emit events. *)
Lemma estimateImpact_events values2025 input :
  events (estimateImpact values2025 input) =
  events (resolveGridIntensity values2025 (gridInput input)).
Proof.
  rewrite estimateImpact_paths. apply events_bind_silent. intros g.
  apply silent_bind; [auto with silent | intros [P pn]].
  apply silent_bind; [destruct (resolveEnergyKwh _); auto with silent | intros [[t e] n]].
  silence.
Qed.

(** What a successful estimate is made of. *)
Lemma estimateImpact_Ok values2025 input result :
  outcome (estimateImpact values2025 input) = Ok result ->
  exists gridIntensity effectivePowerW powerNotes processingTimeSeconds energy notes energyKwh,
    outcome (resolveGridIntensity values2025 (gridInput input)) = Ok gridIntensity
    /\ outcome (computeEffectivePowerW input) = Ok (effectivePowerW, powerNotes)
    /\ outcome
         match resolveEnergyKwh (ImpactInputs.energy input) with
         | Some energyOverride => energyOverridePath input energyOverride powerNotes
         | None => powerTimePath input effectivePowerW powerNotes
         end = Ok (processingTimeSeconds, energy, notes)
    /\ outcome (applyBatchSize energy (ImpactInputs.efficiency input)) = Ok energyKwh
    /\ result =
       ImpactResult.mk
         (option_map UsageFields.category (ImpactInputs.usage input))
         energyKwh
         (energyKwh * gridIntensity)%float
         gridIntensity
         effectivePowerW
         processingTimeSeconds
         (finalNotes input gridIntensity notes).
Proof.
  rewrite estimateImpact_paths. intros H.
  apply bind_Ok in H as (g & Hg & H).
  apply bind_Ok in H as ([P pn] & HP & H).
  apply bind_Ok in H as ([[t e] n] & Ht & H).
  apply bind_Ok in H as (e' & He & H).
  injection H as <-.
  exists g, P, pn, t, e, n, e'. auto.
Qed.

(* ================================================================= *)
(** ** Grid intensity resolver *)

Lemma resolveGridIntensity_total values2025 input :
  exists v, outcome (resolveGridIntensity values2025 input) = Ok v.
Proof.
  unfold resolveGridIntensity.
  destruct (present _ && gt _ _); [eexists; reflexivity|].
  cbv zeta. rewrite outcome_bind.
  destruct (GridIntensityInput.gridIntensityResolver input) as [f|]; simpl.
  - destruct (positiveNumber _); [eexists; reflexivity|].
    destruct (truthyStr (normalizeRegion _ _) && _); [eexists; reflexivity|].
    rewrite outcome_bind. destruct (truthyStr (GridIntensityInput.region input));
      eexists; reflexivity.
  - destruct (truthyStr (normalizeRegion _ _) && _); [eexists; reflexivity|].
    rewrite outcome_bind. destruct (truthyStr (GridIntensityInput.region input));
      eexists; reflexivity.
Qed.

(** C4. An explicit [gridCarbonIntensityGPerKwh > 0] is returned as it is,
    whatever region, resolver and timestamp come with it: no event is
    emitted, so the resolver is not called and no warning about the region
    is raised; the estimator reports that value and is silent too. *)
Theorem explicit_grid_intensity_wins
    values2025 region explicit resolver timestamp :
  gt explicit 0%float = true ->
  resolveGridIntensity values2025
    (GridIntensityInput.mk region (Some explicit) resolver timestamp)
  = ([], Ok explicit)
  /\ forall input,
       gridInput input
       = GridIntensityInput.mk region (Some explicit) resolver timestamp ->
       events (estimateImpact values2025 input) = []
       /\ forall result,
            outcome (estimateImpact values2025 input) = Ok result ->
            ImpactResult.gridCarbonIntensityGPerKwh result = explicit.
Proof.
  intros Hpos.
  assert (Hres : resolveGridIntensity values2025
            (GridIntensityInput.mk region (Some explicit) resolver timestamp)
          = ([], Ok explicit)).
  { unfold resolveGridIntensity. simpl. rewrite Hpos. reflexivity. }
  split; [exact Hres|]. intros input Hin. split.
  - rewrite estimateImpact_events, Hin, Hres. reflexivity.
  - intros result H. apply estimateImpact_Ok in H
      as (g & P & pn & t & e & n & e' & Hg & _ & _ & _ & ->).
    rewrite Hin, Hres in Hg. simpl in Hg. injection Hg as <-. reflexivity.
Qed.

Lemma explicit_grid_intensity_wins_witness :
  resolveGridIntensity sample2025
    (GridIntensityInput.mk (Some "fr") (Some 123.5%float)
       (Some (constantResolver (JsNumber 999%float))) (Some (EpochMs 0%float)))
  = ([], Ok 123.5%float).
Proof.
  apply (explicit_grid_intensity_wins sample2025 (Some "fr") 123.5%float
           (Some (constantResolver (JsNumber 999%float))) (Some (EpochMs 0%float))).
  reflexivity.
Defined.

(** C5 (amended). With no explicit intensity [> 0] and a resolver supplied,
    the resolver is called once with the normalised region and the
    timestamp.  Its answer is used when it is a number [> 0], [+Infinity]
    included: finiteness is not checked.  Any other answer (a number that is
    not [> 0], NaN among them, or a value that is not a number) is dropped
    and resolution goes on exactly as without a resolver, to the region table
    and then the global entry.  Resolution never throws. *)
Theorem resolver_answer_validated
    values2025 region explicit (resolver : GridIntensityResolver) timestamp :
  (forall g, explicit = Some g -> gt g 0%float = false) ->
  let arg := ResolverInput.mk (normalizeRegion values2025 region) timestamp in
  let withResolver :=
    resolveGridIntensity values2025
      (GridIntensityInput.mk region explicit (Some resolver) timestamp) in
  let withoutResolver :=
    resolveGridIntensity values2025
      (GridIntensityInput.mk region explicit None timestamp) in
  (forall x, resolver arg = JsNumber x -> gt x 0%float = true ->
     withResolver = ([ResolverCalled arg], Ok x))
  /\ ((forall x, resolver arg = JsNumber x -> gt x 0%float = false) ->
      withResolver
      = (ResolverCalled arg :: events withoutResolver, outcome withoutResolver))
  /\ (exists v, outcome withResolver = Ok v)
  /\ outcome withoutResolver
     = Ok (let normalizedRegion := normalizeRegion values2025 region in
           let tableValue :=
             lookup (normalizedRegion ?? EmptyString)
               (DEFAULT_GRID_CARBON_G_PER_KWH values2025) in
           if truthyStr normalizedRegion && truthyOpt tableValue
           then tableValue ?? nan
           else lookup "global" (DEFAULT_GRID_CARBON_G_PER_KWH values2025) ?? nan).
Proof.
  intros Hexp arg withResolver withoutResolver.
  assert (Hgate : present explicit && gt (explicit ?? nan) 0%float = false).
  { destruct explicit as [g|]; [simpl; apply Hexp; reflexivity | reflexivity]. }
  subst withResolver withoutResolver.
  split; [|split; [|split]].
  4: {
    unfold resolveGridIntensity. simpl GridIntensityInput.gridCarbonIntensityGPerKwh.
    rewrite Hgate. simpl.
    destruct (truthyStr (normalizeRegion values2025 region) && _); [reflexivity|].
    destruct (truthyStr region); reflexivity. }
  3: apply resolveGridIntensity_total.
  all: unfold resolveGridIntensity;
    simpl GridIntensityInput.gridCarbonIntensityGPerKwh;
    rewrite Hgate; cbv zeta; simpl GridIntensityInput.gridIntensityResolver;
    simpl GridIntensityInput.region; simpl GridIntensityInput.timestamp; fold arg;
    cbv beta iota.
  - intros x Hx Hpos. rewrite Hx. simpl. rewrite Hpos. reflexivity.
  - intros Hbad.
    assert (Hnone : positiveNumber (resolver arg) = None).
    { destruct (resolver arg) as [x| | | | |] eqn:E; try reflexivity.
      simpl. rewrite (Hbad x eq_refl). reflexivity. }
    simpl. rewrite Hnone.
    destruct (truthyStr (normalizeRegion values2025 region) && _); [reflexivity|].
    destruct (truthyStr region); reflexivity.
Qed.

Lemma resolver_answer_validated_witness :
  resolveGridIntensity sample2025
    (GridIntensityInput.mk (Some "EU") None
       (Some (constantResolver (JsNumber 0%float))) None)
  = ([ResolverCalled (ResolverInput.mk (Some "eu") None)], Ok 210.21%float).
Proof.
  destruct (resolver_answer_validated sample2025 (Some "EU") None
              (constantResolver (JsNumber 0%float)) None) as (_ & H & _).
  - discriminate.
  - rewrite H.
    + reflexivity.
    + intros x E. injection E as <-. reflexivity.
Defined.

(** C5 as stated fails on an answer that is [> 0] but not finite: the
    resolver's [Infinity] is used, where the region table holds 210.21 for
    the region. *)
Lemma resolver_infinity_is_used :
  Number_isFinite infinity = false
  /\ outcome (resolveGridIntensity sample2025
                (GridIntensityInput.mk (Some "eu") None
                   (Some (constantResolver (JsNumber infinity))) None))
     = Ok infinity
  /\ outcome (resolveGridIntensity sample2025
                (GridIntensityInput.mk (Some "eu") None None None))
     = Ok 210.21%float.
Proof. repeat split; reflexivity. Qed.

(* ================================================================= *)
(** ** Power model *)

(** The power model, check by check. *)
Lemma computeEffectivePowerW_spec input :
  computeEffectivePowerW input =
  if negb (positive (ImpactInputs.gpuPowerW input))
  then throw "gpuPowerW must be a positive number."
  else if negb (acceptedPower (ImpactInputs.cpuPowerW input))
  then throw "cpuPowerW must be a positive number."
  else if negb (acceptedPower (ImpactInputs.networkPowerW input))
  then throw "networkPowerW must be a positive number."
  else ret (effectivePowerFormula input, powerNotes input).
Proof.
  unfold computeEffectivePowerW, effectivePowerFormula, powerNotes.
  rewrite requirePositive_spec.
  destruct (positive (ImpactInputs.gpuPowerW input)); [|reflexivity].
  rewrite bind_ret_l. cbv zeta.
  assert (Hcheck : forall name (o : option number),
            (if truthy (o ?? 0%float) then requirePositive name (o ?? 0%float) else ret tt)
            = if negb (acceptedPower o)
              then throw (name ++ " must be a positive number.") else ret tt).
  { intros name [x|]; cbn [nullish acceptedPower];
      [|rewrite truthy_zero; reflexivity].
    rewrite requirePositive_spec. destruct (truthy x) eqn:T; cbn [negb orb].
    - destruct (positive x); reflexivity.
    - reflexivity. }
  rewrite !Hcheck. cbn [negb].
  destruct (acceptedPower (ImpactInputs.cpuPowerW input)); [|reflexivity].
  cbn [negb]. rewrite bind_ret_l.
  destruct (acceptedPower (ImpactInputs.networkPowerW input)); reflexivity.
Qed.

Lemma computeEffectivePowerW_Ok input effectivePowerW notes :
  outcome (computeEffectivePowerW input) = Ok (effectivePowerW, notes) ->
  effectivePowerW = effectivePowerFormula input /\ notes = powerNotes input.
Proof.
  rewrite computeEffectivePowerW_spec.
  destruct (positive (ImpactInputs.gpuPowerW input)); [|discriminate].
  destruct (acceptedPower (ImpactInputs.cpuPowerW input)); [|discriminate].
  destruct (acceptedPower (ImpactInputs.networkPowerW input)); [|discriminate].
  unfold outcome, ret. cbn [snd negb]. intros H. injection H as <- <-. auto.
Qed.

Lemma effectivePowerFormula_spec input :
  effectivePowerFormula input =
  effectivePowerSpec
    (ImpactInputs.gpuPowerW input)
    (ImpactInputs.cpuPowerW input)
    (ImpactInputs.networkPowerW input)
    (ImpactInputs.efficiency input ?. EfficiencyOptions.overheadFactor)
    (ImpactInputs.efficiency input ?. EfficiencyOptions.pue).
Proof.
  unfold effectivePowerFormula, effectivePowerSpec.
  rewrite !clamp_refines by reflexivity. reflexivity.
Qed.

Lemma estimateImpact_power_error values2025 input message :
  outcome (computeEffectivePowerW input) = Throw message ->
  outcome (estimateImpact values2025 input) = Throw message.
Proof.
  intros H. rewrite estimateImpact_paths, outcome_bind.
  destruct (resolveGridIntensity_total values2025 (gridInput input)) as (g & ->).
  rewrite outcome_bind, H. reflexivity.
Qed.

Lemma negative_not_accepted (x : number) :
  lt x 0%float = true -> acceptedPower (Some x) = false.
Proof.
  intros H. unfold acceptedPower, positive.
  rewrite (negative_truthy _ H), (negative_not_positive _ H), andb_false_r.
  reflexivity.
Qed.

(** C2. With [gpuPowerW > 0], the effective power that the power model
    computes is [(gpuPowerW + cpuPowerW + networkPowerW) * overheadFactor * pue],
    an omitted [cpuPowerW] or [networkPowerW] counting as 0, [overheadFactor]
    defaulting to 1.0 and clamped to [0.1, 10], [pue] defaulting to 1.0 and
    clamped to [1.0, 3.0].  The model computes it whenever [gpuPowerW] is
    finite as well and the two optional draws are accepted (and throws
    otherwise).  Supplying [overheadFactor] 20 gives the same outcome as
    supplying 10, and 0.01 the same as 0.1, for the power model and for the
    whole estimate. *)
Theorem effective_power_formula values2025 input :
  gt (ImpactInputs.gpuPowerW input) 0%float = true ->
  let spec :=
    effectivePowerSpec
      (ImpactInputs.gpuPowerW input)
      (ImpactInputs.cpuPowerW input)
      (ImpactInputs.networkPowerW input)
      (ImpactInputs.efficiency input ?. EfficiencyOptions.overheadFactor)
      (ImpactInputs.efficiency input ?. EfficiencyOptions.pue) in
  (forall effectivePowerW notes,
     outcome (computeEffectivePowerW input) = Ok (effectivePowerW, notes) ->
     effectivePowerW = spec)
  /\ (forall result,
        outcome (estimateImpact values2025 input) = Ok result ->
        ImpactResult.effectivePowerW result = spec)
  /\ (Number_isFinite (ImpactInputs.gpuPowerW input) = true ->
      acceptedPower (ImpactInputs.cpuPowerW input) = true ->
      acceptedPower (ImpactInputs.networkPowerW input) = true ->
      computeEffectivePowerW input = ret (spec, powerNotes input))
  /\ computeEffectivePowerW (withOverheadFactor 20%float input)
     = computeEffectivePowerW (withOverheadFactor 10%float input)
  /\ computeEffectivePowerW (withOverheadFactor 0.01%float input)
     = computeEffectivePowerW (withOverheadFactor 0.1%float input)
  /\ estimateImpact values2025 (withOverheadFactor 20%float input)
     = estimateImpact values2025 (withOverheadFactor 10%float input)
  /\ estimateImpact values2025 (withOverheadFactor 0.01%float input)
     = estimateImpact values2025 (withOverheadFactor 0.1%float input).
Proof.
  intros Hgpu spec.
  assert (Hok : forall P notes,
            outcome (computeEffectivePowerW input) = Ok (P, notes) -> P = spec).
  { intros P notes. rewrite computeEffectivePowerW_spec.
    destruct (positive _); [|discriminate].
    destruct (acceptedPower _); [|discriminate].
    destruct (acceptedPower _); [|discriminate].
    unfold outcome, ret. cbn [snd]. intros H. injection H as <- _.
    apply effectivePowerFormula_spec. }
  split; [exact Hok|]. split; [|split].
  - intros result H.
    apply estimateImpact_Ok in H
      as (g & P & pn & t & e & n & e' & _ & HP & _ & _ & ->).
    apply (Hok _ _ HP).
  - intros Hfin Hcpu Hnet. rewrite computeEffectivePowerW_spec.
    unfold positive. rewrite Hfin, Hgpu, Hcpu, Hnet. cbn [andb negb].
    rewrite effectivePowerFormula_spec. reflexivity.
  - destruct input as [gpu cpu net mp rg gi ts rs pt us th en [ef|]];
      repeat split; reflexivity.
Qed.

Lemma effective_power_formula_witness :
  computeEffectivePowerW
    (withCpuPowerW (Some 50%float)
       (withOverheadFactor 20%float (minimalInput 350%float 10%float)))
  = computeEffectivePowerW
      (withCpuPowerW (Some 50%float)
         (withOverheadFactor 10%float (minimalInput 350%float 10%float)))
  /\ outcome (computeEffectivePowerW
                (withCpuPowerW (Some 50%float)
                   (withOverheadFactor 20%float (minimalInput 350%float 10%float))))
     = Ok (4000%float,
           [NoteBasePower 400%float; NoteOverheadFactor 10%float; NotePUE 1%float]).
Proof.
  destruct (effective_power_formula sample2025
              (withCpuPowerW (Some 50%float) (minimalInput 350%float 10%float))
              eq_refl) as (_ & _ & _ & H & _).
  split.
  - exact H.
  - destruct (effective_power_formula sample2025
                (withCpuPowerW (Some 50%float)
                   (withOverheadFactor 20%float (minimalInput 350%float 10%float)))
                eq_refl) as (_ & _ & Hret & _).
    rewrite (Hret eq_refl eq_refl eq_refl). reflexivity.
Defined.

(** C8 (amended). A [cpuPowerW] or [networkPowerW] supplied with a negative
    value makes the estimator throw and produce no result; the error names
    the field as soon as the fields checked before it are accepted
    ([gpuPowerW] first, then [cpuPowerW], then [networkPowerW]).  A supplied
    zero is no error: the estimator does exactly what it does when the field
    is omitted. *)
Theorem supplied_power_validation values2025 input :
  (forall cpuPowerW,
     ImpactInputs.cpuPowerW input = Some cpuPowerW ->
     lt cpuPowerW 0%float = true ->
     exists message,
       outcome (estimateImpact values2025 input) = Throw message
       /\ (positive (ImpactInputs.gpuPowerW input) = true ->
           message = "cpuPowerW must be a positive number."))
  /\ (forall networkPowerW,
        ImpactInputs.networkPowerW input = Some networkPowerW ->
        lt networkPowerW 0%float = true ->
        exists message,
          outcome (estimateImpact values2025 input) = Throw message
          /\ (positive (ImpactInputs.gpuPowerW input) = true ->
              acceptedPower (ImpactInputs.cpuPowerW input) = true ->
              message = "networkPowerW must be a positive number."))
  /\ (ImpactInputs.cpuPowerW input = Some 0%float ->
      estimateImpact values2025 input
      = estimateImpact values2025 (withCpuPowerW None input))
  /\ (ImpactInputs.networkPowerW input = Some 0%float ->
      estimateImpact values2025 input
      = estimateImpact values2025 (withNetworkPowerW None input)).
Proof.
  split; [|split; [|split]].
  - intros c Hc Hneg.
    pose proof (computeEffectivePowerW_spec input) as Hspec.
    rewrite Hc, (negative_not_accepted _ Hneg) in Hspec.
    destruct (positive (ImpactInputs.gpuPowerW input)); simpl in Hspec;
      eexists; (split; [apply estimateImpact_power_error; rewrite Hspec; reflexivity|]);
      intros; congruence.
  - intros n Hn Hneg.
    pose proof (computeEffectivePowerW_spec input) as Hspec.
    rewrite Hn, (negative_not_accepted _ Hneg) in Hspec.
    destruct (positive (ImpactInputs.gpuPowerW input));
      destruct (acceptedPower (ImpactInputs.cpuPowerW input)); simpl in Hspec;
      eexists; (split; [apply estimateImpact_power_error; rewrite Hspec; reflexivity|]);
      intros; congruence.
  - intros H. destruct input. simpl in H. subst. reflexivity.
  - intros H. destruct input. simpl in H. subst. reflexivity.
Qed.

Lemma supplied_power_validation_witness :
  outcome (estimateImpact sample2025
             (withCpuPowerW (Some (-50)%float) (minimalInput 100%float 10%float)))
  = Throw "cpuPowerW must be a positive number."
  /\ outcome (estimateImpact sample2025
                (withNetworkPowerW (Some (-20)%float) (minimalInput 100%float 10%float)))
     = Throw "networkPowerW must be a positive number."
  /\ estimateImpact sample2025
       (withCpuPowerW (Some 0%float) (minimalInput 100%float 10%float))
     = estimateImpact sample2025 (minimalInput 100%float 10%float).
Proof.
  split; [|split].
  - destruct (supplied_power_validation sample2025
                (withCpuPowerW (Some (-50)%float) (minimalInput 100%float 10%float)))
      as (H & _).
    destruct (H (-50)%float eq_refl eq_refl) as (message & Hm & Hname).
    rewrite Hm, (Hname eq_refl). reflexivity.
  - destruct (supplied_power_validation sample2025
                (withNetworkPowerW (Some (-20)%float) (minimalInput 100%float 10%float)))
      as (_ & H & _).
    destruct (H (-20)%float eq_refl eq_refl) as (message & Hm & Hname).
    rewrite Hm, (Hname eq_refl eq_refl). reflexivity.
  - destruct (supplied_power_validation sample2025
                (withCpuPowerW (Some 0%float) (minimalInput 100%float 10%float)))
      as (_ & _ & H & _).
    rewrite (H eq_refl). reflexivity.
Defined.

(** C8 as stated fails on a supplied zero: with [cpuPowerW: 0] (or
    [networkPowerW: 0]) no error is raised and a result is produced. *)
Lemma supplied_zero_power_accepted :
  exists result,
    outcome (estimateImpact sample2025
               (withCpuPowerW (Some 0%float) (minimalInput 100%float 10%float)))
    = Ok result
    /\ outcome (estimateImpact sample2025
                  (withNetworkPowerW (Some 0%float) (minimalInput 100%float 10%float)))
       = Ok result
    /\ ImpactResult.effectivePowerW result = 100%float.
Proof. eexists. repeat split; reflexivity. Qed.

(* ================================================================= *)
(** ** Time model *)

Lemma deriveProcessingTimeSeconds_tokens usage inputTokens outputTokens throughput :
  tokenUsage usage inputTokens outputTokens ->
  deriveProcessingTimeSeconds usage throughput =
  let tps := throughput ?. ThroughputConfig.tokensPerSecond in
  if negb (positive inputTokens)
  then throw "inputTokens must be a positive number."
  else if negb (positive outputTokens)
  then throw "outputTokens must be a positive number."
  else if negb (positive (tps ?? nan))
  then throw "throughput.tokensPerSecond must be a positive number."
  else ret ((inputTokens + outputTokens) / (tps ?? nan))%float.
Proof.
  intros [-> | [-> | ->]]; unfold deriveProcessingTimeSeconds;
    cbn [UsageFields.processingTimeSeconds]; cbv zeta;
    rewrite !requirePositive_spec;
    (destruct (positive inputTokens); [|reflexivity]);
    rewrite bind_ret_l;
    (destruct (positive outputTokens); [|reflexivity]);
    rewrite bind_ret_l;
    (destruct (positive (throughput ?. ThroughputConfig.tokensPerSecond ?? nan)); reflexivity).
Qed.

Lemma applyEfficiencyToTime_spec processingTimeSeconds efficiency :
  applyEfficiencyToTime processingTimeSeconds efficiency =
  match efficiency ?. EfficiencyOptions.efficiencyFactor with
  | Some efficiencyFactor =>
      if negb (truthy efficiencyFactor) then ret processingTimeSeconds
      else if positive efficiencyFactor
      then ret (processingTimeSeconds / efficiencyFactor)%float
      else throw "efficiency.efficiencyFactor must be a positive number."
  | None => ret processingTimeSeconds
  end.
Proof.
  unfold applyEfficiencyToTime.
  destruct (efficiency ?. EfficiencyOptions.efficiencyFactor) as [f|]; [|reflexivity].
  destruct (truthy f); [|reflexivity]. cbn [negb].
  rewrite requirePositive_spec. destruct (positive f); reflexivity.
Qed.

(** C3 (amended). For a token-based usage without a usage-level
    [processingTimeSeconds], the derived time is
    [(inputTokens + outputTokens) / tokensPerSecond] when [inputTokens],
    [outputTokens] and [throughput.tokensPerSecond] are positive numbers, that
    is finite and [> 0]; with one of the three not so, [Infinity] included,
    the derivation throws.  The efficiency step divides a time by a supplied
    [efficiencyFactor] that is finite and [> 0]; it leaves the time unchanged
    when none is supplied, and also when the supplied one is 0 or NaN, which
    is passed over, not rejected; for any other supplied value (negative,
    infinite) it throws.  In the estimator the step runs on the derived time
    when there is no energy override; with an override the usage's token
    counts are not turned into a time at all and the reported time is 0. *)
Theorem token_processing_time
    values2025 usage inputTokens outputTokens throughput tokensPerSecond :
  tokenUsage usage inputTokens outputTokens ->
  throughput ?. ThroughputConfig.tokensPerSecond = Some tokensPerSecond ->
  let derived := ((inputTokens + outputTokens) / tokensPerSecond)%float in
  (positive inputTokens = true ->
   positive outputTokens = true ->
   positive tokensPerSecond = true ->
   deriveProcessingTimeSeconds usage throughput = ret derived)
  /\ (positive inputTokens && positive outputTokens && positive tokensPerSecond = false ->
      exists message, deriveProcessingTimeSeconds usage throughput = throw message)
  /\ (forall time efficiency,
        (forall efficiencyFactor,
           efficiency ?. EfficiencyOptions.efficiencyFactor = Some efficiencyFactor ->
           positive efficiencyFactor = true ->
           applyEfficiencyToTime time efficiency = ret (time / efficiencyFactor)%float)
        /\ (efficiency ?. EfficiencyOptions.efficiencyFactor = None ->
            applyEfficiencyToTime time efficiency = ret time)
        /\ (forall efficiencyFactor,
              efficiency ?. EfficiencyOptions.efficiencyFactor = Some efficiencyFactor ->
              truthy efficiencyFactor = false ->
              applyEfficiencyToTime time efficiency = ret time)
        /\ (forall efficiencyFactor,
              efficiency ?. EfficiencyOptions.efficiencyFactor = Some efficiencyFactor ->
              truthy efficiencyFactor = true ->
              positive efficiencyFactor = false ->
              applyEfficiencyToTime time efficiency
              = throw "efficiency.efficiencyFactor must be a positive number."))
  /\ (forall input result,
        ImpactInputs.usage input = Some usage ->
        ImpactInputs.throughput input = throughput ->
        ImpactInputs.processingTimeSeconds input = None ->
        outcome (estimateImpact values2025 input) = Ok result ->
        (resolveEnergyKwh (ImpactInputs.energy input) = None ->
         (forall efficiencyFactor,
            ImpactInputs.efficiency input ?. EfficiencyOptions.efficiencyFactor
            = Some efficiencyFactor ->
            positive efficiencyFactor = true ->
            ImpactResult.processingTimeSeconds result
            = (derived / efficiencyFactor)%float)
         /\ (ImpactInputs.efficiency input ?. EfficiencyOptions.efficiencyFactor = None ->
             ImpactResult.processingTimeSeconds result = derived)
         /\ (forall efficiencyFactor,
               ImpactInputs.efficiency input ?. EfficiencyOptions.efficiencyFactor
               = Some efficiencyFactor ->
               truthy efficiencyFactor = false ->
               ImpactResult.processingTimeSeconds result = derived))
        /\ (forall energyOverride,
              resolveEnergyKwh (ImpactInputs.energy input) = Some energyOverride ->
              ImpactResult.processingTimeSeconds result = 0%float))
  /\ (forall input power efficiencyFactor,
        ImpactInputs.usage input = Some usage ->
        ImpactInputs.throughput input = throughput ->
        ImpactInputs.processingTimeSeconds input = None ->
        resolveEnergyKwh (ImpactInputs.energy input) = None ->
        positive inputTokens = true ->
        positive outputTokens = true ->
        positive tokensPerSecond = true ->
        outcome (computeEffectivePowerW input) = Ok power ->
        ImpactInputs.efficiency input ?. EfficiencyOptions.efficiencyFactor
        = Some efficiencyFactor ->
        truthy efficiencyFactor = true ->
        positive efficiencyFactor = false ->
        outcome (estimateImpact values2025 input)
        = Throw "efficiency.efficiencyFactor must be a positive number.").
Proof.
  intros Husage Htps derived.
  pose proof (deriveProcessingTimeSeconds_tokens usage _ _ throughput Husage) as Hd.
  rewrite Htps in Hd. cbv zeta in Hd. cbn [nullish] in Hd.
  assert (Heff : forall time efficiency,
            (forall efficiencyFactor,
               efficiency ?. EfficiencyOptions.efficiencyFactor = Some efficiencyFactor ->
               positive efficiencyFactor = true ->
               applyEfficiencyToTime time efficiency = ret (time / efficiencyFactor)%float)
            /\ (efficiency ?. EfficiencyOptions.efficiencyFactor = None ->
                applyEfficiencyToTime time efficiency = ret time)
            /\ (forall efficiencyFactor,
                  efficiency ?. EfficiencyOptions.efficiencyFactor
                  = Some efficiencyFactor ->
                  truthy efficiencyFactor = false ->
                  applyEfficiencyToTime time efficiency = ret time)
            /\ (forall efficiencyFactor,
                  efficiency ?. EfficiencyOptions.efficiencyFactor
                  = Some efficiencyFactor ->
                  truthy efficiencyFactor = true ->
                  positive efficiencyFactor = false ->
                  applyEfficiencyToTime time efficiency
                  = throw "efficiency.efficiencyFactor must be a positive number.")).
  { intros time efficiency. rewrite applyEfficiencyToTime_spec.
    split; [|split; [|split]].
    - intros f -> Hf. rewrite (positive_is_truthy _ Hf), Hf. reflexivity.
    - intros ->. reflexivity.
    - intros f -> Tf. rewrite Tf. reflexivity.
    - intros f -> Tf Pf. rewrite Tf, Pf. reflexivity. }
  split; [|split; [|split; [exact Heff|split]]].
  - intros Hi Ho Ht. rewrite Hd, Hi, Ho, Ht. reflexivity.
  - intros Hbad. rewrite Hd.
    destruct (positive inputTokens); [|eexists; reflexivity].
    destruct (positive outputTokens); [|eexists; reflexivity].
    simpl in Hbad. rewrite Hbad. eexists; reflexivity.
  - intros input result Hu Hthr Htime H.
    apply estimateImpact_Ok in H
      as (g & P & pn & t & e & n & e' & _ & _ & Hpath & _ & ->).
    cbn [ImpactResult.processingTimeSeconds]. split.
    + intros Hnone. rewrite Hnone in Hpath. unfold powerTimePath in Hpath.
      apply bind_Ok in Hpath as (t0 & Ht0 & Hpath).
      apply bind_Ok in Hpath as (t1 & Ht1 & Hpath).
      simpl in Hpath. injection Hpath as <- <- <-.
      unfold baseProcessingTime in Ht0. rewrite Htime, Hu, Hthr, Hd in Ht0.
      assert (t0 = derived) as ->.
      { destruct (positive inputTokens); [|discriminate].
        destruct (positive outputTokens); [|discriminate].
        destruct (positive tokensPerSecond); [|discriminate].
        simpl in Ht0. unfold derived. congruence. }
      destruct (Heff derived (ImpactInputs.efficiency input))
        as (Hdiv & Hsame & Hskip & _).
      split; [|split].
      * intros f Hf Hpos. rewrite (Hdiv f Hf Hpos) in Ht1. simpl in Ht1. congruence.
      * intros Hf. rewrite (Hsame Hf) in Ht1. simpl in Ht1. congruence.
      * intros f Hf Tf. rewrite (Hskip f Hf Tf) in Ht1. simpl in Ht1. congruence.
    + intros eo Hsome. rewrite Hsome in Hpath. unfold energyOverridePath in Hpath.
      rewrite Htime, Hu in Hpath. cbv zeta in Hpath.
      assert (Hut : Some usage ?. UsageFields.processingTimeSeconds = None).
      { destruct Husage as [-> | [-> | ->]]; reflexivity. }
      rewrite Hut in Hpath. simpl in Hpath. congruence.
  - intros input [P pn] f Hu Hthr Htime Hnone Hi Ho Ht HP Hf Tf Pf.
    destruct (resolveGridIntensity_total values2025 (gridInput input)) as (g & Hg).
    destruct (Heff derived (ImpactInputs.efficiency input)) as (_ & _ & _ & Hthrow).
    rewrite estimateImpact_paths, outcome_bind, Hg, outcome_bind, HP, Hnone.
    rewrite outcome_bind. unfold powerTimePath. rewrite outcome_bind.
    unfold baseProcessingTime. rewrite Htime, Hu, Hthr, Hd, Hi, Ho, Ht.
    cbn [negb]. fold derived.
    change (outcome (ret derived)) with (Ok derived). cbv beta iota.
    rewrite outcome_bind, (Hthrow f Hf Tf Pf). reflexivity.
Qed.

Lemma token_processing_time_witness :
  deriveProcessingTimeSeconds
    (ChatCompletionUsage 1000%float 200%float None)
    (Some (ThroughputConfig.mk (Some 100%float) None None))
  = ret 12%float
  /\ applyEfficiencyToTime 12%float
       (Some (EfficiencyOptions.mk None None (Some 1.2%float) None None None))
     = ret (12 / 1.2)%float.
Proof.
  destruct (token_processing_time sample2025
              (ChatCompletionUsage 1000%float 200%float None) 1000%float 200%float
              (Some (ThroughputConfig.mk (Some 100%float) None None)) 100%float
              (or_introl eq_refl) eq_refl) as (Hderive & _ & Heff & _).
  split.
  - rewrite (Hderive eq_refl eq_refl eq_refl). reflexivity.
  - destruct (Heff 12%float
                (Some (EfficiencyOptions.mk None None (Some 1.2%float) None None None)))
      as (Hdiv & _).
    apply (Hdiv 1.2%float eq_refl eq_refl).
Defined.

(** C3 as stated fails where it takes [> 0] for the requirement.  A supplied
    [efficiencyFactor] of 0 is not rejected: the estimate succeeds and
    reports the derived time, 12 s, undivided.  And a [tokensPerSecond] of
    [Infinity], which is [> 0], does not give the time
    [(inputTokens + outputTokens) / Infinity] but an error. *)
Lemma zero_efficiencyFactor_is_skipped :
  (exists result,
     outcome (estimateImpact sample2025 (withEfficiencyFactor 0%float chatScenario))
     = Ok result
     /\ ImpactResult.processingTimeSeconds result = 12%float)
  /\ gt infinity 0%float = true
  /\ deriveProcessingTimeSeconds
       (ChatCompletionUsage 1000%float 200%float None)
       (Some (ThroughputConfig.mk (Some infinity) None None))
     = throw "throughput.tokensPerSecond must be a positive number.".
Proof.
  split; [eexists; split; reflexivity|]. split; reflexivity.
Qed.

(* ================================================================= *)
(** ** Energy and CO2 of an accepted input *)

Lemma deriveProcessingTimeSeconds_sign usage throughput time :
  outcome (deriveProcessingTimeSeconds usage throughput) = Ok time ->
  neverNegative time.
Proof.
  unfold deriveProcessingTimeSeconds.
  destruct usage as [i o [t|] | i o [t|] | i [t|] | i o [t|] | a [t|] | a [t|] | a [t|]
                    | w h n [t|]];
    cbn [UsageFields.processingTimeSeconds]; cbv zeta; intros H; require_steps H;
    unfold outcome, ret in H; cbn [snd] in H; injection H as <-;
    try (apply positive_neverNegative; assumption);
    apply div_neverNegative;
    repeat first
      [ apply positive_gt; assumption
      | apply positive_neverNegative; assumption
      | apply add_neverNegative
      | apply mul_neverNegative ].
Qed.

Lemma baseProcessingTime_sign input time :
  outcome (baseProcessingTime input) = Ok time -> neverNegative time.
Proof.
  unfold baseProcessingTime.
  destruct (ImpactInputs.processingTimeSeconds input) as [t|].
  - intros H. require_steps H. unfold outcome, ret in H. cbn [snd] in H.
    injection H as <-. apply positive_neverNegative. assumption.
  - destruct (ImpactInputs.usage input) as [usage|]; [|discriminate].
    apply deriveProcessingTimeSeconds_sign.
Qed.

Lemma applyEfficiencyToTime_sign time efficiency time' :
  outcome (applyEfficiencyToTime time efficiency) = Ok time' ->
  neverNegative time -> neverNegative time'.
Proof.
  rewrite applyEfficiencyToTime_spec.
  destruct (efficiency ?. EfficiencyOptions.efficiencyFactor) as [f|].
  - destruct (truthy f); cbn [negb].
    + destruct (positive f) eqn:Hf; [|discriminate].
      unfold outcome, ret. cbn [snd]. intros H. injection H as <-. intros Ht.
      apply div_neverNegative; [exact Ht | apply positive_gt, Hf].
    + unfold outcome, ret. cbn [snd]. congruence.
  - unfold outcome, ret. cbn [snd]. congruence.
Qed.

Lemma applyBatchSize_sign energy efficiency energy' :
  outcome (applyBatchSize energy efficiency) = Ok energy' ->
  neverNegative energy -> neverNegative energy'.
Proof.
  unfold applyBatchSize.
  destruct (efficiency ?. EfficiencyOptions.batchSize) as [b|].
  - destruct (truthy b); cbn [negb].
    + intros H. require_steps H. unfold outcome, ret in H. cbn [snd] in H.
      injection H as <-. intros He.
      apply div_neverNegative; [exact He | apply positive_gt; assumption].
    + unfold outcome, ret. cbn [snd]. congruence.
  - unfold outcome, ret. cbn [snd]. congruence.
Qed.

Lemma acceptedPower_sign (o : option number) :
  acceptedPower o = true -> neverNegative (o ?? 0%float).
Proof.
  destruct o as [x|]; [|reflexivity]. cbn [acceptedPower nullish].
  destruct (truthy x) eqn:T; cbn [negb orb].
  - apply positive_neverNegative.
  - intros _. apply falsy_neverNegative, T.
Qed.

Lemma computeEffectivePowerW_sign input effectivePowerW notes :
  outcome (computeEffectivePowerW input) = Ok (effectivePowerW, notes) ->
  neverNegative effectivePowerW.
Proof.
  rewrite computeEffectivePowerW_spec.
  destruct (positive _) eqn:Hgpu; [|discriminate].
  destruct (acceptedPower (ImpactInputs.cpuPowerW input)) eqn:Hcpu; [|discriminate].
  destruct (acceptedPower (ImpactInputs.networkPowerW input)) eqn:Hnet; [|discriminate].
  unfold outcome, ret. cbn [snd negb]. intros H. injection H as <- _.
  rewrite effectivePowerFormula_spec. unfold effectivePowerSpec.
  repeat apply mul_neverNegative;
    try (apply clampSpec_neverNegative; reflexivity).
  repeat apply add_neverNegative;
    auto using positive_neverNegative, acceptedPower_sign.
Qed.

Lemma resolveEnergyKwh_sign energy energyKwh :
  resolveEnergyKwh energy = Some energyKwh -> neverNegative energyKwh.
Proof.
  unfold resolveEnergyKwh. cbv zeta.
  destruct (energy ?. EnergyInputs.energyKwh) as [k|]; cbn [truthyOpt nullish andb].
  - destruct (truthy k && gt k 0%float) eqn:Hk.
    + intros H. injection H as <-. apply andb_true_iff in Hk as [_ Hk].
      apply gt_neverNegative, Hk.
    + destruct (energy ?. EnergyInputs.energyJoules) as [j|];
        cbn [truthyOpt nullish andb]; [|discriminate].
      destruct (truthy j && gt j 0%float) eqn:Hj; [|discriminate].
      intros H. injection H as <-. apply andb_true_iff in Hj as [_ Hj].
      apply div_neverNegative; [apply gt_neverNegative, Hj | reflexivity].
  - destruct (energy ?. EnergyInputs.energyJoules) as [j|];
      cbn [truthyOpt nullish andb]; [|discriminate].
    destruct (truthy j && gt j 0%float) eqn:Hj; [|discriminate].
    intros H. injection H as <-. apply andb_true_iff in Hj as [_ Hj].
    apply div_neverNegative; [apply gt_neverNegative, Hj | reflexivity].
Qed.

Lemma energyOverridePath_energy input energyOverride notes time energy notes' :
  outcome (energyOverridePath input energyOverride notes) = Ok (time, energy, notes') ->
  energy = energyOverride.
Proof.
  unfold energyOverridePath. cbv zeta.
  destruct (ImpactInputs.processingTimeSeconds input) as [t|].
  - intros H. require_steps H. unfold outcome, ret in H. cbn [snd] in H. congruence.
  - destruct (truthyOpt _).
    + intros H. require_steps H. unfold outcome, ret in H. cbn [snd] in H. congruence.
    + unfold outcome, ret. cbn [snd]. congruence.
Qed.

Lemma powerTimePath_sign input effectivePowerW notes time energy notes' :
  outcome (powerTimePath input effectivePowerW notes) = Ok (time, energy, notes') ->
  neverNegative effectivePowerW -> neverNegative energy.
Proof.
  unfold powerTimePath. intros H HP.
  apply bind_Ok in H as (t0 & Ht0 & H).
  apply bind_Ok in H as (t1 & Ht1 & H).
  unfold outcome, ret in H. cbn [snd] in H. injection H as <- <- <-.
  apply baseProcessingTime_sign in Ht0.
  apply (applyEfficiencyToTime_sign _ _ _ Ht1) in Ht0.
  repeat apply div_neverNegative; try reflexivity.
  apply mul_neverNegative; assumption.
Qed.

Lemma lookup_spread {A : Type} (key : string) (a b : list (string * A)) :
  lookup key (spread a b) =
  match lookup key b with
  | Some v => Some v
  | None => lookup key a
  end.
Proof.
  unfold spread. induction b as [|[k v] b IH]; [reflexivity|].
  simpl. destruct (String.eqb k key); [reflexivity | exact IH].
Qed.

Lemma BASE_sign (key : string) :
  neverNegative (lookup key BASE_GRID_CARBON_G_PER_KWH ?? nan).
Proof.
  unfold BASE_GRID_CARBON_G_PER_KWH. cbn [lookup].
  repeat (match goal with
          | |- context [String.eqb ?k key] => destruct (String.eqb k key)
          end; [reflexivity|]).
  reflexivity.
Qed.

Lemma DEFAULT_sign values2025 (key : string) :
  noNegativeIntensity values2025 ->
  neverNegative (lookup key (DEFAULT_GRID_CARBON_G_PER_KWH values2025) ?? nan).
Proof.
  intros Hvalues. unfold DEFAULT_GRID_CARBON_G_PER_KWH. rewrite lookup_spread.
  destruct (lookup key values2025) as [v|] eqn:E.
  - apply (Hvalues key v E).
  - apply BASE_sign.
Qed.

Lemma positiveNumber_sign (v : JsValue) (x : number) :
  positiveNumber v = Some x -> neverNegative x.
Proof.
  destruct v as [y| | | | |]; try discriminate. simpl.
  destruct (gt y 0%float) eqn:E; [|discriminate].
  intros H. injection H as <-. apply gt_neverNegative, E.
Qed.

Lemma resolveGridIntensity_sign values2025 input gridIntensity :
  noNegativeIntensity values2025 ->
  outcome (resolveGridIntensity values2025 input) = Ok gridIntensity ->
  neverNegative gridIntensity.
Proof.
  intros Hvalues. unfold resolveGridIntensity. cbv zeta.
  destruct (present _ && gt _ 0%float) eqn:E.
  - unfold outcome, ret. cbn [snd]. intros H. injection H as <-.
    apply andb_true_iff in E as [_ E]. apply gt_neverNegative, E.
  - intros H. apply bind_Ok in H as (resolved & Hres & H).
    destruct resolved as [r|].
    + unfold outcome, ret in H. cbn [snd] in H. injection H as <-.
      destruct (GridIntensityInput.gridIntensityResolver input) as [f|];
        [|discriminate].
      rewrite outcome_bind in Hres. simpl in Hres. injection Hres as Hres.
      apply (positiveNumber_sign _ _ Hres).
    + destruct (truthyStr _ && truthyOpt _).
      * unfold outcome, ret in H. cbn [snd] in H. injection H as <-.
        apply DEFAULT_sign, Hvalues.
      * apply bind_Ok in H as (u & _ & H).
        unfold outcome, ret in H. cbn [snd] in H. injection H as <-.
        apply DEFAULT_sign, Hvalues.
Qed.

(** C1 (amended). For every input that [estimateImpact] accepts, [co2Grams] is
    exactly [energyKwh * gridCarbonIntensityGPerKwh] of the same result, and
    neither [energyKwh] nor [co2Grams] is negative: each is [>= 0] or NaN (the
    dataset holding no negative intensity).  NaN does occur, since the
    estimator accepts a NaN [pue], [overheadFactor], [cpuPowerW] or
    [networkPowerW] and does not guard against an overflow to Infinity
    meeting an underflow to 0. *)
Theorem estimate_signs values2025 input result :
  noNegativeIntensity values2025 ->
  outcome (estimateImpact values2025 input) = Ok result ->
  ImpactResult.co2Grams result
  = (ImpactResult.energyKwh result * ImpactResult.gridCarbonIntensityGPerKwh result)%float
  /\ (ge (ImpactResult.energyKwh result) 0%float = true
      \/ is_nan (ImpactResult.energyKwh result) = true)
  /\ (ge (ImpactResult.co2Grams result) 0%float = true
      \/ is_nan (ImpactResult.co2Grams result) = true).
Proof.
  intros Hvalues H.
  apply estimateImpact_Ok in H
    as (g & P & pn & t & e & n & e' & Hg & HP & Hpath & Hbatch & ->).
  cbn [ImpactResult.co2Grams ImpactResult.energyKwh
       ImpactResult.gridCarbonIntensityGPerKwh].
  rewrite <- !neverNegative_iff.
  apply resolveGridIntensity_sign in Hg; [|exact Hvalues].
  apply computeEffectivePowerW_sign in HP.
  assert (He : neverNegative e).
  { destruct (resolveEnergyKwh (ImpactInputs.energy input)) as [eo|] eqn:Hov.
    - apply energyOverridePath_energy in Hpath. subst e.
      apply (resolveEnergyKwh_sign _ _ Hov).
    - apply (powerTimePath_sign _ _ _ _ _ _ Hpath HP). }
  apply (applyBatchSize_sign _ _ _ Hbatch) in He.
  split; [reflexivity|]. split; [exact He|].
  apply mul_neverNegative; assumption.
Qed.

Lemma sample2025_noNegativeIntensity : noNegativeIntensity sample2025.
Proof.
  intros region v. unfold sample2025. cbn [lookup].
  repeat (match goal with
          | |- context [String.eqb ?k region] => destruct (String.eqb k region)
          end; [intros H; injection H as <-; reflexivity|]).
  discriminate.
Qed.

Lemma estimate_signs_witness :
  exists result,
    outcome (estimateImpact sample2025 chatScenario) = Ok result
    /\ ImpactResult.co2Grams result
       = (ImpactResult.energyKwh result * 210.21)%float
    /\ (ge (ImpactResult.energyKwh result) 0%float = true
        \/ is_nan (ImpactResult.energyKwh result) = true).
Proof.
  eexists. split; [reflexivity|].
  destruct (estimate_signs sample2025 chatScenario _
              sample2025_noNegativeIntensity eq_refl) as (Hco2 & Henergy & _).
  split; [exact Hco2 | exact Henergy].
Defined.

(** C1 as stated fails on accepted inputs whose energy comes out as NaN,
    which is not [>= 0]: an input with a NaN [pue], and an input of finite
    positive numbers only whose power overflows to Infinity (1e308 W times an
    overhead of 10) while its time underflows to 0 (5e-324 s divided by an
    efficiency factor of 2). *)
Lemma estimate_can_be_nan :
  exists result result',
    outcome (estimateImpact sample2025
               (withPue nan (minimalInput 100%float 10%float))) = Ok result
    /\ is_nan (ImpactResult.energyKwh result) = true
    /\ ge (ImpactResult.energyKwh result) 0%float = false
    /\ ge (ImpactResult.co2Grams result) 0%float = false
    /\ outcome (estimateImpact sample2025
                  (withEfficiencyFactor 2%float
                     (withOverheadFactor 10%float
                        (minimalInput 1e308%float 5e-324%float)))) = Ok result'
    /\ ge (ImpactResult.energyKwh result') 0%float = false
    /\ ge (ImpactResult.co2Grams result') 0%float = false.
Proof. do 2 eexists. repeat split; reflexivity. Qed.

(* ================================================================= *)
(** ** Range evaluator *)

(** What the estimator takes as an override, the range evaluator does too. *)
Lemma resolveEnergyKwh_hasEnergyOverride input energyKwh :
  resolveEnergyKwh (ImpactInputs.energy input) = Some energyKwh ->
  hasEnergyOverride input = true.
Proof.
  unfold resolveEnergyKwh, hasEnergyOverride. cbv zeta.
  destruct (truthyOpt (ImpactInputs.energy input ?. EnergyInputs.energyKwh)); simpl;
    [reflexivity|].
  destruct (truthyOpt (ImpactInputs.energy input ?. EnergyInputs.energyJoules)); simpl;
    [reflexivity | discriminate].
Qed.

Lemma no_override_resolveEnergyKwh input :
  hasEnergyOverride input = false ->
  resolveEnergyKwh (ImpactInputs.energy input) = None.
Proof.
  intros H. destruct (resolveEnergyKwh _) as [e|] eqn:E; [|reflexivity].
  apply resolveEnergyKwh_hasEnergyOverride in E. congruence.
Qed.

Lemma estimateImpactRange_override values2025 input ranges :
  hasEnergyOverride input = true ->
  outcome (validateRanges ranges) = Ok tt ->
  estimateImpactRange values2025 input ranges
  = (events (estimateImpact values2025 input),
     match outcome (estimateImpact values2025 input) with
     | Ok base => Ok (degenerateRange base)
     | Throw message => Throw message
     end).
Proof.
  intros Hov Hval. unfold estimateImpactRange.
  rewrite (silent_eq _ (silent_validateRanges ranges)), Hval, Hov.
  change ([], Ok tt) with (@ret unit tt). rewrite bind_ret_l.
  destruct (estimateImpact values2025 input) as [ev [base|message]]; simpl;
    [rewrite app_nil_r|]; reflexivity.
Qed.

(** C7. When the input carries an energy override, that is a truthy
    [energy.energyKwh] or [energy.energyJoules], and the supplied ranges pass
    validation, the range evaluator runs the estimator once, on the unchanged
    input, and returns that result as [base] with
    [energyKwhMin = energyKwhMax = base.energyKwh] and
    [co2GramsMin = co2GramsMax = base.co2Grams]; the ranges play no part. *)
Theorem energy_override_ignores_ranges values2025 input ranges :
  hasEnergyOverride input = true ->
  outcome (validateRanges ranges) = Ok tt ->
  events (estimateImpactRange values2025 input ranges)
  = events (estimateImpact values2025 input)
  /\ (forall message,
        outcome (estimateImpact values2025 input) = Throw message ->
        outcome (estimateImpactRange values2025 input ranges) = Throw message)
  /\ (forall base,
        outcome (estimateImpact values2025 input) = Ok base ->
        exists result,
          outcome (estimateImpactRange values2025 input ranges) = Ok result
          /\ ImpactRangeResult.base result = base
          /\ ImpactRangeResult.energyKwhMin result = ImpactResult.energyKwh base
          /\ ImpactRangeResult.energyKwhMax result = ImpactResult.energyKwh base
          /\ ImpactRangeResult.co2GramsMin result = ImpactResult.co2Grams base
          /\ ImpactRangeResult.co2GramsMax result = ImpactResult.co2Grams base).
Proof.
  intros Hov Hval. rewrite (estimateImpactRange_override _ _ _ Hov Hval).
  split; [reflexivity|]. split.
  - intros message H. simpl. rewrite H. reflexivity.
  - intros base H. exists (degenerateRange base). simpl. rewrite H.
    repeat split; reflexivity.
Qed.

Lemma energy_override_ignores_ranges_witness :
  exists result,
    outcome (estimateImpactRange sample2025
               (withEnergy (EnergyInputs.mk (Some 0.002%float) None) chatScenario)
               allRanges) = Ok result
    /\ ImpactRangeResult.energyKwhMin result = 0.002%float
    /\ ImpactRangeResult.energyKwhMax result = 0.002%float.
Proof.
  destruct (energy_override_ignores_ranges sample2025
              (withEnergy (EnergyInputs.mk (Some 0.002%float) None) chatScenario)
              allRanges eq_refl eq_refl) as (_ & _ & H).
  destruct (H _ eq_refl) as (result & Hr & _ & Hmin & Hmax & _).
  exists result. repeat split; assumption.
Defined.

Lemma estimateImpact_energy_irrelevant values2025 input :
  resolveEnergyKwh (ImpactInputs.energy input) = None ->
  estimateImpact values2025 input = estimateImpact values2025 (withoutEnergy input).
Proof.
  intros H. rewrite !estimateImpact_paths. destruct input. simpl in *.
  rewrite H. reflexivity.
Qed.

(** C10. For an input whose [energy.energyKwh] is negative and whose
    [energy.energyJoules] is absent, the estimator finds no override: it
    behaves exactly as on the same input without [energy], so the energy comes
    from power and time, and the missing-combination error is raised when
    neither [processingTimeSeconds] nor [usage] is there (the power inputs
    being accepted).  The range evaluator, though, takes the same input as
    carrying an override: with ranges that pass validation it returns the base
    result with all four bounds on it. *)
Theorem negative_energyKwh_mismatch values2025 input energyKwh ranges :
  ImpactInputs.energy input = Some (EnergyInputs.mk (Some energyKwh) None) ->
  lt energyKwh 0%float = true ->
  resolveEnergyKwh (ImpactInputs.energy input) = None
  /\ estimateImpact values2025 input = estimateImpact values2025 (withoutEnergy input)
  /\ (forall result,
        outcome (estimateImpact values2025 input) = Ok result ->
        exists processingTimeSeconds,
          outcome (baseProcessingTime input) = Ok processingTimeSeconds
          /\ outcome (applyEfficiencyToTime processingTimeSeconds
                        (ImpactInputs.efficiency input))
             = Ok (ImpactResult.processingTimeSeconds result)
          /\ outcome (applyBatchSize
                        (ImpactResult.effectivePowerW result
                         * ImpactResult.processingTimeSeconds result / 3600 / 1000)%float
                        (ImpactInputs.efficiency input))
             = Ok (ImpactResult.energyKwh result))
  /\ (ImpactInputs.processingTimeSeconds input = None ->
      ImpactInputs.usage input = None ->
      forall power,
        outcome (computeEffectivePowerW input) = Ok power ->
        outcome (estimateImpact values2025 input)
        = Throw "Either processingTimeSeconds, usage, or energy must be provided.")
  /\ hasEnergyOverride input = true
  /\ (outcome (validateRanges ranges) = Ok tt ->
      estimateImpactRange values2025 input ranges
      = (events (estimateImpact values2025 input),
         match outcome (estimateImpact values2025 input) with
         | Ok base => Ok (degenerateRange base)
         | Throw message => Throw message
         end)).
Proof.
  intros Henergy Hneg.
  assert (Hnone : resolveEnergyKwh (ImpactInputs.energy input) = None).
  { rewrite Henergy. unfold resolveEnergyKwh. simpl.
    rewrite (negative_not_positive _ Hneg), andb_false_r. reflexivity. }
  assert (Hov : hasEnergyOverride input = true).
  { unfold hasEnergyOverride. rewrite Henergy. simpl.
    rewrite (negative_truthy _ Hneg). reflexivity. }
  split; [exact Hnone|].
  split; [apply estimateImpact_energy_irrelevant; exact Hnone|].
  split; [|split; [|split; [exact Hov|]]].
  - intros result H.
    apply estimateImpact_Ok in H
      as (g & P & pn & t & e & n & e' & _ & _ & Hpath & Hbatch & ->).
    rewrite Hnone in Hpath. unfold powerTimePath in Hpath.
    apply bind_Ok in Hpath as (t0 & Ht0 & Hpath).
    apply bind_Ok in Hpath as (t1 & Ht1 & Hpath).
    simpl in Hpath. injection Hpath as <- <- <-.
    exists t0. simpl. auto.
  - intros Htime Husage power Hpower.
    rewrite estimateImpact_paths, outcome_bind.
    destruct (resolveGridIntensity_total values2025 (gridInput input)) as (g & ->).
    rewrite outcome_bind, Hpower. destruct power as [P pn].
    rewrite outcome_bind, Hnone. unfold powerTimePath.
    rewrite outcome_bind. unfold baseProcessingTime. rewrite Htime, Husage.
    reflexivity.
  - intros Hval. apply estimateImpactRange_override; assumption.
Qed.

Lemma negative_energyKwh_mismatch_witness :
  outcome (estimateImpact sample2025
             (withEnergy (EnergyInputs.mk (Some (-5)%float) None) chatScenario))
  = outcome (estimateImpact sample2025 chatScenario)
  /\ outcome (estimateImpactRange sample2025
                (withEnergy (EnergyInputs.mk (Some (-5)%float) None) chatScenario)
                allRanges)
     = match outcome (estimateImpact sample2025 chatScenario) with
       | Ok base => Ok (degenerateRange base)
       | Throw message => Throw message
       end.
Proof.
  destruct (negative_energyKwh_mismatch sample2025
              (withEnergy (EnergyInputs.mk (Some (-5)%float) None) chatScenario)
              (-5)%float allRanges eq_refl eq_refl) as (_ & H1 & _ & _ & _ & H2).
  split.
  - rewrite H1. reflexivity.
  - rewrite (H2 eq_refl). reflexivity.
Defined.

Lemma estimateImpactRange_envelope values2025 input ranges :
  hasEnergyOverride input = false ->
  outcome (validateRanges ranges) = Ok tt ->
  outcome (estimateImpactRange values2025 input ranges) =
  match outcome (estimateImpact values2025 input) with
  | Throw message => Throw message
  | Ok base =>
      match outcome (estimateImpact values2025
                       (buildInputWithRanges input ranges pick_min)) with
      | Throw message => Throw message
      | Ok low =>
          match outcome (estimateImpact values2025
                           (buildInputWithRanges input ranges pick_max)) with
          | Throw message => Throw message
          | Ok high => Ok (envelope base low high)
          end
      end
  end.
Proof.
  intros Hov Hval. unfold estimateImpactRange.
  rewrite (silent_eq _ (silent_validateRanges ranges)), Hval, Hov.
  change ([], Ok tt) with (@ret unit tt). rewrite bind_ret_l.
  rewrite outcome_bind. destruct (outcome (estimateImpact values2025 input));
    [|reflexivity].
  cbv zeta. rewrite outcome_bind.
  destruct (outcome (estimateImpact values2025 (buildInputWithRanges _ _ pick_min)));
    [|reflexivity].
  rewrite outcome_bind.
  destruct (outcome (estimateImpact values2025 (buildInputWithRanges _ _ pick_max)));
    reflexivity.
Qed.

Lemma deriveProcessingTimeSeconds_isNum usage throughput time :
  outcome (deriveProcessingTimeSeconds usage throughput) = Ok time ->
  isNum time = true.
Proof.
  unfold deriveProcessingTimeSeconds.
  destruct usage as [i o [t|] | i o [t|] | i [t|] | i o [t|] | a [t|] | a [t|] | a [t|]
                    | w h n [t|]];
    cbn [UsageFields.processingTimeSeconds]; cbv zeta; intros H; require_steps H;
    unfold outcome, ret in H; cbn [snd] in H; injection H as <-;
    try (apply positive_isNum; assumption);
    apply div_isNum; try assumption;
    repeat first
      [ apply positive_isNum; assumption
      | apply add_isNum; assumption
      | apply mul_isNum; [|assumption] ].
Qed.

Lemma baseProcessingTime_isNum input time :
  outcome (baseProcessingTime input) = Ok time -> isNum time = true.
Proof.
  unfold baseProcessingTime.
  destruct (ImpactInputs.processingTimeSeconds input) as [t|].
  - intros H. require_steps H. unfold outcome, ret in H. cbn [snd] in H.
    injection H as <-. apply positive_isNum. assumption.
  - destruct (ImpactInputs.usage input) as [usage|]; [|discriminate].
    apply deriveProcessingTimeSeconds_isNum.
Qed.

Lemma computeEffectivePowerW_signClear input effectivePowerW notes :
  outcome (computeEffectivePowerW input) = Ok (effectivePowerW, notes) ->
  signClear effectivePowerW = true.
Proof.
  rewrite computeEffectivePowerW_spec.
  destruct (positive _) eqn:Hgpu; [|discriminate].
  destruct (acceptedPower (ImpactInputs.cpuPowerW input)) eqn:Hcpu; [|discriminate].
  destruct (acceptedPower (ImpactInputs.networkPowerW input)) eqn:Hnet; [|discriminate].
  unfold outcome, ret. cbn [snd negb]. intros H. injection H as <- _.
  rewrite effectivePowerFormula_spec. unfold effectivePowerSpec.
  repeat apply mul_signClear;
    try (apply clampSpec_signClear; reflexivity).
  repeat apply add_signClear; auto using acceptedPower_sign.
  apply isNum_signClear, positive_isNum, Hgpu.
Qed.

Lemma applyBatchSize_below high low efficiency energyHigh energyLow :
  below high low ->
  outcome (applyBatchSize high efficiency) = Ok energyHigh ->
  outcome (applyBatchSize low efficiency) = Ok energyLow ->
  below energyHigh energyLow.
Proof.
  unfold applyBatchSize. intros Hb.
  destruct (efficiency ?. EfficiencyOptions.batchSize) as [b|].
  - destruct (truthy b); cbn [negb].
    + intros H1 H2. require_steps H1. require_steps H2.
      unfold outcome, ret in H1, H2. cbn [snd] in H1, H2.
      injection H1 as <-. injection H2 as <-.
      apply div_below; assumption.
    + unfold outcome, ret. cbn [snd]. congruence.
  - unfold outcome, ret. cbn [snd]. congruence.
Qed.

(** The fields of a built input, read through the input's. *)
Lemma build_gpuPowerW input ranges pick :
  Some (ImpactInputs.gpuPowerW (buildInputWithRanges input ranges pick))
  = pickRangeValue (Some (ImpactInputs.gpuPowerW input))
      (UncertaintyRanges.gpuPowerW ranges) pick.
Proof.
  unfold buildInputWithRanges. cbv zeta. cbn [ImpactInputs.gpuPowerW].
  destruct (UncertaintyRanges.gpuPowerW ranges); reflexivity.
Qed.

Lemma build_throughput input ranges pick :
  let throughput := ImpactInputs.throughput input in
  let built := ImpactInputs.throughput (buildInputWithRanges input ranges pick) in
  built ?. ThroughputConfig.tokensPerSecond
  = pickRangeValue (throughput ?. ThroughputConfig.tokensPerSecond)
      (UncertaintyRanges.tokensPerSecond ranges) pick
  /\ built ?. ThroughputConfig.audioSecondsPerSecond
     = pickRangeValue (throughput ?. ThroughputConfig.audioSecondsPerSecond)
         (UncertaintyRanges.audioSecondsPerSecond ranges) pick
  /\ built ?. ThroughputConfig.pixelsPerSecond
     = pickRangeValue (throughput ?. ThroughputConfig.pixelsPerSecond)
         (UncertaintyRanges.pixelsPerSecond ranges) pick.
Proof.
  cbv zeta. unfold buildInputWithRanges. cbv zeta.
  cbn [ImpactInputs.throughput].
  destruct (ImpactInputs.throughput input) as [throughput|].
  - repeat split; reflexivity.
  - destruct (UncertaintyRanges.tokensPerSecond ranges),
      (UncertaintyRanges.audioSecondsPerSecond ranges),
      (UncertaintyRanges.pixelsPerSecond ranges); repeat split; reflexivity.
Qed.

Lemma build_efficiency input ranges pick :
  let efficiency := ImpactInputs.efficiency input in
  let built := ImpactInputs.efficiency (buildInputWithRanges input ranges pick) in
  built ?. EfficiencyOptions.pue
  = pickRangeValue (efficiency ?. EfficiencyOptions.pue)
      (UncertaintyRanges.pue ranges) pick
  /\ built ?. EfficiencyOptions.overheadFactor
     = pickRangeValue (efficiency ?. EfficiencyOptions.overheadFactor)
         (UncertaintyRanges.overheadFactor ranges) pick
  /\ built ?. EfficiencyOptions.efficiencyFactor
     = pickRangeValue (efficiency ?. EfficiencyOptions.efficiencyFactor)
         (UncertaintyRanges.efficiencyFactor ranges) pick
  /\ built ?. EfficiencyOptions.batchSize = efficiency ?. EfficiencyOptions.batchSize
  /\ built ?. EfficiencyOptions.precision = efficiency ?. EfficiencyOptions.precision
  /\ built ?. EfficiencyOptions.quantization
     = efficiency ?. EfficiencyOptions.quantization.
Proof.
  cbv zeta. unfold buildInputWithRanges. cbv zeta.
  cbn [ImpactInputs.efficiency].
  destruct (ImpactInputs.efficiency input) as [efficiency|].
  - repeat split; reflexivity.
  - destruct (UncertaintyRanges.pue ranges),
      (UncertaintyRanges.overheadFactor ranges),
      (UncertaintyRanges.efficiencyFactor ranges); repeat split; reflexivity.
Qed.

Lemma buildInputWithRanges_efficiencyFactor input min max :
  buildInputWithRanges input (onlyEfficiencyFactor min max) pick_min
  = withEfficiencyFactor min input
  /\ buildInputWithRanges input (onlyEfficiencyFactor min max) pick_max
     = withEfficiencyFactor max input.
Proof.
  destruct input as [gpu cpu net mp rg gi ts rs pt us [[tps aps pps]|] en [ef|]];
    split; reflexivity.
Qed.

(** An estimate at a given positive efficiency factor, without energy
    override: the power is that of the input, the time is the input's time
    divided by the factor. *)
Lemma estimateImpact_at_efficiencyFactor values2025 input factor result :
  hasEnergyOverride input = false ->
  positive factor = true ->
  outcome (estimateImpact values2025 (withEfficiencyFactor factor input)) = Ok result ->
  exists time,
    outcome (baseProcessingTime input) = Ok time
    /\ ImpactResult.effectivePowerW result = effectivePowerFormula input
    /\ ImpactResult.processingTimeSeconds result = (time / factor)%float
    /\ outcome (applyBatchSize
                  (effectivePowerFormula input * (time / factor) / 3600 / 1000)%float
                  (ImpactInputs.efficiency input))
       = Ok (ImpactResult.energyKwh result)
    /\ signClear (effectivePowerFormula input) = true
    /\ isNum time = true.
Proof.
  intros Hov Hf H.
  apply estimateImpact_Ok in H
    as (g & P & pn & t & e & n & e' & _ & HP & Hpath & Hbatch & ->).
  pose proof (computeEffectivePowerW_signClear _ _ _ HP) as HsignP.
  assert (Hnone : resolveEnergyKwh
                    (ImpactInputs.energy (withEfficiencyFactor factor input)) = None).
  { apply no_override_resolveEnergyKwh.
    destruct input; exact Hov. }
  rewrite Hnone in Hpath. unfold powerTimePath in Hpath.
  apply bind_Ok in Hpath as (t0 & Ht0 & Hpath).
  apply bind_Ok in Hpath as (t1 & Ht1 & Hpath).
  unfold outcome, ret in Hpath. cbn [snd] in Hpath. injection Hpath as <- <- <-.
  assert (Hbase : baseProcessingTime (withEfficiencyFactor factor input)
                  = baseProcessingTime input) by (destruct input; reflexivity).
  rewrite Hbase in Ht0.
  rewrite applyEfficiencyToTime_spec in Ht1.
  cbn [withEfficiencyFactor withEfficiency ImpactInputs.efficiency optChain
       EfficiencyOptions.efficiencyFactor] in Ht1.
  rewrite (positive_is_truthy _ Hf), Hf in Ht1.
  unfold outcome, ret in Ht1. cbn [snd negb] in Ht1. injection Ht1 as <-.
  apply computeEffectivePowerW_Ok in HP as [-> _].
  assert (Hpow : effectivePowerFormula (withEfficiencyFactor factor input)
                 = effectivePowerFormula input)
    by (destruct input as [gpu cpu net mp rg gi ts rs pt us th en [ef|]]; reflexivity).
  assert (Hb : applyBatchSize
                 (effectivePowerFormula (withEfficiencyFactor factor input)
                  * (t0 / factor) / 3600 / 1000)%float
                 (ImpactInputs.efficiency (withEfficiencyFactor factor input))
               = applyBatchSize
                   (effectivePowerFormula input * (t0 / factor) / 3600 / 1000)%float
                   (ImpactInputs.efficiency input)).
  { rewrite Hpow.
    destruct input as [gpu cpu net mp rg gi ts rs pt us th en [ef|]]; reflexivity. }
  rewrite Hb in Hbatch. rewrite Hpow in HsignP.
  pose proof (baseProcessingTime_isNum _ _ Ht0) as Hnum.
  exists t0. cbn [ImpactResult.effectivePowerW ImpactResult.processingTimeSeconds
                  ImpactResult.energyKwh].
  auto 10.
Qed.

(** C6 (amended). For an input without energy override (neither
    [energy.energyKwh] nor [energy.energyJoules] is truthy) and ranges that
    pass validation, the range evaluator runs the estimator on the input, on
    the all-mins input and on the all-maxes input, throws what the first of
    them to fail throws, and otherwise reports [Math.min] and [Math.max] of
    the two extremes' energy and CO2: whichever extreme yields the smaller
    value gives the lower bound.  The all-mins (all-maxes) input is the
    input with each of the seven ranged quantities read as the [min] ([max])
    of its range when it has one and as in the input when it has none, the
    other fields being those of the input.  With the range
    [efficiencyFactor: {min: 1, max: 2}] alone, the low evaluation is the
    input at efficiency factor 1 and the high one the input at factor 2:
    same effective power, the input's time divided by 1 and by 2.  The high
    evaluation's energy is then NaN whenever the low one's is, and is at most
    the low one's when it is a number; so [energyKwhMin] is the high
    evaluation's energy and [energyKwhMax] the low one's, unless the high
    evaluation's energy is NaN while the low one's is a number, and then
    both bounds are NaN. *)
Theorem range_is_envelope_of_extremes values2025 input ranges :
  hasEnergyOverride input = false ->
  outcome (validateRanges ranges) = Ok tt ->
  let lowInput := buildInputWithRanges input ranges pick_min in
  let highInput := buildInputWithRanges input ranges pick_max in
  outcome (estimateImpactRange values2025 input ranges)
  = match outcome (estimateImpact values2025 input) with
    | Throw message => Throw message
    | Ok base =>
        match outcome (estimateImpact values2025 lowInput) with
        | Throw message => Throw message
        | Ok low =>
            match outcome (estimateImpact values2025 highInput) with
            | Throw message => Throw message
            | Ok high => Ok (envelope base low high)
            end
        end
    end
  /\ (forall base low high,
        let result := envelope base low high in
        (lt (ImpactResult.energyKwh high) (ImpactResult.energyKwh low) = true
         \/ ImpactResult.energyKwh high = ImpactResult.energyKwh low ->
         ImpactRangeResult.energyKwhMin result = ImpactResult.energyKwh high
         /\ ImpactRangeResult.energyKwhMax result = ImpactResult.energyKwh low)
        /\ (lt (ImpactResult.energyKwh low) (ImpactResult.energyKwh high) = true
            \/ ImpactResult.energyKwh low = ImpactResult.energyKwh high ->
            ImpactRangeResult.energyKwhMin result = ImpactResult.energyKwh low
            /\ ImpactRangeResult.energyKwhMax result = ImpactResult.energyKwh high)
        /\ (lt (ImpactResult.co2Grams high) (ImpactResult.co2Grams low) = true
            \/ ImpactResult.co2Grams high = ImpactResult.co2Grams low ->
            ImpactRangeResult.co2GramsMin result = ImpactResult.co2Grams high
            /\ ImpactRangeResult.co2GramsMax result = ImpactResult.co2Grams low)
        /\ (lt (ImpactResult.co2Grams low) (ImpactResult.co2Grams high) = true
            \/ ImpactResult.co2Grams low = ImpactResult.co2Grams high ->
            ImpactRangeResult.co2GramsMin result = ImpactResult.co2Grams low
            /\ ImpactRangeResult.co2GramsMax result = ImpactResult.co2Grams high))
  /\ (ranges = onlyEfficiencyFactor 1%float 2%float ->
      lowInput = withEfficiencyFactor 1%float input
      /\ highInput = withEfficiencyFactor 2%float input
      /\ forall base low high,
           outcome (estimateImpact values2025 lowInput) = Ok low ->
           outcome (estimateImpact values2025 highInput) = Ok high ->
           let result := envelope base low high in
           (exists time,
              outcome (baseProcessingTime input) = Ok time
              /\ ImpactResult.effectivePowerW low = effectivePowerFormula input
              /\ ImpactResult.effectivePowerW high = effectivePowerFormula input
              /\ ImpactResult.processingTimeSeconds low = (time / 1)%float
              /\ ImpactResult.processingTimeSeconds high = (time / 2)%float
              /\ outcome (applyBatchSize
                            (effectivePowerFormula input * (time / 1) / 3600 / 1000)%float
                            (ImpactInputs.efficiency input))
                 = Ok (ImpactResult.energyKwh low)
              /\ outcome (applyBatchSize
                            (effectivePowerFormula input * (time / 2) / 3600 / 1000)%float
                            (ImpactInputs.efficiency input))
                 = Ok (ImpactResult.energyKwh high))
           /\ (is_nan (ImpactResult.energyKwh low) = true ->
               is_nan (ImpactResult.energyKwh high) = true)
           /\ (is_nan (ImpactResult.energyKwh high) = false ->
               le (ImpactResult.energyKwh high) (ImpactResult.energyKwh low) = true)
           /\ (is_nan (ImpactResult.energyKwh high) = false
               \/ is_nan (ImpactResult.energyKwh low) = true ->
               ImpactRangeResult.energyKwhMin result = ImpactResult.energyKwh high
               /\ ImpactRangeResult.energyKwhMax result = ImpactResult.energyKwh low)
           /\ (is_nan (ImpactResult.energyKwh high) = true ->
               ImpactRangeResult.energyKwhMin result = nan
               /\ ImpactRangeResult.energyKwhMax result = nan))
  /\ (forall extreme (built : ImpactInputs.t) (bound : NumericRange.t -> number),
        (extreme = pick_min /\ built = lowInput /\ bound = NumericRange.min)
        \/ (extreme = pick_max /\ built = highInput /\ bound = NumericRange.max) ->
        let picked (value : option number) (range : option NumericRange.t) :=
          match range with
          | Some range => Some (bound range)
          | None => value
          end in
        let throughput := ImpactInputs.throughput input in
        let efficiency := ImpactInputs.efficiency input in
        Some (ImpactInputs.gpuPowerW built)
        = picked (Some (ImpactInputs.gpuPowerW input))
            (UncertaintyRanges.gpuPowerW ranges)
        /\ ImpactInputs.efficiency built ?. EfficiencyOptions.pue
           = picked (efficiency ?. EfficiencyOptions.pue) (UncertaintyRanges.pue ranges)
        /\ ImpactInputs.efficiency built ?. EfficiencyOptions.overheadFactor
           = picked (efficiency ?. EfficiencyOptions.overheadFactor)
               (UncertaintyRanges.overheadFactor ranges)
        /\ ImpactInputs.efficiency built ?. EfficiencyOptions.efficiencyFactor
           = picked (efficiency ?. EfficiencyOptions.efficiencyFactor)
               (UncertaintyRanges.efficiencyFactor ranges)
        /\ ImpactInputs.throughput built ?. ThroughputConfig.tokensPerSecond
           = picked (throughput ?. ThroughputConfig.tokensPerSecond)
               (UncertaintyRanges.tokensPerSecond ranges)
        /\ ImpactInputs.throughput built ?. ThroughputConfig.audioSecondsPerSecond
           = picked (throughput ?. ThroughputConfig.audioSecondsPerSecond)
               (UncertaintyRanges.audioSecondsPerSecond ranges)
        /\ ImpactInputs.throughput built ?. ThroughputConfig.pixelsPerSecond
           = picked (throughput ?. ThroughputConfig.pixelsPerSecond)
               (UncertaintyRanges.pixelsPerSecond ranges)
        /\ ImpactInputs.efficiency built ?. EfficiencyOptions.batchSize
           = efficiency ?. EfficiencyOptions.batchSize
        /\ ImpactInputs.efficiency built ?. EfficiencyOptions.precision
           = efficiency ?. EfficiencyOptions.precision
        /\ ImpactInputs.efficiency built ?. EfficiencyOptions.quantization
           = efficiency ?. EfficiencyOptions.quantization
        /\ (ImpactInputs.cpuPowerW built, ImpactInputs.networkPowerW built,
            ImpactInputs.modelParamsB built, ImpactInputs.processingTimeSeconds built,
            ImpactInputs.usage built, ImpactInputs.energy built, gridInput built)
           = (ImpactInputs.cpuPowerW input, ImpactInputs.networkPowerW input,
              ImpactInputs.modelParamsB input,
              ImpactInputs.processingTimeSeconds input,
              ImpactInputs.usage input, ImpactInputs.energy input, gridInput input)).
Proof.
  intros Hov Hval lowInput highInput.
  assert (Hbuilt : forall pick,
            let built := buildInputWithRanges input ranges pick in
            let bound :=
              match pick with
              | pick_min => NumericRange.min
              | pick_max => NumericRange.max
              end in
            let picked (value : option number) (range : option NumericRange.t) :=
              match range with
              | Some range => Some (bound range)
              | None => value
              end in
            forall value range, pickRangeValue value range pick = picked value range).
  { intros pick built bound picked value [range|]; [|reflexivity].
    destruct pick; reflexivity. }
  split; [apply estimateImpactRange_envelope; assumption|].
  split; [|split].
  3: { intros extreme built bound Hside. cbv zeta.
       assert (Hpick : built = buildInputWithRanges input ranges extreme
                       /\ bound = match extreme with
                                  | pick_min => NumericRange.min
                                  | pick_max => NumericRange.max
                                  end).
       { destruct Hside as [(-> & -> & ->) | (-> & -> & ->)]; split; reflexivity. }
       destruct Hpick as [-> ->].
       pose proof (Hbuilt extreme) as Hp. cbv zeta in Hp.
       pose proof (build_throughput input ranges extreme) as (Ht1 & Ht2 & Ht3).
       pose proof (build_efficiency input ranges extreme)
         as (He1 & He2 & He3 & He4 & He5 & He6).
       cbv zeta in Ht1, Ht2, Ht3, He1, He2, He3, He4, He5, He6.
       rewrite (build_gpuPowerW input ranges extreme), Ht1, Ht2, Ht3, He1, He2, He3,
         He4, He5, He6, !Hp.
       repeat split; reflexivity. }
  - intros base low high result. subst result. unfold envelope.
    cbn [ImpactRangeResult.energyKwhMin ImpactRangeResult.energyKwhMax
         ImpactRangeResult.co2GramsMin ImpactRangeResult.co2GramsMax].
    split; [|split; [|split]]; intros H;
      first [ apply (Math_min_max_ordered _ _ H) | apply (Math_min_max_ordered' _ _ H) ].
  - intros ->. subst lowInput highInput.
    destruct (buildInputWithRanges_efficiencyFactor input 1%float 2%float) as [-> ->].
    split; [reflexivity|]. split; [reflexivity|].
    intros base low high Hlow Hhigh result.
    apply (estimateImpact_at_efficiencyFactor _ _ 1%float _ Hov eq_refl) in Hlow
      as (t & Ht & HPl & Htl & Hel & HsignP & Hnum).
    apply (estimateImpact_at_efficiencyFactor _ _ 2%float _ Hov eq_refl) in Hhigh
      as (t' & Ht' & HPh & Hth & Heh & _ & _).
    rewrite Ht in Ht'. injection Ht' as <-.
    pose proof (applyBatchSize_below _ _ _ _ _
                  (energy_below _ _ HsignP Hnum) Heh Hel) as Hbelow.
    split; [exists t; auto 10|].
    split; [apply (below_nan _ _ Hbelow)|].
    split; [apply (below_not_nan _ _ Hbelow)|].
    subst result. unfold envelope.
    cbn [ImpactRangeResult.energyKwhMin ImpactRangeResult.energyKwhMax].
    split; [apply (below_min_max _ _ Hbelow)|].
    intros Hnan. apply is_nan_eq in Hnan. rewrite Hnan.
    unfold Math_min, Math_max. rewrite compare_nan_r. split; reflexivity.
Qed.

Lemma range_is_envelope_of_extremes_witness :
  exists result low high,
    outcome (estimateImpactRange sample2025 chatScenario
               (onlyEfficiencyFactor 1%float 2%float)) = Ok result
    /\ outcome (estimateImpact sample2025
                  (withEfficiencyFactor 1%float chatScenario)) = Ok low
    /\ outcome (estimateImpact sample2025
                  (withEfficiencyFactor 2%float chatScenario)) = Ok high
    /\ ImpactResult.processingTimeSeconds low = 12%float
    /\ ImpactResult.processingTimeSeconds high = 6%float
    /\ ImpactRangeResult.energyKwhMin result = ImpactResult.energyKwh high
    /\ ImpactRangeResult.energyKwhMax result = ImpactResult.energyKwh low.
Proof.
  destruct (range_is_envelope_of_extremes sample2025 chatScenario
              (onlyEfficiencyFactor 1%float 2%float) eq_refl eq_refl)
    as (Hout & _ & Hfactor & _).
  destruct (Hfactor eq_refl) as (_ & _ & Hbounds).
  do 3 eexists. split; [rewrite Hout; reflexivity|].
  do 4 (split; [reflexivity|]).
  match goal with
  | |- ImpactRangeResult.energyKwhMin (envelope ?b ?l ?h) = _ /\ _ =>
      destruct (Hbounds b l h eq_refl eq_refl) as (_ & _ & _ & H & _)
  end.
  apply H. left. reflexivity.
Defined.

(** C6 as stated fails in its second half where overflow meets underflow:
    1e308 W at overhead 10 is an infinite effective power, and 5e-324 s
    divided by 2 is 0 s.  The low evaluation's energy is Infinity, the high
    one's is NaN, and [energyKwhMax] is NaN, not the low evaluation's
    energy. *)
Lemma range_max_is_not_low :
  exists result low high,
    outcome (estimateImpactRange sample2025
               (withOverheadFactor 10%float (minimalInput 1e308%float 5e-324%float))
               (onlyEfficiencyFactor 1%float 2%float)) = Ok result
    /\ outcome (estimateImpact sample2025
                  (withEfficiencyFactor 1%float
                     (withOverheadFactor 10%float
                        (minimalInput 1e308%float 5e-324%float)))) = Ok low
    /\ outcome (estimateImpact sample2025
                  (withEfficiencyFactor 2%float
                     (withOverheadFactor 10%float
                        (minimalInput 1e308%float 5e-324%float)))) = Ok high
    /\ ImpactResult.energyKwh low = infinity
    /\ ImpactResult.energyKwh high = nan
    /\ ImpactRangeResult.energyKwhMax result = nan
    /\ (ImpactRangeResult.energyKwhMax result =? ImpactResult.energyKwh low)%float
       = false.
Proof. do 3 eexists. repeat split; reflexivity. Qed.

(* ================================================================= *)
(** ** Aggregator *)

Lemma aggregate_fold (results : list ImpactResult.t) (acc : AggregateImpactResult.t) :
  fold_left
    (fun acc result =>
       AggregateImpactResult.mk
         (AggregateImpactResult.count acc + 1)%float
         (AggregateImpactResult.energyKwh acc + ImpactResult.energyKwh result)%float
         (AggregateImpactResult.co2Grams acc + ImpactResult.co2Grams result)%float)
    results acc
  = AggregateImpactResult.mk
      (fold_left (fun c _ => (c + 1)%float) results (AggregateImpactResult.count acc))
      (fold_left (fun s x => (s + x)%float) (map ImpactResult.energyKwh results)
         (AggregateImpactResult.energyKwh acc))
      (fold_left (fun s x => (s + x)%float) (map ImpactResult.co2Grams results)
         (AggregateImpactResult.co2Grams acc)).
Proof.
  revert acc. induction results as [|r results IH]; intros acc.
  - destruct acc; reflexivity.
  - simpl. rewrite IH. reflexivity.
Qed.

Lemma count_by_length {A B : Type} (l : list A) (l' : list B) (c : number) :
  List.length l = List.length l' ->
  fold_left (fun c _ => (c + 1)%float) l c = fold_left (fun c _ => (c + 1)%float) l' c.
Proof.
  revert l' c. induction l as [|a l IH]; intros [|b l'] c H; try discriminate.
  - reflexivity.
  - simpl. apply IH. simpl in H. congruence.
Qed.

(** C9 (amended). Aggregating the empty list gives [{count: 0, energyKwh: 0,
    co2Grams: 0}].  For every list of results, [count] is the same for every
    permutation of the list (it only depends on the length), and [energyKwh]
    and [co2Grams] are the binary64 sums of the results' values added from
    left to right, starting from 0.  Swapping the first two results changes
    nothing, so two results aggregate the same in either order; beyond that
    the two sums, rounded at each addition, depend on the order in
    general. *)
Theorem aggregate_order :
  aggregateImpacts [] = AggregateImpactResult.mk 0%float 0%float 0%float
  /\ (forall results results',
        Permutation results results' ->
        AggregateImpactResult.count (aggregateImpacts results)
        = AggregateImpactResult.count (aggregateImpacts results'))
  /\ (forall results,
        AggregateImpactResult.energyKwh (aggregateImpacts results)
        = sumLeft (map ImpactResult.energyKwh results)
        /\ AggregateImpactResult.co2Grams (aggregateImpacts results)
           = sumLeft (map ImpactResult.co2Grams results))
  /\ (forall a b results,
        aggregateImpacts (a :: b :: results) = aggregateImpacts (b :: a :: results)).
Proof.
  split; [reflexivity|]. split; [|split].
  - intros results results' Hperm. unfold aggregateImpacts.
    rewrite !aggregate_fold. simpl.
    apply count_by_length, Permutation_length, Hperm.
  - intros results. unfold aggregateImpacts. rewrite aggregate_fold.
    split; reflexivity.
  - intros a b results. unfold aggregateImpacts. simpl.
    rewrite (add_zero_swap (ImpactResult.energyKwh a) (ImpactResult.energyKwh b)),
      (add_zero_swap (ImpactResult.co2Grams a) (ImpactResult.co2Grams b)).
    reflexivity.
Qed.

Lemma aggregate_order_witness :
  exists a b c,
    outcome (estimateImpact sample2025 (meteredInput 0.2%float)) = Ok a
    /\ outcome (estimateImpact sample2025 (meteredInput 0.3%float)) = Ok b
    /\ outcome (estimateImpact sample2025 (meteredInput 0.1%float)) = Ok c
    /\ AggregateImpactResult.count (aggregateImpacts [a; b; c])
       = AggregateImpactResult.count (aggregateImpacts [c; a; b])
    /\ AggregateImpactResult.count (aggregateImpacts [a; b; c]) = 3%float.
Proof.
  do 3 eexists. do 3 (split; [reflexivity|]). split.
  - destruct aggregate_order as (_ & H & _). apply H.
    apply Permutation_sym.
    apply (Permutation_cons_app [_; _] [] _ (Permutation_refl _)).
  - reflexivity.
Defined.

(** C9 as stated fails on the sums: three estimates of 0.2, 0.3 and 0.1 kWh
    (each the outcome of the estimator on a metered input) add up to 0.6 kWh
    in the order [a, b, c] and to 0.6000000000000001 kWh in the order
    [c, a, b]. *)
Lemma aggregate_sum_depends_on_order :
  exists a b c,
    outcome (estimateImpact sample2025 (meteredInput 0.2%float)) = Ok a
    /\ outcome (estimateImpact sample2025 (meteredInput 0.3%float)) = Ok b
    /\ outcome (estimateImpact sample2025 (meteredInput 0.1%float)) = Ok c
    /\ AggregateImpactResult.energyKwh (aggregateImpacts [a; b; c]) = 0.6%float
    /\ AggregateImpactResult.energyKwh (aggregateImpacts [c; a; b])
       = 0.6000000000000001%float
    /\ (0.6 =? 0.6000000000000001)%float = false.
Proof. do 3 eexists. repeat split; reflexivity. Qed.

(* ================================================================= *)
(** ** Regions and the intensity table *)

Lemma lowerAscii_idempotent (c : ascii) : lowerAscii (lowerAscii c) = lowerAscii c.
Proof. destruct c as [[] [] [] [] [] [] [] []]; reflexivity. Qed.

Lemma isWhiteSpace_lowerAscii (c : ascii) : isWhiteSpace (lowerAscii c) = isWhiteSpace c.
Proof. destruct c as [[] [] [] [] [] [] [] []]; reflexivity. Qed.

Lemma toLowerCase_idempotent (s : string) :
  toLowerCase (toLowerCase s) = toLowerCase s.
Proof.
  induction s as [|c s IH]; [reflexivity|].
  simpl. rewrite lowerAscii_idempotent, IH. reflexivity.
Qed.

Lemma toLowerCase_trimStart (s : string) :
  toLowerCase (trimStart s) = trimStart (toLowerCase s).
Proof.
  induction s as [|c s IH]; [reflexivity|].
  simpl. rewrite isWhiteSpace_lowerAscii.
  destruct (isWhiteSpace c); [exact IH | reflexivity].
Qed.

Lemma toLowerCase_trimEnd (s : string) :
  toLowerCase (trimEnd s) = trimEnd (toLowerCase s).
Proof.
  induction s as [|c s IH]; [reflexivity|].
  simpl. rewrite <- IH, isWhiteSpace_lowerAscii.
  destruct (trimEnd s) as [|d t]; simpl.
  - destruct (isWhiteSpace c); reflexivity.
  - reflexivity.
Qed.

Lemma toLowerCase_trim (s : string) : toLowerCase (trim s) = trim (toLowerCase s).
Proof. unfold trim. rewrite toLowerCase_trimEnd, toLowerCase_trimStart. reflexivity. Qed.

Lemma trimEnd_idempotent (s : string) : trimEnd (trimEnd s) = trimEnd s.
Proof.
  induction s as [|c s IH]; [reflexivity|].
  simpl. destruct (trimEnd s) as [|d t] eqn:E.
  - destruct (isWhiteSpace c) eqn:W; [reflexivity|]. simpl. rewrite W. reflexivity.
  - change (trimEnd (String c (String d t))) with
      (match trimEnd (String d t) with
       | EmptyString => if isWhiteSpace c then EmptyString else String c EmptyString
       | rest' => String c rest'
       end).
    rewrite IH. reflexivity.
Qed.

Lemma trimStart_head (s : string) :
  trimStart s = EmptyString
  \/ exists c r, trimStart s = String c r /\ isWhiteSpace c = false.
Proof.
  induction s as [|c s IH]; [left; reflexivity|].
  simpl. destruct (isWhiteSpace c) eqn:W; [exact IH|].
  right. exists c, s. auto.
Qed.

Lemma trimEnd_head (c : ascii) (r : string) :
  isWhiteSpace c = false -> exists r', trimEnd (String c r) = String c r'.
Proof.
  intros W. simpl. destruct (trimEnd r) as [|d t].
  - rewrite W. eexists; reflexivity.
  - eexists; reflexivity.
Qed.

Lemma trim_idempotent (s : string) : trim (trim s) = trim s.
Proof.
  unfold trim. destruct (trimStart_head s) as [-> | (c & r & -> & W)]; [reflexivity|].
  destruct (trimEnd_head c r W) as (r' & E). rewrite E.
  simpl trimStart. rewrite W. rewrite <- E. apply trimEnd_idempotent.
Qed.

Lemma key_stable (s : string) :
  trim (toLowerCase (trim (toLowerCase s))) = trim (toLowerCase s).
Proof.
  rewrite toLowerCase_trim, toLowerCase_idempotent. apply trim_idempotent.
Qed.

(** X1. An ASCII region is matched without regard to letter case and to the
    white space around it: it normalises as its lower-cased, trimmed form
    does (that form being non-empty), and with either spelling the
    resolution of the grid intensity ends in the same value. *)
Theorem region_case_and_space
    values2025 (region : string) explicit resolver timestamp :
  asciiOnly region = true ->
  trim (toLowerCase region) <> EmptyString ->
  normalizeRegion values2025 (Some region)
  = normalizeRegion values2025 (Some (trim (toLowerCase region)))
  /\ outcome (resolveGridIntensity values2025
                (GridIntensityInput.mk (Some region) explicit resolver timestamp))
     = outcome (resolveGridIntensity values2025
                  (GridIntensityInput.mk (Some (trim (toLowerCase region)))
                     explicit resolver timestamp)).
Proof.
  intros _ Hkey.
  assert (Hnorm : normalizeRegion values2025 (Some region)
                  = normalizeRegion values2025 (Some (trim (toLowerCase region)))).
  { unfold normalizeRegion. cbn [nullish]. rewrite key_stable.
    destruct region as [|c r]; [exfalso; apply Hkey; reflexivity|].
    destruct (trim (toLowerCase (String c r))) as [|d t]; [exfalso; apply Hkey; reflexivity|].
    reflexivity. }
  split; [exact Hnorm|].
  unfold resolveGridIntensity.
  cbn [GridIntensityInput.gridCarbonIntensityGPerKwh GridIntensityInput.region
       GridIntensityInput.gridIntensityResolver GridIntensityInput.timestamp].
  destruct (present explicit && gt (explicit ?? nan) 0%float); [reflexivity|].
  cbv zeta. rewrite Hnorm, !outcome_bind.
  destruct (outcome match resolver with
                    | Some f => _
                    | None => ret None
                    end) as [[x|]|message]; try reflexivity.
  destruct (truthyStr _ && truthyOpt _); [reflexivity|].
  rewrite !outcome_bind.
  destruct region as [|c r]; [exfalso; apply Hkey; reflexivity|].
  destruct (trim (toLowerCase (String c r))) as [|d t]; [exfalso; apply Hkey; reflexivity|].
  reflexivity.
Qed.

Lemma region_case_and_space_witness :
  normalizeRegion sample2025 (Some "  Fr ") = Some "fr"
  /\ outcome (resolveGridIntensity sample2025
                (GridIntensityInput.mk (Some "  Fr ") None None None))
     = Ok 42%float.
Proof.
  destruct (region_case_and_space sample2025 "  Fr " None None None eq_refl)
    as [Hn Ho].
  - discriminate.
  - split; [rewrite Hn | rewrite Ho]; reflexivity.
Defined.

Lemma BASE_positive (key : string) (v : number) :
  lookup key BASE_GRID_CARBON_G_PER_KWH = Some v -> gt v 0%float = true.
Proof.
  unfold BASE_GRID_CARBON_G_PER_KWH. cbn [lookup].
  repeat (match goal with
          | |- context [String.eqb ?k key] => destruct (String.eqb k key)
          end; [intros H; injection H as <-; reflexivity|]).
  discriminate.
Qed.

Lemma DEFAULT_positive values2025 (key : string) (v : number) :
  positiveIntensities values2025 ->
  lookup key (DEFAULT_GRID_CARBON_G_PER_KWH values2025) = Some v ->
  gt v 0%float = true.
Proof.
  intros Hvalues. unfold DEFAULT_GRID_CARBON_G_PER_KWH. rewrite lookup_spread.
  destruct (lookup key values2025) as [w|] eqn:E.
  - intros H. injection H as <-. apply (Hvalues key w E).
  - apply BASE_positive.
Qed.

Lemma global_positive values2025 :
  positiveIntensities values2025 ->
  gt (lookup "global" (DEFAULT_GRID_CARBON_G_PER_KWH values2025) ?? nan) 0%float = true.
Proof.
  intros Hvalues.
  destruct (lookup "global" (DEFAULT_GRID_CARBON_G_PER_KWH values2025)) as [v|] eqn:E.
  - apply (DEFAULT_positive _ _ _ Hvalues E).
  - unfold DEFAULT_GRID_CARBON_G_PER_KWH in E. rewrite lookup_spread in E.
    destruct (lookup "global" values2025); discriminate.
Qed.

Lemma resolveGridIntensity_positive values2025 input gridIntensity :
  positiveIntensities values2025 ->
  outcome (resolveGridIntensity values2025 input) = Ok gridIntensity ->
  gt gridIntensity 0%float = true.
Proof.
  intros Hvalues. unfold resolveGridIntensity. cbv zeta.
  destruct (present _ && gt _ 0%float) eqn:E.
  - unfold outcome, ret. cbn [snd]. intros H. injection H as <-.
    apply andb_true_iff in E as [_ E]. exact E.
  - intros H. apply bind_Ok in H as (resolved & Hres & H).
    destruct resolved as [r|].
    + unfold outcome, ret in H. cbn [snd] in H. injection H as <-.
      destruct (GridIntensityInput.gridIntensityResolver input) as [f|];
        [|discriminate].
      rewrite outcome_bind in Hres. simpl in Hres. injection Hres as Hres.
      destruct (f _) as [y| | | | |]; try discriminate. simpl in Hres.
      destruct (gt y 0%float) eqn:G; [|discriminate]. congruence.
    + destruct (truthyStr _ && truthyOpt _) eqn:T.
      * unfold outcome, ret in H. cbn [snd] in H. injection H as <-.
        apply andb_true_iff in T as [_ T].
        destruct (lookup _ _) as [v|] eqn:L; [|discriminate].
        apply (DEFAULT_positive _ _ _ Hvalues L).
      * apply bind_Ok in H as (u & _ & H).
        unfold outcome, ret in H. cbn [snd] in H. injection H as <-.
        apply global_positive, Hvalues.
Qed.

(** X2. With a dataset whose intensities are all above 0, every grid
    intensity that the resolution returns for a plain region (an absent one,
    or an ASCII one whose key names no member of [Object.prototype]) is above
    0, whatever the explicit value and the resolver are; so is the intensity
    that a result of the estimator reports for such a region, and never
    NaN. *)
Theorem resolved_intensity_positive values2025 :
  positiveIntensities values2025 ->
  (forall input gridIntensity,
     plainRegion (GridIntensityInput.region input) = true ->
     outcome (resolveGridIntensity values2025 input) = Ok gridIntensity ->
     gt gridIntensity 0%float = true)
  /\ (forall input result,
        plainRegion (ImpactInputs.region input) = true ->
        outcome (estimateImpact values2025 input) = Ok result ->
        gt (ImpactResult.gridCarbonIntensityGPerKwh result) 0%float = true
        /\ is_nan (ImpactResult.gridCarbonIntensityGPerKwh result) = false).
Proof.
  intros Hvalues. split.
  - intros input g _. apply resolveGridIntensity_positive, Hvalues.
  - intros input result _ H.
    apply estimateImpact_Ok in H
      as (g & P & pn & t & e & n & e' & Hg & _ & _ & _ & ->).
    cbn [ImpactResult.gridCarbonIntensityGPerKwh].
    apply (resolveGridIntensity_positive _ _ _ Hvalues) in Hg.
    split; [exact Hg|].
    unfold gt in Hg. apply (lt_not_nan _ _ Hg).
Qed.

Lemma sample2025_positiveIntensities : positiveIntensities sample2025.
Proof.
  intros region v. unfold sample2025. cbn [lookup].
  repeat (match goal with
          | |- context [String.eqb ?k region] => destruct (String.eqb k region)
          end; [intros H; injection H as <-; reflexivity|]).
  discriminate.
Qed.

Lemma resolved_intensity_positive_witness :
  exists result,
    outcome (estimateImpact sample2025 chatScenario) = Ok result
    /\ gt (ImpactResult.gridCarbonIntensityGPerKwh result) 0%float = true.
Proof.
  eexists. split; [reflexivity|].
  destruct (resolved_intensity_positive sample2025 sample2025_positiveIntensities)
    as (_ & H).
  apply (H chatScenario _ eq_refl eq_refl).
Defined.

Lemma alias_targets_named (key code : string) :
  lookup key REGION_ALIASES = Some code -> truthyStr (Some code) = true.
Proof.
  unfold REGION_ALIASES. cbn [lookup].
  repeat (match goal with
          | |- context [String.eqb ?k key] => destruct (String.eqb k key)
          end; [intros H; injection H as <-; reflexivity|]).
  discriminate.
Qed.

(** X3. Without an explicit intensity above 0 and without a resolver, a
    plain region (an absent one, or an ASCII one whose key names no member
    of [Object.prototype]) is resolved through its lower-cased, trimmed key:
    the table's entry for the key if it is truthy; else the entry of the
    alias the key stands for, if truthy; else the [global] entry, with one
    warning that quotes the region as it was given.  An absent or empty
    region gives the [global] entry without a warning.  Only the last two
    cases differ in what the caller observes. *)
Theorem region_resolution values2025 region explicit timestamp :
  plainRegion region = true ->
  (forall g, explicit = Some g -> gt g 0%float = false) ->
  let table := DEFAULT_GRID_CARBON_G_PER_KWH values2025 in
  let key := trim (toLowerCase (region ?? EmptyString)) in
  let run :=
    resolveGridIntensity values2025
      (GridIntensityInput.mk region explicit None timestamp) in
  let fallback := lookup "global" table ?? nan in
  (truthyStr region = false -> run = ([], Ok fallback))
  /\ (forall v,
        truthyStr region = true -> key <> EmptyString ->
        lookup key table = Some v -> truthy v = true ->
        run = ([], Ok v))
  /\ (forall code v,
        truthyStr region = true -> truthyOpt (lookup key table) = false ->
        lookup key REGION_ALIASES = Some code ->
        lookup code table = Some v -> truthy v = true ->
        run = ([], Ok v))
  /\ (truthyStr region = true -> truthyOpt (lookup key table) = false ->
      (forall code,
         lookup key REGION_ALIASES = Some code ->
         truthyOpt (lookup code table) = false) ->
      run = ([ConsoleWarn
                ("Unknown region " ++ quote ++ (region ?? EmptyString) ++ quote
                 ++ ", falling back to global carbon intensity.")],
             Ok fallback)).
Proof.
  intros _ Hexp table key run fallback.
  assert (Hgate : present explicit && gt (explicit ?? nan) 0%float = false).
  { destruct explicit as [g|]; [simpl; apply Hexp; reflexivity | reflexivity]. }
  assert (Hrun : run =
            let normalizedRegion := normalizeRegion values2025 region in
            let tableValue := lookup (normalizedRegion ?? EmptyString) table in
            if truthyStr normalizedRegion && truthyOpt tableValue
            then ([], Ok (tableValue ?? nan))
            else if truthyStr region
                 then ([ConsoleWarn
                          ("Unknown region " ++ quote ++ (region ?? EmptyString) ++ quote
                           ++ ", falling back to global carbon intensity.")],
                       Ok fallback)
                 else ([], Ok fallback)).
  { subst run. unfold resolveGridIntensity.
    cbn [GridIntensityInput.gridCarbonIntensityGPerKwh GridIntensityInput.region
         GridIntensityInput.gridIntensityResolver GridIntensityInput.timestamp].
    rewrite Hgate. cbv zeta. rewrite bind_ret_l. fold table.
    destruct (truthyStr (normalizeRegion values2025 region) && _); [reflexivity|].
    destruct (truthyStr region); reflexivity. }
  rewrite Hrun. clear Hrun. unfold normalizeRegion. cbv zeta. fold table. fold key.
  split; [|split; [|split]].
  - intros ->. reflexivity.
  - intros v -> Hk Hv Tv. cbn [negb].
    change (trim (toLowerCase (region ?? EmptyString))) with key.
    rewrite Hv. cbn [truthyOpt]. rewrite Tv.
    cbn [nullish]. rewrite Hv. cbn [truthyOpt nullish]. rewrite Tv.
    destruct key; [exfalso; apply Hk; reflexivity|]. reflexivity.
  - intros code v -> Hk Ha Hv Tv. cbn [negb].
    change (trim (toLowerCase (region ?? EmptyString))) with key. rewrite Hk, Ha.
    pose proof (alias_targets_named _ _ Ha) as Hc.
    destruct code as [|c code]; [discriminate Hc|].
    cbn [nullish truthyStr]. rewrite Hv. cbn [truthyOpt nullish andb]. rewrite Tv.
    reflexivity.
  - intros -> Hk Hno. cbn [negb].
    change (trim (toLowerCase (region ?? EmptyString))) with key. rewrite Hk.
    destruct (lookup key REGION_ALIASES) as [code|] eqn:Ha.
    + cbn [nullish]. rewrite (Hno code eq_refl), andb_false_r. reflexivity.
    + reflexivity.
Qed.

Lemma region_resolution_witness :
  resolveGridIntensity sample2025 (GridIntensityInput.mk (Some "GB") None None None)
  = ([], Ok 217%float)
  /\ resolveGridIntensity sample2025
       (GridIntensityInput.mk (Some "Atlantis") (Some 0%float) None None)
     = ([ConsoleWarn
           ("Unknown region " ++ quote ++ "Atlantis" ++ quote
            ++ ", falling back to global carbon intensity.")],
        Ok 475%float).
Proof.
  split.
  - destruct (region_resolution sample2025 (Some "GB") None None eq_refl)
      as (_ & _ & H & _); [discriminate|].
    apply (H "uk" 217%float); reflexivity.
  - destruct (region_resolution sample2025 (Some "Atlantis") (Some 0%float) None
                eq_refl)
      as (_ & _ & _ & H).
    + intros g E. injection E as <-. reflexivity.
    + apply H; [reflexivity | reflexivity | discriminate].
Defined.

(* ================================================================= *)
(** ** Validation order and the energy override *)

Lemma M_eta {A : Type} (m : M A) : m = (events m, outcome m).
Proof. destruct m; reflexivity. Qed.

(** X4. A [gpuPowerW] that is not a positive number makes the estimator throw
    ["gpuPowerW must be a positive number."] whatever else the input holds,
    an energy override included; by then the grid intensity has been
    resolved, so the resolver has been called and an unknown region
    warned about. *)
Theorem gpuPowerW_always_required values2025 input :
  positive (ImpactInputs.gpuPowerW input) = false ->
  estimateImpact values2025 input
  = (events (resolveGridIntensity values2025 (gridInput input)),
     Throw "gpuPowerW must be a positive number.").
Proof.
  intros Hgpu. rewrite (M_eta (estimateImpact values2025 input)).
  rewrite estimateImpact_events. f_equal.
  apply estimateImpact_power_error.
  rewrite computeEffectivePowerW_spec, Hgpu. reflexivity.
Qed.

Lemma gpuPowerW_always_required_witness :
  estimateImpact sample2025
    (ImpactInputs.mk 0%float None None None (Some "Atlantis") None None
       (Some (constantResolver JsUndefined)) None None None
       (Some (EnergyInputs.mk (Some 0.5%float) None)) None)
  = ([ResolverCalled (ResolverInput.mk None None);
      ConsoleWarn ("Unknown region " ++ quote ++ "Atlantis" ++ quote
                   ++ ", falling back to global carbon intensity.")],
     Throw "gpuPowerW must be a positive number.").
Proof.
  rewrite gpuPowerW_always_required; reflexivity.
Defined.

Lemma estimateImpact_override values2025 input energyOverride :
  resolveEnergyKwh (ImpactInputs.energy input) = Some energyOverride ->
  estimateImpact values2025 input =
  (gridIntensity <- resolveGridIntensity values2025 (gridInput input) ;;
   '(effectivePowerW, powerNotes) <- computeEffectivePowerW input ;;
   '(processingTimeSeconds, energyKwh, notes) <-
     energyOverridePath input energyOverride powerNotes ;;
   energyKwh <- applyBatchSize energyKwh (ImpactInputs.efficiency input) ;;
   ret (ImpactResult.mk
          (option_map UsageFields.category (ImpactInputs.usage input))
          energyKwh
          (energyKwh * gridIntensity)%float
          gridIntensity
          effectivePowerW
          processingTimeSeconds
          (finalNotes input gridIntensity notes))).
Proof. intros H. rewrite estimateImpact_paths, H. reflexivity. Qed.

(** X5. With an energy override the time model is out of play: the estimate
    is the same whatever [throughput] is, whatever
    [efficiency.efficiencyFactor] is (it is neither applied nor validated),
    and whatever quantities the usage carries, as long as its category and
    its own [processingTimeSeconds] are the same.  The reported energy is the
    override, divided by the batch size if there is one, and the effective
    power is still the one the power model computes. *)
Theorem energy_override_skips_time_model values2025 input energyOverride :
  resolveEnergyKwh (ImpactInputs.energy input) = Some energyOverride ->
  (forall throughput,
     estimateImpact values2025 (withThroughput throughput input)
     = estimateImpact values2025 input)
  /\ (forall efficiencyFactor,
        estimateImpact values2025 (withEfficiencyFactor efficiencyFactor input)
        = estimateImpact values2025 input)
  /\ (forall usage usage',
        ImpactInputs.usage input = Some usage ->
        UsageFields.category usage' = UsageFields.category usage ->
        UsageFields.processingTimeSeconds usage'
        = UsageFields.processingTimeSeconds usage ->
        estimateImpact values2025 (withUsage (Some usage') input)
        = estimateImpact values2025 input)
  /\ (forall result,
        outcome (estimateImpact values2025 input) = Ok result ->
        outcome (applyBatchSize energyOverride (ImpactInputs.efficiency input))
        = Ok (ImpactResult.energyKwh result)
        /\ ImpactResult.effectivePowerW result = effectivePowerFormula input).
Proof.
  intros Hov. split; [|split; [|split]].
  - intros throughput.
    rewrite (estimateImpact_override _ input _ Hov).
    rewrite (estimateImpact_override _ (withThroughput throughput input) energyOverride)
      by (destruct input; exact Hov).
    destruct input; reflexivity.
  - intros efficiencyFactor.
    rewrite (estimateImpact_override _ input _ Hov).
    rewrite (estimateImpact_override _ (withEfficiencyFactor efficiencyFactor input)
               energyOverride)
      by (destruct input; exact Hov).
    destruct input as [gpu cpu net mp rg gi ts rs pt us th en [ef|]]; reflexivity.
  - intros usage usage' Hu Hc Ht.
    rewrite (estimateImpact_override _ input _ Hov).
    rewrite (estimateImpact_override _ (withUsage (Some usage') input) energyOverride)
      by (destruct input; exact Hov).
    destruct input as [gpu cpu net mp rg gi ts rs pt us th en ef].
    cbn [ImpactInputs.usage] in Hu. subst us.
    unfold energyOverridePath, withUsage, gridInput, computeEffectivePowerW, finalNotes.
    cbn [ImpactInputs.usage ImpactInputs.processingTimeSeconds ImpactInputs.efficiency
         ImpactInputs.gpuPowerW ImpactInputs.cpuPowerW ImpactInputs.networkPowerW
         ImpactInputs.region ImpactInputs.gridCarbonIntensityGPerKwh
         ImpactInputs.gridIntensityResolver ImpactInputs.timestamp optChain option_map].
    rewrite Hc, Ht. reflexivity.
  - intros result H.
    apply estimateImpact_Ok in H
      as (g & P & pn & t & e & n & e' & _ & HP & Hpath & Hbatch & ->).
    rewrite Hov in Hpath. apply energyOverridePath_energy in Hpath. subst e.
    apply computeEffectivePowerW_Ok in HP as [-> _].
    split; [exact Hbatch | reflexivity].
Qed.

Lemma energy_override_skips_time_model_witness :
  estimateImpact sample2025
    (withEfficiencyFactor (-3)%float
       (withThroughput None
          (withEnergy (EnergyInputs.mk None (Some 7200000%float)) chatScenario)))
  = estimateImpact sample2025
      (withEnergy (EnergyInputs.mk None (Some 7200000%float)) chatScenario)
  /\ exists result,
       outcome (estimateImpact sample2025
                  (withEnergy (EnergyInputs.mk None (Some 7200000%float)) chatScenario))
       = Ok result
       /\ ImpactResult.energyKwh result = 2%float.
Proof.
  split.
  - destruct (energy_override_skips_time_model sample2025
                (withThroughput None
                   (withEnergy (EnergyInputs.mk None (Some 7200000%float)) chatScenario))
                2%float eq_refl) as (_ & H & _).
    rewrite H.
    destruct (energy_override_skips_time_model sample2025
                (withEnergy (EnergyInputs.mk None (Some 7200000%float)) chatScenario)
                2%float eq_refl) as (H' & _).
    apply H'.
  - eexists. split; reflexivity.
Defined.

Lemma finalNotes_keeps input gridIntensity notes (note : Note) :
  In note notes -> In note (finalNotes input gridIntensity notes).
Proof.
  intros H. unfold finalNotes. cbv zeta.
  destruct (ImpactInputs.efficiency input ?. EfficiencyOptions.precision)
    as [[|c s]|];
    destruct (ImpactInputs.efficiency input ?. EfficiencyOptions.quantization)
      as [[|c' s']|];
    rewrite ?in_app_iff; auto.
Qed.

(** X6. With an energy override, the reported processing time is the input's
    [processingTimeSeconds] if there is one, else the usage's own
    [processingTimeSeconds] if that is truthy, else 0; a time that is taken
    has passed the positivity check.  The notes of the result say which of
    the three it was, beside the note that an energy override was provided.
    An explicit time that is not a positive number makes the estimate throw
    although the energy is given, whereas a usage-level time of 0 is passed
    over. *)
Theorem energy_override_reported_time values2025 input energyOverride :
  resolveEnergyKwh (ImpactInputs.energy input) = Some energyOverride ->
  (forall result,
     outcome (estimateImpact values2025 input) = Ok result ->
     In NoteEnergyOverride (ImpactResult.notes result)
     /\ match ImpactInputs.processingTimeSeconds input with
        | Some t =>
            ImpactResult.processingTimeSeconds result = t /\ positive t = true
            /\ In NoteTimeAlongsideEnergy (ImpactResult.notes result)
        | None =>
            match ImpactInputs.usage input ?. UsageFields.processingTimeSeconds with
            | Some t =>
                if truthy t
                then ImpactResult.processingTimeSeconds result = t
                     /\ positive t = true
                     /\ In NoteTimeInUsageAlongsideEnergy (ImpactResult.notes result)
                else ImpactResult.processingTimeSeconds result = 0%float
                     /\ In NoteTimeNotProvided (ImpactResult.notes result)
            | None =>
                ImpactResult.processingTimeSeconds result = 0%float
                /\ In NoteTimeNotProvided (ImpactResult.notes result)
            end
        end)
  /\ (forall t power,
        ImpactInputs.processingTimeSeconds input = Some t ->
        positive t = false ->
        outcome (computeEffectivePowerW input) = Ok power ->
        outcome (estimateImpact values2025 input)
        = Throw "processingTimeSeconds must be a positive number.").
Proof.
  intros Hov. split.
  - intros result H.
    apply estimateImpact_Ok in H
      as (g & P & pn & t & e & n & e' & _ & _ & Hpath & _ & ->).
    rewrite Hov in Hpath. unfold energyOverridePath in Hpath. cbv zeta in Hpath.
    cbn [ImpactResult.processingTimeSeconds ImpactResult.notes].
    assert (Hin : forall last,
              In NoteEnergyOverride ((pn ++ [NoteEnergyOverride]) ++ [last])
              /\ In last ((pn ++ [NoteEnergyOverride]) ++ [last])).
    { intros last. rewrite !in_app_iff. simpl. auto. }
    destruct (ImpactInputs.processingTimeSeconds input) as [t0|].
    + require_steps Hpath. unfold outcome, ret in Hpath. cbn [snd] in Hpath.
      injection Hpath as <- _ <-.
      destruct (Hin NoteTimeAlongsideEnergy) as [H1 H2].
      auto using finalNotes_keeps.
    + destruct (ImpactInputs.usage input ?. UsageFields.processingTimeSeconds) as [t0|];
        cbn [truthyOpt nullish] in Hpath.
      * destruct (truthy t0).
        -- require_steps Hpath. unfold outcome, ret in Hpath. cbn [snd] in Hpath.
           injection Hpath as <- _ <-.
           destruct (Hin NoteTimeInUsageAlongsideEnergy) as [H1 H2].
           auto using finalNotes_keeps.
        -- unfold outcome, ret in Hpath. cbn [snd] in Hpath.
           injection Hpath as <- _ <-.
           destruct (Hin NoteTimeNotProvided) as [H1 H2].
           auto using finalNotes_keeps.
      * unfold outcome, ret in Hpath. cbn [snd] in Hpath.
        injection Hpath as <- _ <-.
        destruct (Hin NoteTimeNotProvided) as [H1 H2].
        auto using finalNotes_keeps.
  - intros t [P pn] Ht Hbad HP.
    rewrite (estimateImpact_override _ _ _ Hov), outcome_bind.
    destruct (resolveGridIntensity_total values2025 (gridInput input)) as (g & ->).
    rewrite outcome_bind, HP, outcome_bind.
    unfold energyOverridePath. rewrite Ht. cbv zeta.
    rewrite requirePositive_spec, Hbad. reflexivity.
Qed.

Lemma energy_override_reported_time_witness :
  (exists result,
     outcome (estimateImpact sample2025
                (withUsage (Some (ChatCompletionUsage 1000%float 200%float (Some 0%float)))
                   (meteredInput 0.5%float))) = Ok result
     /\ ImpactResult.processingTimeSeconds result = 0%float
     /\ In NoteTimeNotProvided (ImpactResult.notes result))
  /\ outcome (estimateImpact sample2025
                (ImpactInputs.mk 100%float None None None None None None None
                   (Some 0%float) None None
                   (Some (EnergyInputs.mk (Some 0.5%float) None)) None))
     = Throw "processingTimeSeconds must be a positive number.".
Proof.
  split.
  - eexists. split; [reflexivity|].
    destruct (energy_override_reported_time sample2025
                (withUsage (Some (ChatCompletionUsage 1000%float 200%float (Some 0%float)))
                   (meteredInput 0.5%float)) 0.5%float eq_refl) as (H & _).
    exact (proj2 (H _ eq_refl)).
  - destruct (energy_override_reported_time sample2025
                (ImpactInputs.mk 100%float None None None None None None None
                   (Some 0%float) None None
                   (Some (EnergyInputs.mk (Some 0.5%float) None)) None)
                0.5%float eq_refl) as (_ & H).
    apply (H 0%float _ eq_refl eq_refl eq_refl).
Defined.

(* ================================================================= *)
(** ** Time model, every category *)

Lemma firstInvalid_app (a b : list (string * number)) :
  firstInvalid (a ++ b) =
  match firstInvalid a with
  | Some name => Some name
  | None => firstInvalid b
  end.
Proof.
  induction a as [|[name value] a IH]; [reflexivity|].
  simpl. destruct (positive value); [exact IH | reflexivity].
Qed.

(** The time model on a usage without a time of its own, check by check. *)
Lemma deriveProcessingTimeSeconds_checks usage throughput :
  UsageFields.processingTimeSeconds usage = None ->
  deriveProcessingTimeSeconds usage throughput =
  match firstInvalid (timeChecks usage throughput) with
  | Some name => throw (name ++ " must be a positive number.")
  | None => ret (workload usage / (rate usage throughput ?? nan))%float
  end.
Proof.
  intros Ht. unfold deriveProcessingTimeSeconds. rewrite Ht. unfold timeChecks.
  destruct usage as [i o t | i o t | i t | i o t | a t | a t | a t | w h n t];
    cbn [usageQuantities rateName rate workload UsageFields.category app firstInvalid];
    cbv zeta; rewrite !requirePositive_spec;
    repeat match goal with
           | |- context [positive ?x] =>
               destruct (positive x); [rewrite ?bind_ret_l|reflexivity]
           end;
    reflexivity.
Qed.

(** X7. A usage that carries its own [processingTimeSeconds] is timed by it:
    the derived time is that value when it is a positive number, and the
    derivation throws ["processingTimeSeconds must be a positive number."]
    otherwise (0 included), whatever the usage's quantities and the
    throughput are: none of them is checked.  In the estimator this holds
    when there is neither an explicit time nor an energy override. *)
Theorem usage_time_wins values2025 usage throughput t :
  UsageFields.processingTimeSeconds usage = Some t ->
  deriveProcessingTimeSeconds usage throughput
  = (if positive t then ret t
     else throw "processingTimeSeconds must be a positive number.")
  /\ (forall input,
        ImpactInputs.usage input = Some usage ->
        ImpactInputs.throughput input = throughput ->
        ImpactInputs.processingTimeSeconds input = None ->
        resolveEnergyKwh (ImpactInputs.energy input) = None ->
        (positive t = true ->
         forall result,
           outcome (estimateImpact values2025 input) = Ok result ->
           outcome (applyEfficiencyToTime t (ImpactInputs.efficiency input))
           = Ok (ImpactResult.processingTimeSeconds result))
        /\ (positive t = false ->
            forall power,
              outcome (computeEffectivePowerW input) = Ok power ->
              outcome (estimateImpact values2025 input)
              = Throw "processingTimeSeconds must be a positive number.")).
Proof.
  intros Ht.
  assert (Hd : deriveProcessingTimeSeconds usage throughput
               = (if positive t then ret t
                  else throw "processingTimeSeconds must be a positive number.")).
  { unfold deriveProcessingTimeSeconds. rewrite Ht, requirePositive_spec.
    destruct (positive t); reflexivity. }
  split; [exact Hd|].
  intros input Hu Hthr Htime Hnone. split.
  - intros Hpos result H.
    apply estimateImpact_Ok in H
      as (g & P & pn & t1 & e & n & e' & _ & _ & Hpath & _ & ->).
    rewrite Hnone in Hpath. unfold powerTimePath in Hpath.
    apply bind_Ok in Hpath as (t0 & Ht0 & Hpath).
    apply bind_Ok in Hpath as (t2 & Ht2 & Hpath).
    unfold outcome, ret in Hpath. cbn [snd] in Hpath. injection Hpath as <- _ _.
    unfold baseProcessingTime in Ht0. rewrite Htime, Hu, Hthr, Hd, Hpos in Ht0.
    unfold outcome, ret in Ht0. cbn [snd] in Ht0. injection Ht0 as <-.
    exact Ht2.
  - intros Hbad [P pn] HP.
    rewrite estimateImpact_paths, outcome_bind.
    destruct (resolveGridIntensity_total values2025 (gridInput input)) as (g & ->).
    rewrite outcome_bind, HP, Hnone, outcome_bind.
    unfold powerTimePath. rewrite outcome_bind.
    unfold baseProcessingTime. rewrite Htime, Hu, Hthr, Hd, Hbad. reflexivity.
Qed.

Lemma usage_time_wins_witness :
  deriveProcessingTimeSeconds
    (ChatCompletionUsage (-1)%float nan (Some 3%float)) None
  = ret 3%float
  /\ deriveProcessingTimeSeconds
       (ChatCompletionUsage 1000%float 200%float (Some 0%float))
       (Some (ThroughputConfig.mk (Some 100%float) None None))
     = throw "processingTimeSeconds must be a positive number.".
Proof.
  split.
  - destruct (usage_time_wins sample2025
                (ChatCompletionUsage (-1)%float nan (Some 3%float)) None 3%float eq_refl)
      as (H & _).
    rewrite H. reflexivity.
  - destruct (usage_time_wins sample2025
                (ChatCompletionUsage 1000%float 200%float (Some 0%float))
                (Some (ThroughputConfig.mk (Some 100%float) None None)) 0%float eq_refl)
      as (H & _).
    rewrite H. reflexivity.
Defined.

(** X8. For a usage of any category without a time of its own, the time model
    checks the usage's quantities in order (tokens; audio seconds; width,
    height, images) and then the throughput rate of the category
    ([tokensPerSecond], [audioSecondsPerSecond] or [pixelsPerSecond]).  When
    all are positive numbers the derived time is the workload divided by the
    rate: [inputTokens + outputTokens], [inputTokens] for embeddings,
    [audioSeconds], or [width * height * images]; otherwise the error names
    the first of them that is not. *)
Theorem derived_time usage throughput :
  UsageFields.processingTimeSeconds usage = None ->
  (firstInvalid (timeChecks usage throughput) = None ->
   exists r,
     rate usage throughput = Some r /\ positive r = true
     /\ firstInvalid (usageQuantities usage) = None
     /\ deriveProcessingTimeSeconds usage throughput
        = ret (workload usage / r)%float)
  /\ (forall name,
        firstInvalid (timeChecks usage throughput) = Some name ->
        deriveProcessingTimeSeconds usage throughput
        = throw (name ++ " must be a positive number."))
  /\ (firstInvalid (usageQuantities usage) = None ->
      forall r, rate usage throughput = Some r -> positive r = true ->
      deriveProcessingTimeSeconds usage throughput = ret (workload usage / r)%float).
Proof.
  intros Ht.
  pose proof (deriveProcessingTimeSeconds_checks usage throughput Ht) as Hd.
  split; [|split].
  - intros Hok. rewrite Hok in Hd.
    unfold timeChecks in Hok. rewrite firstInvalid_app in Hok.
    destruct (firstInvalid (usageQuantities usage)); [discriminate|].
    cbn [firstInvalid] in Hok.
    destruct (rate usage throughput) as [r|] eqn:Hr; cbn [nullish] in *.
    + destruct (positive r) eqn:Pr; [|discriminate].
      exists r. auto.
    + discriminate.
  - intros name Hbad. rewrite Hbad in Hd. exact Hd.
  - intros Hq r Hr Pr. rewrite Hd. unfold timeChecks.
    rewrite firstInvalid_app, Hq, Hr. cbn [firstInvalid nullish]. rewrite Pr.
    reflexivity.
Qed.

Lemma derived_time_witness :
  deriveProcessingTimeSeconds (usage.audioSpeech 30%float)
    (Some (ThroughputConfig.mk None (Some 2%float) None))
  = ret 15%float
  /\ deriveProcessingTimeSeconds (usage.imageGeneration 1024%float 0%float None)
       (Some (ThroughputConfig.mk None None (Some 1000000%float)))
     = throw "height must be a positive number.".
Proof.
  split.
  - destruct (derived_time (usage.audioSpeech 30%float)
                (Some (ThroughputConfig.mk None (Some 2%float) None)) eq_refl)
      as (_ & _ & H).
    rewrite (H eq_refl 2%float eq_refl eq_refl). reflexivity.
  - destruct (derived_time (usage.imageGeneration 1024%float 0%float None)
                (Some (ThroughputConfig.mk None None (Some 1000000%float))) eq_refl)
      as (_ & H & _).
    apply (H "height"). reflexivity.
Defined.

(** X9. A usage without a time of its own cannot be timed without the rate
    of its category: when that field of [throughput] is missing (no
    [throughput] at all, or only the rates of other categories), the
    derivation throws, and with quantities that are all positive the error
    is ["throughput.<rate> must be a positive number."].  The estimator then
    throws the same error, the power inputs being accepted and no time or
    energy being given. *)
Theorem missing_rate_throws values2025 usage throughput :
  UsageFields.processingTimeSeconds usage = None ->
  rate usage throughput = None ->
  exists name,
    deriveProcessingTimeSeconds usage throughput
    = throw (name ++ " must be a positive number.")
    /\ (firstInvalid (usageQuantities usage) = None ->
        name = "throughput." ++ rateName usage)
    /\ forall input power,
         ImpactInputs.usage input = Some usage ->
         ImpactInputs.throughput input = throughput ->
         ImpactInputs.processingTimeSeconds input = None ->
         resolveEnergyKwh (ImpactInputs.energy input) = None ->
         outcome (computeEffectivePowerW input) = Ok power ->
         outcome (estimateImpact values2025 input)
         = Throw (name ++ " must be a positive number.").
Proof.
  intros Ht Hr.
  pose proof (deriveProcessingTimeSeconds_checks usage throughput Ht) as Hd.
  unfold timeChecks in Hd. rewrite firstInvalid_app, Hr in Hd.
  cbn [firstInvalid nullish] in Hd.
  change (positive nan) with false in Hd.
  set (name := match firstInvalid (usageQuantities usage) with
               | Some name => name
               | None => "throughput." ++ rateName usage
               end).
  assert (Hthrow : deriveProcessingTimeSeconds usage throughput
                   = throw (name ++ " must be a positive number.")).
  { rewrite Hd. unfold name. destruct (firstInvalid (usageQuantities usage)); reflexivity. }
  exists name. split; [exact Hthrow|]. split.
  - intros Hq. unfold name. rewrite Hq. reflexivity.
  - intros input [P pn] Hu Hthr Htime Hnone HP.
    rewrite estimateImpact_paths, outcome_bind.
    destruct (resolveGridIntensity_total values2025 (gridInput input)) as (g & ->).
    rewrite outcome_bind, HP, Hnone, outcome_bind.
    unfold powerTimePath. rewrite outcome_bind.
    unfold baseProcessingTime. rewrite Htime, Hu, Hthr, Hthrow. reflexivity.
Qed.

Lemma missing_rate_throws_witness :
  deriveProcessingTimeSeconds (usage.audioTranscription 60%float)
    (Some (ThroughputConfig.mk (Some 100%float) None None))
  = throw "throughput.audioSecondsPerSecond must be a positive number.".
Proof.
  destruct (missing_rate_throws sample2025 (usage.audioTranscription 60%float)
              (Some (ThroughputConfig.mk (Some 100%float) None None)) eq_refl eq_refl)
    as (name & Hd & Hname & _).
  rewrite Hd, (Hname eq_refl). reflexivity.
Defined.

(* ================================================================= *)
(** ** What a successful estimate reports *)

Lemma isNum_ge (x : number) :
  isNum x = true -> ge x 0%float = true /\ is_nan x = false.
Proof.
  unfold isNum, ge. rewrite FloatAxioms.leb_spec, Prim2SF_zero, is_nan_spec.
  destruct (Prim2SF x) as [[]|[]| |[] m e]; simpl; intros; try discriminate; auto.
Qed.

Lemma applyEfficiencyToTime_isNum time efficiency time' :
  outcome (applyEfficiencyToTime time efficiency) = Ok time' ->
  isNum time = true -> isNum time' = true.
Proof.
  rewrite applyEfficiencyToTime_spec.
  destruct (efficiency ?. EfficiencyOptions.efficiencyFactor) as [f|].
  - destruct (truthy f); cbn [negb].
    + destruct (positive f) eqn:Hf; [|discriminate].
      unfold outcome, ret. cbn [snd]. intros H. injection H as <-. intros Ht.
      apply div_isNum; assumption.
    + unfold outcome, ret. cbn [snd]. congruence.
  - unfold outcome, ret. cbn [snd]. congruence.
Qed.

Lemma energyOverridePath_isNum input energyOverride notes time energy notes' :
  outcome (energyOverridePath input energyOverride notes) = Ok (time, energy, notes') ->
  isNum time = true.
Proof.
  unfold energyOverridePath. cbv zeta.
  destruct (ImpactInputs.processingTimeSeconds input) as [t|].
  - intros H. require_steps H. unfold outcome, ret in H. cbn [snd] in H.
    injection H as <- _ _. apply positive_isNum. assumption.
  - destruct (truthyOpt _).
    + intros H. require_steps H. unfold outcome, ret in H. cbn [snd] in H.
      injection H as <- _ _. apply positive_isNum. assumption.
    + unfold outcome, ret. cbn [snd]. intros H. injection H as <- _ _. reflexivity.
Qed.

(** X10. The processing time that a successful estimate reports is a number
    that is not negative: never NaN, never below 0, on the power/time path
    (explicit or derived time, divided by the efficiency factor) and on the
    energy-override path alike. *)
Theorem reported_time_is_a_number values2025 input result :
  outcome (estimateImpact values2025 input) = Ok result ->
  ge (ImpactResult.processingTimeSeconds result) 0%float = true
  /\ is_nan (ImpactResult.processingTimeSeconds result) = false.
Proof.
  intros H.
  apply estimateImpact_Ok in H
    as (g & P & pn & t & e & n & e' & _ & _ & Hpath & _ & ->).
  cbn [ImpactResult.processingTimeSeconds]. apply isNum_ge.
  destruct (resolveEnergyKwh (ImpactInputs.energy input)) as [eo|].
  - apply (energyOverridePath_isNum _ _ _ _ _ _ Hpath).
  - unfold powerTimePath in Hpath.
    apply bind_Ok in Hpath as (t0 & Ht0 & Hpath).
    apply bind_Ok in Hpath as (t1 & Ht1 & Hpath).
    unfold outcome, ret in Hpath. cbn [snd] in Hpath. injection Hpath as <- _ _.
    apply (applyEfficiencyToTime_isNum _ _ _ Ht1).
    apply (baseProcessingTime_isNum _ _ Ht0).
Qed.

Lemma reported_time_is_a_number_witness :
  exists result,
    outcome (estimateImpact sample2025
               (withEfficiencyFactor 1e-300%float (minimalInput 100%float 1e300%float)))
    = Ok result
    /\ ImpactResult.processingTimeSeconds result = infinity
    /\ ge (ImpactResult.processingTimeSeconds result) 0%float = true.
Proof.
  eexists. split; [reflexivity|]. split; [reflexivity|].
  apply (reported_time_is_a_number sample2025
           (withEfficiencyFactor 1e-300%float (minimalInput 100%float 1e300%float)) _
           eq_refl).
Defined.

Lemma applyBatchSize_spec energyKwh efficiency :
  applyBatchSize energyKwh efficiency =
  match efficiency ?. EfficiencyOptions.batchSize with
  | Some batchSize =>
      if negb (truthy batchSize) then ret energyKwh
      else if positive batchSize
      then ret (energyKwh / batchSize)%float
      else throw "efficiency.batchSize must be a positive number."
  | None => ret energyKwh
  end.
Proof.
  unfold applyBatchSize.
  destruct (efficiency ?. EfficiencyOptions.batchSize) as [b|]; [|reflexivity].
  destruct (truthy b); [|reflexivity]. cbn [negb].
  rewrite requirePositive_spec. destruct (positive b); reflexivity.
Qed.

(** The estimate of an input at a given batch size, in terms of the
    estimate's parts without the batch size. *)
Lemma estimateImpact_withBatchSize values2025 input batchSize :
  estimateImpact values2025 (withBatchSize batchSize input) =
  (gridIntensity <- resolveGridIntensity values2025 (gridInput input) ;;
   '(effectivePowerW, powerNotes) <- computeEffectivePowerW input ;;
   '(processingTimeSeconds, energyKwh, notes) <-
     match resolveEnergyKwh (ImpactInputs.energy input) with
     | Some energyOverride => energyOverridePath input energyOverride powerNotes
     | None => powerTimePath input effectivePowerW powerNotes
     end ;;
   energyKwh <-
     applyBatchSize energyKwh
       (Some (EfficiencyOptions.mk None None None batchSize None None)) ;;
   ret (ImpactResult.mk
          (option_map UsageFields.category (ImpactInputs.usage input))
          energyKwh
          (energyKwh * gridIntensity)%float
          gridIntensity
          effectivePowerW
          processingTimeSeconds
          (finalNotes input gridIntensity notes))).
Proof.
  rewrite estimateImpact_paths.
  destruct input as [gpu cpu net mp rg gi ts rs pt us th en [ef|]]; reflexivity.
Qed.

(** X11. The batch size comes last and touches nothing but the energy and
    the CO2: with a positive [efficiency.batchSize] the estimate is the one
    without batch size, its energy divided by the batch size and its CO2
    recomputed as that energy times the grid intensity.  A batch size of 0 or
    NaN is passed over; any other batch size that is not a positive number
    makes the estimate throw. *)
Theorem batch_size_divides_energy values2025 input result :
  outcome (estimateImpact values2025 (withBatchSize None input)) = Ok result ->
  (forall batchSize,
     positive batchSize = true ->
     estimateImpact values2025 (withBatchSize (Some batchSize) input)
     = (events (estimateImpact values2025 (withBatchSize None input)),
        Ok (ImpactResult.mk
              (ImpactResult.category result)
              (ImpactResult.energyKwh result / batchSize)%float
              (ImpactResult.energyKwh result / batchSize
               * ImpactResult.gridCarbonIntensityGPerKwh result)%float
              (ImpactResult.gridCarbonIntensityGPerKwh result)
              (ImpactResult.effectivePowerW result)
              (ImpactResult.processingTimeSeconds result)
              (ImpactResult.notes result))))
  /\ (forall batchSize,
        truthy batchSize = false ->
        estimateImpact values2025 (withBatchSize (Some batchSize) input)
        = estimateImpact values2025 (withBatchSize None input))
  /\ (forall batchSize,
        truthy batchSize = true -> positive batchSize = false ->
        outcome (estimateImpact values2025 (withBatchSize (Some batchSize) input))
        = Throw "efficiency.batchSize must be a positive number.").
Proof.
  intros H.
  assert (Hev : forall b,
            events (estimateImpact values2025 (withBatchSize b input))
            = events (resolveGridIntensity values2025 (gridInput input))).
  { intros b. rewrite estimateImpact_events. destruct input; reflexivity. }
  rewrite estimateImpact_withBatchSize in H.
  apply bind_Ok in H as (g & Hg & H).
  apply bind_Ok in H as ([P pn] & HP & H).
  apply bind_Ok in H as ([[t e] n] & Ht & H).
  rewrite applyBatchSize_spec in H. cbn [optChain EfficiencyOptions.batchSize] in H.
  rewrite bind_ret_l in H. unfold outcome, ret in H. cbn [snd] in H.
  injection H as <-.
  cbn [ImpactResult.category ImpactResult.energyKwh ImpactResult.co2Grams
       ImpactResult.gridCarbonIntensityGPerKwh ImpactResult.effectivePowerW
       ImpactResult.processingTimeSeconds ImpactResult.notes].
  assert (Hout : forall b,
            outcome (estimateImpact values2025 (withBatchSize (Some b) input))
            = outcome
                (energyKwh <-
                   applyBatchSize e
                     (Some (EfficiencyOptions.mk None None None (Some b) None None)) ;;
                 ret (ImpactResult.mk
                        (option_map UsageFields.category (ImpactInputs.usage input))
                        energyKwh (energyKwh * g)%float g P t
                        (finalNotes input g n)))).
  { intros b. rewrite estimateImpact_withBatchSize.
    rewrite outcome_bind, Hg, outcome_bind, HP, outcome_bind, Ht. reflexivity. }
  split; [|split].
  - intros b Hb.
    rewrite (M_eta (estimateImpact values2025 (withBatchSize (Some b) input))).
    rewrite !Hev, Hout, applyBatchSize_spec.
    cbn [optChain EfficiencyOptions.batchSize].
    rewrite (positive_is_truthy _ Hb), Hb. reflexivity.
  - intros b Hb.
    rewrite (M_eta (estimateImpact values2025 (withBatchSize (Some b) input))),
      (M_eta (estimateImpact values2025 (withBatchSize None input))).
    rewrite !Hev, Hout, applyBatchSize_spec.
    cbn [optChain EfficiencyOptions.batchSize]. rewrite Hb. cbn [negb].
    rewrite bind_ret_l, estimateImpact_withBatchSize.
    rewrite outcome_bind, Hg, outcome_bind, HP, outcome_bind, Ht. reflexivity.
  - intros b Hb Hbad. rewrite Hout, applyBatchSize_spec.
    cbn [optChain EfficiencyOptions.batchSize]. rewrite Hb, Hbad. reflexivity.
Qed.

Lemma batch_size_divides_energy_witness :
  exists result result',
    outcome (estimateImpact sample2025 chatScenario) = Ok result
    /\ outcome (estimateImpact sample2025 (withBatchSize (Some 4%float) chatScenario))
       = Ok result'
    /\ ImpactResult.energyKwh result' = (ImpactResult.energyKwh result / 4)%float
    /\ ImpactResult.co2Grams result'
       = (ImpactResult.energyKwh result / 4 * 210.21)%float.
Proof.
  destruct (batch_size_divides_energy sample2025 chatScenario _ eq_refl) as (H & _).
  do 2 eexists. split; [reflexivity|].
  unfold number in H. rewrite (H 4%float eq_refl). repeat split; reflexivity.
Defined.

(** X12. The energy override is read off [energy] in a fixed order: an
    [energyKwh] above 0 is the override, whatever [energyJoules] is; failing
    that, an [energyJoules] above 0 gives the override [energyJoules /
    3600000]; failing both there is none.  An override is never NaN and
    never negative (it is not checked for finiteness: [Infinity] is
    taken). *)
Theorem energy_override_precedence (energy : option EnergyInputs.t) :
  (forall k,
     energy ?. EnergyInputs.energyKwh = Some k -> gt k 0%float = true ->
     resolveEnergyKwh energy = Some k)
  /\ (forall j,
        (forall k, energy ?. EnergyInputs.energyKwh = Some k -> gt k 0%float = false) ->
        energy ?. EnergyInputs.energyJoules = Some j -> gt j 0%float = true ->
        resolveEnergyKwh energy = Some (j / 3600000)%float)
  /\ ((forall k, energy ?. EnergyInputs.energyKwh = Some k -> gt k 0%float = false) ->
      (forall j, energy ?. EnergyInputs.energyJoules = Some j -> gt j 0%float = false) ->
      resolveEnergyKwh energy = None)
  /\ (forall e,
        resolveEnergyKwh energy = Some e ->
        ge e 0%float = true /\ is_nan e = false).
Proof.
  unfold resolveEnergyKwh, toKwhFromJoules. cbv zeta.
  assert (Hgate : forall o : option number,
            truthyOpt o && gt (o ?? nan) 0%float
            = match o with Some x => gt x 0%float | None => false end).
  { intros [x|]; [|reflexivity]. cbn [truthyOpt nullish].
    destruct (gt x 0%float) eqn:G; [|apply andb_false_r].
    rewrite (positive_truthy _ G). reflexivity. }
  rewrite !Hgate.
  assert (Hnum : forall x, gt x 0%float = true -> isNum x = true).
  { intros x. rewrite gt0_spec. unfold isNum.
    destruct (Prim2SF x) as [[]|[]| |[] m e]; simpl; congruence. }
  split; [|split; [|split]].
  - intros k -> G. rewrite G. reflexivity.
  - intros j Hk -> G.
    destruct (energy ?. EnergyInputs.energyKwh) as [k|];
      [rewrite (Hk k eq_refl)|]; rewrite G; reflexivity.
  - intros Hk Hj.
    destruct (energy ?. EnergyInputs.energyKwh) as [k|];
      [rewrite (Hk k eq_refl)|];
      (destruct (energy ?. EnergyInputs.energyJoules) as [j|];
       [rewrite (Hj j eq_refl)|]; reflexivity).
  - intros e.
    destruct (energy ?. EnergyInputs.energyKwh) as [k|].
    + destruct (gt k 0%float) eqn:G.
      * intros H. injection H as <-. apply isNum_ge, Hnum, G.
      * destruct (energy ?. EnergyInputs.energyJoules) as [j|]; [|discriminate].
        cbn [nullish]. destruct (gt j 0%float) eqn:G'; [|discriminate].
        intros H. injection H as <-. apply isNum_ge, div_isNum; [apply Hnum, G'|reflexivity].
    + destruct (energy ?. EnergyInputs.energyJoules) as [j|]; [|discriminate].
      cbn [nullish]. destruct (gt j 0%float) eqn:G'; [|discriminate].
      intros H. injection H as <-. apply isNum_ge, div_isNum; [apply Hnum, G'|reflexivity].
Qed.

(* ================================================================= *)
(** ** Range validation and the three runs *)

Lemma le_negb_lt (x y : number) :
  is_nan x = false -> is_nan y = false -> le x y = negb (lt y x).
Proof.
  unfold le, lt. rewrite !is_nan_spec, FloatAxioms.leb_spec, FloatAxioms.ltb_spec.
  unfold SFleb, SFltb. rewrite (SFcompare_antisym (Prim2SF x) (Prim2SF y)).
  destruct (Prim2SF x) as [[]|[]| |[] m e] eqn:Ex;
    destruct (Prim2SF y) as [[]|[]| |[] m' e'] eqn:Ey;
    try discriminate; intros _ _;
    destruct (SFcompare _ _) as [[]|] eqn:C; try reflexivity; discriminate C.
Qed.

Lemma positive_not_nan (x : number) : positive x = true -> is_nan x = false.
Proof.
  unfold positive. intros H. apply andb_true_iff in H as [H _].
  apply finite_not_nan, H.
Qed.

Lemma validateRange_spec (name : string) (range : NumericRange.t) :
  validateRange name (Some range) =
  if negb (positive (NumericRange.min range))
  then throw ((name ++ ".min") ++ " must be a positive number.")
  else if negb (positive (NumericRange.max range))
  then throw ((name ++ ".max") ++ " must be a positive number.")
  else if lt (NumericRange.max range) (NumericRange.min range)
  then throw (name ++ ".max must be >= " ++ name ++ ".min.")
  else ret tt.
Proof.
  unfold validateRange. rewrite !requirePositive_spec.
  destruct (positive (NumericRange.min range)); [|reflexivity].
  rewrite bind_ret_l.
  destruct (positive (NumericRange.max range)); [|reflexivity].
  rewrite bind_ret_l. reflexivity.
Qed.

Lemma validateRange_valid (name : string) (range : NumericRange.t) :
  validRange range = true -> validateRange name (Some range) = ret tt.
Proof.
  unfold validRange. intros H.
  apply andb_true_iff in H as [H Hle]. apply andb_true_iff in H as [Hmin Hmax].
  rewrite validateRange_spec, Hmin, Hmax. cbn [negb].
  rewrite (le_negb_lt _ _ (positive_not_nan _ Hmin) (positive_not_nan _ Hmax)) in Hle.
  destruct (lt _ _); [discriminate|reflexivity].
Qed.

Lemma validateRange_invalid (name : string) (range : NumericRange.t) :
  validRange range = false ->
  exists message, validateRange name (Some range) = throw message.
Proof.
  unfold validRange. intros H. rewrite validateRange_spec.
  destruct (positive (NumericRange.min range)) eqn:Hmin; [|eexists; reflexivity].
  destruct (positive (NumericRange.max range)) eqn:Hmax; [|eexists; reflexivity].
  cbn [negb andb] in *.
  rewrite (le_negb_lt _ _ (positive_not_nan _ Hmin) (positive_not_nan _ Hmax)) in H.
  destruct (lt _ _); [eexists; reflexivity|discriminate].
Qed.

(** X13. A range is accepted exactly when both its bounds are positive
    numbers (finite, above 0) and [min <= max], equal bounds included; an
    absent range is accepted.  A rejected range throws: for a bound that is
    not positive the error names [<field>.min] before [<field>.max], and for
    bounds out of order it reads ["<field>.max must be >= <field>.min."]. *)
Theorem range_acceptance (name : string) (range : NumericRange.t) :
  validateRange name None = ret tt
  /\ (validateRange name (Some range) = ret tt <-> validRange range = true)
  /\ (positive (NumericRange.min range) = false ->
      validateRange name (Some range)
      = throw ((name ++ ".min") ++ " must be a positive number."))
  /\ (positive (NumericRange.min range) = true ->
      positive (NumericRange.max range) = false ->
      validateRange name (Some range)
      = throw ((name ++ ".max") ++ " must be a positive number."))
  /\ (positive (NumericRange.min range) = true ->
      positive (NumericRange.max range) = true ->
      lt (NumericRange.max range) (NumericRange.min range) = true ->
      validateRange name (Some range)
      = throw (name ++ ".max must be >= " ++ name ++ ".min."))
  /\ (positive (NumericRange.min range) = true ->
      NumericRange.max range = NumericRange.min range ->
      validateRange name (Some range) = ret tt).
Proof.
  split; [reflexivity|]. split; [|split; [|split; [|split]]].
  - split.
    + intros H. destruct (validRange range) eqn:V; [reflexivity|].
      destruct (validateRange_invalid name range V) as (message & E).
      rewrite E in H. discriminate.
    + apply validateRange_valid.
  - intros Hmin. rewrite validateRange_spec, Hmin. reflexivity.
  - intros Hmin Hmax. rewrite validateRange_spec, Hmin, Hmax. reflexivity.
  - intros Hmin Hmax Hlt. rewrite validateRange_spec, Hmin, Hmax, Hlt. reflexivity.
  - intros Hmin Heq. apply validateRange_valid. unfold validRange.
    rewrite Heq, Hmin. cbn [andb].
    rewrite (le_negb_lt _ _ (positive_not_nan _ Hmin) (positive_not_nan _ Hmin)).
    destruct (lt _ _) eqn:L; [|reflexivity].
    unfold lt in L. rewrite FloatAxioms.ltb_spec in L. unfold SFltb in L.
    pose proof (SFcompare_antisym (Prim2SF (NumericRange.min range))
                  (Prim2SF (NumericRange.min range))) as A.
    destruct (SFcompare _ _) as [[]|]; simpl in *; congruence.
Qed.

Lemma validateRanges_valid (ranges : UncertaintyRanges.t) :
  validRanges ranges = true -> validateRanges ranges = ret tt.
Proof.
  unfold validRanges, rangeChecks, validateRanges. cbn [forallb snd].
  intros H.
  repeat (apply andb_true_iff in H as [?H H]).
  repeat match goal with
         | Hv : match ?r with Some _ => _ | None => true end = true
           |- context [validateRange ?name ?r] =>
             replace (validateRange name r) with (@ret unit tt)
               by (destruct r as [?range|];
                   [symmetry; apply validateRange_valid, Hv | reflexivity]);
             clear Hv; rewrite ?bind_ret_l
         end.
  reflexivity.
Qed.

Lemma validateRanges_invalid (ranges : UncertaintyRanges.t) :
  validRanges ranges = false ->
  exists message, validateRanges ranges = throw message.
Proof.
  unfold validRanges, rangeChecks, validateRanges. cbn [forallb snd].
  intros H.
  repeat match goal with
         | |- exists message, bind (validateRange ?name ?r) _ = _ =>
             let rg := fresh "range" in
             let V := fresh "V" in
             destruct r as [rg|];
             [ destruct (validRange rg) eqn:V;
               [ rewrite (validateRange_valid name rg V)
               | destruct (validateRange_invalid name rg V) as (message & ->);
                 eexists; reflexivity ]
             | change (validateRange name None) with (@ret unit tt) ];
             rewrite bind_ret_l; cbn [andb] in H
         end.
  all: destruct (UncertaintyRanges.pixelsPerSecond ranges) as [last|];
    [|discriminate].
  all: apply validateRange_invalid; rewrite andb_true_r in H; exact H.
Qed.

(** X14. The range evaluator validates the seven ranges before anything
    else: when one of them is not acceptable it throws without running the
    estimator, so no resolver is called and nothing is warned about, even
    for an input that carries an energy override or that the estimator would
    reject.  When all are acceptable the validation passes silently. *)
Theorem invalid_ranges_rejected_first values2025 input ranges :
  (validRanges ranges = false ->
   exists message,
     estimateImpactRange values2025 input ranges = ([], Throw message))
  /\ (validRanges ranges = true -> validateRanges ranges = ret tt)
  /\ (forall message,
        outcome (validateRanges ranges) = Throw message ->
        estimateImpactRange values2025 input ranges = ([], Throw message)).
Proof.
  split; [|split].
  - intros H. destruct (validateRanges_invalid ranges H) as (message & E).
    exists message. unfold estimateImpactRange. rewrite E. reflexivity.
  - apply validateRanges_valid.
  - intros message H. unfold estimateImpactRange.
    rewrite (silent_eq _ (silent_validateRanges ranges)), H. reflexivity.
Qed.

(* ================================================================= *)
(** ** The inputs of the low and the high evaluation *)

Lemma validRanges_each (ranges : UncertaintyRanges.t) :
  validRanges ranges = true ->
  forall name range,
    In (name, Some range) (rangeChecks ranges) -> validRange range = true.
Proof.
  unfold validRanges. rewrite forallb_forall. intros H name range Hin.
  apply (H _ Hin).
Qed.

Lemma validRange_pick (range : NumericRange.t) (pick : Pick) :
  validRange range = true ->
  positive match pick with
           | pick_min => NumericRange.min range
           | pick_max => NumericRange.max range
           end = true.
Proof.
  unfold validRange. intros H.
  apply andb_true_iff in H as [H _]. apply andb_true_iff in H as [Hmin Hmax].
  destruct pick; assumption.
Qed.

(** Whatever a check accepts, it accepts after the value has been replaced
    by a bound of a valid range, as long as it accepts positive numbers. *)
Lemma pickRangeValue_accepted (ok : option number -> bool) value range pick :
  (forall x, positive x = true -> ok (Some x) = true) ->
  (forall r, range = Some r -> validRange r = true) ->
  ok value = true -> ok (pickRangeValue value range pick) = true.
Proof.
  intros Hok Hr Hv. destruct range as [r|]; [|exact Hv].
  cbn [pickRangeValue]. apply Hok, validRange_pick, Hr. reflexivity.
Qed.

(** X15. The low and the high input differ from the input in the ranged
    quantities only.  Each of the seven quantities reads, in the built input,
    as the bound of its range when the range is there (the value of the input
    is then ignored) and as in the input when it is not; that holds as well
    when the input has no [throughput] or [efficiency] object and one is
    created to carry the bounds.  The batch size, the precision, the
    quantization and every other field read as in the input. *)
Theorem ranges_replace_values input ranges pick :
  let built := buildInputWithRanges input ranges pick in
  let bound range :=
    match pick with
    | pick_min => NumericRange.min range
    | pick_max => NumericRange.max range
    end in
  let picked value range :=
    match range with
    | Some range => Some (bound range)
    | None => value
    end in
  let throughput := ImpactInputs.throughput input in
  let efficiency := ImpactInputs.efficiency input in
  Some (ImpactInputs.gpuPowerW built)
  = picked (Some (ImpactInputs.gpuPowerW input)) (UncertaintyRanges.gpuPowerW ranges)
  /\ (ImpactInputs.throughput built ?. ThroughputConfig.tokensPerSecond
      = picked (throughput ?. ThroughputConfig.tokensPerSecond)
          (UncertaintyRanges.tokensPerSecond ranges)
      /\ ImpactInputs.throughput built ?. ThroughputConfig.audioSecondsPerSecond
         = picked (throughput ?. ThroughputConfig.audioSecondsPerSecond)
             (UncertaintyRanges.audioSecondsPerSecond ranges)
      /\ ImpactInputs.throughput built ?. ThroughputConfig.pixelsPerSecond
         = picked (throughput ?. ThroughputConfig.pixelsPerSecond)
             (UncertaintyRanges.pixelsPerSecond ranges))
  /\ (ImpactInputs.efficiency built ?. EfficiencyOptions.pue
      = picked (efficiency ?. EfficiencyOptions.pue) (UncertaintyRanges.pue ranges)
      /\ ImpactInputs.efficiency built ?. EfficiencyOptions.overheadFactor
         = picked (efficiency ?. EfficiencyOptions.overheadFactor)
             (UncertaintyRanges.overheadFactor ranges)
      /\ ImpactInputs.efficiency built ?. EfficiencyOptions.efficiencyFactor
         = picked (efficiency ?. EfficiencyOptions.efficiencyFactor)
             (UncertaintyRanges.efficiencyFactor ranges))
  /\ (ImpactInputs.efficiency built ?. EfficiencyOptions.batchSize
      = efficiency ?. EfficiencyOptions.batchSize
      /\ ImpactInputs.efficiency built ?. EfficiencyOptions.precision
         = efficiency ?. EfficiencyOptions.precision
      /\ ImpactInputs.efficiency built ?. EfficiencyOptions.quantization
         = efficiency ?. EfficiencyOptions.quantization)
  /\ (ImpactInputs.cpuPowerW built, ImpactInputs.networkPowerW built,
      ImpactInputs.modelParamsB built, ImpactInputs.processingTimeSeconds built,
      ImpactInputs.usage built, ImpactInputs.energy built, gridInput built)
     = (ImpactInputs.cpuPowerW input, ImpactInputs.networkPowerW input,
        ImpactInputs.modelParamsB input, ImpactInputs.processingTimeSeconds input,
        ImpactInputs.usage input, ImpactInputs.energy input, gridInput input).
Proof.
  cbv zeta.
  pose proof (build_throughput input ranges pick) as (Ht1 & Ht2 & Ht3).
  pose proof (build_efficiency input ranges pick) as (He1 & He2 & He3 & He4 & He5 & He6).
  split; [|split; [|split; [|split]]].
  - unfold buildInputWithRanges. cbv zeta. cbn [ImpactInputs.gpuPowerW].
    destruct (UncertaintyRanges.gpuPowerW ranges); reflexivity.
  - rewrite Ht1, Ht2, Ht3. repeat split; reflexivity.
  - rewrite He1, He2, He3. repeat split; reflexivity.
  - rewrite He4, He5, He6. repeat split; reflexivity.
  - reflexivity.
Qed.

(* ================================================================= *)
(** ** When the range evaluator succeeds, and how often it estimates *)

Lemma acceptedPower_positive (x : number) :
  positive x = true -> acceptedPower (Some x) = true.
Proof. intros H. cbn [acceptedPower]. rewrite H. apply orb_true_r. Qed.

(** An acceptance condition against the success of a check: both directions
    by computing the outcome. *)
Ltac settle_acceptance :=
  split;
  [ let H := fresh in intros H; first [discriminate H | eexists; reflexivity]
  | let H := fresh in
    intros [? H];
    first [reflexivity | unfold outcome, throw in H; cbn [snd] in H; discriminate H] ].

Lemma applyEfficiencyToTime_accepts time efficiency :
  acceptedPower (efficiency ?. EfficiencyOptions.efficiencyFactor) = true
  <-> exists time', outcome (applyEfficiencyToTime time efficiency) = Ok time'.
Proof.
  rewrite applyEfficiencyToTime_spec.
  destruct (efficiency ?. EfficiencyOptions.efficiencyFactor) as [f|];
    cbn [acceptedPower]; [|settle_acceptance].
  destruct (truthy f); cbn [negb orb]; [|settle_acceptance].
  destruct (positive f); settle_acceptance.
Qed.

Lemma applyBatchSize_accepts energy efficiency :
  acceptedPower (efficiency ?. EfficiencyOptions.batchSize) = true
  <-> exists energy', outcome (applyBatchSize energy efficiency) = Ok energy'.
Proof.
  rewrite applyBatchSize_spec.
  destruct (efficiency ?. EfficiencyOptions.batchSize) as [b|];
    cbn [acceptedPower]; [|settle_acceptance].
  destruct (truthy b); cbn [negb orb]; [|settle_acceptance].
  destruct (positive b); settle_acceptance.
Qed.

Lemma computeEffectivePowerW_accepts input :
  positive (ImpactInputs.gpuPowerW input)
  && acceptedPower (ImpactInputs.cpuPowerW input)
  && acceptedPower (ImpactInputs.networkPowerW input) = true
  <-> exists power, outcome (computeEffectivePowerW input) = Ok power.
Proof.
  rewrite computeEffectivePowerW_spec.
  destruct (positive (ImpactInputs.gpuPowerW input)); cbn [negb andb];
    [|settle_acceptance].
  destruct (acceptedPower (ImpactInputs.cpuPowerW input)); cbn [negb andb];
    [|settle_acceptance].
  destruct (acceptedPower (ImpactInputs.networkPowerW input)); cbn [negb];
    settle_acceptance.
Qed.

Lemma deriveProcessingTimeSeconds_usage_time usage throughput t :
  UsageFields.processingTimeSeconds usage = Some t ->
  deriveProcessingTimeSeconds usage throughput
  = (if positive t then ret t
     else throw "processingTimeSeconds must be a positive number.").
Proof.
  intros Ht. unfold deriveProcessingTimeSeconds.
  rewrite Ht, requirePositive_spec. destruct (positive t); reflexivity.
Qed.

(** The time model accepts a usage without a time of its own exactly when
    its quantities and the rate of its category are positive numbers. *)
Lemma deriveProcessingTimeSeconds_accepts usage throughput :
  UsageFields.processingTimeSeconds usage = None ->
  (firstInvalid (usageQuantities usage) = None
   /\ positive (rate usage throughput ?? nan) = true)
  <-> exists time, outcome (deriveProcessingTimeSeconds usage throughput) = Ok time.
Proof.
  intros Ht. rewrite (deriveProcessingTimeSeconds_checks _ _ Ht).
  unfold timeChecks. rewrite firstInvalid_app.
  destruct (firstInvalid (usageQuantities usage)).
  - split; [intros [H _]; discriminate H | intros [time H]; discriminate H].
  - cbn [firstInvalid]. destruct (positive (rate usage throughput ?? nan)).
    + split; [intros _; eexists; reflexivity | intros _; split; reflexivity].
    + split; [intros [_ H]; discriminate H | intros [time H]; discriminate H].
Qed.

Lemma build_rate usage input ranges pick :
  validRanges ranges = true ->
  positive (rate usage (ImpactInputs.throughput input) ?? nan) = true ->
  positive
    (rate usage (ImpactInputs.throughput (buildInputWithRanges input ranges pick))
     ?? nan) = true.
Proof.
  intros Hval.
  pose proof (validRanges_each _ Hval) as Hr.
  pose proof (build_throughput input ranges pick) as (Ht1 & Ht2 & Ht3).
  cbv zeta in Ht1, Ht2, Ht3.
  unfold rate.
  destruct (UsageFields.category usage);
    rewrite ?Ht1, ?Ht2, ?Ht3;
    apply (pickRangeValue_accepted (fun o => positive (o ?? nan)));
    try (intros x Hx; exact Hx);
    intros r E.
  1-3, 8:
    apply (Hr "tokensPerSecond"); rewrite <- E; unfold rangeChecks; simpl; auto 10.
  1-3:
    apply (Hr "audioSecondsPerSecond"); rewrite <- E; unfold rangeChecks; simpl; auto 10.
  apply (Hr "pixelsPerSecond"); rewrite <- E; unfold rangeChecks; simpl; auto 10.
Qed.

Lemma baseProcessingTime_build input ranges pick time :
  validRanges ranges = true ->
  outcome (baseProcessingTime input) = Ok time ->
  exists time',
    outcome (baseProcessingTime (buildInputWithRanges input ranges pick)) = Ok time'.
Proof.
  intros Hval. unfold baseProcessingTime.
  change (ImpactInputs.processingTimeSeconds (buildInputWithRanges input ranges pick))
    with (ImpactInputs.processingTimeSeconds input).
  change (ImpactInputs.usage (buildInputWithRanges input ranges pick))
    with (ImpactInputs.usage input).
  destruct (ImpactInputs.processingTimeSeconds input) as [t|]; [eauto|].
  destruct (ImpactInputs.usage input) as [usage|]; [|discriminate].
  destruct (UsageFields.processingTimeSeconds usage) as [t|] eqn:Ht.
  - rewrite !(deriveProcessingTimeSeconds_usage_time _ _ _ Ht). eauto.
  - intros H.
    apply (deriveProcessingTimeSeconds_accepts _ _ Ht).
    assert (Hacc : exists time,
               outcome (deriveProcessingTimeSeconds usage (ImpactInputs.throughput input))
               = Ok time) by eauto.
    apply (deriveProcessingTimeSeconds_accepts _ _ Ht) in Hacc as [Hq Hrate].
    split; [exact Hq|]. apply build_rate; assumption.
Qed.

(** Where the estimator accepts an input without energy override, it accepts
    the low and the high input of valid ranges, and resolves the same grid
    intensity for them. *)
Lemma estimateImpact_build values2025 input ranges pick base :
  hasEnergyOverride input = false ->
  validRanges ranges = true ->
  outcome (estimateImpact values2025 input) = Ok base ->
  exists result,
    outcome (estimateImpact values2025 (buildInputWithRanges input ranges pick))
    = Ok result
    /\ ImpactResult.gridCarbonIntensityGPerKwh result
       = ImpactResult.gridCarbonIntensityGPerKwh base
    /\ ImpactResult.category result = ImpactResult.category base.
Proof.
  intros Hov Hval H.
  pose proof (validRanges_each _ Hval) as Hr.
  pose proof (build_efficiency input ranges pick) as (_ & _ & He3 & He4 & _).
  cbv zeta in He3, He4.
  apply estimateImpact_Ok in H
    as (g & P & pn & t & e & n & e' & Hg & HP & Hpath & Hb & ->).
  rewrite (no_override_resolveEnergyKwh _ Hov) in Hpath.
  unfold powerTimePath in Hpath.
  apply bind_Ok in Hpath as (t0 & Ht0 & Hpath).
  apply bind_Ok in Hpath as (t1 & Ht1 & _).
  set (built := buildInputWithRanges input ranges pick).
  assert (HP' : exists power, outcome (computeEffectivePowerW built) = Ok power).
  { apply computeEffectivePowerW_accepts.
    assert (Hacc : exists power, outcome (computeEffectivePowerW input) = Ok power)
      by eauto.
    apply computeEffectivePowerW_accepts in Hacc.
    apply andb_true_iff in Hacc as [Hacc Hnet].
    apply andb_true_iff in Hacc as [Hgpu Hcpu].
    change (ImpactInputs.cpuPowerW built) with (ImpactInputs.cpuPowerW input).
    change (ImpactInputs.networkPowerW built) with (ImpactInputs.networkPowerW input).
    rewrite Hcpu, Hnet, !andb_true_r.
    unfold built, buildInputWithRanges. cbv zeta. cbn [ImpactInputs.gpuPowerW].
    apply (pickRangeValue_accepted
             (fun o => positive (o ?? ImpactInputs.gpuPowerW input)));
      [intros x Hx; exact Hx | | exact Hgpu].
    intros r E. apply (Hr "gpuPowerW"). rewrite <- E. unfold rangeChecks.
    simpl. auto. }
  destruct HP' as ([P' pn'] & HP').
  destruct (baseProcessingTime_build input ranges pick t0 Hval Ht0) as (t0' & Ht0').
  fold built in Ht0'.
  assert (Ht1' : exists time,
             outcome (applyEfficiencyToTime t0' (ImpactInputs.efficiency built))
             = Ok time).
  { apply applyEfficiencyToTime_accepts. unfold built. rewrite He3.
    apply (pickRangeValue_accepted acceptedPower);
      [apply acceptedPower_positive | |].
    - intros r E. apply (Hr "efficiencyFactor"). rewrite <- E. unfold rangeChecks.
      simpl. auto 10.
    - apply (applyEfficiencyToTime_accepts t0). eauto. }
  destruct Ht1' as (t1' & Ht1').
  assert (Hb' : exists energy,
            outcome (applyBatchSize (P' * t1' / 3600 / 1000)%float
                       (ImpactInputs.efficiency built)) = Ok energy).
  { apply applyBatchSize_accepts. unfold built. rewrite He4.
    apply (applyBatchSize_accepts e). eauto. }
  destruct Hb' as (e1' & Hb').
  assert (Hen : resolveEnergyKwh (ImpactInputs.energy built) = None)
    by exact (no_override_resolveEnergyKwh _ Hov).
  eexists. rewrite estimateImpact_paths.
  change (gridInput built) with (gridInput input).
  rewrite outcome_bind, Hg, outcome_bind, HP', Hen.
  unfold powerTimePath.
  rewrite !outcome_bind, Ht0', outcome_bind, Ht1'.
  change (outcome (ret (t1', (P' * t1' / 3600 / 1000)%float, pn')))
    with (Ok (t1', (P' * t1' / 3600 / 1000)%float, pn')).
  cbv iota beta. rewrite outcome_bind, Hb'.
  split; [reflexivity|]. split; reflexivity.
Qed.

Lemma validRanges_outcome (ranges : UncertaintyRanges.t) :
  outcome (validateRanges ranges) = Ok tt <-> validRanges ranges = true.
Proof.
  split.
  - intros H. destruct (validRanges ranges) eqn:V; [reflexivity|].
    destruct (validateRanges_invalid ranges V) as (message & E).
    rewrite E in H. discriminate.
  - intros V. rewrite (validateRanges_valid ranges V). reflexivity.
Qed.

Lemma estimateImpactRange_valid values2025 input ranges :
  validRanges ranges = true ->
  estimateImpactRange values2025 input ranges
  = (base <- estimateImpact values2025 input ;;
     if hasEnergyOverride input then ret (degenerateRange base)
     else
       low <- estimateImpact values2025 (buildInputWithRanges input ranges pick_min) ;;
       high <- estimateImpact values2025 (buildInputWithRanges input ranges pick_max) ;;
       ret (envelope base low high)).
Proof.
  intros V. unfold estimateImpactRange.
  rewrite (validateRanges_valid ranges V), bind_ret_l. reflexivity.
Qed.

(** X16. The range evaluator succeeds exactly when the ranges are valid and
    the estimator accepts the input itself: after that neither the low nor
    the high evaluation can throw, since every value they change is a bound
    that validation found positive.  A quantity that the input lacks is not
    made up for by its range: the error of the nominal estimate is the error
    of the range estimate.  The [base] of a range result is the nominal
    estimate. *)
Theorem range_estimate_succeeds values2025 input ranges :
  ((exists result, outcome (estimateImpactRange values2025 input ranges) = Ok result)
   <-> validRanges ranges = true
       /\ exists base, outcome (estimateImpact values2025 input) = Ok base)
  /\ (forall result,
        outcome (estimateImpactRange values2025 input ranges) = Ok result ->
        outcome (estimateImpact values2025 input) = Ok (ImpactRangeResult.base result))
  /\ (validRanges ranges = true ->
      forall message,
        outcome (estimateImpact values2025 input) = Throw message ->
        estimateImpactRange values2025 input ranges
        = (events (estimateImpact values2025 input), Throw message)).
Proof.
  assert (Hbase : forall result,
            outcome (estimateImpactRange values2025 input ranges) = Ok result ->
            validRanges ranges = true
            /\ outcome (estimateImpact values2025 input)
               = Ok (ImpactRangeResult.base result)).
  { intros result H.
    destruct (validRanges ranges) eqn:V.
    - split; [reflexivity|].
      rewrite (estimateImpactRange_valid _ _ _ V) in H.
      apply bind_Ok in H as (base & Hb & H). rewrite Hb. f_equal.
      destruct (hasEnergyOverride input).
      + injection H as <-. reflexivity.
      + apply bind_Ok in H as (low & _ & H).
        apply bind_Ok in H as (high & _ & H).
        injection H as <-. reflexivity.
    - destruct (validateRanges_invalid ranges V) as (message & E).
      unfold estimateImpactRange in H. rewrite E in H. discriminate. }
  split; [split|split].
  - intros [result H]. destruct (Hbase result H). eauto.
  - intros [V [base Hb]]. rewrite (estimateImpactRange_valid _ _ _ V).
    rewrite outcome_bind, Hb.
    destruct (hasEnergyOverride input) eqn:Hov; [eexists; reflexivity|].
    destruct (estimateImpact_build values2025 input ranges pick_min base Hov V Hb)
      as (low & Hl & _).
    destruct (estimateImpact_build values2025 input ranges pick_max base Hov V Hb)
      as (high & Hh & _).
    rewrite outcome_bind, Hl, outcome_bind, Hh. eexists. reflexivity.
  - intros result H. apply (Hbase result H).
  - intros V message Hb. rewrite (estimateImpactRange_valid _ _ _ V).
    rewrite (M_eta (estimateImpact values2025 input)), Hb. reflexivity.
Qed.

Lemma resolveGridIntensity_calls values2025 input :
  resolverCalls (events (resolveGridIntensity values2025 input))
  = if present (GridIntensityInput.gridCarbonIntensityGPerKwh input)
       && gt (GridIntensityInput.gridCarbonIntensityGPerKwh input ?? nan) 0%float
    then []
    else match GridIntensityInput.gridIntensityResolver input with
         | Some _ =>
             [ResolverCalled
                (ResolverInput.mk
                   (normalizeRegion values2025 (GridIntensityInput.region input))
                   (GridIntensityInput.timestamp input))]
         | None => []
         end.
Proof.
  unfold resolveGridIntensity. cbv zeta.
  destruct (present _ && gt _ 0%float); [reflexivity|].
  rewrite events_bind.
  destruct (GridIntensityInput.gridIntensityResolver input) as [f|].
  - rewrite outcome_bind. cbn [emit outcome snd ret].
    rewrite events_bind. cbn [emit outcome snd ret events fst app].
    destruct (positiveNumber _); [reflexivity|].
    destruct (truthyStr _ && truthyOpt _); [reflexivity|].
    rewrite events_bind_silent by (intros; apply silent_ret).
    destruct (truthyStr (GridIntensityInput.region input)); reflexivity.
  - cbn [ret outcome snd events fst app].
    destruct (truthyStr _ && truthyOpt _); [reflexivity|].
    rewrite events_bind_silent by (intros; apply silent_ret).
    destruct (truthyStr (GridIntensityInput.region input)); reflexivity.
Qed.

Lemma estimateImpact_calls values2025 input :
  (resolverNotCalled input ->
   resolverCalls (events (estimateImpact values2025 input)) = [])
  /\ (~ resolverNotCalled input ->
      exists arg,
        resolverCalls (events (estimateImpact values2025 input))
        = [ResolverCalled arg]).
Proof.
  rewrite estimateImpact_events, resolveGridIntensity_calls.
  cbn [gridInput GridIntensityInput.gridCarbonIntensityGPerKwh
       GridIntensityInput.gridIntensityResolver GridIntensityInput.region
       GridIntensityInput.timestamp].
  unfold resolverNotCalled. split.
  - intros [-> | (g & -> & G)].
    + destruct (present _ && gt _ 0%float); reflexivity.
    + cbn [present nullish andb]. rewrite G. reflexivity.
  - intros Hnot.
    destruct (ImpactInputs.gridIntensityResolver input) as [f|];
      [|exfalso; apply Hnot; left; reflexivity].
    destruct (ImpactInputs.gridCarbonIntensityGPerKwh input) as [g|];
      cbn [present nullish andb]; [|eexists; reflexivity].
    destruct (gt g 0%float) eqn:G; [|eexists; reflexivity].
    exfalso. apply Hnot. right. exists g. auto.
Qed.

(** X17. Without energy override a successful range estimate has run the
    estimator three times, on the input, the low input and the high input.
    When the resolution of the grid intensity reaches the resolver, the
    resolver is called three times, each time with the argument of the
    nominal estimate; what it answers is up to it.  When the region is plain
    and the resolver is not reached (there is none, or an explicit intensity
    above 0 comes first), whatever the nominal estimate emits (the warning
    about an unknown region) is emitted three times over, the three runs
    resolve the same grid intensity, and the two CO2 bounds are the smaller
    and the larger of the low and the high energy, each times that one
    intensity. *)
Theorem range_runs_three_estimates values2025 input ranges result :
  hasEnergyOverride input = false ->
  outcome (estimateImpactRange values2025 input ranges) = Ok result ->
  let nominal := events (estimateImpact values2025 input) in
  let gridIntensity :=
    ImpactResult.gridCarbonIntensityGPerKwh (ImpactRangeResult.base result) in
  resolverCalls (events (estimateImpactRange values2025 input ranges))
  = (resolverCalls nominal ++ resolverCalls nominal ++ resolverCalls nominal)%list
  /\ (resolverNotCalled input -> resolverCalls nominal = [])
  /\ (~ resolverNotCalled input ->
      exists arg, resolverCalls nominal = [ResolverCalled arg])
  /\ (plainRegion (ImpactInputs.region input) = true ->
      resolverNotCalled input ->
      events (estimateImpactRange values2025 input ranges)
      = (nominal ++ nominal ++ nominal)%list
      /\ exists low high,
           outcome (estimateImpact values2025
                      (buildInputWithRanges input ranges pick_min)) = Ok low
           /\ outcome (estimateImpact values2025
                         (buildInputWithRanges input ranges pick_max)) = Ok high
           /\ result = envelope (ImpactRangeResult.base result) low high
           /\ ImpactResult.gridCarbonIntensityGPerKwh low = gridIntensity
           /\ ImpactResult.gridCarbonIntensityGPerKwh high = gridIntensity
           /\ ImpactRangeResult.co2GramsMin result
              = Math_min (ImpactResult.energyKwh low * gridIntensity)%float
                  (ImpactResult.energyKwh high * gridIntensity)%float
           /\ ImpactRangeResult.co2GramsMax result
              = Math_max (ImpactResult.energyKwh low * gridIntensity)%float
                  (ImpactResult.energyKwh high * gridIntensity)%float).
Proof.
  intros Hov H. cbv zeta.
  destruct (validRanges ranges) eqn:V.
  2: { destruct (validateRanges_invalid ranges V) as (message & E).
       unfold estimateImpactRange in H. rewrite E in H. discriminate. }
  rewrite (estimateImpactRange_valid _ _ _ V) in *. rewrite Hov in *.
  pose proof H as H'.
  apply bind_Ok in H' as (base & Hb & H').
  apply bind_Ok in H' as (low & Hl & H').
  apply bind_Ok in H' as (high & Hh & H').
  injection H' as <-. cbn [envelope ImpactRangeResult.base].
  destruct (estimateImpact_build values2025 input ranges pick_min base Hov V Hb)
    as (low' & Hl' & Hgl & _).
  destruct (estimateImpact_build values2025 input ranges pick_max base Hov V Hb)
    as (high' & Hh' & Hgh & _).
  rewrite Hl in Hl'. injection Hl' as <-.
  rewrite Hh in Hh'. injection Hh' as <-.
  assert (Hev : events
                  (base <- estimateImpact values2025 input ;;
                   low <- estimateImpact values2025
                            (buildInputWithRanges input ranges pick_min) ;;
                   high <- estimateImpact values2025
                             (buildInputWithRanges input ranges pick_max) ;;
                   ret (envelope base low high))
                = (events (estimateImpact values2025 input)
                   ++ events (estimateImpact values2025 input)
                   ++ events (estimateImpact values2025 input))%list).
  { rewrite events_bind, Hb, events_bind, Hl, events_bind, Hh.
    rewrite !estimateImpact_events. cbn [events ret fst].
    change (gridInput (buildInputWithRanges input ranges pick_min))
      with (gridInput input).
    change (gridInput (buildInputWithRanges input ranges pick_max))
      with (gridInput input).
    rewrite app_nil_r. reflexivity. }
  destruct (estimateImpact_calls values2025 input) as [Hnone Hone].
  split; [|split; [exact Hnone|split; [exact Hone|]]].
  - rewrite Hev. unfold resolverCalls. rewrite !filter_app. reflexivity.
  - intros _ _. split; [exact Hev|].
    exists low, high. split; [exact Hl|]. split; [exact Hh|].
    split; [reflexivity|]. split; [exact Hgl|]. split; [exact Hgh|].
    cbn [ImpactRangeResult.co2GramsMin ImpactRangeResult.co2GramsMax].
    apply estimateImpact_Ok in Hl
      as (gl & Pl & pnl & tl & el & nl & el' & _ & _ & _ & _ & ->).
    apply estimateImpact_Ok in Hh
      as (gh & Ph & pnh & th & eh & nh & eh' & _ & _ & _ & _ & ->).
    cbn [ImpactResult.gridCarbonIntensityGPerKwh ImpactResult.co2Grams
         ImpactResult.energyKwh] in *.
    subst gl gh. split; reflexivity.
Qed.

Lemma range_runs_three_estimates_witness :
  let called := ResolverCalled (ResolverInput.mk None None) in
  let warned :=
    ConsoleWarn
      ("Unknown region " ++ quote ++ "atlantis" ++ quote
       ++ ", falling back to global carbon intensity.") in
  resolverCalls
    (events (estimateImpactRange sample2025
               (ImpactInputs.mk 350%float None None None (Some "atlantis") None None
                  (Some (constantResolver JsNull)) None
                  (Some (usage.chat 1000%float 200%float))
                  (Some (ThroughputConfig.mk (Some 100%float) None None))
                  None None)
               allRanges))
  = [called; called; called]
  /\ events (estimateImpactRange sample2025
               (ImpactInputs.mk 350%float None None None (Some "atlantis") None None
                  None None
                  (Some (usage.chat 1000%float 200%float))
                  (Some (ThroughputConfig.mk (Some 100%float) None None))
                  None None)
               allRanges)
     = [warned; warned; warned].
Proof.
  cbv zeta. split.
  - destruct (range_runs_three_estimates sample2025
                (ImpactInputs.mk 350%float None None None (Some "atlantis") None None
                   (Some (constantResolver JsNull)) None
                   (Some (usage.chat 1000%float 200%float))
                   (Some (ThroughputConfig.mk (Some 100%float) None None))
                   None None)
                allRanges _ eq_refl eq_refl) as (H & _).
    rewrite H. reflexivity.
  - destruct (range_runs_three_estimates sample2025
                (ImpactInputs.mk 350%float None None None (Some "atlantis") None None
                   None None
                   (Some (usage.chat 1000%float 200%float))
                   (Some (ThroughputConfig.mk (Some 100%float) None None))
                   None None)
                allRanges _ eq_refl eq_refl) as (_ & _ & _ & H).
    destruct (H eq_refl (or_introl eq_refl)) as (Hev & _).
    rewrite Hev. reflexivity.
Defined.

(* ================================================================= *)
(** ** Ranges that leave nothing open *)

Lemma Math_min_same (x : number) : Math_min x x = x.
Proof. apply (Math_min_max_ordered x x). right. reflexivity. Qed.

Lemma Math_max_same (x : number) : Math_max x x = x.
Proof. apply (Math_min_max_ordered x x). right. reflexivity. Qed.

Lemma buildInputWithRanges_noRanges input pick :
  buildInputWithRanges input noRanges pick = input.
Proof.
  destruct input as [gpu cpu net mp rg gi ts rs pt us [[a b c]|] en [[p o f bs q z]|]];
    reflexivity.
Qed.

Lemma pickRangeValue_point value range :
  (forall r, range = Some r -> NumericRange.max r = NumericRange.min r) ->
  pickRangeValue value range pick_max = pickRangeValue value range pick_min.
Proof.
  intros H. destruct range as [r|]; [|reflexivity].
  cbn [pickRangeValue]. rewrite (H r eq_refl). reflexivity.
Qed.

Lemma buildInputWithRanges_point input ranges :
  (forall name range,
     In (name, Some range) (rangeChecks ranges) ->
     NumericRange.max range = NumericRange.min range) ->
  buildInputWithRanges input ranges pick_max
  = buildInputWithRanges input ranges pick_min.
Proof.
  intros H. unfold buildInputWithRanges. cbv zeta.
  assert (Hp : forall name value range,
            In (name, range) (rangeChecks ranges) ->
            pickRangeValue value range pick_max = pickRangeValue value range pick_min).
  { intros name value range Hin. apply pickRangeValue_point.
    intros r E. apply (H name). rewrite <- E. exact Hin. }
  rewrite (Hp "gpuPowerW" _ (UncertaintyRanges.gpuPowerW ranges))
    by (unfold rangeChecks; simpl; auto 10).
  f_equal.
  - destruct (match ImpactInputs.throughput input with
              | Some t => Some t
              | None => _
              end) as [throughput|]; [|reflexivity].
    rewrite (Hp "tokensPerSecond" _ (UncertaintyRanges.tokensPerSecond ranges))
      by (unfold rangeChecks; simpl; auto 10).
    rewrite (Hp "audioSecondsPerSecond" _
               (UncertaintyRanges.audioSecondsPerSecond ranges))
      by (unfold rangeChecks; simpl; auto 10).
    rewrite (Hp "pixelsPerSecond" _ (UncertaintyRanges.pixelsPerSecond ranges))
      by (unfold rangeChecks; simpl; auto 10).
    reflexivity.
  - destruct (match ImpactInputs.efficiency input with
              | Some e => Some e
              | None => _
              end) as [efficiency|]; [|reflexivity].
    rewrite (Hp "pue" _ (UncertaintyRanges.pue ranges))
      by (unfold rangeChecks; simpl; auto 10).
    rewrite (Hp "overheadFactor" _ (UncertaintyRanges.overheadFactor ranges))
      by (unfold rangeChecks; simpl; auto 10).
    rewrite (Hp "efficiencyFactor" _ (UncertaintyRanges.efficiencyFactor ranges))
      by (unfold rangeChecks; simpl; auto 10).
    reflexivity.
Qed.

(** X18. Ranges that leave nothing open give bounds that coincide.  When
    every supplied range has [max = min], the low and the high input are the
    same input and a successful range estimate without energy override has
    [energyKwhMin = energyKwhMax], the energy of that input's evaluation;
    with no range at all ([{}]) that input is the input itself and both
    energy bounds are the nominal energy.  When moreover the region is plain
    and the resolver is not reached, so that the evaluations do not depend
    on what a resolver answers from call to call, the two CO2 bounds
    coincide as well, and with no range at all the four bounds sit on
    [base]. *)
Theorem point_ranges_collapse values2025 input ranges result :
  hasEnergyOverride input = false ->
  (forall name range,
     In (name, Some range) (rangeChecks ranges) ->
     NumericRange.max range = NumericRange.min range) ->
  outcome (estimateImpactRange values2025 input ranges) = Ok result ->
  buildInputWithRanges input ranges pick_max
  = buildInputWithRanges input ranges pick_min
  /\ (exists low,
        outcome (estimateImpact values2025
                   (buildInputWithRanges input ranges pick_min)) = Ok low
        /\ ImpactRangeResult.energyKwhMin result = ImpactResult.energyKwh low
        /\ ImpactRangeResult.energyKwhMax result = ImpactResult.energyKwh low
        /\ (plainRegion (ImpactInputs.region input) = true ->
            resolverNotCalled input ->
            ImpactRangeResult.co2GramsMin result = ImpactResult.co2Grams low
            /\ ImpactRangeResult.co2GramsMax result = ImpactResult.co2Grams low))
  /\ (ranges = noRanges ->
      buildInputWithRanges input ranges pick_min = input
      /\ ImpactRangeResult.energyKwhMin result
         = ImpactResult.energyKwh (ImpactRangeResult.base result)
      /\ ImpactRangeResult.energyKwhMax result
         = ImpactResult.energyKwh (ImpactRangeResult.base result)
      /\ (plainRegion (ImpactInputs.region input) = true ->
          resolverNotCalled input ->
          result = degenerateRange (ImpactRangeResult.base result))).
Proof.
  intros Hov Hpoint H.
  destruct (validRanges ranges) eqn:V.
  2: { destruct (validateRanges_invalid ranges V) as (message & E).
       unfold estimateImpactRange in H. rewrite E in H. discriminate. }
  rewrite (estimateImpactRange_valid _ _ _ V), Hov in H.
  pose proof (buildInputWithRanges_point input ranges Hpoint) as Hsame.
  rewrite Hsame in H.
  apply bind_Ok in H as (base & Hb & H).
  apply bind_Ok in H as (low & Hl & H).
  apply bind_Ok in H as (high & Hh & H).
  injection H as <-.
  rewrite Hl in Hh. injection Hh as <-.
  unfold envelope.
  cbn [ImpactRangeResult.energyKwhMin ImpactRangeResult.energyKwhMax
       ImpactRangeResult.co2GramsMin ImpactRangeResult.co2GramsMax
       ImpactRangeResult.base].
  rewrite !Math_min_same, !Math_max_same.
  split; [exact Hsame|]. split.
  - exists low. repeat split; assumption || reflexivity.
  - intros ->. rewrite buildInputWithRanges_noRanges in Hl |- *. rewrite Hb in Hl.
    injection Hl as <-. repeat split; reflexivity.
Qed.

Lemma point_ranges_collapse_witness :
  exists result,
    outcome (estimateImpactRange sample2025 chatScenario
               (onlyEfficiencyFactor 2%float 2%float)) = Ok result
    /\ ImpactRangeResult.energyKwhMin result = ImpactRangeResult.energyKwhMax result
    /\ ImpactResult.energyKwh (ImpactRangeResult.base result)
       = (2 * ImpactRangeResult.energyKwhMax result)%float.
Proof.
  eexists. split; [reflexivity|].
  assert (Hpoint : forall name range,
            In (name, Some range) (rangeChecks (onlyEfficiencyFactor 2%float 2%float)) ->
            NumericRange.max range = NumericRange.min range).
  { intros name range Hin. unfold rangeChecks in Hin. simpl in Hin.
    repeat match goal with
           | H : _ \/ _ |- _ => destruct H as [H|H]
           end;
      try discriminate; try contradiction.
    injection Hin as _ <-. reflexivity. }
  destruct (point_ranges_collapse sample2025 chatScenario
              (onlyEfficiencyFactor 2%float 2%float) _ eq_refl Hpoint eq_refl)
    as (_ & (low & _ & Hmin & Hmax & _) & _).
  split; [rewrite Hmin, Hmax; reflexivity | reflexivity].
Defined.

(* ================================================================= *)
(** ** The order of sums, products and quotients

    Rounding keeps the order of two exact results whatever their
    denominators are, so a product grows with both factors, a sum with both
    terms, and a quotient grows with the dividend and shrinks as the divisor
    grows. *)

Section Order.

#[local] Arguments Z.mul : simpl never.
#[local] Arguments Z.add : simpl never.
#[local] Arguments Z.sub : simpl never.
#[local] Arguments Z.div : simpl never.
#[local] Arguments Z.modulo : simpl never.
#[local] Arguments Z.pow : simpl never.

Local Open Scope Z_scope.

Lemma trunc_exp_monotone_across (N1 D1 e1 N2 D2 e2 : Z) :
  well_formed N1 D1 e1 -> well_formed N2 D2 e2 ->
  value_le (N1 * D2) e1 (N2 * D1) e2 ->
  fexp64 (Zdigits2 (N1 / D1) + e1) <= fexp64 (Zdigits2 (N2 / D2) + e2).
Proof.
  intros (HD1 & HN1 & He1) (HD2 & HN2 & He2) Hv.
  set (d1 := Zdigits2 (N1 / D1)) in *. set (d2 := Zdigits2 (N2 / D2)) in *.
  destruct (Z.le_gt_cases (fexp64 (d1 + e1)) (fexp64 (d2 + e2))) as [L|G]; [exact L|exfalso].
  assert (Hq1 : 0 <= N1 / D1) by (apply Z.div_pos; lia).
  assert (Hq2 : 0 <= N2 / D2) by (apply Z.div_pos; lia).
  pose proof (Zdigits2_nonneg _ Hq1) as Hd1. fold d1 in Hd1.
  pose proof (Zdigits2_nonneg _ Hq2) as Hd2. fold d2 in Hd2.
  assert (Hq0 : 0 < N1 / D1).
  { destruct (Z.eq_dec (N1 / D1) 0) as [E0|]; [|lia].
    exfalso. unfold d1 in *. rewrite E0 in *. simpl in *. unfold fexp64 in *. lia. }
  destruct (Zdigits2_bounds _ Hq0) as [Hp1 [Hl1 _]]. fold d1 in Hp1, Hl1.
  pose proof (Zdigits2_lt_pow _ Hq2) as Hu2. fold d2 in Hu2.
  assert (Hmag : d2 + e2 <= d1 - 1 + e1) by (unfold fexp64 in *; lia).
  pose proof (Z.div_mod N1 D1 ltac:(lia)) as E1.
  pose proof (Z.mod_pos_bound N1 D1 HD1) as R1.
  pose proof (Z.div_mod N2 D2 ltac:(lia)) as E2.
  pose proof (Z.mod_pos_bound N2 D2 HD2) as R2.
  set (k := Z.min e1 e2).
  pose proof (value_le_at _ _ _ _ k Hv ltac:(lia) ltac:(lia)) as H.
  pose proof (pow2_pos (e1 - k) ltac:(lia)) as Pa.
  pose proof (pow2_pos (e2 - k) ltac:(lia)) as Pb.
  assert (Hpow : 2 ^ d2 * 2 ^ (e2 - k) <= 2 ^ (d1 - 1) * 2 ^ (e1 - k)).
  { rewrite <- !Z.pow_add_r by lia. apply pow2_le. lia. }
  assert (A2 : N2 < D2 * 2 ^ d2) by nia.
  assert (A1 : D1 * 2 ^ (d1 - 1) <= N1) by nia.
  assert (B2 : N2 * D1 * 2 ^ (e2 - k) < D2 * 2 ^ d2 * D1 * 2 ^ (e2 - k)).
  { apply Z.mul_lt_mono_pos_r; [lia|]. apply Z.mul_lt_mono_pos_r; lia. }
  assert (B1 : D1 * 2 ^ (d1 - 1) * D2 * 2 ^ (e1 - k) <= N1 * D2 * 2 ^ (e1 - k)).
  { apply Z.mul_le_mono_nonneg_r; [lia|]. apply Z.mul_le_mono_nonneg_r; lia. }
  assert (B3 : D1 * D2 * (2 ^ d2 * 2 ^ (e2 - k)) <= D1 * D2 * (2 ^ (d1 - 1) * 2 ^ (e1 - k))).
  { apply Z.mul_le_mono_nonneg_l; [nia|exact Hpow]. }
  lia.
Qed.

Lemma rounded_monotone_across (N1 D1 e1 N2 D2 e2 : Z) :
  well_formed N1 D1 e1 -> well_formed N2 D2 e2 ->
  value_le (N1 * D2) e1 (N2 * D1) e2 ->
  SFleb (rounded N1 D1 e1) (rounded N2 D2 e2) = true.
Proof.
  intros WF1 WF2 Hv.
  rewrite (rounded_encode _ _ _ WF1), (rounded_encode _ _ _ WF2).
  pose proof (trunc_exp_monotone_across _ _ _ _ _ _ WF1 WF2 Hv) as HE.
  pose proof (truncated_bounds _ _ _ WF1) as [Hq1 Hn1].
  pose proof (truncated_bounds _ _ _ WF2) as [Hq2 Hn2].
  set (E1 := fexp64 (Zdigits2 (N1 / D1) + e1)) in *.
  set (E2 := fexp64 (Zdigits2 (N2 / D2) + e2)) in *.
  pose proof (nearest_even_bounds N1 (D1 * 2 ^ (E1 - e1))) as B1.
  pose proof (nearest_even_bounds N2 (D2 * 2 ^ (E2 - e2))) as B2.
  destruct WF1 as (HD1 & HN1 & He1). destruct WF2 as (HD2 & HN2 & He2).
  fold E1 in He1. fold E2 in He2.
  destruct (Z.eq_dec E1 E2) as [EE|NE].
  - rewrite <- EE in *.
    apply encode_monotone; [|lia].
    split; [lia|].
    pose proof (pow2_pos (E1 - e1) ltac:(lia)).
    pose proof (pow2_pos (E1 - e2) ltac:(lia)).
    apply nearest_even_monotone; try nia.
    set (k := Z.min e1 e2).
    pose proof (value_le_at _ _ _ _ k Hv ltac:(lia) ltac:(lia)) as H1.
    set (c := E1 - Z.max e1 e2).
    replace (E1 - e2) with ((e1 - k) + c) by (unfold c, k; lia).
    replace (E1 - e1) with ((e2 - k) + c) by (unfold c, k; lia).
    rewrite !Z.pow_add_r by (unfold c, k; lia).
    pose proof (pow2_pos c ltac:(unfold c; lia)).
    pose proof (pow2_pos (e1 - k) ltac:(unfold k; lia)).
    pose proof (pow2_pos (e2 - k) ltac:(unfold k; lia)).
    assert (N1 * D2 * 2 ^ (e1 - k) * 2 ^ c <= N2 * D1 * 2 ^ (e2 - k) * 2 ^ c)
      by (apply Z.mul_le_mono_nonneg_r; lia).
    lia.
  - assert (HminE : -1074 <= E1) by (unfold E1, fexp64; lia).
    apply encode_next_binade; lia.
Qed.

(** *** Products, both factors growing *)

Lemma SFmul_finite_grows (mx my mc md : BinNums.positive) (ex ey ec ed : Z) :
  bounded prec emax mx ex = true ->
  bounded prec emax my ey = true ->
  bounded prec emax mc ec = true ->
  bounded prec emax md ed = true ->
  SFleb (S754_finite false mx ex) (S754_finite false my ey) = true ->
  SFleb (S754_finite false mc ec) (S754_finite false md ed) = true ->
  SFleb (SF64mul (S754_finite false mx ex) (S754_finite false mc ec))
        (SF64mul (S754_finite false my ey) (S754_finite false md ed)) = true.
Proof.
  intros Bx By Bc Bd Hxy Hcd.
  apply bounded_canonical in Bx as [Cx _].
  apply bounded_canonical in By as [Cy _].
  apply bounded_canonical in Bc as [Cc _].
  apply bounded_canonical in Bd as [Cd _].
  rewrite !SFmul_rounded.
  apply rounded_monotone; try (apply mul_well_formed; assumption).
  destruct (SFleb_value_le _ _ _ _ Cx Cy Hxy) as [Hexy Hv].
  destruct (SFleb_value_le _ _ _ _ Cc Cd Hcd) as [Hecd Hw].
  pose proof (value_le_at _ _ _ _ ex Hv ltac:(lia) ltac:(lia)) as H1.
  pose proof (value_le_at _ _ _ _ ec Hw ltac:(lia) ltac:(lia)) as H2.
  rewrite Z.sub_diag in H1, H2. change (2 ^ 0) with 1 in H1, H2.
  exists (ex + ec). split; [lia|]. split; [lia|].
  replace (ex + ec - (ex + ec)) with 0 by lia. change (2 ^ 0) with 1.
  replace (ey + ed - (ex + ec)) with ((ey - ex) + (ed - ec)) by lia.
  rewrite Z.pow_add_r by lia.
  pose proof (pow2_pos (ey - ex) ltac:(lia)).
  pose proof (pow2_pos (ed - ec) ltac:(lia)).
  nia.
Qed.

(** *** Quotients: the dividend growing, the divisor shrinking *)

Lemma SFdiv_finite_grows (mx my mc md : BinNums.positive) (ex ey ec ed : Z) :
  bounded prec emax mx ex = true ->
  bounded prec emax my ey = true ->
  bounded prec emax mc ec = true ->
  bounded prec emax md ed = true ->
  SFleb (S754_finite false mx ex) (S754_finite false my ey) = true ->
  SFleb (S754_finite false mc ec) (S754_finite false md ed) = true ->
  SFleb (SF64div (S754_finite false mx ex) (S754_finite false md ed))
        (SF64div (S754_finite false my ey) (S754_finite false mc ec)) = true.
Proof.
  intros Bx By Bc Bd Hxy Hcd.
  apply bounded_canonical in Bx as [Cx _].
  apply bounded_canonical in By as [Cy _].
  apply bounded_canonical in Bc as [Cc _].
  apply bounded_canonical in Bd as [Cd _].
  rewrite !SFdiv_rounded.
  apply rounded_monotone_across; try (apply div_well_formed; assumption).
  destruct (SFleb_value_le _ _ _ _ Cx Cy Hxy) as [Hexy Hv].
  destruct (SFleb_value_le _ _ _ _ Cc Cd Hcd) as [Hecd Hw].
  pose proof (value_le_at _ _ _ _ ex Hv ltac:(lia) ltac:(lia)) as H1.
  pose proof (value_le_at _ _ _ _ ec Hw ltac:(lia) ltac:(lia)) as H2.
  rewrite Z.sub_diag in H1, H2. change (2 ^ 0) with 1 in H1, H2.
  set (e1 := Z.min (fexp64 (Zdigits2 (Z.pos mx) + ex - (Zdigits2 (Z.pos md) + ed))) (ex - ed)).
  set (e2 := Z.min (fexp64 (Zdigits2 (Z.pos my) + ey - (Zdigits2 (Z.pos mc) + ec))) (ey - ec)).
  set (k := Z.min e1 e2).
  assert (K1 : k <= e1) by (unfold k; lia).
  assert (K2 : k <= e2) by (unfold k; lia).
  assert (E1 : e1 <= ex - ed) by (unfold e1; lia).
  assert (E2 : e2 <= ey - ec) by (unfold e2; lia).
  exists k. split; [exact K1|]. split; [exact K2|].
  (* mx * 2^(ex-ed-e1) * mc * 2^(e1-k) <= my * 2^(ey-ec-e2) * md * 2^(e2-k) *)
  replace (Z.pos mx * 2 ^ (ex - ed - e1) * Z.pos mc * 2 ^ (e1 - k))
    with (Z.pos mx * Z.pos mc * 2 ^ (ex - ed - k)).
  2: { replace (ex - ed - k) with ((ex - ed - e1) + (e1 - k)) by lia.
       rewrite Z.pow_add_r by lia. ring. }
  replace (Z.pos my * 2 ^ (ey - ec - e2) * Z.pos md * 2 ^ (e2 - k))
    with (Z.pos my * Z.pos md * 2 ^ (ey - ec - k)).
  2: { replace (ey - ec - k) with ((ey - ec - e2) + (e2 - k)) by lia.
       rewrite Z.pow_add_r by lia. ring. }
  replace (ey - ec - k) with ((ey - ex) + (ed - ec) + (ex - ed - k)) by lia.
  rewrite !Z.pow_add_r by lia.
  pose proof (pow2_pos (ey - ex) ltac:(lia)).
  pose proof (pow2_pos (ed - ec) ltac:(lia)).
  pose proof (pow2_pos (ex - ed - k) ltac:(lia)).
  assert (Z.pos mx * Z.pos mc <= Z.pos my * 2 ^ (ey - ex) * (Z.pos md * 2 ^ (ed - ec)))
    by nia.
  assert (Z.pos mx * Z.pos mc * 2 ^ (ex - ed - k)
          <= Z.pos my * 2 ^ (ey - ex) * (Z.pos md * 2 ^ (ed - ec)) * 2 ^ (ex - ed - k))
    by (apply Z.mul_le_mono_nonneg_r; lia).
  lia.
Qed.

(** *** A value that needs no rounding *)

Lemma nearest_even_exact (m : Z) : 0 <= m -> nearest_even m 1 = m.
Proof.
  intros Hm. unfold nearest_even. rewrite Z.mod_1_r, Z.div_1_r.
  destruct (Z.ltb_spec (2 * 0) 1); [reflexivity|lia].
Qed.

Lemma rounded_exact (m : BinNums.positive) (e : Z) :
  bounded prec emax m e = true ->
  rounded (Z.pos m) 1 e = S754_finite false m e.
Proof.
  intros B. apply bounded_canonical in B as [C He].
  destruct (canonical_bounds _ _ C) as (_ & U & _).
  assert (WF : well_formed (Z.pos m) 1 e).
  { unfold well_formed. rewrite Z.div_1_r, C. lia. }
  rewrite (rounded_encode _ _ _ WF). cbv zeta. rewrite Z.div_1_r, C, Z.sub_diag.
  change (1 * 2 ^ 0) with 1. rewrite nearest_even_exact by lia.
  unfold encode.
  destruct (Z.eqb_spec (Z.pos m) 0); [lia|].
  destruct (Z.ltb_spec (Z.pos m) (2 ^ 53)); [|lia].
  destruct (Z.leb_spec e 971); [|lia].
  reflexivity.
Qed.

(** *** Sums *)

Lemma shl_align_below (mx : BinNums.positive) (ex e : Z) :
  e <= ex ->
  exists mz, shl_align mx ex e = (mz, e) /\ Z.pos mz = Z.pos mx * 2 ^ (ex - e).
Proof.
  intros He. unfold shl_align.
  destruct (e - ex) as [|d|d] eqn:E; try lia.
  - exists mx. assert (e = ex) by lia. subst e. rewrite Z.sub_diag.
    change (2 ^ 0) with 1. split; [reflexivity|lia].
  - exists (PosDef.Pos.iter xO mx d). split; [reflexivity|].
    replace (ex - e) with (Z.pos d) by lia.
    change (PosDef.Pos.iter xO mx d) with (shift_pos d mx).
    rewrite shift_pos_correct, Z.pow_pos_fold. lia.
Qed.

Lemma shl_align_above (mx : BinNums.positive) (ex e : Z) :
  ex <= e -> shl_align mx ex e = (mx, ex).
Proof.
  intros He. unfold shl_align. destruct (e - ex) as [|d|d] eqn:E; try lia; reflexivity.
Qed.

Lemma Zdigits2_shift (m n : Z) :
  0 < m -> 0 <= n -> Zdigits2 (m * 2 ^ n) = Zdigits2 m + n.
Proof.
  intros Hm Hn.
  destruct (Zdigits2_bounds m Hm) as [Dm [Lm Um]].
  pose proof (pow2_pos n Hn) as Pn.
  apply Z.le_antisymm.
  - apply Zdigits2_le; [lia|]. split; [nia|].
    rewrite Z.pow_add_r by lia. nia.
  - apply Zdigits2_ge; [|lia].
    replace (Zdigits2 m + n - 1) with ((Zdigits2 m - 1) + n) by lia.
    rewrite Z.pow_add_r by lia. nia.
Qed.

(** The sum of two values above 0 is the exact sum, written at an exponent
    no greater than theirs, then rounded. *)
Lemma SFadd_rounded (mx my : BinNums.positive) (ex ey : Z) :
  exists e,
    e <= ex /\ e <= ey
    /\ SF64add (S754_finite false mx ex) (S754_finite false my ey)
       = rounded (Z.pos mx * 2 ^ (ex - e) + Z.pos my * 2 ^ (ey - e)) 1 e
    /\ well_formed (Z.pos mx * 2 ^ (ex - e) + Z.pos my * 2 ^ (ey - e)) 1 e.
Proof.
  unfold SF64add, SFadd. change IntDef.Z.min with Z.min.
  set (ez := Z.min ex ey).
  destruct (shl_align_below mx ex ez ltac:(unfold ez; lia)) as (a & -> & Ha).
  destruct (shl_align_below my ey ez ltac:(unfold ez; lia)) as (b & -> & Hb).
  cbn [fst cond_Zopp].
  change (Z.pos a + Z.pos b) with (Z.pos (a + b)).
  unfold binary_normalize, binary_round. rewrite fexp_fexp64.
  change (Z.pos (digits2_pos (a + b))) with (Zdigits2 (Z.pos (a + b))).
  set (E := fexp64 (Zdigits2 (Z.pos (a + b)) + ez)).
  assert (Hsum : Z.pos (a + b) = Z.pos mx * 2 ^ (ex - ez) + Z.pos my * 2 ^ (ey - ez))
    by lia.
  destruct (Z.le_gt_cases E ez) as [L|G].
  - destruct (shl_align_below (a + b) ez E L) as (mz & -> & Hz).
    exists E. split; [unfold ez in *; lia|]. split; [unfold ez in *; lia|].
    assert (HN : Z.pos mx * 2 ^ (ex - E) + Z.pos my * 2 ^ (ey - E) = Z.pos mz).
    { rewrite Hz, Hsum.
      replace (ex - E) with ((ex - ez) + (ez - E)) by lia.
      replace (ey - E) with ((ey - ez) + (ez - E)) by lia.
      rewrite !Z.pow_add_r by (unfold ez in *; lia). ring. }
    rewrite HN. split.
    + unfold rounded. rewrite Z.div_1_r, Z.mod_1_r. reflexivity.
    + unfold well_formed. rewrite Z.div_1_r.
      split; [lia|]. split; [lia|].
      rewrite Hz, Zdigits2_shift by lia.
      replace (Zdigits2 (Z.pos (a + b)) + (ez - E) + E)
        with (Zdigits2 (Z.pos (a + b)) + ez) by lia.
      fold E. lia.
  - rewrite (shl_align_above (a + b) ez E ltac:(lia)).
    exists ez. split; [unfold ez; lia|]. split; [unfold ez; lia|].
    rewrite <- Hsum. split.
    + unfold rounded. rewrite Z.div_1_r, Z.mod_1_r. reflexivity.
    + unfold well_formed. rewrite Z.div_1_r.
      split; [lia|]. split; [lia|]. fold E. lia.
Qed.

Lemma SFadd_finite_grows (mx my mc md : BinNums.positive) (ex ey ec ed : Z) :
  bounded prec emax mx ex = true ->
  bounded prec emax my ey = true ->
  bounded prec emax mc ec = true ->
  bounded prec emax md ed = true ->
  SFleb (S754_finite false mx ex) (S754_finite false my ey) = true ->
  SFleb (S754_finite false mc ec) (S754_finite false md ed) = true ->
  SFleb (SF64add (S754_finite false mx ex) (S754_finite false mc ec))
        (SF64add (S754_finite false my ey) (S754_finite false md ed)) = true.
Proof.
  intros Bx By Bc Bd Hxy Hcd.
  apply bounded_canonical in Bx as [Cx _].
  apply bounded_canonical in By as [Cy _].
  apply bounded_canonical in Bc as [Cc _].
  apply bounded_canonical in Bd as [Cd _].
  destruct (SFadd_rounded mx mc ex ec) as (e1 & L1 & L1' & -> & W1).
  destruct (SFadd_rounded my md ey ed) as (e2 & L2 & L2' & -> & W2).
  apply rounded_monotone; [exact W1 | exact W2 |].
  destruct (SFleb_value_le _ _ _ _ Cx Cy Hxy) as [Hexy Hv].
  destruct (SFleb_value_le _ _ _ _ Cc Cd Hcd) as [Hecd Hw].
  set (k := Z.min e1 e2).
  pose proof (value_le_at _ _ _ _ k Hv ltac:(unfold k; lia) ltac:(unfold k; lia)) as H1.
  pose proof (value_le_at _ _ _ _ k Hw ltac:(unfold k; lia) ltac:(unfold k; lia)) as H2.
  exists k. split; [unfold k; lia|]. split; [unfold k; lia|].
  rewrite !Z.mul_add_distr_r, <- !Z.mul_assoc, <- !Z.pow_add_r by (unfold k; lia).
  replace (ex - e1 + (e1 - k)) with (ex - k) by lia.
  replace (ec - e1 + (e1 - k)) with (ec - k) by lia.
  replace (ey - e2 + (e2 - k)) with (ey - k) by lia.
  replace (ed - e2 + (e2 - k)) with (ed - k) by lia.
  lia.
Qed.

(** Adding a value above 0 does not take a value down. *)
Lemma SFadd_finite_above (mx my mc : BinNums.positive) (ex ey ec : Z) :
  bounded prec emax mx ex = true ->
  bounded prec emax my ey = true ->
  bounded prec emax mc ec = true ->
  SFleb (S754_finite false mx ex) (S754_finite false my ey) = true ->
  SFleb (S754_finite false mx ex)
        (SF64add (S754_finite false my ey) (S754_finite false mc ec)) = true
  /\ SFleb (S754_finite false mx ex)
           (SF64add (S754_finite false mc ec) (S754_finite false my ey)) = true.
Proof.
  intros Bx By Bc Hxy.
  rewrite <- (rounded_exact mx ex Bx).
  apply bounded_canonical in Bx as [Cx _].
  apply bounded_canonical in By as [Cy _].
  apply bounded_canonical in Bc as [Cc _].
  assert (WF : well_formed (Z.pos mx) 1 ex).
  { unfold well_formed. rewrite Z.div_1_r, Cx. lia. }
  destruct (SFleb_value_le _ _ _ _ Cx Cy Hxy) as [Hexy Hv].
  split.
  - destruct (SFadd_rounded my mc ey ec) as (e & L & L' & -> & W).
    apply rounded_monotone; [exact WF | exact W |].
    set (k := Z.min ex e).
    pose proof (value_le_at _ _ _ _ k Hv ltac:(unfold k; lia) ltac:(unfold k; lia)) as H1.
    exists k. split; [unfold k; lia|]. split; [unfold k; lia|].
    rewrite !Z.mul_add_distr_r, <- !Z.mul_assoc, <- !Z.pow_add_r by (unfold k; lia).
    replace (ey - e + (e - k)) with (ey - k) by lia.
    pose proof (pow2_pos (ec - e + (e - k)) ltac:(unfold k; lia)). nia.
  - destruct (SFadd_rounded mc my ec ey) as (e & L & L' & -> & W).
    apply rounded_monotone; [exact WF | exact W |].
    set (k := Z.min ex e).
    pose proof (value_le_at _ _ _ _ k Hv ltac:(unfold k; lia) ltac:(unfold k; lia)) as H1.
    exists k. split; [unfold k; lia|]. split; [unfold k; lia|].
    rewrite !Z.mul_add_distr_r, <- !Z.mul_assoc, <- !Z.pow_add_r by (unfold k; lia).
    replace (ey - e + (e - k)) with (ey - k) by lia.
    pose proof (pow2_pos (ec - e + (e - k)) ltac:(unfold k; lia)). nia.
Qed.

(** *** Order up to NaN, through the operations *)

Ltac order_absurd H :=
  exfalso; destruct H as [H|[H|H]]; discriminate H.

Lemma SFmul_upTo (x y c d : spec_float) :
  valid_binary x = true -> valid_binary y = true ->
  valid_binary c = true -> valid_binary d = true ->
  SFupTo x y -> SFupTo c d -> SFupTo (SF64mul x c) (SF64mul y d).
Proof.
  intros Vx Vy Vc Vd (Sx & Sy & Oxy) (Sc & Sd & Ocd).
  split; [apply SFmul_signClear; assumption|].
  split; [apply SFmul_signClear; assumption|].
  destruct x as [[]|[]| |[] mx ex]; try discriminate Sx;
  destruct y as [[]|[]| |[] my ey]; try discriminate Sy;
  destruct c as [[]|[]| |[] mc ec]; try discriminate Sc;
  destruct d as [[]|[]| |[] md ed]; try discriminate Sd;
  first
    [ left; reflexivity
    | right; left; reflexivity
    | order_absurd Oxy
    | order_absurd Ocd
    | right; right; reflexivity
    | right; right; apply SFleb_zero_num, SFmul_finite_num; assumption
    | right; right; apply SFleb_num_inf, SFmul_finite_num; assumption
    | idtac ].
  right. right.
  destruct Oxy as [E|[E|Oxy]]; try discriminate E.
  destruct Ocd as [E|[E|Ocd]]; try discriminate E.
  apply SFmul_finite_grows; assumption.
Qed.

Lemma SFdiv_upTo (x y c d : spec_float) :
  valid_binary x = true -> valid_binary y = true ->
  valid_binary c = true -> valid_binary d = true ->
  SFupTo x y -> SFupTo c d -> SFupTo (SF64div x d) (SF64div y c).
Proof.
  intros Vx Vy Vc Vd (Sx & Sy & Oxy) (Sc & Sd & Ocd).
  assert (Sdiv : forall a b, SFsignClear a = true -> SFsignClear b = true ->
                             SFsignClear (SF64div a b) = true).
  { intros [[]|[]| |[] ma ea] [[]|[]| |[] mb eb]; try discriminate;
      try reflexivity.
    intros _ _. rewrite SFdiv_rounded. apply binary_round_aux_signClear. }
  split; [apply Sdiv; assumption|].
  split; [apply Sdiv; assumption|].
  destruct x as [[]|[]| |[] mx ex]; try discriminate Sx;
  destruct y as [[]|[]| |[] my ey]; try discriminate Sy;
  destruct c as [[]|[]| |[] mc ec]; try discriminate Sc;
  destruct d as [[]|[]| |[] md ed]; try discriminate Sd;
  first
    [ left; reflexivity
    | right; left; reflexivity
    | order_absurd Oxy
    | order_absurd Ocd
    | right; right; reflexivity
    | right; right; apply SFleb_zero_num, SFdiv_finite_num; assumption
    | right; right; apply SFleb_num_inf, SFdiv_finite_num; assumption
    | idtac ].
  right. right.
  destruct Oxy as [E|[E|Oxy]]; try discriminate E.
  destruct Ocd as [E|[E|Ocd]]; try discriminate E.
  apply SFdiv_finite_grows; assumption.
Qed.

Lemma SFadd_upTo (x y c : spec_float) :
  valid_binary x = true -> valid_binary y = true -> valid_binary c = true ->
  SFupTo x y -> SFnegative c = false -> SFupTo (SF64add x c) (SF64add y c).
Proof.
  intros Vx Vy Vc (Sx & Sy & Oxy) Nc.
  split; [apply SFadd_signClear; assumption|].
  split; [apply SFadd_signClear; assumption|].
  destruct x as [[]|[]| |[] mx ex]; try discriminate Sx;
  destruct y as [[]|[]| |[] my ey]; try discriminate Sy;
  destruct c as [[]|[]| |[] mc ec]; try discriminate Nc;
  first
    [ left; reflexivity
    | right; left; reflexivity
    | order_absurd Oxy
    | right; right; reflexivity
    | right; right; exact (SFleb_refl_num (S754_finite false mc ec) eq_refl)
    | right; right; apply SFleb_num_inf, SFadd_finpos_num; reflexivity
    | right; right;
      destruct Oxy as [E|[E|Oxy]]; [discriminate E | discriminate E | exact Oxy]
    | idtac ].
  - (* c against y + c *)
    right. right.
    apply (SFadd_finite_above mc mc my ec ec ey Vc Vc Vy
             (SFleb_refl_num (S754_finite false mc ec) eq_refl)).
  - (* x + c against y + c *)
    right. right.
    destruct Oxy as [E|[E|Oxy]]; try discriminate E.
    apply SFadd_finite_grows; try assumption.
    exact (SFleb_refl_num (S754_finite false mc ec) eq_refl).
Qed.

(** *** One and zero *)

Lemma SFmul_one (x : spec_float) :
  valid_binary x = true -> SFsignClear x = true -> SF64mul x SFone = x.
Proof.
  intros Vx Sx.
  destruct x as [[]|[]| |[] mx ex]; try discriminate Sx; try reflexivity.
  unfold SFone. rewrite SFmul_rounded.
  pose proof Vx as Bx. apply bounded_canonical in Bx as [Cx He].
  destruct (canonical_bounds _ _ Cx) as (_ & U & _).
  replace (Z.pos 4503599627370496) with (2 ^ 52) by reflexivity.
  assert (WF : well_formed (Z.pos mx * 2 ^ 52) 1 (ex + -52)).
  { replace (2 ^ 52) with (Z.pos 4503599627370496) by reflexivity.
    apply mul_well_formed; [exact Cx | reflexivity]. }
  rewrite (rounded_encode _ _ _ WF). cbv zeta.
  rewrite Z.div_1_r, Zdigits2_shift by lia.
  replace (Zdigits2 (Z.pos mx) + 52 + (ex + -52)) with (Zdigits2 (Z.pos mx) + ex) by lia.
  rewrite Cx.
  replace (ex - (ex + -52)) with 52 by lia. rewrite Z.mul_1_l.
  assert (Hn : nearest_even (Z.pos mx * 2 ^ 52) (2 ^ 52) = Z.pos mx).
  { unfold nearest_even.
    rewrite Z.mod_mul, Z.div_mul by (pose proof (pow2_pos 52); lia).
    destruct (Z.ltb_spec (2 * 0) (2 ^ 52)); [reflexivity|].
    pose proof (pow2_pos 52). lia. }
  rewrite Hn. unfold encode.
  destruct (Z.eqb_spec (Z.pos mx) 0); [lia|].
  destruct (Z.ltb_spec (Z.pos mx) (2 ^ 53)); [|lia].
  destruct (Z.leb_spec ex 971); [|lia].
  reflexivity.
Qed.

(** A sum is no less than its first term. *)
Lemma SFadd_above (x c : spec_float) :
  valid_binary x = true -> valid_binary c = true ->
  SFsignClear x = true -> SFnegative c = false ->
  SFupTo x (SF64add x c).
Proof.
  intros Vx Vc Sx Nc.
  split; [exact Sx|]. split; [apply SFadd_signClear; assumption|].
  destruct x as [[]|[]| |[] mx ex]; try discriminate Sx;
  destruct c as [[]|[]| |[] mc ec]; try discriminate Nc;
  first
    [ left; reflexivity
    | right; left; reflexivity
    | right; right; reflexivity
    | right; right; exact (SFleb_refl_num (S754_finite false mx ex) eq_refl)
    | idtac ].
  right. right.
  apply (SFadd_finite_above mx mx mc ex ex ec Vx Vx Vc
           (SFleb_refl_num (S754_finite false mx ex) eq_refl)).
Qed.

End Order.

(* ================================================================= *)
(** ** Order up to NaN, on JavaScript numbers *)

Lemma upTo_spec (x y : number) : upTo x y <-> SFupTo (Prim2SF x) (Prim2SF y).
Proof.
  unfold upTo, SFupTo, signClear, le.
  rewrite !is_nan_iff, FloatAxioms.leb_spec. reflexivity.
Qed.

Lemma mul_upTo (x y c d : number) :
  upTo x y -> upTo c d -> upTo (x * c)%float (y * d)%float.
Proof.
  rewrite !upTo_spec, !mul_spec. apply SFmul_upTo; apply Prim2SF_valid.
Qed.

Lemma div_upTo (x y c d : number) :
  upTo x y -> upTo c d -> upTo (x / d)%float (y / c)%float.
Proof.
  rewrite !upTo_spec, !div_spec. apply SFdiv_upTo; apply Prim2SF_valid.
Qed.

Lemma add_upTo (x y c : number) :
  upTo x y -> neverNegative c -> upTo (x + c)%float (y + c)%float.
Proof.
  rewrite !upTo_spec, neverNegative_spec, !add_spec.
  apply SFadd_upTo; apply Prim2SF_valid.
Qed.

Lemma upTo_refl (x : number) : signClear x = true -> upTo x x.
Proof.
  intros S. split; [exact S|]. split; [exact S|].
  unfold signClear in S. unfold le. rewrite is_nan_iff, FloatAxioms.leb_spec.
  destruct (Prim2SF x) as [[]|[]| |[] m e] eqn:E; try discriminate S; auto.
  right. right. apply (SFleb_refl_num (S754_finite false m e) eq_refl).
Qed.

Lemma le_refl (x : number) : signClear x = true -> is_nan x = false -> le x x = true.
Proof.
  intros S N. destruct (upTo_refl x S) as (_ & _ & [H|[H|H]]); congruence.
Qed.

Lemma positive_signClear (x : number) : positive x = true -> signClear x = true.
Proof. intros H. apply isNum_signClear, positive_isNum, H. Qed.

Lemma upTo_le (x y : number) :
  signClear x = true -> signClear y = true -> le x y = true -> upTo x y.
Proof. unfold upTo. auto. Qed.

(** Two numbers in order are apart or the same number. *)
Lemma le_cases (x y : number) :
  signClear x = true -> signClear y = true -> le x y = true ->
  lt x y = true \/ x = y.
Proof.
  unfold signClear, le, lt. rewrite FloatAxioms.leb_spec, FloatAxioms.ltb_spec.
  intros Sx Sy H.
  destruct (SFleb_signClear_cases _ _ Sx Sy H) as [L|E]; [left; exact L|].
  right. apply Prim2SF_inj, E.
Qed.

Lemma lt_le (x y : number) : lt x y = true -> le x y = true.
Proof.
  unfold le, lt. rewrite FloatAxioms.leb_spec, FloatAxioms.ltb_spec.
  unfold SFleb, SFltb. destruct (SFcompare _ _) as [[]|]; congruence.
Qed.

(** Of two numbers in order, [Math.min] is the first and [Math.max] the
    second, in whichever order they are handed over. *)
Lemma upTo_min_max (x y : number) :
  upTo x y -> is_nan x = false -> is_nan y = false ->
  Math_min x y = x /\ Math_max x y = y /\ Math_min y x = x /\ Math_max y x = y.
Proof.
  intros (Sx & Sy & [N|[N|H]]) Nx Ny; try congruence.
  destruct (le_cases x y Sx Sy H) as [L|E].
  - destruct (Math_min_max_ordered' x y (or_introl L)) as [H1 H2].
    destruct (Math_min_max_ordered y x (or_introl L)) as [H3 H4].
    auto.
  - subst y. destruct (Math_min_max_ordered x x (or_intror eq_refl)) as [H1 H2].
    auto.
Qed.

(** Clamping keeps the order. *)
Lemma clamp_upTo (lo hi v w : number) :
  lt lo hi = true -> gt lo 0%float = true ->
  upTo v w -> upTo (clamp lo v hi) (clamp lo w hi).
Proof.
  intros Hlohi Hlo (Sv & Sw & O).
  assert (Hhi : gt hi 0%float = true).
  { unfold gt in *. apply (lt_trans _ lo); assumption. }
  assert (Zlo : is_zero lo = false).
  { pose proof (positive_truthy _ Hlo) as T. unfold truthy in T.
    destruct (is_zero lo); [discriminate T|reflexivity]. }
  assert (Zhi : is_zero hi = false).
  { pose proof (positive_truthy _ Hhi) as T. unfold truthy in T.
    destruct (is_zero hi); [discriminate T|reflexivity]. }
  rewrite !(clamp_refines lo hi Hlohi Zlo Zhi).
  pose proof (clampSpec_signClear lo v hi Hlo Hhi) as Cv.
  pose proof (clampSpec_signClear lo w hi Hlo Hhi) as Cw.
  split; [exact Cv|]. split; [exact Cw|].
  destruct (lt_not_nan _ _ Hlohi) as [Nlo Nhi].
  pose proof (gt_signClear _ Hlo) as Slo. pose proof (gt_signClear _ Hhi) as Shi.
  assert (Hnan : forall u, is_nan u = true -> clampSpec lo u hi = u).
  { intros u N. unfold clampSpec. change (gt u hi) with (lt hi u).
    destruct (lt u lo) eqn:L; [apply lt_not_nan in L as [L _]; congruence|].
    destruct (lt hi u) eqn:G; [apply lt_not_nan in G as [_ G]; congruence|].
    reflexivity. }
  destruct (is_nan v) eqn:Nv; [left; rewrite (Hnan v Nv); exact Nv|].
  destruct (is_nan w) eqn:Nw; [right; left; rewrite (Hnan w Nw); exact Nw|].
  destruct O as [N|[N|H]]; try congruence.
  right. right. unfold clampSpec.
  change (gt v hi) with (lt hi v). change (gt w hi) with (lt hi w).
  destruct (lt v lo) eqn:Vlo.
  - destruct (lt w lo) eqn:Wlo.
    + apply le_refl; assumption.
    + destruct (lt hi w) eqn:Whi.
      * apply lt_le, Hlohi.
      * rewrite (le_negb_lt _ _ Nlo Nw), Wlo. reflexivity.
  - destruct (lt hi v) eqn:Vhi.
    + assert (Whi : lt hi w = true).
      { destruct (le_cases v w Sv Sw H) as [L|E].
        - apply (lt_trans _ v); assumption.
        - subst w. exact Vhi. }
      assert (Wlo : lt w lo = false).
      { destruct (lt w lo) eqn:Wlo; [|reflexivity].
        pose proof (lt_trans _ _ _ (lt_trans _ _ _ Wlo Hlohi) Vhi) as L.
        rewrite (le_negb_lt _ _ Nv Nw), L in H. discriminate H. }
      rewrite Wlo, Whi. apply le_refl; assumption.
    + assert (Wlo : lt w lo = false).
      { destruct (lt w lo) eqn:Wlo; [|reflexivity].
        destruct (le_cases v w Sv Sw H) as [L|E].
        - pose proof (lt_trans _ _ _ L Wlo). congruence.
        - subst w. congruence. }
      rewrite Wlo. destruct (lt hi w) eqn:Whi.
      * rewrite (le_negb_lt _ _ Nv Nhi), Vhi. reflexivity.
      * exact H.
Qed.

(** A number between two positive numbers is a positive number. *)
Lemma between_positive (lo v hi : number) :
  positive lo = true -> positive hi = true ->
  le lo v = true -> le v hi = true -> positive v = true.
Proof.
  rewrite !positive_spec. unfold le. rewrite !FloatAxioms.leb_spec.
  destruct (Prim2SF lo) as [[]|[]| |[] ml el]; try discriminate.
  destruct (Prim2SF hi) as [[]|[]| |[] mh eh]; try discriminate.
  destruct (Prim2SF v) as [[]|[]| |[] mv ev]; simpl; intros; try discriminate;
    reflexivity.
Qed.

(* ================================================================= *)
(** ** A lighter input gives a lighter estimate *)

Lemma noMore_refl (a : option number) : noMore a a.
Proof. left. reflexivity. Qed.

Lemma noMore_upTo (x y : number) :
  positive x = true -> noMore (Some x) (Some y) -> upTo x y.
Proof.
  intros Px [E | (x' & y' & Ex & Ey & Px' & Py' & H)].
  - injection E as <-. apply upTo_refl, positive_signClear, Px.
  - injection Ex as <-. injection Ey as <-.
    apply upTo_le; [apply positive_signClear .. | exact H]; assumption.
Qed.

Lemma clamp_signClear (lo hi v : number) :
  lt lo hi = true -> gt lo 0%float = true -> signClear (clamp lo v hi) = true.
Proof.
  intros Hlohi Hlo.
  assert (Hhi : gt hi 0%float = true).
  { unfold gt in *. apply (lt_trans _ lo); assumption. }
  assert (Zlo : is_zero lo = false).
  { pose proof (positive_truthy _ Hlo) as T. unfold truthy in T.
    destruct (is_zero lo); [discriminate T|reflexivity]. }
  assert (Zhi : is_zero hi = false).
  { pose proof (positive_truthy _ Hhi) as T. unfold truthy in T.
    destruct (is_zero hi); [discriminate T|reflexivity]. }
  rewrite (clamp_refines lo hi Hlohi Zlo Zhi).
  apply clampSpec_signClear; assumption.
Qed.

Lemma clamp_noMore (lo hi default : number) (a b : option number) :
  lt lo hi = true -> gt lo 0%float = true -> noMore a b ->
  upTo (clamp lo (a ?? default) hi) (clamp lo (b ?? default) hi).
Proof.
  intros Hlohi Hlo [E | (x & y & -> & -> & Px & Py & H)].
  - subst b. apply upTo_refl, clamp_signClear; assumption.
  - cbn [nullish]. apply clamp_upTo; try assumption.
    apply upTo_le; [apply positive_signClear .. | exact H]; assumption.
Qed.

Lemma effectivePowerFormula_lighter light heavy :
  lighter light heavy ->
  positive (ImpactInputs.gpuPowerW light) = true ->
  acceptedPower (ImpactInputs.cpuPowerW light) = true ->
  acceptedPower (ImpactInputs.networkPowerW light) = true ->
  upTo (effectivePowerFormula light) (effectivePowerFormula heavy).
Proof.
  intros (_ & _ & Hcpu & Hnet & _ & _ & _ & Hgpu & Hov & Hpue & _) Pg Pc Pn.
  unfold effectivePowerFormula. rewrite <- Hcpu, <- Hnet.
  apply mul_upTo; [apply mul_upTo|].
  - apply add_upTo; [apply add_upTo|].
    + apply noMore_upTo; assumption.
    + apply acceptedPower_sign, Pc.
    + apply acceptedPower_sign, Pn.
  - apply clamp_noMore; [reflexivity | reflexivity | exact Hov].
  - apply clamp_noMore; [reflexivity | reflexivity | exact Hpue].
Qed.

Lemma workload_isNum (usage : Usage) :
  firstInvalid (usageQuantities usage) = None -> isNum (workload usage) = true.
Proof.
  destruct usage as [i o t | i o t | i t | i o t | a t | a t | a t | w h n t];
    cbn [usageQuantities firstInvalid workload];
    repeat match goal with
           | |- context [positive ?x] => destruct (positive x) eqn:?; [|discriminate]
           end;
    intros _;
    first [ apply add_isNum; assumption
          | apply positive_isNum; assumption
          | apply mul_isNum; [apply mul_isNum; [apply positive_isNum|]|]; assumption ].
Qed.

Lemma deriveProcessingTimeSeconds_Ok usage throughput time :
  UsageFields.processingTimeSeconds usage = None ->
  outcome (deriveProcessingTimeSeconds usage throughput) = Ok time ->
  firstInvalid (usageQuantities usage) = None
  /\ exists r,
       rate usage throughput = Some r /\ positive r = true
       /\ time = (workload usage / r)%float.
Proof.
  intros Ht. rewrite (deriveProcessingTimeSeconds_checks _ _ Ht).
  unfold timeChecks. rewrite firstInvalid_app.
  destruct (firstInvalid (usageQuantities usage)); [discriminate|].
  cbn [firstInvalid].
  destruct (rate usage throughput) as [r|]; cbn [nullish]; [|discriminate].
  destruct (positive r) eqn:Pr; [|discriminate].
  unfold outcome, ret. cbn [snd]. intros H. injection H as <-.
  split; [reflexivity|]. exists r. auto.
Qed.

Lemma rate_lighter usage light heavy :
  lighter light heavy ->
  noMore (rate usage (ImpactInputs.throughput heavy))
    (rate usage (ImpactInputs.throughput light)).
Proof.
  intros (_ & _ & _ & _ & _ & _ & _ & _ & _ & _ & Ht & Ha & Hp & _).
  unfold rate. destruct (UsageFields.category usage); assumption.
Qed.

Lemma baseProcessingTime_lighter light heavy timeLight timeHeavy :
  lighter light heavy ->
  outcome (baseProcessingTime light) = Ok timeLight ->
  outcome (baseProcessingTime heavy) = Ok timeHeavy ->
  upTo timeLight timeHeavy.
Proof.
  intros L Hl Hh.
  pose proof (baseProcessingTime_isNum _ _ Hl) as Nl.
  pose proof L as (_ & _ & _ & _ & Htime & Husage & _).
  unfold baseProcessingTime in Hl, Hh. rewrite <- Htime, <- Husage in Hh.
  destruct (ImpactInputs.processingTimeSeconds light) as [t|].
  - rewrite Hl in Hh. injection Hh as <-. apply upTo_refl, isNum_signClear, Nl.
  - destruct (ImpactInputs.usage light) as [usage|]; [|discriminate].
    destruct (UsageFields.processingTimeSeconds usage) as [t|] eqn:Ht.
    + rewrite (deriveProcessingTimeSeconds_usage_time _ _ _ Ht) in Hl.
      rewrite (deriveProcessingTimeSeconds_usage_time _ _ _ Ht) in Hh.
      rewrite Hl in Hh. injection Hh as <-. apply upTo_refl, isNum_signClear, Nl.
    + apply (deriveProcessingTimeSeconds_Ok _ _ _ Ht) in Hl as (Hq & rl & Erl & Prl & ->).
      apply (deriveProcessingTimeSeconds_Ok _ _ _ Ht) in Hh as (_ & rh & Erh & Prh & ->).
      pose proof (rate_lighter usage _ _ L) as Hr. rewrite Erl, Erh in Hr.
      apply div_upTo.
      * apply upTo_refl, isNum_signClear, workload_isNum, Hq.
      * apply noMore_upTo; assumption.
Qed.

Lemma applyEfficiencyToTime_lighter light heavy tl th tl' th' :
  lighter light heavy ->
  upTo tl th ->
  outcome (applyEfficiencyToTime tl (ImpactInputs.efficiency light)) = Ok tl' ->
  outcome (applyEfficiencyToTime th (ImpactInputs.efficiency heavy)) = Ok th' ->
  upTo tl' th'.
Proof.
  intros (_ & _ & _ & _ & _ & _ & _ & _ & _ & _ & _ & _ & _ & Hf) Ht.
  rewrite !applyEfficiencyToTime_spec.
  destruct Hf as [E | (x & y & -> & -> & Px & Py & H)].
  - rewrite <- E.
    destruct (ImpactInputs.efficiency heavy ?. EfficiencyOptions.efficiencyFactor)
      as [f|].
    + destruct (truthy f); cbn [negb].
      * destruct (positive f) eqn:Pf; [|discriminate].
        unfold outcome, ret. cbn [snd]. intros Hl Hh.
        injection Hl as <-. injection Hh as <-.
        apply div_upTo; [exact Ht|]. apply upTo_refl, positive_signClear, Pf.
      * unfold outcome, ret. cbn [snd]. intros Hl Hh.
        injection Hl as <-. injection Hh as <-. exact Ht.
    + unfold outcome, ret. cbn [snd]. intros Hl Hh.
      injection Hl as <-. injection Hh as <-. exact Ht.
  - rewrite (positive_is_truthy _ Px), (positive_is_truthy _ Py), Px, Py.
    unfold outcome, ret. cbn [snd negb]. intros Hl Hh.
    injection Hl as <-. injection Hh as <-.
    apply div_upTo; [exact Ht|].
    apply upTo_le; [apply positive_signClear .. | exact H]; assumption.
Qed.

Lemma applyBatchSize_upTo light heavy el eh el' eh' :
  ImpactInputs.efficiency light ?. EfficiencyOptions.batchSize
  = ImpactInputs.efficiency heavy ?. EfficiencyOptions.batchSize ->
  upTo el eh ->
  outcome (applyBatchSize el (ImpactInputs.efficiency light)) = Ok el' ->
  outcome (applyBatchSize eh (ImpactInputs.efficiency heavy)) = Ok eh' ->
  upTo el' eh'.
Proof.
  intros Hb He. rewrite !applyBatchSize_spec, <- Hb.
  destruct (ImpactInputs.efficiency light ?. EfficiencyOptions.batchSize) as [b|].
  - destruct (truthy b); cbn [negb].
    + destruct (positive b) eqn:Pb; [|discriminate].
      unfold outcome, ret. cbn [snd]. intros Hl Hh.
      injection Hl as <-. injection Hh as <-.
      apply div_upTo; [exact He|]. apply upTo_refl, positive_signClear, Pb.
    + unfold outcome, ret. cbn [snd]. intros Hl Hh.
      injection Hl as <-. injection Hh as <-. exact He.
  - unfold outcome, ret. cbn [snd]. intros Hl Hh.
    injection Hl as <-. injection Hh as <-. exact He.
Qed.

Lemma hasEnergyOverride_energy a b :
  ImpactInputs.energy a = ImpactInputs.energy b ->
  hasEnergyOverride a = hasEnergyOverride b.
Proof. unfold hasEnergyOverride. intros ->. reflexivity. Qed.

Lemma estimateImpact_lighter values2025 light heavy resultLight resultHeavy :
  lighter light heavy ->
  hasEnergyOverride light = false ->
  outcome (estimateImpact values2025 light) = Ok resultLight ->
  outcome (estimateImpact values2025 heavy) = Ok resultHeavy ->
  ImpactResult.gridCarbonIntensityGPerKwh resultLight
  = ImpactResult.gridCarbonIntensityGPerKwh resultHeavy
  /\ upTo (ImpactResult.effectivePowerW resultLight)
       (ImpactResult.effectivePowerW resultHeavy)
  /\ upTo (ImpactResult.processingTimeSeconds resultLight)
       (ImpactResult.processingTimeSeconds resultHeavy)
  /\ upTo (ImpactResult.energyKwh resultLight) (ImpactResult.energyKwh resultHeavy)
  /\ (gt (ImpactResult.gridCarbonIntensityGPerKwh resultLight) 0%float = true ->
      upTo (ImpactResult.co2Grams resultLight) (ImpactResult.co2Grams resultHeavy)).
Proof.
  intros L Hov Hl Hh.
  pose proof L as (Hgrid & Hen & _ & _ & _ & _ & Hbatch & _).
  assert (Hov' : hasEnergyOverride heavy = false)
    by (rewrite <- (hasEnergyOverride_energy _ _ Hen); exact Hov).
  apply estimateImpact_Ok in Hl
    as (gl & Pl & pnl & tl & el & nl & el' & Hgl & HPl & Hpl & Hbl & ->).
  apply estimateImpact_Ok in Hh
    as (gh & Ph & pnh & th & eh & nh & eh' & Hgh & HPh & Hph & Hbh & ->).
  cbn [ImpactResult.gridCarbonIntensityGPerKwh ImpactResult.effectivePowerW
       ImpactResult.processingTimeSeconds ImpactResult.energyKwh
       ImpactResult.co2Grams].
  rewrite Hgrid, Hgh in Hgl. injection Hgl as <-.
  rewrite (no_override_resolveEnergyKwh _ Hov) in Hpl.
  rewrite (no_override_resolveEnergyKwh _ Hov') in Hph.
  assert (HP : upTo Pl Ph).
  { assert (Hacc : exists power, outcome (computeEffectivePowerW light) = Ok power)
      by eauto.
    apply computeEffectivePowerW_accepts in Hacc.
    apply andb_true_iff in Hacc as [Hacc Pn].
    apply andb_true_iff in Hacc as [Pg Pc].
    apply computeEffectivePowerW_Ok in HPl as [-> _].
    apply computeEffectivePowerW_Ok in HPh as [-> _].
    apply effectivePowerFormula_lighter; assumption. }
  unfold powerTimePath in Hpl, Hph.
  apply bind_Ok in Hpl as (tl0 & Htl0 & Hpl).
  apply bind_Ok in Hpl as (tl1 & Htl1 & Hpl).
  apply bind_Ok in Hph as (th0 & Hth0 & Hph).
  apply bind_Ok in Hph as (th1 & Hth1 & Hph).
  unfold outcome, ret in Hpl, Hph. cbn [snd] in Hpl, Hph.
  injection Hpl as <- <- _. injection Hph as <- <- _.
  assert (Ht : upTo tl1 th1).
  { apply (applyEfficiencyToTime_lighter _ _ _ _ _ _ L
             (baseProcessingTime_lighter _ _ _ _ L Htl0 Hth0) Htl1 Hth1). }
  assert (He : upTo el' eh').
  { refine (applyBatchSize_upTo _ _ _ _ _ _ Hbatch _ Hbl Hbh).
    repeat apply div_upTo; try (apply upTo_refl; reflexivity).
    apply mul_upTo; assumption. }
  split; [reflexivity|]. split; [exact HP|]. split; [exact Ht|].
  split; [exact He|].
  intros Hg. apply mul_upTo; [exact He|]. apply upTo_refl, gt_signClear, Hg.
Qed.

(* ================================================================= *)
(** ** Which way the bounds of a range estimate lie *)

Lemma pick_min_max value range :
  (forall r, range = Some r -> validRange r = true) ->
  noMore (pickRangeValue value range pick_min) (pickRangeValue value range pick_max).
Proof.
  intros Hr. destruct range as [r|]; [|apply noMore_refl].
  specialize (Hr r eq_refl). unfold validRange in Hr.
  apply andb_true_iff in Hr as [Hr Hle]. apply andb_true_iff in Hr as [Hmin Hmax].
  right. exists (NumericRange.min r), (NumericRange.max r). auto.
Qed.

Lemma pick_min_value value range :
  (forall r, range = Some r -> validRange r = true) ->
  within value range ->
  noMore (pickRangeValue value range pick_min) value.
Proof.
  intros Hr Hw. destruct range as [r|]; [|apply noMore_refl].
  specialize (Hr r eq_refl). unfold validRange in Hr.
  apply andb_true_iff in Hr as [Hr Hle]. apply andb_true_iff in Hr as [Hmin Hmax].
  destruct Hw as (v & -> & Hlo & Hhi).
  right. exists (NumericRange.min r), v.
  pose proof (between_positive _ _ _ Hmin Hmax Hlo Hhi). auto.
Qed.

Lemma pick_value_max value range :
  (forall r, range = Some r -> validRange r = true) ->
  within value range ->
  noMore value (pickRangeValue value range pick_max).
Proof.
  intros Hr Hw. destruct range as [r|]; [|apply noMore_refl].
  specialize (Hr r eq_refl). unfold validRange in Hr.
  apply andb_true_iff in Hr as [Hr Hle]. apply andb_true_iff in Hr as [Hmin Hmax].
  destruct Hw as (v & -> & Hlo & Hhi).
  right. exists v, (NumericRange.max r).
  pose proof (between_positive _ _ _ Hmin Hmax Hlo Hhi). auto.
Qed.

Lemma validRanges_fields (ranges : UncertaintyRanges.t) :
  validRanges ranges = true ->
  (forall r, UncertaintyRanges.gpuPowerW ranges = Some r -> validRange r = true)
  /\ (forall r, UncertaintyRanges.pue ranges = Some r -> validRange r = true)
  /\ (forall r, UncertaintyRanges.overheadFactor ranges = Some r -> validRange r = true)
  /\ (forall r, UncertaintyRanges.efficiencyFactor ranges = Some r ->
                validRange r = true)
  /\ (forall r, UncertaintyRanges.tokensPerSecond ranges = Some r -> validRange r = true)
  /\ (forall r, UncertaintyRanges.audioSecondsPerSecond ranges = Some r ->
                validRange r = true)
  /\ (forall r, UncertaintyRanges.pixelsPerSecond ranges = Some r -> validRange r = true).
Proof.
  intros V. pose proof (validRanges_each _ V) as H.
  repeat split; intros r E.
  - apply (H "gpuPowerW"). rewrite <- E. unfold rangeChecks. simpl. auto 10.
  - apply (H "pue"). rewrite <- E. unfold rangeChecks. simpl. auto 10.
  - apply (H "overheadFactor"). rewrite <- E. unfold rangeChecks. simpl. auto 10.
  - apply (H "efficiencyFactor"). rewrite <- E. unfold rangeChecks. simpl. auto 10.
  - apply (H "tokensPerSecond"). rewrite <- E. unfold rangeChecks. simpl. auto 10.
  - apply (H "audioSecondsPerSecond"). rewrite <- E. unfold rangeChecks. simpl. auto 10.
  - apply (H "pixelsPerSecond"). rewrite <- E. unfold rangeChecks. simpl. auto 10.
Qed.

(** The fields of a built input, rewritten in terms of the input's. *)
Ltac read_built input ranges pick :=
  let Ht1 := fresh in let Ht2 := fresh in let Ht3 := fresh in
  let He1 := fresh in let He2 := fresh in let He3 := fresh in
  let He4 := fresh in
  pose proof (build_throughput input ranges pick) as (Ht1 & Ht2 & Ht3);
  pose proof (build_efficiency input ranges pick) as (He1 & He2 & He3 & He4 & _);
  cbv zeta in Ht1, Ht2, Ht3, He1, He2, He3, He4;
  rewrite ?(build_gpuPowerW input ranges pick), ?Ht1, ?Ht2, ?Ht3, ?He1, ?He2, ?He3, ?He4;
  clear Ht1 Ht2 Ht3 He1 He2 He3 He4.

Ltac settle_noMore :=
  first [ apply noMore_refl
        | apply pick_min_max; assumption
        | apply pick_min_value; assumption
        | apply pick_value_max; assumption ].

Lemma lighter_low_high input ranges :
  validRanges ranges = true -> powerRangesOnly ranges ->
  lighter (buildInputWithRanges input ranges pick_min)
    (buildInputWithRanges input ranges pick_max).
Proof.
  intros V (R1 & R2 & R3 & R4).
  destruct (validRanges_fields _ V) as (V1 & V2 & V3 & V4 & V5 & V6 & V7).
  unfold lighter.
  read_built input ranges pick_min. read_built input ranges pick_max.
  rewrite R1, R2, R3, R4.
  repeat split; try reflexivity; settle_noMore.
Qed.

Lemma lighter_low_nominal input ranges :
  validRanges ranges = true -> powerRangesOnly ranges -> withinRanges input ranges ->
  lighter (buildInputWithRanges input ranges pick_min) input
  /\ lighter input (buildInputWithRanges input ranges pick_max).
Proof.
  intros V (R1 & R2 & R3 & R4) (W1 & W2 & W3 & W4 & W5 & W6 & W7).
  destruct (validRanges_fields _ V) as (V1 & V2 & V3 & V4 & V5 & V6 & V7).
  unfold lighter.
  read_built input ranges pick_min. read_built input ranges pick_max.
  rewrite R1, R2, R3, R4.
  repeat split; try reflexivity; settle_noMore.
Qed.

Lemma lighter_high_low input ranges :
  validRanges ranges = true -> speedRangesOnly ranges ->
  lighter (buildInputWithRanges input ranges pick_max)
    (buildInputWithRanges input ranges pick_min).
Proof.
  intros V (R1 & R2 & R3).
  destruct (validRanges_fields _ V) as (V1 & V2 & V3 & V4 & V5 & V6 & V7).
  unfold lighter.
  read_built input ranges pick_min. read_built input ranges pick_max.
  rewrite R1, R2, R3.
  repeat split; try reflexivity; settle_noMore.
Qed.

Lemma lighter_high_nominal input ranges :
  validRanges ranges = true -> speedRangesOnly ranges -> withinRanges input ranges ->
  lighter (buildInputWithRanges input ranges pick_max) input
  /\ lighter input (buildInputWithRanges input ranges pick_min).
Proof.
  intros V (R1 & R2 & R3) (W1 & W2 & W3 & W4 & W5 & W6 & W7).
  destruct (validRanges_fields _ V) as (V1 & V2 & V3 & V4 & V5 & V6 & V7).
  unfold lighter.
  read_built input ranges pick_min. read_built input ranges pick_max.
  rewrite R1, R2, R3.
  repeat split; try reflexivity; settle_noMore.
Qed.

Lemma estimateImpact_grid_positive values2025 input result :
  positiveIntensities values2025 ->
  outcome (estimateImpact values2025 input) = Ok result ->
  gt (ImpactResult.gridCarbonIntensityGPerKwh result) 0%float = true.
Proof.
  intros Hvalues H.
  apply estimateImpact_Ok in H
    as (g & P & pn & t & e & n & e' & Hg & _ & _ & _ & ->).
  cbn [ImpactResult.gridCarbonIntensityGPerKwh].
  apply (resolveGridIntensity_positive _ _ _ Hvalues Hg).
Qed.

(** The energy and the CO2 of a lighter input, against those of a heavier
    one. *)
Lemma estimateImpact_lighter_energy values2025 light heavy resultLight resultHeavy :
  lighter light heavy ->
  hasEnergyOverride light = false ->
  outcome (estimateImpact values2025 light) = Ok resultLight ->
  outcome (estimateImpact values2025 heavy) = Ok resultHeavy ->
  upTo (ImpactResult.energyKwh resultLight) (ImpactResult.energyKwh resultHeavy)
  /\ (positiveIntensities values2025 ->
      upTo (ImpactResult.co2Grams resultLight) (ImpactResult.co2Grams resultHeavy)).
Proof.
  intros L Hov Hl Hh.
  destruct (estimateImpact_lighter _ _ _ _ _ L Hov Hl Hh) as (_ & _ & _ & He & Hc).
  split; [exact He|]. intros Hvalues. apply Hc.
  apply (estimateImpact_grid_positive _ _ _ Hvalues Hl).
Qed.

(** What a successful range estimate without energy override is made of. *)
Lemma estimateImpactRange_Ok values2025 input ranges result :
  hasEnergyOverride input = false ->
  outcome (estimateImpactRange values2025 input ranges) = Ok result ->
  validRanges ranges = true
  /\ exists base low high,
       outcome (estimateImpact values2025 input) = Ok base
       /\ outcome (estimateImpact values2025
                     (buildInputWithRanges input ranges pick_min)) = Ok low
       /\ outcome (estimateImpact values2025
                     (buildInputWithRanges input ranges pick_max)) = Ok high
       /\ result = envelope base low high.
Proof.
  intros Hov H.
  destruct (validRanges ranges) eqn:V.
  2: { destruct (validateRanges_invalid ranges V) as (message & E).
       unfold estimateImpactRange in H. rewrite E in H. discriminate. }
  split; [reflexivity|].
  rewrite (estimateImpactRange_valid _ _ _ V), Hov in H.
  apply bind_Ok in H as (base & Hb & H).
  apply bind_Ok in H as (low & Hl & H).
  apply bind_Ok in H as (high & Hh & H).
  injection H as <-. exists base, low, high. auto.
Qed.

Lemma Math_min_max_nan (x y : number) :
  is_nan x = true \/ is_nan y = true ->
  Math_min x y = nan /\ Math_max x y = nan.
Proof.
  intros H.
  assert (C : (x ?= y)%float = FNotComparable).
  { rewrite FloatAxioms.compare_spec.
    destruct H as [N|N]; apply is_nan_iff in N; rewrite N;
      [|destruct (Prim2SF x) as [[]|[]| |[] m e]]; reflexivity. }
  unfold Math_min, Math_max. rewrite C. split; reflexivity.
Qed.



(** X20. Ranges on the power side only (GPU power, PUE, overhead factor; no
    range on the efficiency factor or a throughput): the low evaluation is
    the lighter one.  In a successful range estimate without energy override
    the energy of the low evaluation is at most that of the high one, so
    [energyKwhMin] is the low evaluation's energy and [energyKwhMax] the high
    one's; if one of the two is NaN, both bounds are NaN.  When the input's
    own values lie within the ranges, the nominal energy lies between the
    low and the high one (again unless NaN).  The same holds of the CO2 and
    its bounds when the dataset's intensities are above 0, the region is
    plain and the resolver is not reached, so that every evaluation works
    with one intensity. *)
Theorem power_ranges_direction values2025 input ranges result :
  hasEnergyOverride input = false ->
  powerRangesOnly ranges ->
  outcome (estimateImpactRange values2025 input ranges) = Ok result ->
  let base := ImpactRangeResult.base result in
  exists low high,
    outcome (estimateImpact values2025 (buildInputWithRanges input ranges pick_min))
    = Ok low
    /\ outcome (estimateImpact values2025 (buildInputWithRanges input ranges pick_max))
       = Ok high
    /\ upTo (ImpactResult.energyKwh low) (ImpactResult.energyKwh high)
    /\ (is_nan (ImpactResult.energyKwh low) = false ->
        is_nan (ImpactResult.energyKwh high) = false ->
        ImpactRangeResult.energyKwhMin result = ImpactResult.energyKwh low
        /\ ImpactRangeResult.energyKwhMax result = ImpactResult.energyKwh high)
    /\ (is_nan (ImpactResult.energyKwh low) = true
        \/ is_nan (ImpactResult.energyKwh high) = true ->
        ImpactRangeResult.energyKwhMin result = nan
        /\ ImpactRangeResult.energyKwhMax result = nan)
    /\ (withinRanges input ranges ->
        upTo (ImpactResult.energyKwh low) (ImpactResult.energyKwh base)
        /\ upTo (ImpactResult.energyKwh base) (ImpactResult.energyKwh high))
    /\ (positiveIntensities values2025 ->
        plainRegion (ImpactInputs.region input) = true ->
        resolverNotCalled input ->
        upTo (ImpactResult.co2Grams low) (ImpactResult.co2Grams high)
        /\ (is_nan (ImpactResult.co2Grams low) = false ->
            is_nan (ImpactResult.co2Grams high) = false ->
            ImpactRangeResult.co2GramsMin result = ImpactResult.co2Grams low
            /\ ImpactRangeResult.co2GramsMax result = ImpactResult.co2Grams high)
        /\ (is_nan (ImpactResult.co2Grams low) = true
            \/ is_nan (ImpactResult.co2Grams high) = true ->
            ImpactRangeResult.co2GramsMin result = nan
            /\ ImpactRangeResult.co2GramsMax result = nan)
        /\ (withinRanges input ranges ->
            upTo (ImpactResult.co2Grams low) (ImpactResult.co2Grams base)
            /\ upTo (ImpactResult.co2Grams base) (ImpactResult.co2Grams high))).
Proof.
  intros Hov Honly H. cbv zeta.
  destruct (estimateImpactRange_Ok _ _ _ _ Hov H)
    as (V & base & low & high & Hb & Hl & Hh & ->).
  exists low, high. split; [exact Hl|]. split; [exact Hh|].
  destruct (estimateImpact_lighter_energy values2025 _ _ _ _
              (lighter_low_high input ranges V Honly) Hov Hl Hh) as [He Hc].
  cbn [envelope ImpactRangeResult.energyKwhMin ImpactRangeResult.energyKwhMax
       ImpactRangeResult.co2GramsMin ImpactRangeResult.co2GramsMax
       ImpactRangeResult.base].
  split; [exact He|]. split; [|split; [|split]].
  - intros N1 N2. destruct (upTo_min_max _ _ He N1 N2) as (H1 & H2 & _). auto.
  - apply Math_min_max_nan.
  - intros W.
    destruct (lighter_low_nominal input ranges V Honly W) as [L1 L2].
    destruct (estimateImpact_lighter_energy values2025 _ _ _ _ L1 Hov Hl Hb)
      as [E1 _].
    destruct (estimateImpact_lighter_energy values2025 _ _ _ _ L2 Hov Hb Hh)
      as [E2 _].
    auto.
  - intros Hvalues _ _. specialize (Hc Hvalues).
    split; [exact Hc|]. split; [|split].
    + intros N1 N2. destruct (upTo_min_max _ _ Hc N1 N2) as (H1 & H2 & _). auto.
    + apply Math_min_max_nan.
    + intros W.
      destruct (lighter_low_nominal input ranges V Honly W) as [L1 L2].
      destruct (estimateImpact_lighter_energy values2025 _ _ _ _ L1 Hov Hl Hb)
        as [_ C1].
      destruct (estimateImpact_lighter_energy values2025 _ _ _ _ L2 Hov Hb Hh)
        as [_ C2].
      auto.
Qed.

Lemma power_ranges_direction_witness :
  let ranges :=
    UncertaintyRanges.mk
      (Some (NumericRange.mk 200%float 400%float))
      (Some (NumericRange.mk 1.1%float 1.6%float))
      None None None None None in
  exists result low high,
    outcome (estimateImpactRange sample2025 chatScenario ranges) = Ok result
    /\ outcome (estimateImpact sample2025
                  (buildInputWithRanges chatScenario ranges pick_min)) = Ok low
    /\ outcome (estimateImpact sample2025
                  (buildInputWithRanges chatScenario ranges pick_max)) = Ok high
    /\ ImpactRangeResult.energyKwhMin result = ImpactResult.energyKwh low
    /\ ImpactRangeResult.energyKwhMax result = ImpactResult.energyKwh high.
Proof.
  cbv zeta.
  destruct (power_ranges_direction sample2025 chatScenario
              (UncertaintyRanges.mk
      (Some (NumericRange.mk 200%float 400%float))
      (Some (NumericRange.mk 1.1%float 1.6%float))
      None None None None None)
              _ eq_refl
              (conj eq_refl (conj eq_refl (conj eq_refl eq_refl))) eq_refl)
    as (low & high & Hl & Hh & _ & He & _).
  eexists. exists low, high. split; [reflexivity|]. split; [exact Hl|].
  split; [exact Hh|].
  pose proof Hl as Hl'. pose proof Hh as Hh'.
  vm_compute in Hl', Hh'. injection Hl' as El. injection Hh' as Eh.
  apply He; [rewrite <- El | rewrite <- Eh]; reflexivity.
Defined.

(** X21. Ranges on the speed side only (efficiency factor and throughput;
    no range on GPU power, PUE or overhead factor): the high evaluation is
    the lighter one, since a higher speed means less time.  In a successful
    range estimate without energy override the energy of the high evaluation
    is at most that of the low one, so [energyKwhMin] is the high
    evaluation's energy and [energyKwhMax] the low one's; if one of the two
    is NaN, both bounds are NaN.  When the input's own values lie within the
    ranges, the nominal energy lies between the high and the low one (again
    unless NaN).  The same holds of the CO2 and its bounds when the
    dataset's intensities are above 0, the region is plain and the resolver
    is not reached, so that every evaluation works with one intensity. *)
Theorem speed_ranges_direction values2025 input ranges result :
  hasEnergyOverride input = false ->
  speedRangesOnly ranges ->
  outcome (estimateImpactRange values2025 input ranges) = Ok result ->
  let base := ImpactRangeResult.base result in
  exists low high,
    outcome (estimateImpact values2025 (buildInputWithRanges input ranges pick_min))
    = Ok low
    /\ outcome (estimateImpact values2025 (buildInputWithRanges input ranges pick_max))
       = Ok high
    /\ upTo (ImpactResult.energyKwh high) (ImpactResult.energyKwh low)
    /\ (is_nan (ImpactResult.energyKwh low) = false ->
        is_nan (ImpactResult.energyKwh high) = false ->
        ImpactRangeResult.energyKwhMin result = ImpactResult.energyKwh high
        /\ ImpactRangeResult.energyKwhMax result = ImpactResult.energyKwh low)
    /\ (is_nan (ImpactResult.energyKwh low) = true
        \/ is_nan (ImpactResult.energyKwh high) = true ->
        ImpactRangeResult.energyKwhMin result = nan
        /\ ImpactRangeResult.energyKwhMax result = nan)
    /\ (withinRanges input ranges ->
        upTo (ImpactResult.energyKwh high) (ImpactResult.energyKwh base)
        /\ upTo (ImpactResult.energyKwh base) (ImpactResult.energyKwh low))
    /\ (positiveIntensities values2025 ->
        plainRegion (ImpactInputs.region input) = true ->
        resolverNotCalled input ->
        upTo (ImpactResult.co2Grams high) (ImpactResult.co2Grams low)
        /\ (is_nan (ImpactResult.co2Grams low) = false ->
            is_nan (ImpactResult.co2Grams high) = false ->
            ImpactRangeResult.co2GramsMin result = ImpactResult.co2Grams high
            /\ ImpactRangeResult.co2GramsMax result = ImpactResult.co2Grams low)
        /\ (is_nan (ImpactResult.co2Grams low) = true
            \/ is_nan (ImpactResult.co2Grams high) = true ->
            ImpactRangeResult.co2GramsMin result = nan
            /\ ImpactRangeResult.co2GramsMax result = nan)
        /\ (withinRanges input ranges ->
            upTo (ImpactResult.co2Grams high) (ImpactResult.co2Grams base)
            /\ upTo (ImpactResult.co2Grams base) (ImpactResult.co2Grams low))).
Proof.
  intros Hov Honly H. cbv zeta.
  destruct (estimateImpactRange_Ok _ _ _ _ Hov H)
    as (V & base & low & high & Hb & Hl & Hh & ->).
  exists low, high. split; [exact Hl|]. split; [exact Hh|].
  destruct (estimateImpact_lighter_energy values2025 _ _ _ _
              (lighter_high_low input ranges V Honly) Hov Hh Hl) as [He Hc].
  cbn [envelope ImpactRangeResult.energyKwhMin ImpactRangeResult.energyKwhMax
       ImpactRangeResult.co2GramsMin ImpactRangeResult.co2GramsMax
       ImpactRangeResult.base].
  split; [exact He|]. split; [|split; [|split]].
  - intros N1 N2. destruct (upTo_min_max _ _ He N2 N1) as (_ & _ & H1 & H2). auto.
  - apply Math_min_max_nan.
  - intros W.
    destruct (lighter_high_nominal input ranges V Honly W) as [L1 L2].
    destruct (estimateImpact_lighter_energy values2025 _ _ _ _ L1 Hov Hh Hb)
      as [E1 _].
    destruct (estimateImpact_lighter_energy values2025 _ _ _ _ L2 Hov Hb Hl)
      as [E2 _].
    auto.
  - intros Hvalues _ _. specialize (Hc Hvalues).
    split; [exact Hc|]. split; [|split].
    + intros N1 N2. destruct (upTo_min_max _ _ Hc N2 N1) as (_ & _ & H1 & H2). auto.
    + apply Math_min_max_nan.
    + intros W.
      destruct (lighter_high_nominal input ranges V Honly W) as [L1 L2].
      destruct (estimateImpact_lighter_energy values2025 _ _ _ _ L1 Hov Hh Hb)
        as [_ C1].
      destruct (estimateImpact_lighter_energy values2025 _ _ _ _ L2 Hov Hb Hl)
        as [_ C2].
      auto.
Qed.

Lemma speed_ranges_direction_witness :
  let ranges :=
    UncertaintyRanges.mk None None None
      (Some (NumericRange.mk 0.8%float 3%float))
      (Some (NumericRange.mk 50%float 150%float))
      None None in
  exists result low high,
    outcome (estimateImpactRange sample2025 chatScenario ranges) = Ok result
    /\ outcome (estimateImpact sample2025
                  (buildInputWithRanges chatScenario ranges pick_min)) = Ok low
    /\ outcome (estimateImpact sample2025
                  (buildInputWithRanges chatScenario ranges pick_max)) = Ok high
    /\ ImpactRangeResult.energyKwhMin result = ImpactResult.energyKwh high
    /\ ImpactRangeResult.energyKwhMax result = ImpactResult.energyKwh low.
Proof.
  cbv zeta.
  destruct (speed_ranges_direction sample2025 chatScenario
              (UncertaintyRanges.mk None None None
      (Some (NumericRange.mk 0.8%float 3%float))
      (Some (NumericRange.mk 50%float 150%float))
      None None)
              _ eq_refl
              (conj eq_refl (conj eq_refl eq_refl)) eq_refl)
    as (low & high & Hl & Hh & _ & He & _).
  eexists. exists low, high. split; [reflexivity|]. split; [exact Hl|].
  split; [exact Hh|].
  pose proof Hl as Hl'. pose proof Hh as Hh'.
  vm_compute in Hl', Hh'. injection Hl' as El. injection Hh' as Eh.
  apply He; [rewrite <- El | rewrite <- Eh]; reflexivity.
Defined.

(** With ranges on both sides the two extremes need not enclose the nominal
    estimate: at GPU power 150 W in 100..200 W and efficiency factor 1 in
    1..2, the low and the high evaluation both come to 100 W-seconds per
    second of work, the nominal one to 150. *)
Lemma mixed_ranges_can_miss_nominal :
  let input :=
    withEfficiencyFactor 1%float (minimalInput 150%float 3600%float) in
  let ranges :=
    UncertaintyRanges.mk
      (Some (NumericRange.mk 100%float 200%float)) None None
      (Some (NumericRange.mk 1%float 2%float)) None None None in
  exists result,
    outcome (estimateImpactRange sample2025 input ranges) = Ok result
    /\ lt (ImpactRangeResult.energyKwhMax result)
         (ImpactResult.energyKwh (ImpactRangeResult.base result)) = true.
Proof. cbv zeta. eexists. split; reflexivity. Qed.

(* ================================================================= *)
(** ** Defaults that change nothing *)

Lemma mul_one_r (x : number) : signClear x = true -> (x * 1)%float = x.
Proof.
  unfold signClear. intros S. apply Prim2SF_inj. rewrite mul_spec.
  change (Prim2SF 1%float) with SFone.
  apply SFmul_one; [apply Prim2SF_valid | exact S].
Qed.

Lemma add_zero_r (x : number) : signClear x = true -> (x + 0)%float = x.
Proof.
  unfold signClear. intros S. apply Prim2SF_inj. rewrite add_spec, Prim2SF_zero.
  destruct (Prim2SF x) as [[]|[]| |[] m e]; try discriminate S; reflexivity.
Qed.

Lemma neutral_power (basePowerW : number) :
  signClear basePowerW = true ->
  (basePowerW * clamp 0.1 1.0 10 * clamp 1.0 1.0 3.0)%float = basePowerW.
Proof.
  intros S.
  change (clamp 0.1%float 1.0%float 10%float) with 1%float.
    change (clamp 1.0%float 1.0%float 3.0%float) with 1%float.
  rewrite !mul_one_r; [reflexivity | exact S | rewrite mul_one_r; exact S].
Qed.

(** X22. Minimal mode in closed form.  For a positive [gpuPowerW] and a
    positive [processingTimeSeconds], without [efficiency] and [energy],
    [estimateImpactMinimal] succeeds and reports the GPU power itself as
    effective power (the defaults of CPU and network power, overhead factor
    and PUE change nothing), the given time, the energy
    [gpuPowerW * processingTimeSeconds / 3600 / 1000] and that energy times
    the resolved grid intensity, with no category.  A processing time that
    is not a positive number makes it throw.  In the full estimator too, an
    accepted input without overhead factor and PUE has the effective power
    [gpuPowerW + cpuPowerW + networkPowerW]. *)
Theorem minimal_estimate values2025 (input : MinimalImpactInputs.t) :
  let gpuPowerW := MinimalImpactInputs.gpuPowerW input in
  let time := MinimalImpactInputs.processingTimeSeconds input in
  let energyKwh := (gpuPowerW * time / 3600 / 1000)%float in
  MinimalImpactInputs.efficiency input = None ->
  MinimalImpactInputs.energy input = None ->
  positive gpuPowerW = true ->
  (positive time = true ->
   exists gridIntensity,
     outcome (resolveGridIntensity values2025
                (GridIntensityInput.mk
                   (MinimalImpactInputs.region input)
                   (MinimalImpactInputs.gridCarbonIntensityGPerKwh input)
                   (MinimalImpactInputs.gridIntensityResolver input)
                   (MinimalImpactInputs.timestamp input))) = Ok gridIntensity
     /\ outcome (estimateImpactMinimal values2025 input)
        = Ok (ImpactResult.mk None energyKwh (energyKwh * gridIntensity)%float
                gridIntensity gpuPowerW time
                [NoteBasePower gpuPowerW; NoteOverheadFactor 1%float; NotePUE 1%float;
                 NoteGridIntensity gridIntensity]))
  /\ (positive time = false ->
      outcome (estimateImpactMinimal values2025 input)
      = Throw "processingTimeSeconds must be a positive number.")
  /\ (forall full result,
        ImpactInputs.efficiency full ?. EfficiencyOptions.overheadFactor = None ->
        ImpactInputs.efficiency full ?. EfficiencyOptions.pue = None ->
        outcome (estimateImpact values2025 full) = Ok result ->
        ImpactResult.effectivePowerW result
        = (ImpactInputs.gpuPowerW full
           + (ImpactInputs.cpuPowerW full ?? 0)
           + (ImpactInputs.networkPowerW full ?? 0))%float).
Proof.
  cbv zeta. intros Heff Hen Pg.
  destruct input as [gpu t rg gi eff en ts rs]. cbn in Heff, Hen, Pg |- *.
  subst eff en.
  pose proof (positive_signClear _ Pg) as Sg.
  assert (Hsum : (gpu + 0 + 0)%float = gpu)
    by (rewrite (add_zero_r gpu Sg), (add_zero_r gpu Sg); reflexivity).
  split; [|split].
  - intros Pt.
    destruct (resolveGridIntensity_total values2025 (GridIntensityInput.mk rg gi rs ts))
      as (g & Hg).
    exists g. split; [exact Hg|].
    unfold estimateImpactMinimal. rewrite estimateImpact_paths.
    cbn [MinimalImpactInputs.gpuPowerW MinimalImpactInputs.region
         MinimalImpactInputs.gridCarbonIntensityGPerKwh MinimalImpactInputs.timestamp
         MinimalImpactInputs.gridIntensityResolver
         MinimalImpactInputs.processingTimeSeconds MinimalImpactInputs.energy
         MinimalImpactInputs.efficiency].
    rewrite outcome_bind.
    change (gridInput _) with (GridIntensityInput.mk rg gi rs ts). rewrite Hg.
    rewrite computeEffectivePowerW_spec.
    cbn [ImpactInputs.gpuPowerW ImpactInputs.cpuPowerW ImpactInputs.networkPowerW
         acceptedPower negb].
    rewrite Pg. cbn [negb]. rewrite bind_ret_l.
    cbn [ImpactInputs.energy]. change (resolveEnergyKwh None) with (@None number).
    unfold powerTimePath, baseProcessingTime.
    cbn [ImpactInputs.processingTimeSeconds ImpactInputs.efficiency].
    rewrite requirePositive_spec, Pt, !bind_ret_l.
    change (applyEfficiencyToTime t None) with (ret t). rewrite bind_ret_l.
    change (applyBatchSize ?e None) with (ret e). rewrite bind_ret_l.
    unfold effectivePowerFormula, powerNotes, finalNotes.
    cbn [ImpactInputs.gpuPowerW ImpactInputs.cpuPowerW ImpactInputs.networkPowerW
         ImpactInputs.efficiency ImpactInputs.usage optChain nullish option_map app].
    rewrite Hsum, (neutral_power gpu Sg).
    change (clamp 0.1%float 1.0%float 10%float) with 1%float.
    change (clamp 1.0%float 1.0%float 3.0%float) with 1%float.
    reflexivity.
  - intros Pt.
    unfold estimateImpactMinimal. rewrite estimateImpact_paths.
    cbn [MinimalImpactInputs.gpuPowerW MinimalImpactInputs.region
         MinimalImpactInputs.gridCarbonIntensityGPerKwh MinimalImpactInputs.timestamp
         MinimalImpactInputs.gridIntensityResolver
         MinimalImpactInputs.processingTimeSeconds MinimalImpactInputs.energy
         MinimalImpactInputs.efficiency].
    destruct (resolveGridIntensity_total values2025 (GridIntensityInput.mk rg gi rs ts))
      as (g & Hg).
    rewrite outcome_bind.
    change (gridInput _) with (GridIntensityInput.mk rg gi rs ts). rewrite Hg.
    rewrite computeEffectivePowerW_spec.
    cbn [ImpactInputs.gpuPowerW ImpactInputs.cpuPowerW ImpactInputs.networkPowerW
         acceptedPower negb].
    rewrite Pg. cbn [negb]. rewrite bind_ret_l.
    cbn [ImpactInputs.energy]. change (resolveEnergyKwh None) with (@None number).
    unfold powerTimePath, baseProcessingTime.
    cbn [ImpactInputs.processingTimeSeconds].
    rewrite requirePositive_spec, Pt. reflexivity.
  - intros full result Ho Hp H.
    apply estimateImpact_Ok in H
      as (g & P & pn & t' & e & n & e' & _ & HP & _ & _ & ->).
    cbn [ImpactResult.effectivePowerW].
    pose proof (computeEffectivePowerW_signClear _ _ _ HP) as SP.
    assert (Hacc : exists power, outcome (computeEffectivePowerW full) = Ok power)
      by eauto.
    apply computeEffectivePowerW_accepts in Hacc.
    apply andb_true_iff in Hacc as [Hacc Pn].
    apply andb_true_iff in Hacc as [Pg' Pc].
    apply computeEffectivePowerW_Ok in HP as [-> _].
    unfold effectivePowerFormula. rewrite Ho, Hp. cbn [nullish].
    apply neutral_power.
    apply add_signClear; [apply add_signClear|].
    + apply positive_signClear, Pg'.
    + apply acceptedPower_sign, Pc.
    + apply acceptedPower_sign, Pn.
Qed.

Lemma minimal_estimate_witness :
  outcome (estimateImpactMinimal sample2025
             (MinimalImpactInputs.mk 300%float 7200%float (Some "fr") None None None
                None None))
  = Ok (ImpactResult.mk None 0.6%float (0.6 * 42)%float 42%float 300%float 7200%float
          [NoteBasePower 300%float; NoteOverheadFactor 1%float; NotePUE 1%float;
           NoteGridIntensity 42%float]).
Proof.
  destruct (minimal_estimate sample2025
              (MinimalImpactInputs.mk 300%float 7200%float (Some "fr") None None None
                 None None) eq_refl eq_refl eq_refl) as (H & _).
  destruct (H eq_refl) as (g & Hg & Hr).
  injection Hg as <-. rewrite Hr. reflexivity.
Defined.

(** X23. An image generation usage built without a number of images counts
    one image: [usage.imageGeneration(width, height)] is the usage with
    [images = 1], and with positive width, height and pixels per second its
    derived time is [width * height / pixelsPerSecond], the factor 1 leaving
    the number of pixels as it is.  With [images = n] it is
    [width * height * n / pixelsPerSecond]. *)
Theorem image_count_defaults_to_one
    (width height pixelsPerSecond : number) (throughput : option ThroughputConfig.t) :
  throughput ?. ThroughputConfig.pixelsPerSecond = Some pixelsPerSecond ->
  positive width = true -> positive height = true ->
  positive pixelsPerSecond = true ->
  usage.imageGeneration width height None
  = usage.imageGeneration width height (Some 1%float)
  /\ deriveProcessingTimeSeconds (usage.imageGeneration width height None) throughput
     = ret (width * height / pixelsPerSecond)%float
  /\ (forall images,
        positive images = true ->
        deriveProcessingTimeSeconds
          (usage.imageGeneration width height (Some images)) throughput
        = ret (width * height * images / pixelsPerSecond)%float).
Proof.
  intros Hpps Pw Ph Pp. split; [reflexivity|].
  assert (Hn : forall images,
            positive images = true ->
            deriveProcessingTimeSeconds
              (usage.imageGeneration width height (Some images)) throughput
            = ret (width * height * images / pixelsPerSecond)%float).
  { intros images Pn.
    rewrite (deriveProcessingTimeSeconds_checks
               (usage.imageGeneration width height (Some images)) throughput eq_refl).
    unfold timeChecks, usage.imageGeneration.
    cbn [usageQuantities rate rateName UsageFields.category nullish app firstInvalid
         workload].
    rewrite Hpps, Pw, Ph, Pn. cbn [nullish]. rewrite Pp. reflexivity. }
  split; [|exact Hn].
  pose proof (Hn 1%float eq_refl) as H1.
  rewrite mul_one_r in H1
    by (apply isNum_signClear, mul_isNum; [apply positive_isNum, Pw | exact Ph]).
  exact H1.
Qed.

Lemma image_count_defaults_to_one_witness :
  deriveProcessingTimeSeconds (usage.imageGeneration 1024%float 1024%float None)
    (Some (ThroughputConfig.mk None None (Some 2097152%float)))
  = ret 0.5%float.
Proof.
  destruct (image_count_defaults_to_one 1024%float 1024%float 2097152%float
              (Some (ThroughputConfig.mk None None (Some 2097152%float)))
              eq_refl eq_refl eq_refl eq_refl) as (_ & H & _).
  rewrite H. reflexivity.
Defined.

(* ================================================================= *)
(** ** Running totals *)

Lemma add_above (x c : number) :
  signClear x = true -> neverNegative c -> upTo x (x + c)%float.
Proof.
  rewrite upTo_spec, neverNegative_spec, add_spec. unfold signClear.
  apply SFadd_above; apply Prim2SF_valid.
Qed.

Lemma add_nan (x c : number) :
  is_nan x = true \/ is_nan c = true -> is_nan (x + c)%float = true.
Proof.
  rewrite !is_nan_iff, add_spec.
  intros [-> | ->]; [reflexivity|].
  destruct (Prim2SF x) as [[]|[]| |[] m e]; reflexivity.
Qed.

Lemma sum_from_nan (xs : list number) (acc : number) :
  is_nan acc = true ->
  is_nan (fold_left (fun s x => (s + x)%float) xs acc) = true.
Proof.
  revert acc. induction xs as [|x xs IH]; intros acc N; [exact N|].
  simpl. apply IH, add_nan. left. exact N.
Qed.

Lemma sum_nan (xs : list number) (acc : number) :
  (exists x, In x xs /\ is_nan x = true) ->
  is_nan (fold_left (fun s x => (s + x)%float) xs acc) = true.
Proof.
  revert acc. induction xs as [|y xs IH]; intros acc (x & Hin & N);
    [contradiction|].
  simpl. destruct Hin as [-> | Hin].
  - apply sum_from_nan, add_nan. right. exact N.
  - apply IH. eauto.
Qed.

Lemma sum_signClear (xs : list number) (acc : number) :
  signClear acc = true -> (forall x, In x xs -> neverNegative x) ->
  signClear (fold_left (fun s x => (s + x)%float) xs acc) = true.
Proof.
  revert acc. induction xs as [|y xs IH]; intros acc S H; [exact S|].
  simpl. apply IH.
  - apply add_signClear; [exact S|]. apply H. left. reflexivity.
  - intros x Hin. apply H. right. exact Hin.
Qed.

(** X24. Aggregation is a running total.  Aggregating one more result adds 1
    to the count and the result's energy and CO2 to the totals of the
    results before it.  A result whose energy (CO2) is NaN makes the total
    energy (CO2) NaN, wherever it stands in the list.  When no result has a
    negative energy (CO2), as is the case for the results of the estimator,
    the total is not negative and one more result never takes it down: the
    new total is at least the old one, unless it is NaN. *)
Theorem aggregate_running_totals (results : list ImpactResult.t) (r : ImpactResult.t) :
  let total := aggregateImpacts results in
  let total' := aggregateImpacts (results ++ [r]) in
  total'
  = AggregateImpactResult.mk
      (AggregateImpactResult.count total + 1)%float
      (AggregateImpactResult.energyKwh total + ImpactResult.energyKwh r)%float
      (AggregateImpactResult.co2Grams total + ImpactResult.co2Grams r)%float
  /\ ((exists x, In x results /\ is_nan (ImpactResult.energyKwh x) = true) ->
      is_nan (AggregateImpactResult.energyKwh total) = true)
  /\ ((exists x, In x results /\ is_nan (ImpactResult.co2Grams x) = true) ->
      is_nan (AggregateImpactResult.co2Grams total) = true)
  /\ ((forall x, In x (results ++ [r]) -> neverNegative (ImpactResult.energyKwh x)) ->
      signClear (AggregateImpactResult.energyKwh total) = true
      /\ upTo (AggregateImpactResult.energyKwh total)
           (AggregateImpactResult.energyKwh total'))
  /\ ((forall x, In x (results ++ [r]) -> neverNegative (ImpactResult.co2Grams x)) ->
      signClear (AggregateImpactResult.co2Grams total) = true
      /\ upTo (AggregateImpactResult.co2Grams total)
           (AggregateImpactResult.co2Grams total')).
Proof.
  cbv zeta.
  assert (Happ : aggregateImpacts (results ++ [r])
                 = AggregateImpactResult.mk
                     (AggregateImpactResult.count (aggregateImpacts results) + 1)%float
                     (AggregateImpactResult.energyKwh (aggregateImpacts results)
                      + ImpactResult.energyKwh r)%float
                     (AggregateImpactResult.co2Grams (aggregateImpacts results)
                      + ImpactResult.co2Grams r)%float).
  { unfold aggregateImpacts. rewrite fold_left_app. reflexivity. }
  assert (Hsign : forall (field : ImpactResult.t -> number),
            (forall x, In x (results ++ [r]) -> neverNegative (field x)) ->
            signClear (fold_left (fun s x => (s + x)%float) (map field results) 0%float)
            = true
            /\ neverNegative (field r)).
  { intros field H. split.
    - apply sum_signClear; [reflexivity|].
      intros x Hin. apply in_map_iff in Hin as (y & <- & Hin).
      apply H, in_or_app. left. exact Hin.
    - apply H, in_or_app. right. left. reflexivity. }
  assert (Hnan : forall (field : ImpactResult.t -> number),
            (exists x, In x results /\ is_nan (field x) = true) ->
            is_nan (fold_left (fun s x => (s + x)%float) (map field results) 0%float)
            = true).
  { intros field (x & Hin & N). apply sum_nan. exists (field x).
    split; [apply in_map, Hin | exact N]. }
  split; [exact Happ|]. rewrite Happ.
  unfold aggregateImpacts. rewrite aggregate_fold.
  cbn [AggregateImpactResult.energyKwh AggregateImpactResult.co2Grams
       AggregateImpactResult.count].
  split; [apply Hnan|]. split; [apply Hnan|]. split.
  - intros H. destruct (Hsign ImpactResult.energyKwh H) as [S N].
    split; [exact S|]. apply add_above; assumption.
  - intros H. destruct (Hsign ImpactResult.co2Grams H) as [S N].
    split; [exact S|]. apply add_above; assumption.
Qed.
